(** * Peloton: hybrid-layout table engine and optimizer binding iterator

    A shallow embedding of
      - [src/backend/storage/data_table.cpp] (module [Storage]) and
      - [src/backend/optimizer/binding.cpp]  (module [Binding])
    together with the properties of the table engine and of the binding
    iterators that the specification states about them.

    Conventions of the embedding.
      - [oid_t] and [size_t] values are natural numbers: the counters
        modelled here count claimed slots, tile groups and vector elements,
        which stay below the word size.  A function that returns
        [INVALID_OID] for "no slot" or "no tile group" returns the [None]
        of an [option], and so does one that returns
        [INVALID_ITEMPOINTER]; where the code compares the block of a
        location with [INVALID_OID], the model compares it with that
        value.
      - [double] values are IEEE 754 binary64 numbers ([SpecFloat]).
      - A call that does not return normally (failed [assert], dereference
        of an empty [shared_ptr], out-of-range vector access, division by
        zero, thrown exception) yields [None] in module [Storage]; module
        [Binding] has a result type that tells a fault from running out of
        fuel.
      - [std::map] is a [gmap]; iteration over a [std::map] visits the keys
        in increasing order, which [sorted_entries] reproduces.
      - Mutexes are not modelled: every property below is about a single
        thread. *)

From Stdlib Require Import ZArith Lia String SpecFloat.
From stdpp Require Import base option list gmap sorting.

Local Open Scope nat_scope.

(** ** Iteration order of [std::map] *)

Definition key_le {A : Type} (x y : nat * A) : Prop := x.1 ≤ y.1.

#[global] Instance key_le_dec {A : Type} (x y : nat * A) : Decision (key_le x y).
Proof. unfold key_le. apply _. Defined.

(** The entries of a [std::map<oid_t, A>] in iteration order. *)
Definition sorted_entries {A : Type} (m : gmap nat A) : list (nat * A) :=
  merge_sort key_le (map_to_list m).

Definition pair_le {A : Type} (x y : (nat * nat) * A) : Prop :=
  x.1.1 < y.1.1 ∨ (x.1.1 = y.1.1 ∧ x.1.2 ≤ y.1.2).

#[global] Instance pair_le_dec {A : Type} (x y : (nat * nat) * A) :
  Decision (pair_le x y).
Proof. unfold pair_le. apply _. Defined.

(** The entries of a [std::map<std::pair<oid_t, oid_t>, A>] in iteration
    order (lexicographic on the key). *)
Definition sorted_pair_entries {A : Type} (m : gmap (nat * nat) A)
  : list ((nat * nat) * A) :=
  merge_sort pair_le (map_to_list m).

Module Storage.

(** ** Values, columns, schemas *)

Inductive ValueType : Set :=
  | VALUE_TYPE_INTEGER
  | VALUE_TYPE_DOUBLE
  | VALUE_TYPE_VARCHAR
  | VALUE_TYPE_VARBINARY.

#[global] Instance ValueType_eq_dec : EqDecision ValueType.
Proof. solve_decision. Defined.

Inductive Value : Set :=
  | ValNull
  | ValInteger (z : Z)
  | ValVarlen (s : string).

#[global] Instance Value_eq_dec : EqDecision Value.
Proof. solve_decision. Defined.

Record Column : Set := mkColumn {
  column_type : ValueType;
  allow_null : bool
}.

(** [catalog::Schema]: the list of its columns. *)
Definition Schema : Set := list Column.

(** [storage::Tuple]: one value per column of the table schema. *)
Definition Tuple : Set := list Value.

Definition IsNull (v : Value) : bool :=
  match v with ValNull => true | _ => false end.

Record ItemPointer : Set := mkItemPointer {
  block : nat;
  offset : nat
}.

#[global] Instance ItemPointer_eq_dec : EqDecision ItemPointer.
Proof. solve_decision. Defined.

(** Modelled from the spec: [INVALID_OID], the oid that stands for "no
    object" ([types.h], which defines [oid_t] and [INVALID_OID], is not part
    of the sources): the largest value of an oid, which is a [u64].  An oid
    is compared with it as the code does; the id of a tile group can be
    that value, since nothing but [assert(tile_group_id)] constrains the
    argument of [AddTileGroupWithOid]. *)
Definition INVALID_OID : N := 18446744073709551615.

Definition is_INVALID_OID (id : nat) : bool := (N.of_nat id =? INVALID_OID)%N.

(** ** Tile group header *)

(** Modelled from the spec: [TileGroupHeader] ([tile_group_header.h] is not
    part of the sources).  One version record
    [(txn_id, begin_cid, end_cid)] per slot and the counter of claimed
    slots. *)
Record TileGroupHeader : Set := mkHeader {
  header_num_tuple_slots : nat;
  next_tuple_slot : nat;
  slot_versions : list (nat * nat * nat)
}.

Definition new_header (capacity : nat) : TileGroupHeader :=
  {| header_num_tuple_slots := capacity;
     next_tuple_slot := 0;
     slot_versions := [] |}.

(** Modelled from the spec: [TileGroupHeader::GetNextEmptyTupleSlot],
    the spec's [claim_next_slot]: fetch-and-increment of [next_slot],
    nothing when [next_slot] has reached the capacity. *)
Definition GetNextEmptyTupleSlot (h : TileGroupHeader)
  : option nat * TileGroupHeader :=
  if decide (next_tuple_slot h < header_num_tuple_slots h)
  then (Some (next_tuple_slot h),
        {| header_num_tuple_slots := header_num_tuple_slots h;
           next_tuple_slot := S (next_tuple_slot h);
           slot_versions := slot_versions h |})
  else (None, h).

(** ** Tiles *)

(** Modelled from the spec: [Tile] ([tile.h] is not part of the sources):
    a buffer of [capacity] rows by [column_count] cells with
    [GetValue]/[SetValue] by (row, column). *)
Record Tile : Set := mkTile {
  tile_schema : Schema;
  tile_data : list (list Value)
}.

Definition new_tile (schema : Schema) (capacity : nat) : Tile :=
  {| tile_schema := schema;
     tile_data := replicate capacity (replicate (length schema) ValNull) |}.

Definition Tile_GetValue (t : Tile) (tuple_id column_id : nat) : option Value :=
  row ← tile_data t !! tuple_id; row !! column_id.

Definition Tile_SetValue (v : Value) (tuple_id column_id : nat) (t : Tile)
  : option Tile :=
  row ← tile_data t !! tuple_id;
  if decide (column_id < length row)
  then Some {| tile_schema := tile_schema t;
               tile_data := <[tuple_id := <[column_id := v]> row]> (tile_data t) |}
  else None.

(** ** Tile groups *)

Record TileGroup : Set := mkTileGroup {
  tg_database_id : nat;
  tg_table_id : nat;
  tile_group_id : nat;
  tile_schemas : list Schema;
  tiles : list Tile;
  tile_group_header : TileGroupHeader;
  num_tuple_slots : nat;
  column_map : gmap nat (nat * nat)
}.

Definition GetAllocatedTupleCount (tg : TileGroup) : nat := num_tuple_slots tg.
Definition GetHeader (tg : TileGroup) : TileGroupHeader := tile_group_header tg.
Definition GetTileGroupId (tg : TileGroup) : nat := tile_group_id tg.
Definition GetColumnMap (tg : TileGroup) : gmap nat (nat * nat) := column_map tg.

(** Modelled from the spec: [TileGroup::GetNextTupleSlot] reads the header's
    counter. *)
Definition GetNextTupleSlot (tg : TileGroup) : nat :=
  next_tuple_slot (tile_group_header tg).

(** Modelled from the spec: [TileGroupFactory::GetTileGroup] and the tile
    group constructor: one [Tile] per entry of [schemas], a fresh header of
    the given capacity. *)
Definition TileGroupFactory_GetTileGroup (database_id table_id tg_id : nat)
    (schemas : list Schema) (cmap : gmap nat (nat * nat)) (tuple_count : nat)
  : TileGroup :=
  {| tg_database_id := database_id;
     tg_table_id := table_id;
     tile_group_id := tg_id;
     tile_schemas := schemas;
     tiles := (λ s, new_tile s tuple_count) <$> schemas;
     tile_group_header := new_header tuple_count;
     num_tuple_slots := tuple_count;
     column_map := cmap |}.

(** Modelled from the spec: [TileGroup::LocateTileAndColumn], the lookup in
    the column map (it asserts that the column is mapped). *)
Definition LocateTileAndColumn (tg : TileGroup) (column_offset : nat)
  : option (nat * nat) :=
  column_map tg !! column_offset.

Definition GetTile (tg : TileGroup) (tile_itr : nat) : option Tile :=
  tiles tg !! tile_itr.

Definition set_tile (tg : TileGroup) (tile_itr : nat) (t : Tile) : TileGroup :=
  {| tg_database_id := tg_database_id tg;
     tg_table_id := tg_table_id tg;
     tile_group_id := tile_group_id tg;
     tile_schemas := tile_schemas tg;
     tiles := <[tile_itr := t]> (tiles tg);
     tile_group_header := tile_group_header tg;
     num_tuple_slots := num_tuple_slots tg;
     column_map := column_map tg |}.

Definition set_header (tg : TileGroup) (h : TileGroupHeader) : TileGroup :=
  {| tg_database_id := tg_database_id tg;
     tg_table_id := tg_table_id tg;
     tile_group_id := tile_group_id tg;
     tile_schemas := tile_schemas tg;
     tiles := tiles tg;
     tile_group_header := h;
     num_tuple_slots := num_tuple_slots tg;
     column_map := column_map tg |}.

(** Modelled from the spec: [TileGroup::GetValue(tuple_id, column_id)]:
    locate the column, read the cell of its tile. *)
Definition TileGroup_GetValue (tg : TileGroup) (tuple_id column_id : nat)
  : option Value :=
  '(tile_offset, tile_column_offset) ← LocateTileAndColumn tg column_id;
  t ← GetTile tg tile_offset;
  Tile_GetValue t tuple_id tile_column_offset.

(** [tile->SetValue(val, tuple_itr, col)] on tile [tile_offset] of [tg]. *)
Definition TileGroup_SetValue (tg : TileGroup) (v : Value)
    (tuple_id tile_offset tile_column_offset : nat) : option TileGroup :=
  t ← GetTile tg tile_offset;
  t' ← Tile_SetValue v tuple_id tile_column_offset t;
  Some (set_tile tg tile_offset t').

(** Modelled from the spec: [TileGroup::CopyTuple]: every column of the
    tuple is written to its (tile, column) at the given slot. *)
Fixpoint CopyTuple_from (tg : TileGroup) (tuple : Tuple) (column_itr slot : nat)
  : option TileGroup :=
  match tuple with
  | [] => Some tg
  | v :: rest =>
      '(tile_offset, tile_column_offset) ← LocateTileAndColumn tg column_itr;
      tg' ← TileGroup_SetValue tg v slot tile_offset tile_column_offset;
      CopyTuple_from tg' rest (S column_itr) slot
  end.

(** Modelled from the spec: [TileGroup::InsertTuple]: claim a slot through
    the header; [INVALID_OID] (here [None]) when the tile group is full,
    otherwise copy the tuple into the claimed slot. *)
Definition TileGroup_InsertTuple (tg : TileGroup) (tuple : Tuple)
  : option (option nat * TileGroup) :=
  let '(slot, h) := GetNextEmptyTupleSlot (tile_group_header tg) in
  match slot with
  | None => Some (None, tg)
  | Some s =>
      tg' ← CopyTuple_from (set_header tg h) tuple 0 s;
      Some (Some s, tg')
  end.

(** ** Catalog manager *)

(** Modelled from the spec: [catalog::Manager] ([manager.h] is not part of
    the sources): a monotonically increasing oid counter and the map from
    tile group id to the shared tile group. *)
Record Manager : Set := mkManager {
  oid : nat;
  locator : gmap nat TileGroup
}.

Definition GetNextOid (m : Manager) : nat * Manager :=
  (S (oid m), {| oid := S (oid m); locator := locator m |}).

Definition Manager_AddTileGroup (id : nat) (tg : TileGroup) (m : Manager) : Manager :=
  {| oid := oid m; locator := <[id := tg]> (locator m) |}.

Definition Manager_DropTileGroup (id : nat) (m : Manager) : Manager :=
  {| oid := oid m; locator := delete id (locator m) |}.

Definition Manager_GetTileGroup (id : nat) (m : Manager) : option TileGroup :=
  locator m !! id.

(** ** Indexes *)

Inductive IndexConstraintType : Set :=
  | INDEX_CONSTRAINT_TYPE_DEFAULT
  | INDEX_CONSTRAINT_TYPE_PRIMARY_KEY
  | INDEX_CONSTRAINT_TYPE_UNIQUE.

(** Modelled from the spec: the [Index] interface consumed by the table
    ([index.h] is not part of the sources): the indexed columns, the
    entries inserted so far and the index's own tuple counter. *)
Record Index : Set := mkIndex {
  index_oid : nat;
  index_type : IndexConstraintType;
  indexed_columns : list nat;
  index_entries : list (Tuple * ItemPointer);
  index_number_of_tuples : nat
}.

(** [key->SetFromTuple(tuple, indexed_columns, pool)] *)
Definition SetFromTuple (tuple : Tuple) (columns : list nat) : option Tuple :=
  mapM (λ c, tuple !! c) columns.

Definition InsertEntry (key : Tuple) (location : ItemPointer) (ix : Index) : Index :=
  {| index_oid := index_oid ix;
     index_type := index_type ix;
     indexed_columns := indexed_columns ix;
     index_entries := index_entries ix ++ [(key, location)];
     index_number_of_tuples := index_number_of_tuples ix |}.

Definition Index_IncreaseNumberOfTuplesBy (amount : nat) (ix : Index) : Index :=
  {| index_oid := index_oid ix;
     index_type := index_type ix;
     indexed_columns := indexed_columns ix;
     index_entries := index_entries ix;
     index_number_of_tuples := index_number_of_tuples ix + amount |}.

(** ** The data table *)

Inductive LayoutType : Set := LAYOUT_ROW | LAYOUT_COLUMN | LAYOUT_HYBRID.

(** The members of [DataTable] (and of [AbstractTable]) that the functions
    below read or write.  The float statistic [number_of_tuples] and the
    [dirty] flag are written by [IncreaseNumberOfTuplesBy] and read by no
    function modelled here; they are left out. *)
Record DataTable : Set := mkDataTable {
  schema : Schema;
  table_name : string;
  database_oid : nat;
  table_oid : nat;
  tuples_per_tilegroup : nat;
  tile_groups : list nat;
  indexes : list Index;
  tuple_count_exact : nat;
  adapt_table : bool;
  default_partition : gmap nat (nat * nat);
  inline_column_map : gmap nat nat;
  sample_column_mask : list bool;
  sample_column_map : gmap nat (nat * nat);
  sample_schema_list : list Schema;
  samples_for_optimizer : list ItemPointer;
  sampled_tile_group_id : option nat;
  cardinality_map : gmap nat nat
}.

Definition set_tile_groups (f : list nat → list nat) (t : DataTable) : DataTable :=
  mkDataTable (schema t) (table_name t) (database_oid t) (table_oid t)
    (tuples_per_tilegroup t) (f (tile_groups t)) (indexes t)
    (tuple_count_exact t) (adapt_table t) (default_partition t)
    (inline_column_map t) (sample_column_mask t) (sample_column_map t)
    (sample_schema_list t) (samples_for_optimizer t)
    (sampled_tile_group_id t) (cardinality_map t).

Definition set_indexes (f : list Index → list Index) (t : DataTable) : DataTable :=
  mkDataTable (schema t) (table_name t) (database_oid t) (table_oid t)
    (tuples_per_tilegroup t) (tile_groups t) (f (indexes t))
    (tuple_count_exact t) (adapt_table t) (default_partition t)
    (inline_column_map t) (sample_column_mask t) (sample_column_map t)
    (sample_schema_list t) (samples_for_optimizer t)
    (sampled_tile_group_id t) (cardinality_map t).

Definition set_tuple_count_exact (f : nat → nat) (t : DataTable) : DataTable :=
  mkDataTable (schema t) (table_name t) (database_oid t) (table_oid t)
    (tuples_per_tilegroup t) (tile_groups t) (indexes t)
    (f (tuple_count_exact t)) (adapt_table t) (default_partition t)
    (inline_column_map t) (sample_column_mask t) (sample_column_map t)
    (sample_schema_list t) (samples_for_optimizer t)
    (sampled_tile_group_id t) (cardinality_map t).

Definition set_samples_for_optimizer (f : list ItemPointer → list ItemPointer)
    (t : DataTable) : DataTable :=
  mkDataTable (schema t) (table_name t) (database_oid t) (table_oid t)
    (tuples_per_tilegroup t) (tile_groups t) (indexes t)
    (tuple_count_exact t) (adapt_table t) (default_partition t)
    (inline_column_map t) (sample_column_mask t) (sample_column_map t)
    (sample_schema_list t) (f (samples_for_optimizer t))
    (sampled_tile_group_id t) (cardinality_map t).

Definition set_cardinality_map (f : gmap nat nat → gmap nat nat)
    (t : DataTable) : DataTable :=
  mkDataTable (schema t) (table_name t) (database_oid t) (table_oid t)
    (tuples_per_tilegroup t) (tile_groups t) (indexes t)
    (tuple_count_exact t) (adapt_table t) (default_partition t)
    (inline_column_map t) (sample_column_mask t) (sample_column_map t)
    (sample_schema_list t) (samples_for_optimizer t)
    (sampled_tile_group_id t) (f (cardinality_map t)).

Definition set_sampled_tile_group_id (f : option nat → option nat)
    (t : DataTable) : DataTable :=
  mkDataTable (schema t) (table_name t) (database_oid t) (table_oid t)
    (tuples_per_tilegroup t) (tile_groups t) (indexes t)
    (tuple_count_exact t) (adapt_table t) (default_partition t)
    (inline_column_map t) (sample_column_mask t) (sample_column_map t)
    (sample_schema_list t) (samples_for_optimizer t)
    (f (sampled_tile_group_id t)) (cardinality_map t).

(** [default_partition = clusterer.GetPartitioning(2)], the last statement
    of [UpdateDefaultPartition]; the clusterer is an external collaborator,
    the partitioning it returns is the argument. *)
Definition set_default_partition (partitioning : gmap nat (nat * nat))
    (t : DataTable) : DataTable :=
  mkDataTable (schema t) (table_name t) (database_oid t) (table_oid t)
    (tuples_per_tilegroup t) (tile_groups t) (indexes t)
    (tuple_count_exact t) (adapt_table t) partitioning
    (inline_column_map t) (sample_column_mask t) (sample_column_map t)
    (sample_schema_list t) (samples_for_optimizer t)
    (sampled_tile_group_id t) (cardinality_map t).

(** The process state the table functions act on: the catalog manager
    singleton and the table object. *)
Record World : Set := mkWorld {
  manager : Manager;
  table : DataTable
}.

Definition with_manager (f : Manager → Manager) (w : World) : World :=
  {| manager := f (manager w); table := table w |}.

Definition with_table (f : DataTable → DataTable) (w : World) : World :=
  {| manager := manager w; table := f (table w) |}.

Definition GetTileGroupCount (t : DataTable) : nat := length (tile_groups t).

Definition GetTileGroupById (w : World) (tg_id : nat) : option TileGroup :=
  Manager_GetTileGroup tg_id (manager w).

(** [assert(tile_group_offset < GetTileGroupCount())] is the failing
    lookup in [tile_groups]. *)
Definition GetTileGroup (w : World) (tile_group_offset : nat) : option TileGroup :=
  tg_id ← tile_groups (table w) !! tile_group_offset;
  GetTileGroupById w tg_id.

(** *** Constraint checks *)

Definition CheckNulls (t : DataTable) (tuple : Tuple) : option bool :=
  if decide (length (schema t) = length tuple)
  then Some (forallb (λ vc : Value * Column, negb (IsNull vc.1 && negb (allow_null vc.2)))
                     (zip tuple (schema t)))
  else None.

(** [CheckConstraints] throws a [ConstraintException] when a NOT NULL
    constraint is violated: it returns [true] or does not return. *)
Definition CheckConstraints (t : DataTable) (tuple : Tuple) : option bool :=
  match CheckNulls t tuple with
  | Some true => Some true
  | _ => None
  end.

(** *** Insertion into the indexes *)

(** Both loops of [InsertInIndexes] walk the indexes from the last to the
    first; the existence check (A) is commented out in the source, so the
    function builds the key of every index, inserts the entry and returns
    [true].  The indexes are independent objects, hence the result does not
    depend on the direction of the walk. *)
Definition InsertInIndexes (t : DataTable) (tuple : Tuple) (location : ItemPointer)
  : option (bool * DataTable) :=
  ixs ← mapM (λ ix : Index,
               key ← SetFromTuple tuple (indexed_columns ix);
               Some (InsertEntry key location ix)) (indexes t);
  Some (true, set_indexes (λ _, ixs) t).

(** *** Layouts *)

Definition row_layout (col_count : nat) : gmap nat (nat * nat) :=
  list_to_map ((λ col_itr, (col_itr, (0, col_itr))) <$> seq 0 col_count).

Definition column_layout (col_count : nat) : gmap nat (nat * nat) :=
  list_to_map ((λ col_itr, (col_itr, (col_itr, 0))) <$> seq 0 col_count).

Section Configuration.

(** The configuration globals read by the table: [peloton_layout_mode],
    [peloton_fsm], and the static HYADAPT layout, which the source computes
    from [peloton_projectivity], [peloton_num_groups] and
    [hyadapt_column_ids]; the latter is kept abstract, no property below
    depends on the layout that is chosen. *)
Variable peloton_layout_mode : LayoutType.
Variable peloton_fsm : bool.
Variable hyadapt_column_map : nat → gmap nat (nat * nat).

Definition GetStaticColumnMap (name : string) (column_count : nat)
  : gmap nat (nat * nat) :=
  if String.eqb name "HYADAPTTABLE" then
    if peloton_fsm then row_layout column_count
    else hyadapt_column_map column_count
  else if String.eqb name "USERTABLE" then
    foldl (λ (cm : gmap nat (nat * nat)) column_id,
             <[column_id := (1, column_id - 1)]> cm)
          (<[0 := (0, 0)]> ∅) (seq 1 (column_count - 1))
  else row_layout column_count.

Definition GetTileGroupLayout (t : DataTable) (layout_type : LayoutType)
  : gmap nat (nat * nat) :=
  let col_count := length (schema t) in
  let layout_type := if adapt_table t then layout_type else LAYOUT_ROW in
  match layout_type with
  | LAYOUT_ROW => row_layout col_count
  | LAYOUT_COLUMN => column_layout col_count
  | LAYOUT_HYBRID =>
      if decide (col_count < 10) then row_layout col_count
      else GetStaticColumnMap (table_name t) col_count
  end.

(** [tile_column_map[entry.second] = entry.first] for every entry of the
    partitioning, in key order. *)
Definition build_tile_column_map (partitioning : gmap nat (nat * nat))
  : gmap (nat * nat) nat :=
  foldl (λ (acc : gmap (nat * nat) nat) (entry : nat * (nat * nat)),
           <[entry.2 := entry.1]> acc)
        ∅ (sorted_entries partitioning).

(** [tile_schemas[entry.first.first].push_back(schema->GetColumn(entry.second))]
    for every entry of [tile_column_map], in key order. *)
Definition build_tile_schemas (sch : Schema) (tile_column_map : gmap (nat * nat) nat)
  : option (gmap nat (list Column)) :=
  foldl (λ (acc : option (gmap nat (list Column))) (entry : (nat * nat) * nat),
           m ← acc;
           c ← sch !! entry.2;
           Some (<[entry.1.1 := default [] (m !! entry.1.1) ++ [c]]> m))
        (Some ∅) (sorted_pair_entries tile_column_map).

Definition GetTileGroupWithLayout (w : World) (partitioning : gmap nat (nat * nat))
  : option (TileGroup * World) :=
  let '(tg_id, m) := GetNextOid (manager w) in
  let tile_column_map := build_tile_column_map partitioning in
  tile_schemas ← build_tile_schemas (schema (table w)) tile_column_map;
  let schema_list : list Schema := snd <$> sorted_entries tile_schemas in
  Some (TileGroupFactory_GetTileGroup
          (database_oid (table w)) (table_oid (table w)) tg_id
          schema_list partitioning (tuples_per_tilegroup (table w)),
        with_manager (λ _, m) w).

(** [tile_groups.push_back(id)] and [Manager::AddTileGroup(id, tile_group)]. *)
Definition register_tile_group (tg : TileGroup) (w : World) : World :=
  with_manager (Manager_AddTileGroup (GetTileGroupId tg) tg)
    (with_table (set_tile_groups (λ l, l ++ [GetTileGroupId tg])) w).

Definition AddDefaultTileGroup (w : World) : option (option nat * World) :=
  let cmap := GetTileGroupLayout (table w) peloton_layout_mode in
  '(tile_group, w) ← GetTileGroupWithLayout w cmap;
  let tg_id := GetTileGroupId tile_group in
  match tile_groups (table w) with
  | [] =>
      (* (A) no tile groups in table *)
      Some (Some tg_id, register_tile_group tile_group w)
  | _ =>
      (* (B) no slots in last tile group in table *)
      let last_tile_group_offset := GetTileGroupCount (table w) - 1 in
      last_tile_group ← GetTileGroup w last_tile_group_offset;
      let active_tuple_count := GetNextTupleSlot last_tile_group in
      let allocated_tuple_count := GetAllocatedTupleCount last_tile_group in
      if decide (active_tuple_count < allocated_tuple_count)
      then Some (None, w)
      else Some (Some tg_id, register_tile_group tile_group w)
  end.

(** *** Claiming a slot *)

(** One iteration of the [while (tuple_slot == INVALID_OID)] loop of
    [GetTupleSlot] per unit of fuel.  The tile group is a shared object:
    the insertion is visible through the catalog entry it was fetched
    from. *)
Fixpoint GetTupleSlot_loop (fuel : nat) (tuple : Tuple) (w : World)
  : option (ItemPointer * World) :=
  match fuel with
  | 0 => None
  | S fuel =>
      if decide (0 < GetTileGroupCount (table w)) then
        let tile_group_offset := GetTileGroupCount (table w) - 1 in
        key ← tile_groups (table w) !! tile_group_offset;
        tile_group ← GetTileGroup w tile_group_offset;
        '(tuple_slot, tile_group) ← TileGroup_InsertTuple tile_group tuple;
        let w := with_manager (Manager_AddTileGroup key tile_group) w in
        let tg_id := GetTileGroupId tile_group in
        match tuple_slot with
        | None =>
            '(_, w) ← AddDefaultTileGroup w;
            GetTupleSlot_loop fuel tuple w
        | Some slot => Some (mkItemPointer tg_id slot, w)
        end
      else None
  end.

Definition GetTupleSlot (fuel : nat) (tuple : Tuple) (check_constraint : bool)
    (w : World) : option (option ItemPointer * World) :=
  match (if check_constraint then CheckConstraints (table w) tuple else Some true) with
  | None => None
  | Some false => Some (None, w)
  | Some true =>
      '(location, w) ← GetTupleSlot_loop fuel tuple w;
      Some (Some location, w)
  end.

(** *** Insert *)

(** The result is [None] for [INVALID_ITEMPOINTER].  The test
    [location.block == INVALID_OID] after [GetTupleSlot] also meets a
    location that was claimed in a tile group whose id is [INVALID_OID]:
    the function returns [INVALID_ITEMPOINTER] then, with the slot
    claimed. *)
Definition InsertTuple (fuel : nat) (tuple : Tuple) (w : World)
  : option (option ItemPointer * World) :=
  '(location, w) ← GetTupleSlot fuel tuple true w;
  match location with
  | None => Some (None, w)
  | Some location =>
      if is_INVALID_OID (block location) then Some (None, w)
      else
        '(ok, t) ← InsertInIndexes (table w) tuple location;
        if (ok : bool) then
          let t := set_tuple_count_exact S t in
          let t := set_indexes (fmap (Index_IncreaseNumberOfTuplesBy 1)) t in
          Some (Some location, with_table (λ _, t) w)
        else Some (None, with_table (λ _, t) w)
  end.

(** *** Constructor *)

Definition is_inlined (ty : ValueType) : bool :=
  negb (bool_decide (ty = VALUE_TYPE_VARCHAR))
  && negb (bool_decide (ty = VALUE_TYPE_VARBINARY)).

(** The loop of the constructor over the columns: [inline_column_map]
    numbers the inlined columns consecutively. *)
Fixpoint build_inline_column_map (sch : Schema) (col_itr sample_it : nat)
  : gmap nat nat :=
  match sch with
  | [] => ∅
  | c :: rest =>
      if is_inlined (column_type c)
      then <[col_itr := sample_it]> (build_inline_column_map rest (S col_itr) (S sample_it))
      else build_inline_column_map rest (S col_itr) sample_it
  end.

(** [BuildSampleSchema]: one single-column tile per sampled column. *)
Definition BuildSampleSchema (sch : Schema) (icm : gmap nat nat)
  : option (gmap nat (nat * nat) * list Schema) :=
  foldl (λ (acc : option (gmap nat (nat * nat) * list Schema)) (item : nat * nat),
           '(scm, ssl) ← acc;
           c ← sch !! item.1;
           Some (<[item.2 := (item.2, 0)]> scm, ssl ++ [[c]]))
        (Some (∅, [])) (sorted_entries icm).

Definition DataTable_new (sch : Schema) (name : string)
    (db_oid tbl_oid tuples_per_tg : nat) (adapt : bool) (m : Manager)
  : option World :=
  let icm := build_inline_column_map sch 0 0 in
  '(scm, ssl) ← BuildSampleSchema sch icm;
  let t :=
    {| schema := sch; table_name := name;
       database_oid := db_oid; table_oid := tbl_oid;
       tuples_per_tilegroup := tuples_per_tg;
       tile_groups := []; indexes := [];
       tuple_count_exact := 0; adapt_table := adapt;
       default_partition := row_layout (length sch);
       inline_column_map := icm;
       sample_column_mask := (λ c, is_inlined (column_type c)) <$> sch;
       sample_column_map := scm; sample_schema_list := ssl;
       samples_for_optimizer := [];
       sampled_tile_group_id := None;
       cardinality_map := ∅ |} in
  '(_, w) ← AddDefaultTileGroup {| manager := m; table := t |};
  Some w.

End Configuration.

(** ** Layout transformation *)

(** A loop over a range whose body may fail. *)
Fixpoint for_each {A S : Type} (body : A → S → option S) (l : list A) (s : S)
  : option S :=
  match l with
  | [] => Some s
  | x :: l => s' ← body x s; for_each body l s'
  end.

(** [double] is the binary64 format of IEEE 754, as [SpecFloat] of the
    Standard Library defines it: 53 bits of precision, exponents up to
    1024, division rounded to the nearest double, ties to even, and the
    comparison [<], which is false when an operand is not a number. *)
Definition double_prec : Z := 53.
Definition double_emax : Z := 1024.

Definition double : Set := spec_float.

(** The conversion of a counter to [double]: the nearest double. *)
Definition double_of_nat (n : nat) : double :=
  binary_normalize double_prec double_emax (Z.of_nat n) 0 false.

Definition double_div (x y : double) : double :=
  SFdiv double_prec double_emax x y.

Definition double_lt (x y : double) : bool := SFltb x y.

(** The columns of [tg] whose (tile, column) is not the one that
    [new_column_map] gives them. *)
Definition differing_columns (tg : TileGroup) (new_column_map : gmap nat (nat * nat))
  : list (nat * (nat * nat)) :=
  filter (λ e : nat * (nat * nat), new_column_map !! e.1 ≠ Some e.2)
         (map_to_list (column_map tg)).

(** Modelled from the spec: [TileGroup::GetSchemaDifference]
    ([tile_group.cpp] is not part of the sources): the fraction of columns
    whose [(tile_ordinal, col_in_tile)] differs from the target map, a
    [double]: the number of such columns divided by the number of columns,
    both as doubles.  Without columns, that is zero divided by zero, which
    is not a number. *)
Definition GetSchemaDifference (tg : TileGroup) (new_column_map : gmap nat (nat * nat))
  : double :=
  let capacity := size (column_map tg) in
  let diff := length (differing_columns tg new_column_map) in
  double_div (double_of_nat diff) (double_of_nat capacity).

(** Get the schema for the new transformed tile group. *)
Definition TransformTileGroupSchema (tg : TileGroup) (cmap : gmap nat (nat * nat))
  : option (list Schema) :=
  schemas ←
    for_each (λ (column_map_entry : nat * (nat * nat))
                (schemas : gmap nat (gmap nat Column)),
                let new_tile_offset := column_map_entry.2.1 in
                let new_tile_column_offset := column_map_entry.2.2 in
                let column_offset := column_map_entry.1 in
                '(orig_tile_offset, orig_tile_column_offset) ←
                   LocateTileAndColumn tg column_offset;
                orig_schema ← tile_schemas tg !! orig_tile_offset;
                column_info ← orig_schema !! orig_tile_column_offset;
                Some (<[new_tile_offset :=
                          <[new_tile_column_offset := column_info]>
                            (default ∅ (schemas !! new_tile_offset))]> schemas))
             (sorted_entries cmap) ∅;
  Some ((λ schemas_tile_entry : nat * gmap nat Column,
           snd <$> sorted_entries schemas_tile_entry.2)
        <$> sorted_entries schemas).

(** The body of the outer loop of [SetTransformedTileGroup]: copy column
    [column_itr] of [orig] over to [new], row by row. *)
Definition copy_column (orig : TileGroup) (tuple_count : nat) (column_itr : nat)
    (new : TileGroup) : option TileGroup :=
  '(orig_tile_offset, orig_tile_column_offset) ← LocateTileAndColumn orig column_itr;
  '(new_tile_offset, new_tile_column_offset) ← LocateTileAndColumn new column_itr;
  orig_tile ← GetTile orig orig_tile_offset;
  _ ← GetTile new new_tile_offset;
  for_each (λ tuple_itr (new : TileGroup),
              val ← Tile_GetValue orig_tile tuple_itr orig_tile_column_offset;
              TileGroup_SetValue new val tuple_itr new_tile_offset new_tile_column_offset)
           (seq 0 tuple_count) new.

(** Set the transformed tile group column-at-a-time; the header is copied
    last ([*new_header = *header]). *)
Definition SetTransformedTileGroup (orig new : TileGroup) : option TileGroup :=
  let new_column_map := GetColumnMap new in
  let orig_column_map := GetColumnMap orig in
  if decide (size new_column_map = size orig_column_map) then
    let column_count := size new_column_map in
    let tuple_count := GetAllocatedTupleCount orig in
    new ← for_each (copy_column orig tuple_count) (seq 0 column_count) new;
    Some (set_header new (GetHeader orig))
  else None.

Definition TransformTileGroup (w : World) (tile_group_offset : nat) (theta : double)
  : option (option TileGroup * World) :=
  if decide (length (tile_groups (table w)) ≤ tile_group_offset)
  then Some (None, w)
  else
    tg_id ← tile_groups (table w) !! tile_group_offset;
    tile_group ← Manager_GetTileGroup tg_id (manager w);
    let diff := GetSchemaDifference tile_group (default_partition (table w)) in
    if double_lt diff theta then Some (None, w)
    else
      new_schema ← TransformTileGroupSchema tile_group (default_partition (table w));
      let new_tile_group :=
        TileGroupFactory_GetTileGroup
          (tg_database_id tile_group) (tg_table_id tile_group)
          (GetTileGroupId tile_group) new_schema
          (default_partition (table w)) (GetAllocatedTupleCount tile_group) in
      new_tile_group ← SetTransformedTileGroup tile_group new_tile_group;
      Some (Some new_tile_group,
            with_manager (Manager_AddTileGroup tg_id new_tile_group) w).

(** ** Sampling for the optimizer *)

Section Sampling.

(** [TransactionManager::IsVisible(header, tuple_id)], an external
    collaborator, and the numbers produced by the random generator, in the
    order they are drawn. *)
Variable IsVisible : TileGroupHeader → nat → bool.
Variable generator : nat → nat.

(** [distribution(generator)] for [distribution(0, total_tuple_number - 1)]:
    the [k]-th draw, a number of the inclusive range. *)
Definition distribution (total_tuple_number k : nat) : nat :=
  generator k `mod` total_tuple_number.

(** The visibility test of one draw in [SampleRows]: the header of the tile
    group that holds the row and the argument handed to [IsVisible]. *)
Definition draw_visible (w : World) (random_row_id : nat) : option bool :=
  if decide (tuples_per_tilegroup (table w) = 0) then None
  else
    let tile_group_offset := random_row_id / tuples_per_tilegroup (table w) in
    tile_group_p ← GetTileGroup w tile_group_offset;
    let header_p := GetHeader tile_group_p in
    Some (IsVisible header_p random_row_id).

(** The inner [for] loop of [SampleRows]: [n] iterations are left; the state
    is the set of row ids and the number of draws made so far. *)
Fixpoint sample_inner (w : World) (sample_size total_tuple_number n : nat)
    (st : gset nat * nat) : option (gset nat * nat) :=
  match n with
  | 0 => Some st
  | S n =>
      let random_row_id := distribution total_tuple_number st.2 in
      visible ← draw_visible w random_row_id;
      let row_id_set := if (visible : bool) then {[random_row_id]} ∪ st.1 else st.1 in
      if decide (sample_size ≤ size row_id_set)
      then Some (row_id_set, S st.2)
      else sample_inner w sample_size total_tuple_number n (row_id_set, S st.2)
  end.

(** The outer [while] loop: [rounds] is [10 - iter_count]. *)
Fixpoint sample_outer (w : World) (sample_size total_tuple_number rounds : nat)
    (st : gset nat * nat) : option (gset nat * nat) :=
  match rounds with
  | 0 => Some st
  | S rounds =>
      if decide (size st.1 < sample_size) then
        st ← sample_inner w sample_size total_tuple_number sample_size st;
        sample_outer w sample_size total_tuple_number rounds st
      else Some st
  end.

(** Iteration over the [std::set<oid_t>]: increasing order. *)
Definition ordered (row_id_set : gset nat) : list nat :=
  merge_sort le (elements row_id_set).

Definition row_to_item_pointer (t : DataTable) (row_id : nat) : option ItemPointer :=
  if decide (tuples_per_tilegroup t = 0) then None
  else Some {| block := row_id / tuples_per_tilegroup t;
               offset := row_id `mod` tuples_per_tilegroup t |}.

Definition SampleRows (w : World) (sample_size : nat) : option (nat * World) :=
  (* Clear previous sample results, if there is one *)
  let w := with_table (set_samples_for_optimizer (λ _, [])) w in
  (* Drop an existing materialized sample tile group *)
  let w := match sampled_tile_group_id (table w) with
           | Some id => with_manager (Manager_DropTileGroup id) w
           | None => w
           end in
  (* Clear old information in the cardinality map *)
  let w := with_table (set_cardinality_map (λ _, ∅)) w in
  let total_tuple_number := tuple_count_exact (table w) in
  row_id_set ←
    (if decide (total_tuple_number ≤ sample_size)
     then Some (list_to_set (seq 0 total_tuple_number))
     else fst <$> sample_outer w sample_size total_tuple_number 10 (∅, 0));
  pointers ← mapM (row_to_item_pointer (table w)) (ordered row_id_set);
  Some (size row_id_set,
        with_table (set_samples_for_optimizer (λ l, l ++ pointers)) w).

(** The visibility test of a draw as the specification words it: the slot
    handed to the predicate is the row's offset within its tile group. *)
Definition draw_visible_per_spec (w : World) (row_id : nat) : option bool :=
  if decide (tuples_per_tilegroup (table w) = 0) then None
  else
    let tile_group_offset := row_id / tuples_per_tilegroup (table w) in
    let slot := row_id `mod` tuples_per_tilegroup (table w) in
    tile_group_p ← GetTileGroup w tile_group_offset;
    Some (IsVisible (GetHeader tile_group_p) slot).

End Sampling.

Definition GetOptimizerSampleSize (t : DataTable) : nat :=
  length (samples_for_optimizer t).

Definition GetSampleTileGroup (w : World) : option TileGroup :=
  id ← sampled_tile_group_id (table w);
  Manager_GetTileGroup id (manager w).

(** [BuildSampleTileGroup]: a new oid, assigned to [sampled_tile_group_id],
    and a tile group of the sample layout with one slot per sample. *)
Definition BuildSampleTileGroup (w : World) : option TileGroup * World :=
  if decide (GetOptimizerSampleSize (table w) = 0) then (None, w)
  else
    let '(id, m) := GetNextOid (manager w) in
    let w := with_table (set_sampled_tile_group_id (λ _, Some id))
               (with_manager (λ _, m) w) in
    (Some (TileGroupFactory_GetTileGroup
             (database_oid (table w)) (table_oid (table w)) id
             (sample_schema_list (table w)) (sample_column_map (table w))
             (GetOptimizerSampleSize (table w))), w).

(** The body of the loop of [FillSampleTileGroup] over the sampled
    pointers; the state is the sample tile group. *)
Definition fill_sample_row (w : World) (item : ItemPointer) (sample_tg : TileGroup)
  : option TileGroup :=
  let tile_group_offset := block item in
  let row_offset := offset item in
  tile_group_p ← GetTileGroup w tile_group_offset;
  let '(slot, h) := GetNextEmptyTupleSlot (GetHeader sample_tg) in
  next_sample_row_id ← slot;
  for_each (λ (column_pair : nat * nat) (sample_tg : TileGroup),
              let table_column_id := column_pair.1 in
              let sample_column_id := column_pair.2 in
              '(table_tile_offset, table_tile_column_offset) ←
                 LocateTileAndColumn tile_group_p table_column_id;
              tile_p ← GetTile tile_group_p table_tile_offset;
              temp_value ← Tile_GetValue tile_p row_offset table_tile_column_offset;
              '(sample_tile_offset, sample_tile_column_offset) ←
                 LocateTileAndColumn sample_tg sample_column_id;
              if decide (sample_tile_column_offset = 0
                         ∧ sample_tile_offset = sample_column_id)
              then TileGroup_SetValue sample_tg temp_value next_sample_row_id
                     sample_tile_offset sample_tile_column_offset
              else None)
           (sorted_entries (inline_column_map (table w)))
           (set_header sample_tg h).

Definition FillSampleTileGroup (w : World) : option World :=
  if decide (GetOptimizerSampleSize (table w) = 0) then Some w
  else
    id ← sampled_tile_group_id (table w);
    sample_tile_group_p ← GetSampleTileGroup w;
    sample_tg ← for_each (fill_sample_row w) (samples_for_optimizer (table w))
                   sample_tile_group_p;
    Some (with_manager (Manager_AddTileGroup id sample_tg) w).

Definition MaterializeSample (w : World) : option World :=
  if decide (GetOptimizerSampleSize (table w) = 0) then Some w
  else
    let w := match sampled_tile_group_id (table w) with
             | Some id => with_manager (Manager_DropTileGroup id) w
             | None => w
             end in
    let '(tile_group_p, w) := BuildSampleTileGroup w in
    tile_group_p ← tile_group_p;
    let w := with_table (set_sampled_tile_group_id
                           (λ _, Some (GetTileGroupId tile_group_p))) w in
    let w := with_manager
               (Manager_AddTileGroup (GetTileGroupId tile_group_p) tile_group_p) w in
    FillSampleTileGroup w.

(** [ComputeSampleCardinality]: the number of distinct values of the
    sample column, stored in the cardinality map. *)
Definition ComputeSampleCardinality (w : World) (sample_column_id : nat)
  : option World :=
  sample_tile_group_p ← GetSampleTileGroup w;
  '(tile_id, tile_column_id) ← LocateTileAndColumn sample_tile_group_p sample_column_id;
  if decide (tile_column_id = 0) then
    tile_p ← GetTile sample_tile_group_p tile_id;
    let sample_row_count := GetOptimizerSampleSize (table w) in
    values ← mapM (λ i, Tile_GetValue tile_p i tile_column_id) (seq 0 sample_row_count);
    let aggregate_set := remove_dups values in
    Some (with_table
            (set_cardinality_map (λ cm, <[sample_column_id := length aggregate_set]> cm))
            w)
  else None.

Definition ComputeTableCardinality (w : World) (table_column_id : nat)
  : option World :=
  match inline_column_map (table w) !! table_column_id with
  | None => Some w
  | Some sample_column_id => ComputeSampleCardinality w sample_column_id
  end.

Definition GetSampleCardinality (t : DataTable) (sample_column_id : nat) : nat :=
  default 0 (cardinality_map t !! sample_column_id).

Definition GetTableCardinality (t : DataTable) (table_column_id : nat) : nat :=
  match inline_column_map t !! table_column_id with
  | None => 0
  | Some sample_column_id => GetSampleCardinality t sample_column_id
  end.

(** ** Observations and invariants used by the properties *)

(** [ceil (k / c)] *)
Definition ceil_div (k c : nat) : nat := (k + c - 1) / c.

(** A run of successful [InsertTuple] calls, one after the other. *)
Fixpoint insert_tuples (lm : LayoutType) (fsm : bool)
    (hy : nat → gmap nat (nat * nat)) (fuel : nat) (tuples : list Tuple)
    (w : World) : option World :=
  match tuples with
  | [] => Some w
  | t :: rest =>
      match InsertTuple lm fsm hy fuel t w with
      | Some (Some _, w') => insert_tuples lm fsm hy fuel rest w'
      | _ => None
      end
  end.

(** [next_slot] of every tile group of the table, in table order. *)
Definition next_slots (w : World) : option (list nat) :=
  mapM (λ id, GetNextTupleSlot <$> GetTileGroupById w id) (tile_groups (table w)).

(** The tile groups of the table are [front ++ [last]]: every group of
    [front] is full, the last one has [r] claimed slots out of [c]. *)
Definition shape (c : nat) (front : list nat) (last r : nat) (w : World) : Prop :=
  tuples_per_tilegroup (table w) = c
  ∧ tile_groups (table w) = front ++ [last]
  ∧ NoDup (front ++ [last])
  ∧ (∀ id, id ∈ front ++ [last] → id ≤ oid (manager w))
  ∧ (∀ id, id ∈ front →
       ∃ tg, locator (manager w) !! id = Some tg ∧ GetNextTupleSlot tg = c)
  ∧ (∃ tg, locator (manager w) !! last = Some tg
       ∧ num_tuple_slots tg = c
       ∧ header_num_tuple_slots (tile_group_header tg) = c
       ∧ GetNextTupleSlot tg = r)
  ∧ r ≤ c.

(** The state of the table after [k] successful insertions. *)
Definition inserted (c k : nat) (w : World) : Prop :=
  ∃ front last r,
    shape c front last r w
    ∧ (front = [] ∨ 1 ≤ r)
    ∧ tuple_count_exact (table w) = k
    ∧ k = length front * c + r.

(** The cell at row [s], column [c] of tile [t]. *)
Definition cell (tg : TileGroup) (t s c : nat) : option Value :=
  tile ← tiles tg !! t; Tile_GetValue tile s c.

(** ** Further operations of the table *)

(** *** Versions *)

#[global] Instance IndexConstraintType_eq_dec : EqDecision IndexConstraintType.
Proof. solve_decision. Defined.

(** [InsertInSecondaryIndexes]: the key of every index is built, as in
    [InsertInIndexes]; the existence check is commented out here too, and
    only an index of the default type receives the entry. *)
Definition InsertInSecondaryIndexes (t : DataTable) (tuple : Tuple)
    (location : ItemPointer) : option (bool * DataTable) :=
  ixs ← mapM (λ ix : Index,
               key ← SetFromTuple tuple (indexed_columns ix);
               match index_type ix with
               | INDEX_CONSTRAINT_TYPE_PRIMARY_KEY
               | INDEX_CONSTRAINT_TYPE_UNIQUE => Some ix
               | INDEX_CONSTRAINT_TYPE_DEFAULT => Some (InsertEntry key location ix)
               end) (indexes t);
  Some (true, set_indexes (λ _, ixs) t).

Section Versions.

Variable peloton_layout_mode : LayoutType.
Variable peloton_fsm : bool.
Variable hyadapt_column_map : nat → gmap nat (nat * nat).

(** The body shared by [InsertEmptyVersion] ([check_constraint] is [false])
    and [InsertVersion] ([check_constraint] is [true]); the two functions
    differ in that argument of [GetTupleSlot] only.  The test
    [location.block == INVALID_OID] is the one of [InsertTuple]. *)
Definition insert_version (check_constraint : bool) (fuel : nat) (tuple : Tuple)
    (w : World) : option (option ItemPointer * World) :=
  '(location, w) ← GetTupleSlot peloton_layout_mode peloton_fsm hyadapt_column_map
                     fuel tuple check_constraint w;
  match location with
  | None => Some (None, w)
  | Some location =>
      if is_INVALID_OID (block location) then Some (None, w)
      else
        '(ok, t) ← InsertInSecondaryIndexes (table w) tuple location;
        if (ok : bool) then
          Some (Some location, with_table (λ _, set_tuple_count_exact S t) w)
        else Some (None, with_table (λ _, t) w)
  end.

Definition InsertEmptyVersion : nat → Tuple → World → option (option ItemPointer * World) :=
  insert_version false.

Definition InsertVersion : nat → Tuple → World → option (option ItemPointer * World) :=
  insert_version true.

End Versions.

(** *** Adding tile groups by hand *)

(** [AddTileGroupWithOid]: a tile group of the pure row layout under the
    given id, appended without a look at the last tile group;
    [assert(tile_group_id)] refuses the id 0. *)
Definition AddTileGroupWithOid (w : World) (tile_group_id : nat)
  : option (nat * World) :=
  if decide (tile_group_id = 0) then None
  else
    let schemas := [schema (table w)] in
    let col_count := length (schema (table w)) in
    let tile_group :=
      TileGroupFactory_GetTileGroup
        (database_oid (table w)) (table_oid (table w)) tile_group_id
        schemas (row_layout col_count) (tuples_per_tilegroup (table w)) in
    Some (tile_group_id, register_tile_group tile_group w).

Definition AddTileGroup (tile_group : TileGroup) (w : World) : World :=
  register_tile_group tile_group w.

(** *** Destructor *)

(** [~DataTable]: the references of the catalog to the tile groups of the
    table and to its sample tile group are dropped. *)
Definition DataTable_delete (w : World) : Manager :=
  let m := foldl (λ m tile_group_id, Manager_DropTileGroup tile_group_id m)
             (manager w) (tile_groups (table w)) in
  match sampled_tile_group_id (table w) with
  | Some id => Manager_DropTileGroup id m
  | None => m
  end.

(** *** Indexes of the table *)

(** The members [has_primary_key] and [unique_constraint_count] of the
    table, which [AddIndex] alone writes, beside the table record. *)
Record IndexStats : Set := mkIndexStats {
  has_primary_key : bool;
  unique_constraint_count : nat
}.

Definition AddIndex (index : Index) (ts : DataTable * IndexStats)
  : DataTable * IndexStats :=
  let t := set_indexes (λ l, l ++ [index]) ts.1 in
  match index_type index with
  | INDEX_CONSTRAINT_TYPE_PRIMARY_KEY =>
      (t, mkIndexStats true (unique_constraint_count ts.2))
  | INDEX_CONSTRAINT_TYPE_UNIQUE =>
      (t, mkIndexStats (has_primary_key ts.2) (S (unique_constraint_count ts.2)))
  | INDEX_CONSTRAINT_TYPE_DEFAULT => (t, ts.2)
  end.

(** [GetIndexWithOid]: the first index with the oid, [nullptr] (here
    [None]) when there is none. *)
Definition GetIndexWithOid (t : DataTable) (oid : nat) : option Index :=
  snd <$> list_find (λ index, index_oid index = oid) (indexes t).

(** [DropIndexWithOid]: the offset of the first index with the oid, the
    number of indexes when there is none, which the assertion refuses. *)
Definition DropIndexWithOid (ts : DataTable * IndexStats) (index_id : nat)
  : option (DataTable * IndexStats) :=
  let index_offset :=
    match list_find (λ index, index_oid index = index_id) (indexes ts.1) with
    | Some (offset, _) => offset
    | None => length (indexes ts.1)
    end in
  if decide (index_offset < length (indexes ts.1))
  then Some (set_indexes (delete index_offset) ts.1, ts.2)
  else None.

Definition GetIndex (t : DataTable) (index_offset : nat) : option Index :=
  indexes t !! index_offset.

Definition GetIndexCount (t : DataTable) : nat := length (indexes t).

(** *** Statistics of the default partition *)

(** [GetColumnMapStats]: per-tile column count of the default partition. *)
Definition GetColumnMapStats (t : DataTable) : gmap nat nat :=
  foldl (λ (column_map_stats : gmap nat nat) (entry : nat * (nat * nat)),
           let tile_id := entry.2.1 in
           match column_map_stats !! tile_id with
           | None => <[tile_id := 1]> column_map_stats
           | Some n => <[tile_id := S n]> column_map_stats
           end)
        ∅ (sorted_entries (default_partition t)).

(** *** The static HYADAPT layout for several groups *)

(** The "MULTIPLE GROUPS" branch of [GetStaticColumnMap]
    ([peloton_num_groups] is not 0; it is a number of groups, hence
    positive): the loop over the columns from 1 on.  [hyadapt_column_ids] is
    a vector; an access out of its range and the division by a
    [tile_column_count] of 0 do not return. *)
Definition hyadapt_groups_column_map (peloton_num_groups : nat)
    (hyadapt_column_ids : list nat) (column_count : nat)
  : option (gmap nat (nat * nat)) :=
  let tile_column_count := column_count / peloton_num_groups in
  for_each (λ column_id (column_map : gmap nat (nat * nat)),
              hyadapt_column_id ← hyadapt_column_ids !! (column_id - 1);
              if decide (tile_column_count = 0) then None
              else
                let tile_id := (column_id - 1) / tile_column_count in
                let tile_column_id :=
                  if decide (tile_id = 0) then column_id `mod` tile_column_count
                  else (column_id - 1) `mod` tile_column_count in
                let tile_id :=
                  if decide (peloton_num_groups ≤ tile_id)
                  then peloton_num_groups - 1 else tile_id in
                Some (<[hyadapt_column_id := (tile_id, tile_column_id)]> column_map))
           (seq 1 (column_count - 1)) (<[0 := (0, 0)]> ∅).

(** ** Notions used by the properties *)

(** The inlined columns of a schema, from column [col_itr] on, each with
    its number among the inlined columns. *)
Fixpoint inline_columns (sch : Schema) (col_itr sample_it : nat)
  : list (nat * nat) :=
  match sch with
  | [] => []
  | c :: rest =>
      if is_inlined (column_type c)
      then (col_itr, sample_it) :: inline_columns rest (S col_itr) (S sample_it)
      else inline_columns rest (S col_itr) sample_it
  end.

(** The columns of a schema that are sampled. *)
Definition inlined (sch : Schema) : Schema :=
  filter (λ c, is_inlined (column_type c)) sch.

(** No two columns of a column map share a cell (tile, column). *)
Definition distinct_cells (m : gmap nat (nat * nat)) : Prop :=
  NoDup (map_to_list m).*2.

#[global] Instance distinct_cells_dec m : Decision (distinct_cells m).
Proof. unfold distinct_cells. apply _. Defined.

(** Every tile group of the catalog is registered under its own id, the
    oid counter has passed that id, and the columns of the tile group have
    cells of their own. *)
Definition catalog_ok (w : World) : Prop :=
  map_Forall (λ id tg, tile_group_id tg = id ∧ id ≤ oid (manager w)
                       ∧ distinct_cells (column_map tg))
             (locator (manager w)).

#[global] Instance catalog_ok_dec w : Decision (catalog_ok w).
Proof. unfold catalog_ok. apply _. Defined.

(** No two columns of the table are sampled into the same sample column. *)
Definition distinct_sample_columns (t : DataTable) : Prop :=
  NoDup (map_to_list (inline_column_map t)).*2.

#[global] Instance distinct_sample_columns_dec t :
  Decision (distinct_sample_columns t).
Proof. unfold distinct_sample_columns. apply _. Defined.

(** The tile groups of the table were numbered by the catalog, and the
    sample tile group is not one of them. *)
Definition sample_apart (w : World) : Prop :=
  Forall (λ id, id ≤ oid (manager w)
                ∧ sampled_tile_group_id (table w) ≠ Some id)
         (tile_groups (table w)).

#[global] Instance sample_apart_dec w : Decision (sample_apart w).
Proof. unfold sample_apart. apply _. Defined.

(** A tile group of the row layout: one tile of [c] rows by [n] cells. *)
Definition row_group (n c : nat) (tg : TileGroup) : Prop :=
  column_map tg = row_layout n
  ∧ num_tuple_slots tg = c
  ∧ header_num_tuple_slots (tile_group_header tg) = c
  ∧ match tiles tg with
    | [tile] => length (tile_data tile) = c
                ∧ Forall (λ row, length row = n) (tile_data tile)
    | _ => False
    end.

#[global] Instance row_group_dec n c tg : Decision (row_group n c tg).
Proof. unfold row_group. destruct (tiles tg) as [|? [|? ?]]; apply _. Defined.

(** A table that is not adaptive, with columns and with room in its tile
    groups, whose last tile group is in the catalog and has the row
    layout. *)
Definition row_table (w : World) : Prop :=
  adapt_table (table w) = false
  ∧ schema (table w) ≠ []
  ∧ 0 < tuples_per_tilegroup (table w)
  ∧ match last (tile_groups (table w))
          ≫= λ id, Manager_GetTileGroup id (manager w) with
    | Some tg => row_group (length (schema (table w)))
                   (tuples_per_tilegroup (table w)) tg
    | None => False
    end.

#[global] Instance row_table_dec w : Decision (row_table w).
Proof.
  unfold row_table.
  destruct (last (tile_groups (table w))
              ≫= λ id, Manager_GetTileGroup id (manager w)); apply _.
Defined.

End Storage.

Module Binding.

#[local] Set Warnings "-register-all".

Abbreviation GroupID := nat.

Inductive OpType : Set :=
  | Leaf | Get | Project | Filter
  | InnerJoin | LeftJoin | RightJoin | OuterJoin
  | Aggregate | Limit.

#[global] Instance OpType_eq_dec : EqDecision OpType.
Proof. solve_decision. Defined.

(** The operators that [ChildVisitor] visits, each with the child groups it
    pushes, and the pattern-only [LeafOperator].  [LogicalGet] carries the
    table it reads, which tells two [Get] items of one group apart. *)
Inductive Operator : Set :=
  | LeafOperator (origin : GroupID)
  | LogicalGet (table : nat)
  | LogicalProject (child : GroupID)
  | LogicalFilter (child : GroupID)
  | LogicalInnerJoin (outer inner : GroupID)
  | LogicalLeftJoin (outer inner : GroupID)
  | LogicalRightJoin (outer inner : GroupID)
  | LogicalOuterJoin (outer inner : GroupID)
  | LogicalAggregate (child : GroupID)
  | LogicalLimit (child : GroupID).

#[global] Instance Operator_eq_dec : EqDecision Operator.
Proof. solve_decision. Defined.

Definition type (op : Operator) : OpType :=
  match op with
  | LeafOperator _ => Leaf
  | LogicalGet _ => Get
  | LogicalProject _ => Project
  | LogicalFilter _ => Filter
  | LogicalInnerJoin _ _ => InnerJoin
  | LogicalLeftJoin _ _ => LeftJoin
  | LogicalRightJoin _ _ => RightJoin
  | LogicalOuterJoin _ _ => OuterJoin
  | LogicalAggregate _ => Aggregate
  | LogicalLimit _ => Limit
  end.

(** [ChildVisitor().GetChildren(op)] *)
Definition GetChildren (op : Operator) : list GroupID :=
  match op with
  | LeafOperator _ => []
  | LogicalGet _ => []
  | LogicalProject child => [child]
  | LogicalFilter child => [child]
  | LogicalInnerJoin outer inner => [outer; inner]
  | LogicalLeftJoin outer inner => [outer; inner]
  | LogicalRightJoin outer inner => [outer; inner]
  | LogicalOuterJoin outer inner => [outer; inner]
  | LogicalAggregate child => [child]
  | LogicalLimit child => [child]
  end.

(** Modelled from the spec: [Pattern] ([pattern.h] is not part of the
    sources), a tree of [(op_type, children)]. *)
Inductive Pattern : Set :=
  | mkPattern (ty : OpType) (children : list Pattern).

Definition Type_ (p : Pattern) : OpType :=
  match p with mkPattern ty _ => ty end.

Definition Children (p : Pattern) : list Pattern :=
  match p with mkPattern _ children => children end.

(** Modelled from the spec: [Group] ([group.h] is not part of the
    sources): the ordered list of items and the parallel list of explored
    flags. *)
Record Group : Set := mkGroup {
  items : list Operator;
  explored : list bool
}.

Abbreviation Rule := nat.

(** Plan nodes are shared objects ([std::shared_ptr<OpPlanNode>]): a node
    lives in a store and is named by its location.  [PushChild] and
    [PopChild] update the node in place, for every holder of the
    pointer. *)
Abbreviation loc := nat.

Record OpPlanNode : Set := mkOpPlanNode {
  op : Operator;
  children : list loc
}.

(** The optimizer's memo and rules, the store of plan nodes, and the record
    of the calls of [Optimizer::ExploreItem], the latest last. *)
Record State : Set := mkState {
  groups : list Group;
  rules : list Rule;
  plan_nodes : list OpPlanNode;
  explore_calls : list (GroupID * nat * Rule)
}.

(** The result of running a piece of the program. *)
Inductive result (A : Type) : Type :=
  | Ok (a : A) (s : State)
  | Fault
  | OutOfFuel.
Arguments Ok {A} a s.
Arguments Fault {A}.
Arguments OutOfFuel {A}.

(** The value of a run that ended normally. *)
Definition value_of {A : Type} (r : result A) : option A :=
  match r with Ok a _ => Some a | _ => None end.

Definition M (A : Type) : Type := State → result A.

#[global] Instance M_ret : MRet M := λ A a s, Ok a s.

#[global] Instance M_bind : MBind M := λ A B f m s,
  match m s with
  | Ok a s' => f a s'
  | Fault => Fault
  | OutOfFuel => OutOfFuel
  end.

Definition fault {A : Type} : M A := λ _, Fault.
Definition out_of_fuel {A : Type} : M A := λ _, OutOfFuel.
Definition get_state : M State := λ s, Ok s s.
Definition put_state (s : State) : M unit := λ _, Ok () s.

(** A value that must be there: a vector access in range, a pointer that
    is not null. *)
Definition must {A : Type} (o : option A) : M A :=
  match o with Some a => mret a | None => fault end.

Definition get_group (id : GroupID) : M Group :=
  s ← get_state; must (groups s !! id).

(** [groups[id].GetOperators()[item_index]] *)
Definition get_item (id : GroupID) (item_index : nat) : M Operator :=
  g ← get_group id; must (items g !! item_index).

(** [target_group.set_explored(i)] *)
Definition set_explored (id : GroupID) (i : nat) : M unit :=
  g ← get_group id;
  s ← get_state;
  if decide (i < length (explored g)) then
    put_state (mkState
      (<[id := mkGroup (items g) (<[i := true]> (explored g))]> (groups s))
      (rules s) (plan_nodes s) (explore_calls s))
  else fault.

(** [std::make_shared<OpPlanNode>(op)] *)
Definition new_OpPlanNode (o : Operator) : M loc :=
  s ← get_state;
  _ ← put_state (mkState (groups s) (rules s)
                   (plan_nodes s ++ [mkOpPlanNode o []]) (explore_calls s));
  mret (length (plan_nodes s)).

Definition update_node (l : loc) (f : OpPlanNode → option OpPlanNode) : M unit :=
  s ← get_state;
  n ← must (plan_nodes s !! l);
  n' ← must (f n);
  put_state (mkState (groups s) (rules s) (<[l := n']> (plan_nodes s))
               (explore_calls s)).

Definition PushChild (l child : loc) : M unit :=
  update_node l (λ n, Some (mkOpPlanNode (op n) (children n ++ [child]))).

(** [PopChild] on a node without children is a fault. *)
Definition PopChild (l : loc) : M unit :=
  update_node l (λ n,
    match children n with
    | [] => None
    | _ => Some (mkOpPlanNode (op n) (removelast (children n)))
    end).

(** What the specification says of exploration: it "may append new items
    to this group or create new groups".  From [m] to [m'] every group is
    still there, keeps its items in place (new ones are appended), and
    keeps the explored flags that are set. *)
Definition memo_grows (m m' : list Group) : Prop :=
  ∀ id g, m !! id = Some g →
    ∃ g', m' !! id = Some g'
      ∧ items g `prefix_of` items g'
      ∧ ∀ j, explored g !! j = Some true → explored g' !! j = Some true.

Section Optimizer.

(** [Optimizer::ExploreItem] applies a rule to an item of the memo; it is
    not part of the sources and stays a parameter: a function on the
    memo. *)
Variable ExploreItem : list Group → GroupID → nat → Rule → list Group.

Definition explore_item (id : GroupID) (i : nat) (rule : Rule) : M unit :=
  s ← get_state;
  put_state (mkState (ExploreItem (groups s) id i rule) (rules s)
               (plan_nodes s) (explore_calls s ++ [(id, i, rule)])).

Fixpoint explore_rules (id : GroupID) (i : nat) (rs : list Rule) : M unit :=
  match rs with
  | [] => mret ()
  | rule :: rs => _ ← explore_item id i rule; explore_rules id i rs
  end.

(** *** Group binding iterator *)

Record ItemBindingIterator : Set := mkItemBindingIterator {
  item_group_id : GroupID;
  item_index : nat;
  item_pattern : Pattern;
  first : bool;
  has_next : bool;
  current_binding : loc;
  children_bindings : list (list loc);
  children_bindings_pos : list nat
}.

(** [target_group], [target_group_items] and [target_group_explored] are
    references into the vector [optimizer.groups], bound by the
    constructor.  A [push_back] on that vector may move its elements and
    leaves such references dangling; the field [target_group] records the
    size that the vector had when the references were bound, and a read
    through them is taken to be defined only while the vector has that
    size. *)
Record GroupBindingIterator : Set := mkGroupBindingIterator {
  group_id : GroupID;
  pattern : Pattern;
  target_group : nat;
  current_item_index : nat;
  current_iterator : option ItemBindingIterator
}.

(** A read through the references of a group iterator: the group as it is
    now, or a fault when the references dangle. *)
Definition read_target_group (bound : nat) (id : GroupID) : M Group :=
  s ← get_state;
  if decide (length (groups s) = bound) then must (groups s !! id)
  else fault.

(** The loop of the constructor.  [target_group_items] is a reference to
    the group's vector of items: its size is read anew, through the
    reference, at every test of the loop condition, and so is the flag
    [target_group_explored[i]].  One iteration per unit of fuel. *)
Fixpoint explore_loop (fuel : nat) (bound : nat) (id : GroupID) (i : nat)
  : M unit :=
  match fuel with
  | 0 => out_of_fuel
  | S fuel =>
      g ← read_target_group bound id;
      if decide (i < length (items g)) then
        flag ← must (explored g !! i);
        _ ← (if (flag : bool) then mret ()
             else _ ← set_explored id i;
                  s ← get_state;
                  explore_rules id i (rules s));
        explore_loop fuel bound id (S i)
      else mret ()
  end.

(** The constructor binds the references ([target_group(groups[id])]) and
    runs the loop. *)
Definition GroupBindingIterator_new (fuel : nat) (id : GroupID) (p : Pattern)
  : M GroupBindingIterator :=
  s ← get_state;
  _ ← get_group id;
  let bound := length (groups s) in
  _ ← explore_loop fuel bound id 0;
  mret (mkGroupBindingIterator id p bound 0 None).

(** *** Item binding iterator *)

Definition set_first (b : bool) (it : ItemBindingIterator) : ItemBindingIterator :=
  mkItemBindingIterator (item_group_id it) (item_index it) (item_pattern it)
    b (has_next it) (current_binding it) (children_bindings it)
    (children_bindings_pos it).

Definition set_has_next (b : bool) (it : ItemBindingIterator) : ItemBindingIterator :=
  mkItemBindingIterator (item_group_id it) (item_index it) (item_pattern it)
    (first it) b (current_binding it) (children_bindings it)
    (children_bindings_pos it).

Definition set_children_bindings (cb : list (list loc)) (it : ItemBindingIterator)
  : ItemBindingIterator :=
  mkItemBindingIterator (item_group_id it) (item_index it) (item_pattern it)
    (first it) (has_next it) (current_binding it) cb
    (children_bindings_pos it).

Definition set_children_bindings_pos (pos : list nat) (it : ItemBindingIterator)
  : ItemBindingIterator :=
  mkItemBindingIterator (item_group_id it) (item_index it) (item_pattern it)
    (first it) (has_next it) (current_binding it) (children_bindings it) pos.

(** The loop of the constructor over the child groups: all bindings of
    child [i] are collected by [all_bindings] (a [GroupBindingIterator]
    run to exhaustion); the constructor returns at the first child
    without bindings. *)
Fixpoint bind_children (all_bindings : GroupID → Pattern → M (list loc))
    (cur : loc) (children : list (GroupID * Pattern)) (i : nat)
    (cb : list (list loc)) : M (bool * list (list loc)) :=
  match children with
  | [] => mret (true, cb)
  | (child_group, child_pattern) :: rest =>
      child_bindings ← all_bindings child_group child_pattern;
      let cb := <[i := child_bindings]> cb in
      match child_bindings with
      | [] => mret (false, cb)
      | b0 :: _ =>
          _ ← PushChild cur b0;
          bind_children all_bindings cur rest (S i) cb
      end
  end.

(** The same loop as a relation between the state in which it starts and
    the state in which it ends: the list of child [i] is what the run of
    [all_bindings] on child [i], in the state left by the children before
    it, has returned; the first binding of a list that is not empty is
    pushed on the current binding before the next child is run; after the
    first run that returns no binding no child is run, and the lists of the
    remaining children are the empty lists that the constructor started
    with. *)
Inductive collected (all_bindings : GroupID → Pattern → M (list loc)) (cur : loc)
  : list (GroupID * Pattern) → list (list loc) → State → State → Prop :=
  | collected_nil s : collected all_bindings cur [] [] s s
  | collected_none child_group child_pattern rest s s1 :
      all_bindings child_group child_pattern s = Ok [] s1 →
      collected all_bindings cur ((child_group, child_pattern) :: rest)
        ([] :: replicate (length rest) []) s s1
  | collected_some child_group child_pattern rest b0 l cbs s s1 s2 s3 :
      all_bindings child_group child_pattern s = Ok (b0 :: l) s1 →
      PushChild cur b0 s1 = Ok () s2 →
      collected all_bindings cur rest cbs s2 s3 →
      collected all_bindings cur ((child_group, child_pattern) :: rest)
        ((b0 :: l) :: cbs) s s3.

Definition ItemBindingIterator_new (all_bindings : GroupID → Pattern → M (list loc))
    (id : GroupID) (idx : nat) (p : Pattern) : M ItemBindingIterator :=
  o ← get_item id idx;
  cur ← new_OpPlanNode o;
  let it := mkItemBindingIterator id idx p true false cur [] [] in
  item ← get_item id idx;
  if decide (type item ≠ Type_ p) then mret it
  else
    let child_groups := GetChildren item in
    let child_patterns := Children p in
    if decide (length child_groups ≠ length child_patterns) then mret it
    else
      let cb := replicate (length child_groups) [] in
      let pos := replicate (length child_groups) 0 in
      '(found, cb) ← bind_children all_bindings cur
                       (zip child_groups child_patterns) 0 cb;
      mret (mkItemBindingIterator id idx p true found cur cb pos).

(** The first loop of [HasNext]: [k] is [size - i], the position
    [size - 1 - i] that is incremented is [k - 1].  The result is the value
    of [i] when the loop is left and the positions. *)
Fixpoint carry_loop (cur : loc) (cb : list (list loc)) (size k : nat)
    (pos : list nat) : M (nat * list nat) :=
  match k with
  | 0 => mret (size, pos)
  | S k' =>
      _ ← PopChild cur;
      child_binding ← must (cb !! k');
      p ← must (pos !! k');
      let new_pos := S p in
      let pos := <[k' := new_pos]> pos in
      if decide (new_pos < length child_binding) then mret (size - S k', pos)
      else carry_loop cur cb size k' (<[k' := 0]> pos)
  end.

(** The second loop of [HasNext] ("replay to end"): [n] children are pushed,
    from position [idx] on. *)
Fixpoint replay (cur : loc) (cb : list (list loc)) (pos : list nat)
    (idx n : nat) : M unit :=
  match n with
  | 0 => mret ()
  | S n =>
      child_binding ← must (cb !! idx);
      p ← must (pos !! idx);
      binding ← must (child_binding !! p);
      _ ← PushChild cur binding;
      replay cur cb pos (S idx) n
  end.

Definition ItemBindingIterator_HasNext (it : ItemBindingIterator)
  : M (bool * ItemBindingIterator) :=
  if has_next it && first it then mret (true, set_first false it)
  else if has_next it then
    let size := length (children_bindings_pos it) in
    '(i, pos) ← carry_loop (current_binding it) (children_bindings it)
                  size size (children_bindings_pos it);
    let it := set_children_bindings_pos pos it in
    if decide (i = size) then mret (false, set_has_next false it)
    else
      let offset := size - 1 - i in
      _ ← replay (current_binding it) (children_bindings it) pos offset (S i);
      mret (true, it)
  else mret (false, it).

Definition ItemBindingIterator_Next (it : ItemBindingIterator) : loc :=
  current_binding it.

(** A consumer of an item iterator: it runs the iterator to exhaustion and
    records, at every [Next], the positions of the odometer and the plan
    node that the returned pointer stands for at that moment. *)
Fixpoint item_yields (fuel : nat) (it : ItemBindingIterator)
    (acc : list (list nat * option OpPlanNode))
  : M (list (list nat * option OpPlanNode)) :=
  match fuel with
  | 0 => out_of_fuel
  | S fuel =>
      '(b, it) ← ItemBindingIterator_HasNext it;
      if (b : bool) then
        s ← get_state;
        item_yields fuel it
          (acc ++ [(children_bindings_pos it,
                    plan_nodes s !! ItemBindingIterator_Next it)])
      else mret acc
  end.

(** *** [HasNext] and [Next] of the group binding iterator *)

Definition set_current (idx : nat) (cur : option ItemBindingIterator)
    (it : GroupBindingIterator) : GroupBindingIterator :=
  mkGroupBindingIterator (group_id it) (pattern it) (target_group it) idx cur.

(** "Keep checking item iterators until we find a match": the [while] loop
    of [HasNext], entered without a current iterator.  The size of the
    group is read through [target_group_items] at every test. *)
Fixpoint find_item (new_item : GroupID → nat → Pattern → M ItemBindingIterator)
    (fuel : nat) (it : GroupBindingIterator) : M GroupBindingIterator :=
  match fuel with
  | 0 => out_of_fuel
  | S fuel =>
      g ← read_target_group (target_group it) (group_id it);
      if decide (current_item_index it < length (items g)) then
        item_it ← new_item (group_id it) (current_item_index it) (pattern it);
        '(b, item_it) ← ItemBindingIterator_HasNext item_it;
        if (b : bool) then mret (set_current (current_item_index it) (Some item_it) it)
        else find_item new_item fuel (set_current (S (current_item_index it)) None it)
      else mret it
  end.

Definition GroupBindingIterator_HasNext
    (new_item : GroupID → nat → Pattern → M ItemBindingIterator)
    (fuel : nat) (it : GroupBindingIterator) : M (bool * GroupBindingIterator) :=
  if decide (Type_ (pattern it) = Leaf)
  then mret (bool_decide (current_item_index it = 0), it)
  else
    it ← match current_iterator it with
         | Some item_it =>
             '(b, item_it) ← ItemBindingIterator_HasNext item_it;
             if (b : bool)
             then mret (set_current (current_item_index it) (Some item_it) it)
             else mret (set_current (S (current_item_index it)) None it)
         | None => mret it
         end;
    it ← match current_iterator it with
         | None => find_item new_item fuel it
         | Some _ => mret it
         end;
    mret (bool_decide (is_Some (current_iterator it)), it).

Definition GroupBindingIterator_Next (it : GroupBindingIterator)
  : M (loc * GroupBindingIterator) :=
  if decide (Type_ (pattern it) = Leaf) then
    g ← read_target_group (target_group it) (group_id it);
    l ← new_OpPlanNode (LeafOperator (group_id it));
    mret (l, set_current (length (items g)) (current_iterator it) it)
  else
    item_it ← must (current_iterator it);
    mret (ItemBindingIterator_Next item_it, it).

(** "Get all bindings": [while (iterator.HasNext()) push_back(iterator.Next())]. *)
Fixpoint drain (new_item : GroupID → nat → Pattern → M ItemBindingIterator)
    (fuel : nat) (it : GroupBindingIterator) (acc : list loc) : M (list loc) :=
  match fuel with
  | 0 => out_of_fuel
  | S fuel =>
      '(b, it) ← GroupBindingIterator_HasNext new_item fuel it;
      if (b : bool) then
        '(l, it) ← GroupBindingIterator_Next it;
        drain new_item fuel it (acc ++ [l])
      else mret acc
  end.

(** The constructor of the item iterator with the recursion through the
    binding iterators of the child groups tied; the depth of the nesting is
    bounded by the fuel. *)
Fixpoint new_ItemBindingIterator (fuel : nat) (id : GroupID) (idx : nat)
    (p : Pattern) : M ItemBindingIterator :=
  match fuel with
  | 0 => out_of_fuel
  | S fuel =>
      ItemBindingIterator_new
        (λ child_group child_pattern,
           iterator ← GroupBindingIterator_new fuel child_group child_pattern;
           drain (new_ItemBindingIterator fuel) fuel iterator [])
        id idx p
  end.

(** All bindings of a group for a pattern: the binding iterator of the
    group, run to exhaustion, as the constructor of the item iterator does
    for every child. *)
Definition all_bindings (fuel : nat) (id : GroupID) (p : Pattern) : M (list loc) :=
  iterator ← GroupBindingIterator_new fuel id p;
  drain (new_ItemBindingIterator fuel) fuel iterator [].

Definition HasNext (fuel : nat) (it : GroupBindingIterator)
  : M (bool * GroupBindingIterator) :=
  GroupBindingIterator_HasNext (new_ItemBindingIterator fuel) fuel it.

Definition Next (it : GroupBindingIterator) : M (loc * GroupBindingIterator) :=
  GroupBindingIterator_Next it.

End Optimizer.

(** ** Observing the plans *)

(** A plan tree as a value. *)
Inductive PlanTree : Set :=
  | PlanNode (o : Operator) (cs : list PlanTree).

(** The plan tree that a pointer stands for in a store, read to the given
    depth. *)
Fixpoint read_plan (depth : nat) (h : list OpPlanNode) (l : loc) : option PlanTree :=
  match depth with
  | 0 => None
  | S depth =>
      n ← h !! l;
      cs ← mapM (read_plan depth h) (children n);
      Some (PlanNode (op n) cs)
  end.

(** A consumer that runs an iterator to exhaustion and, at every [Next],
    reads the plan tree that the returned pointer stands for. *)
Fixpoint plans_of (ExploreItem : list Group → GroupID → nat → Rule → list Group)
    (fuel : nat) (it : GroupBindingIterator) (acc : list (option PlanTree))
  : M (list (option PlanTree)) :=
  match fuel with
  | 0 => out_of_fuel
  | S fuel =>
      '(b, it) ← HasNext ExploreItem fuel it;
      if (b : bool) then
        '(l, it) ← Next it;
        s ← get_state;
        plans_of ExploreItem fuel it (acc ++ [read_plan fuel (plan_nodes s) l])
      else mret acc
  end.

(** The positions of a mixed-radix odometer in the order it runs through
    them: the rightmost position moves first. *)
Fixpoint odometer (radices : list nat) : list (list nat) :=
  match radices with
  | [] => [[]]
  | r :: rs => i ← seq 0 r; (cons i) <$> odometer rs
  end.

(** The successor of a vector of positions in a mixed-radix odometer, if
    there is one: the rightmost position that can move is incremented and
    the positions to its right go back to zero. *)
Fixpoint incr (radices pos : list nat) : option (list nat) :=
  match radices, pos with
  | r :: rs, p :: ps =>
      match incr rs ps with
      | Some ps' => Some (p :: ps')
      | None =>
          if decide (S p < r) then Some (S p :: replicate (length ps) 0)
          else None
      end
  | _, _ => None
  end.

(** The vectors of positions that come after [pos] in the odometer's
    order. *)
Fixpoint rest (radices pos : list nat) : list (list nat) :=
  match radices, pos with
  | r :: rs, p :: ps =>
      ((cons p) <$> rest rs ps)
      ++ (j ← seq (S p) (r - S p); (cons j) <$> odometer rs)
  | _, _ => []
  end.

(** The combination of child bindings that a vector of positions selects. *)
Definition select (cb : list (list loc)) (pos : list nat) : option (list loc) :=
  mapM (λ lp : list loc * nat, lp.1 !! lp.2) (zip cb pos).

(** The plan trees that match a pattern rooted at an item of a group, as
    the specification defines binding: a [Leaf] pattern matches the group
    as a whole; another pattern matches an item of its type and arity
    together with a match of every child pattern in the child group. *)
Fixpoint matching_plans (memo : list Group) (p : Pattern) (id : GroupID)
  : list PlanTree :=
  match p with
  | mkPattern ty ps =>
      if decide (ty = Leaf) then [PlanNode (LeafOperator id) []]
      else
        item ← default [] (items <$> memo !! id);
        if decide (type item = ty ∧ length (GetChildren item) = length ps)
        then PlanNode item <$>
               foldr (λ (ms : list PlanTree) (acc : list (list PlanTree)),
                        m ← ms; (cons m) <$> acc)
                     [[]]
                     ((fix go (ps : list Pattern) (gs : list GroupID) :=
                         match ps, gs with
                         | p :: ps, g :: gs => matching_plans memo p g :: go ps gs
                         | _, _ => []
                         end) ps (GetChildren item))
        else []
  end.

(** ** Notions used by the proofs *)

(** The state with the plan node at [l] replaced. *)
Definition set_node (s : State) (l : loc) (n : OpPlanNode) : State :=
  mkState (groups s) (rules s) (<[l := n]> (plan_nodes s)) (explore_calls s).

(** The combination selected by positions that are in range. *)
Definition pick (cb : list (list loc)) (pos : list nat) : list loc :=
  zip_with (λ (l : list loc) (p : nat), default 0 (l !! p)) cb pos.

(** The positions of an item iterator are within its lists of bindings. *)
Definition positions_valid (it : ItemBindingIterator) : Prop :=
  Forall2 lt (children_bindings_pos it) (length <$> children_bindings it).

(** From [s] to [s'] the store has not shrunk, the nodes below [n] are the
    same, and the memo has as many groups as before. *)
Definition frame (n : nat) (s s' : State) : Prop :=
  length (plan_nodes s) ≤ length (plan_nodes s')
  ∧ take n (plan_nodes s') = take n (plan_nodes s)
  ∧ length (groups s') = length (groups s).

(** A computation that keeps every plan node that exists when it starts. *)
Definition keeps_nodes {A : Type} (m : M A) : Prop :=
  ∀ s a s', m s = Ok a s' → frame (length (plan_nodes s)) s s'.

(** A constructor of item iterators that keeps the existing nodes and gives
    the iterator a node of its own. *)
Definition fresh_item (new_item : GroupID → nat → Pattern → M ItemBindingIterator)
  : Prop :=
  ∀ id idx p s it s', new_item id idx p s = Ok it s' →
    frame (length (plan_nodes s)) s s'
    ∧ length (plan_nodes s) ≤ current_binding it
    ∧ current_binding it < length (plan_nodes s').

(** The current binding of the iterator, if there is one, is at or above
    [n]. *)
Definition current_above (n : nat) (it : GroupBindingIterator) : Prop :=
  ∀ i, current_iterator it = Some i → n ≤ current_binding i.

(** ** Notions used by the properties *)

(** Every item of every group is explored: the flags are set, one per
    item. *)
Definition memo_settled (m : list Group) : Prop :=
  Forall (λ g, explored g = replicate (length (items g)) true) m.

#[global] Instance memo_settled_dec m : Decision (memo_settled m).
Proof. unfold memo_settled. apply _. Defined.

(** No group is empty, and the child groups of every item are groups of
    the memo. *)
Definition memo_closed (m : list Group) : Prop :=
  Forall (λ g, items g ≠ []
               ∧ Forall (λ item, Forall (λ c, c < length m) (GetChildren item))
                        (items g)) m.

#[global] Instance memo_closed_dec m : Decision (memo_closed m).
Proof. unfold memo_closed. apply _. Defined.

(** The number of plan trees that match a pattern in a child group. *)
Definition child_count (memo : list Group) (gq : GroupID * Pattern) : nat :=
  length (matching_plans memo gq.2 gq.1).

(** The number of plan trees that match a pattern rooted at an item: for an
    item of the type and arity of the pattern, the product over its
    children. *)
Definition item_count (memo : list Group) (p : Pattern) (item : Operator) : nat :=
  if decide (type item = Type_ p ∧ length (GetChildren item) = length (Children p))
  then foldr Nat.mul 1 (child_count memo <$> zip (GetChildren item) (Children p))
  else 0.

(** An item iterator that has handed out a binding and may have more: its
    node holds the children that the positions select. *)
Definition running (o : Operator) (it : ItemBindingIterator) (s : State) : Prop :=
  has_next it = true ∧ first it = false ∧ positions_valid it
  ∧ plan_nodes s !! current_binding it
    = Some (mkOpPlanNode o (pick (children_bindings it) (children_bindings_pos it))).

(** A plan node without children. *)
Definition bare (s : State) (c : loc) : Prop :=
  ∃ o, plan_nodes s !! c = Some (mkOpPlanNode o []).

End Binding.

(** * Memory pool helpers ([src/backend/common/pool.h]) *)

Module Pool.

Local Open Scope Z_scope.

(** A value of an unsigned integer type of [bits] bits. *)
Definition wrap (bits z : Z) : Z := z mod 2 ^ bits.

(** The loop of [nexthigher]:
    [for (uint i = 1; i < sizeof(T) * CHAR_BIT; i <<= 1) k = k | k >> i;]
    one iteration per unit of fuel. *)
Fixpoint smear (fuel : nat) (bits i k : Z) : Z :=
  match fuel with
  | O => k
  | S fuel =>
      if i <? bits then smear fuel bits (Z.shiftl i 1) (Z.lor k (Z.shiftr k i))
      else k
  end.

(** [nexthigher<T>(k)] ("find next higher power of two") for an unsigned
    type [T] of [bits] bits: [k--] and [k + 1] wrap around.  The loop
    variable doubles at every iteration, so [bits] units of fuel are more
    than the loop takes. *)
Definition nexthigher (bits k : Z) : Z :=
  if k =? 0 then 1
  else
    let k := wrap bits (k - 1) in
    let k := smear (Z.to_nat bits) bits 1 k in
    wrap bits (k + 1).

(** The bits of [k] from [L] down to (but not including) [L - w] are set,
    and none above [L]. *)
Definition run (L w k : Z) : Prop :=
  0 ≤ k < 2 ^ (L + 1)
  ∧ ∀ j, 0 ≤ j → L - w < j ≤ L → Z.testbit k j = true.

End Pool.

(** * Concrete inputs *)

Module Scenarios.
Import Storage.

(** Scenario S1: capacity two, three rows. *)
Definition S1_schema : Schema :=
  [mkColumn VALUE_TYPE_INTEGER false; mkColumn VALUE_TYPE_VARCHAR true].

Definition S1_rows : list Tuple :=
  [[ValInteger 1; ValVarlen "a"];
   [ValInteger 2; ValVarlen "b"];
   [ValInteger 3; ValVarlen "c"]].

(** Scenario S2: four integer columns in row layout, five rows
    [(10+i, 20+i, 30+i, 40+i)], and a default partition that splits the
    columns over two tiles. *)
Definition S2_schema : Schema := replicate 4 (mkColumn VALUE_TYPE_INTEGER false).

Definition S2_row (i : Z) : Tuple :=
  [ValInteger (10 + i); ValInteger (20 + i); ValInteger (30 + i); ValInteger (40 + i)].

Definition S2_partition : gmap nat (nat * nat) :=
  list_to_map [(0, (0, 0)); (1, (0, 1)); (2, (1, 0)); (3, (1, 1))].

Definition S2_world (partitioning : gmap nat (nat * nat)) : option World :=
  w ← DataTable_new LAYOUT_ROW false (λ _, ∅) S2_schema "S2" 1 1 5 false
        (mkManager 0 ∅);
  w ← insert_tuples LAYOUT_ROW false (λ _, ∅) 2
        (S2_row <$> [0; 1; 2; 3; 4]%Z) w;
  Some (with_table (set_default_partition partitioning) w).

(** A table of two columns stored one column per tile, whose default
    partition has since been replaced by one that swaps the two tiles:
    every column is placed elsewhere. *)
Definition swapped_partition : gmap nat (nat * nat) :=
  list_to_map [(0, (1, 0)); (1, (0, 0))].

Definition swapped_world : option World :=
  w ← DataTable_new LAYOUT_COLUMN false (λ _, ∅)
        (replicate 2 (mkColumn VALUE_TYPE_INTEGER false)) "W" 1 1 2 true
        (mkManager 0 ∅);
  w ← insert_tuples LAYOUT_COLUMN false (λ _, ∅) 2
        [[ValInteger 1; ValInteger 2]] w;
  Some (with_table (set_default_partition swapped_partition) w).

(** A table of four rows in two tile groups of capacity two, with a
    materialized sample of the whole table and cardinalities computed. *)
Definition sampled_schema : Schema :=
  [mkColumn VALUE_TYPE_INTEGER false; mkColumn VALUE_TYPE_INTEGER false].

Definition sampled_rows : list Tuple :=
  [[ValInteger 0; ValInteger 0]; [ValInteger 1; ValInteger 1];
   [ValInteger 2; ValInteger 0]; [ValInteger 3; ValInteger 1]].

Definition four_rows : option World :=
  w ← DataTable_new LAYOUT_ROW false (λ _, ∅) sampled_schema "T" 1 1 2 false
        (mkManager 0 ∅);
  insert_tuples LAYOUT_ROW false (λ _, ∅) 2 sampled_rows w.

Definition sampled_world : option World :=
  w ← four_rows;
  r ← SampleRows (λ _ _, true) (λ k, k) w 4;
  w ← MaterializeSample r.2;
  w ← ComputeTableCardinality w 0;
  ComputeTableCardinality w 1.

(** A slot is visible when it has been claimed in its tile group. *)
Definition claimed_slot_visible (h : TileGroupHeader) (slot : nat) : bool :=
  bool_decide (slot < next_tuple_slot h).

(** The table of four rows with a primary key index on column 0 and an
    index of the default type on column 1. *)
Definition primary_index : Index :=
  mkIndex 1 INDEX_CONSTRAINT_TYPE_PRIMARY_KEY [0] [] 0.

Definition secondary_index : Index :=
  mkIndex 2 INDEX_CONSTRAINT_TYPE_DEFAULT [1] [] 0.

Definition indexed_world : option World :=
  w ← four_rows;
  Some (with_table
          (λ t, (AddIndex secondary_index
                   (AddIndex primary_index (t, mkIndexStats false 0))).1) w).

(** The table of four rows, sampled in full. *)
Definition drawn_world : option World :=
  w ← four_rows;
  r ← SampleRows (λ _ _, true) (λ k, k) w 4;
  Some r.2.

(** The same with the sample materialized. *)
Definition materialized_world : option World :=
  w ← drawn_world;
  MaterializeSample w.

(** A table of two rows to which a tile group is added under the id 2,
    ahead of the oid counter, and filled with two more rows. *)
Definition ahead_world : option World :=
  w ← DataTable_new LAYOUT_ROW false (λ _, ∅) sampled_schema "T" 1 1 2 false
        (mkManager 0 ∅);
  w ← insert_tuples LAYOUT_ROW false (λ _, ∅) 2 (take 2 sampled_rows) w;
  r ← AddTileGroupWithOid w 2;
  insert_tuples LAYOUT_ROW false (λ _, ∅) 2 (drop 2 sampled_rows) r.2.

End Scenarios.

(** ** Memos, patterns and rules of the scenarios *)

Module BindingScenarios.
Import Binding.

(** A memo whose groups hold the given items, none of them explored. *)
Definition memo_of (gs : list (list Operator)) : list Group :=
  (λ l, mkGroup l (replicate (length l) false)) <$> gs.

Definition initial_state (gs : list (list Operator)) (rs : list Rule) : State :=
  mkState (memo_of gs) rs [] [].

(** An optimizer without effective rules. *)
Definition no_rule (m : list Group) (id : GroupID) (i : nat) (r : Rule)
  : list Group := m.

(** Scenario S5: a join of a group of two [Get]s and a group of three. *)
Definition S5_memo : list (list Operator) :=
  [[LogicalInnerJoin 1 2];
   [LogicalGet 0; LogicalGet 1];
   [LogicalGet 10; LogicalGet 11; LogicalGet 12]].

Definition join_of_gets : Pattern :=
  mkPattern InnerJoin [mkPattern Get []; mkPattern Get []].

(** A pattern of depth three over a chain of three groups. *)
Definition chain_memo : list (list Operator) :=
  [[LogicalProject 1]; [LogicalFilter 2]; [LogicalGet 0]].

Definition project_filter_leaf : Pattern :=
  mkPattern Project [mkPattern Filter [mkPattern Leaf []]].

(** A filter over a group of two [Get]s. *)
Definition filter_memo : list (list Operator) :=
  [[LogicalFilter 1]; [LogicalGet 0; LogicalGet 1]].

Definition filter_of_get : Pattern := mkPattern Filter [mkPattern Get []].

Definition leaf_pattern : Pattern := mkPattern Leaf [].

(** [add_item]: a new item of a group, not explored, unless the group has
    it already. *)
Definition add_item (id : GroupID) (o : Operator) (m : list Group) : list Group :=
  match m !! id with
  | Some g =>
      if decide (o ∈ items g) then m
      else <[id := mkGroup (items g ++ [o]) (explored g ++ [false])]> m
  | None => m
  end.

(** Scenario S6: the rule that rewrites [Filter(Filter(x))] to [Filter(x)].
    Exploring an item [Filter(c)] adds to its group every [Filter(x)] found
    in group [c]. *)
Definition filter_merge (m : list Group) (id : GroupID) (i : nat) (r : Rule)
  : list Group :=
  match m !! id ≫= λ g, items g !! i with
  | Some (LogicalFilter c) =>
      foldl (λ m o, match o with
                    | LogicalFilter x => add_item id (LogicalFilter x) m
                    | _ => m
                    end)
            m (default [] (items <$> m !! c))
  | _ => m
  end.

(** A rule whose exploration creates a group: the memo records the result
    of the rewrite in a group of its own. *)
Definition add_group (m : list Group) (id : GroupID) (i : nat) (r : Rule)
  : list Group :=
  m ++ [mkGroup [LogicalGet 0] [false]].

Definition S6_memo : list (list Operator) :=
  [[LogicalFilter 1]; [LogicalFilter 2]; [LogicalGet 0]].

Definition filter_of_leaf : Pattern := mkPattern Filter [mkPattern Leaf []].

(** A memo whose groups hold the given items, all of them explored. *)
Definition explored_memo (gs : list (list Operator)) : list Group :=
  (λ l, mkGroup l (replicate (length l) true)) <$> gs.

Definition explored_state (gs : list (list Operator)) (rs : list Rule) : State :=
  mkState (explored_memo gs) rs [] [].

End BindingScenarios.

(** * Doubles *)

Module DoubleFacts.
Import Storage.

Lemma iter_pos_nat {A} (f : A → A) (n : positive) (x : A) :
  SpecFloat.iter_pos f n x = Nat.iter (Pos.to_nat n) f x.
Proof.
  revert x. induction n as [n IH|n IH|]; intros x; cbn [SpecFloat.iter_pos].
  - rewrite !IH. rewrite <- Nat.iter_succ_r, <- Nat.iter_add. f_equal. lia.
  - rewrite !IH. rewrite <- Nat.iter_add. f_equal. lia.
  - done.
Qed.

(** A shift to the right by fewer places than the number has digits leaves
    a positive number. *)
Lemma shr_1_pos (k : nat) (r : shr_record) :
  (∃ p, shr_m r = Z.pos p ∧ S k < Pos.to_nat (digits2_pos p)) →
  ∃ p, shr_m (shr_1 r) = Z.pos p ∧ k < Pos.to_nat (digits2_pos p).
Proof.
  intros (p & Hm & Hd). destruct r as [m b s]. simpl in Hm. subst m.
  destruct p as [p|p|]; simpl in *.
  - exists p. split; [done|]. lia.
  - exists p. split; [done|]. lia.
  - lia.
Qed.

Lemma shr_iter_pos (n : nat) : ∀ (k : nat) (r : shr_record),
  (∃ p, shr_m r = Z.pos p ∧ n + k < Pos.to_nat (digits2_pos p)) →
  ∃ p, shr_m (Nat.iter n shr_1 r) = Z.pos p ∧ k < Pos.to_nat (digits2_pos p).
Proof.
  induction n as [|n IH]; intros k r H; simpl; [done|].
  apply shr_1_pos. apply IH. destruct H as (p & ? & ?). exists p. split; [done|lia].
Qed.

Lemma shr_fexp_pos (p : positive) (e : Z) (l : location) :
  (-1021 ≤ e)%Z →
  ∃ q e', shr_m (shr_fexp double_prec double_emax (Z.pos p) e l).1 = Z.pos q
          ∧ (shr_fexp double_prec double_emax (Z.pos p) e l).2 = e' ∧ (-1021 ≤ e')%Z.
Proof.
  intros He. unfold shr_fexp, shr, fexp, SpecFloat.emin, double_prec, double_emax. simpl Zdigits2.
  set (d := Z.pos (digits2_pos p)).
  assert (Hd : (1 ≤ d)%Z) by (unfold d; lia).
  replace (Z.max (d + e - 53) (3 - 1024 - 53) - e)%Z with (d - 53)%Z by lia.
  destruct (d - 53)%Z as [|n|n] eqn:Hn.
  - exists p, e. by destruct l as [|[]].
  - rewrite iter_pos_nat. simpl.
    destruct (shr_iter_pos (Pos.to_nat n) 0 (shr_record_of_loc (Z.pos p) l))
      as (q & Hq & _).
    { exists p. split; [by destruct l as [|[]]|].
      assert (Z.pos n < d)%Z by lia. unfold d in *. lia. }
    exists q, (e + Z.pos n)%Z. split; [done|]. split; [done|lia].
  - exists p, e. by destruct l as [|[]].
Qed.

Lemma binary_round_aux_pos (sx : bool) (p : positive) (e : Z) (l : location) :
  (-1021 ≤ e)%Z →
  match binary_round_aux double_prec double_emax sx (Z.pos p) e l with
  | S754_finite s _ _ | S754_infinity s => s = sx
  | _ => False
  end.
Proof.
  intros He. unfold binary_round_aux.
  destruct (shr_fexp_pos p e l He) as (q & e' & Hq & He' & Hge).
  destruct (shr_fexp double_prec double_emax (Z.pos p) e l) as [mrs1 e1]. simpl in Hq, He'. subst e1.
  assert (Hr : ∃ q', round_nearest_even (shr_m mrs1) (loc_of_shr_record mrs1) = Z.pos q').
  { rewrite Hq. unfold round_nearest_even.
    destruct (loc_of_shr_record mrs1) as [|[]].
    - by eexists.
    - destruct (Z.even _); [by eexists|]. exists (q + 1)%positive. reflexivity.
    - by eexists.
    - exists (q + 1)%positive. reflexivity. }
  destruct Hr as [q' ->].
  destruct (shr_fexp_pos q' e' loc_Exact Hge) as (q2 & e2 & Hq2 & He2 & _).
  destruct (shr_fexp double_prec double_emax (Z.pos q') e' loc_Exact) as [mrs2 e2']. simpl in Hq2, He2.
  rewrite Hq2. by destruct (_ <=? _)%Z.
Qed.

Lemma double_of_nat_pos (n : nat) :
  0 < n →
  match double_of_nat n with
  | S754_finite s _ _ | S754_infinity s => s = false
  | _ => False
  end.
Proof.
  intros Hn. unfold double_of_nat, binary_normalize.
  destruct (Z.of_nat n) as [|m|m] eqn:Hz; [lia| |lia].
  unfold binary_round, shl_align, fexp, SpecFloat.emin, double_prec, double_emax.
  set (d := Z.pos (digits2_pos m)).
  assert (Hd : (1 ≤ d)%Z) by (unfold d; lia).
  replace (Z.max (d + 0 - 53) (3 - 1024 - 53) - 0)%Z with (d - 53)%Z by lia.
  destruct (d - 53)%Z eqn:Hs.
  - apply binary_round_aux_pos. lia.
  - apply binary_round_aux_pos. lia.
  - apply (binary_round_aux_pos false). lia.
Qed.

(** Zero divided by the double of a count is zero, unless the count is
    zero: then it is not a number. *)
Lemma zero_div_double_of_nat (n : nat) :
  double_div (double_of_nat 0) (double_of_nat n)
  = if decide (n = 0) then S754_nan else S754_zero false.
Proof.
  case_decide as Hn; [by subst|].
  pose proof (double_of_nat_pos n ltac:(lia)) as H.
  change (double_of_nat 0) with (S754_zero false). unfold double_div.
  destruct (double_of_nat n) as [?|?| |? ? ?]; try done; simpl in *; by subst.
Qed.

(** A finite double divided by itself is one. *)
Lemma double_div_diag (s : bool) (m : positive) (e : Z) :
  double_div (S754_finite s m e) (S754_finite s m e) = double_of_nat 1.
Proof.
  unfold double_div, SFdiv, SFdiv_core_binary.
  set (dd := Zdigits2 (Z.pos m)).
  replace (dd + e - (dd + e))%Z with 0%Z by lia.
  replace (e - e)%Z with 0%Z by lia.
  change (Z.min (fexp double_prec double_emax 0) 0) with (-53)%Z.
  change (0 - -53)%Z with 53%Z. cbv beta iota zeta.
  assert (Hdiv : Z.div_eucl (Z.shiftl (Z.pos m) 53) (Z.pos m) = (2 ^ 53, 0)%Z).
  { rewrite Z.shiftl_mul_pow2 by lia.
    pose proof (Z.div_eucl_eq (Z.pos m * 2 ^ 53) (Z.pos m) ltac:(lia)) as Heq.
    pose proof (Z.mod_pos_bound (Z.pos m * 2 ^ 53) (Z.pos m) ltac:(lia)) as Hb.
    unfold Z.modulo in Hb.
    destruct (Z.div_eucl (Z.pos m * 2 ^ 53) (Z.pos m)) as [q r].
    assert (Hq : q = (2 ^ 53)%Z) by nia.
    subst q. f_equal. lia. }
  rewrite Hdiv. unfold new_location, new_location_even, new_location_odd.
  change (0 =? 0)%Z with true. rewrite xorb_nilpotent.
  destruct (Z.even (Z.pos m)); vm_compute; reflexivity.
Qed.

(** The double of a count divided by itself is one, or not a number: in
    both cases it is not below one. *)
Lemma double_of_nat_div_diag (n : nat) :
  double_lt (double_div (double_of_nat n) (double_of_nat n)) (double_of_nat 1)
  = false.
Proof.
  destruct (decide (n = 0)) as [->|Hn]; [done|].
  pose proof (double_of_nat_pos n ltac:(lia)) as H.
  destruct (double_of_nat n) as [?|?| |s m e]; try done.
  by rewrite double_div_diag.
Qed.

End DoubleFacts.

(** * Properties of the table engine *)

Module StorageFacts.
Import Storage Scenarios DoubleFacts.

Lemma CopyTuple_from_frame tuple : ∀ tg column_itr slot tg',
  CopyTuple_from tg tuple column_itr slot = Some tg' →
  tile_group_header tg' = tile_group_header tg
  ∧ num_tuple_slots tg' = num_tuple_slots tg
  ∧ tile_group_id tg' = tile_group_id tg
  ∧ column_map tg' = column_map tg.
Proof.
  induction tuple as [|v rest IH]; intros tg c s tg' H; simpl in H.
  - by simplify_eq.
  - destruct (LocateTileAndColumn tg c) as [[t tc]|] eqn:Hl; simpl in H; [|done].
    destruct (TileGroup_SetValue tg v s t tc) as [tg1|] eqn:Hs; simpl in H; [|done].
    apply IH in H as (-> & -> & -> & ->).
    unfold TileGroup_SetValue in Hs.
    destruct (GetTile tg t); simpl in Hs; [|done].
    destruct (Tile_SetValue v s tc t0); simpl in Hs; [|done].
    by simplify_eq.
Qed.

Lemma TileGroup_InsertTuple_spec tg tuple slot tg' :
  TileGroup_InsertTuple tg tuple = Some (slot, tg') →
  num_tuple_slots tg' = num_tuple_slots tg
  ∧ tile_group_id tg' = tile_group_id tg
  ∧ column_map tg' = column_map tg
  ∧ header_num_tuple_slots (tile_group_header tg')
    = header_num_tuple_slots (tile_group_header tg)
  ∧ match slot with
    | Some s => s = GetNextTupleSlot tg
                ∧ GetNextTupleSlot tg < header_num_tuple_slots (tile_group_header tg)
                ∧ GetNextTupleSlot tg' = S (GetNextTupleSlot tg)
    | None => ¬ GetNextTupleSlot tg < header_num_tuple_slots (tile_group_header tg)
              ∧ tg' = tg
    end.
Proof.
  unfold TileGroup_InsertTuple, GetNextEmptyTupleSlot, GetNextTupleSlot.
  case_decide as Hlt; simpl; intros H.
  - destruct (CopyTuple_from _ _ _ _) as [tg1|] eqn:Hc; simpl in H; [|done].
    simplify_eq. apply CopyTuple_from_frame in Hc as (Hh & Hn & Hi & Hm).
    rewrite Hh, Hn, Hi, Hm. by simpl.
  - by simplify_eq.
Qed.

Section Configuration.
Variable peloton_layout_mode : LayoutType.
Variable peloton_fsm : bool.
Variable hyadapt_column_map : nat → gmap nat (nat * nat).

Abbreviation AddDefaultTileGroup :=
  (AddDefaultTileGroup peloton_layout_mode peloton_fsm hyadapt_column_map).
Abbreviation GetTupleSlot_loop :=
  (GetTupleSlot_loop peloton_layout_mode peloton_fsm hyadapt_column_map).
Abbreviation GetTupleSlot :=
  (GetTupleSlot peloton_layout_mode peloton_fsm hyadapt_column_map).
Abbreviation InsertTuple :=
  (InsertTuple peloton_layout_mode peloton_fsm hyadapt_column_map).
Abbreviation DataTable_new :=
  (DataTable_new peloton_layout_mode peloton_fsm hyadapt_column_map).

Lemma GetTileGroupWithLayout_spec w cmap tg w' :
  GetTileGroupWithLayout w cmap = Some (tg, w') →
  table w' = table w
  ∧ locator (manager w') = locator (manager w)
  ∧ oid (manager w') = S (oid (manager w))
  ∧ tile_group_id tg = S (oid (manager w))
  ∧ num_tuple_slots tg = tuples_per_tilegroup (table w)
  ∧ tile_group_header tg = new_header (tuples_per_tilegroup (table w)).
Proof.
  unfold GetTileGroupWithLayout. simpl.
  destruct (build_tile_schemas _ _); simpl; [|done].
  intros ?; simplify_eq. by simpl.
Qed.

Lemma AddDefaultTileGroup_full c front last w r w' :
  shape c front last c w →
  AddDefaultTileGroup w = Some (r, w') →
  shape c (front ++ [last]) (S (oid (manager w))) 0 w'
  ∧ tuple_count_exact (table w') = tuple_count_exact (table w)
  ∧ indexes (table w') = indexes (table w).
Proof.
  intros (Hc & Hg & Hnd & Hle & Hfront & (tgl & Hl & Hn & Hh & Hr) & _).
  unfold AddDefaultTileGroup.
  destruct (GetTileGroupWithLayout _ _) as [[tg w1]|] eqn:Hw; simpl; [|done].
  apply GetTileGroupWithLayout_spec in Hw as (Ht & Hloc & Hoid & Hid & Hns & Hhd).
  destruct (tile_groups (table w1)) as [|x l] eqn:Hfl.
  { rewrite Ht, Hg in Hfl. by destruct front. }
  clear x l Hfl.
  unfold GetTileGroup, GetTileGroupCount, GetTileGroupById, Manager_GetTileGroup.
  rewrite Ht, Hg, Hloc.
  rewrite length_app, Nat.add_1_r, Nat.sub_1_r, Nat.pred_succ.
  rewrite (lookup_app_r front [last]) by lia.
  rewrite Nat.sub_diag. simpl. rewrite Hl. simpl.
  unfold GetAllocatedTupleCount. rewrite Hr, Hn.
  case_decide; [lia|].
  intros ?; simplify_eq.
  split; [|unfold register_tile_group; simpl; by rewrite Ht].
  assert (Hfresh : S (oid (manager w)) ∉ front ++ [last]).
  { intros Hin. apply Hle in Hin. lia. }
  destruct w1 as [m1 t1]. simpl in Ht, Hloc, Hoid. subst t1.
  unfold shape, register_tile_group, GetTileGroupId, with_manager, with_table. simpl.
  rewrite Hg, Hid, Hoid, Hloc.
  split_and!; try done.
  - apply NoDup_app. split; [done|]. split; [|apply NoDup_singleton].
    intros x Hx Hx'. apply list_elem_of_singleton in Hx'. by subst.
  - intros id Hin. apply elem_of_app in Hin as [Hin|Hin].
    + apply Hle in Hin. lia.
    + apply list_elem_of_singleton in Hin. lia.
  - intros id Hin.
    assert (id ≠ S (oid (manager w))) by (intros ->; done).
    rewrite lookup_insert_ne by done.
    apply elem_of_app in Hin as [Hin|Hin]; [by apply Hfront|].
    apply list_elem_of_singleton in Hin. subst. eauto.
  - exists tg. rewrite lookup_insert_eq. unfold GetNextTupleSlot.
    by rewrite Hhd, Hns.
  - lia.
Qed.

Lemma shape_update_last c front last r w tg' r' :
  shape c front last r w →
  num_tuple_slots tg' = c →
  header_num_tuple_slots (tile_group_header tg') = c →
  GetNextTupleSlot tg' = r' →
  r' ≤ c →
  shape c front last r' (with_manager (Manager_AddTileGroup last tg') w).
Proof.
  intros (Hc & Hg & Hnd & Hle & Hfront & _ & _) Hn Hh Hr Hle'.
  unfold shape, with_manager, Manager_AddTileGroup. simpl.
  split_and!; try done.
  - intros id Hin. rewrite lookup_insert_ne; [by apply Hfront|].
    intros <-. apply NoDup_app in Hnd as (_ & Hnd & _).
    apply (Hnd last Hin). by apply list_elem_of_singleton.
  - exists tg'. by rewrite lookup_insert_eq.
Qed.

Lemma GetTupleSlot_loop_spec fuel : ∀ tuple w c front last r loc w',
  shape c front last r w →
  GetTupleSlot_loop fuel tuple w = Some (loc, w') →
  tuple_count_exact (table w') = tuple_count_exact (table w)
  ∧ indexes (table w') = indexes (table w)
  ∧ ((r < c ∧ shape c front last (S r) w')
     ∨ (r = c ∧ 0 < c ∧ ∃ fresh, shape c (front ++ [last]) fresh 1 w')).
Proof.
  induction fuel as [|fuel IH]; intros tuple w c front last r loc w' Hs H;
    simpl in H; [done|].
  pose proof Hs as (Hc & Hg & Hnd & Hle & Hfront & (tgl & Hl & Hn & Hh & Hr) & Hrc).
  case_decide as Hcount; [|done].
  unfold GetTileGroup, GetTileGroupCount, GetTileGroupById, Manager_GetTileGroup in H.
  rewrite Hg in H.
  rewrite length_app, Nat.add_1_r, Nat.sub_1_r, Nat.pred_succ in H.
  rewrite (lookup_app_r front [last]) in H by lia.
  rewrite Nat.sub_diag in H. simpl in H. rewrite Hl in H. simpl in H.
  destruct (TileGroup_InsertTuple tgl tuple) as [[slot tg']|] eqn:Hins;
    simpl in H; [|done].
  apply TileGroup_InsertTuple_spec in Hins as (Hn' & Hid' & _ & Hh' & Hslot).
  destruct slot as [s|].
  - destruct Hslot as (-> & Hlt & Hnext). simplify_eq. simpl.
    split; [done|]. split; [done|]. left. split; [lia|].
    eapply shape_update_last; eauto; lia.
  - destruct Hslot as (Hfull & ->).
    assert (r = c) as -> by lia.
    assert (Hs' : shape c front last c
                    (with_manager (Manager_AddTileGroup last tgl) w)).
    { eapply shape_update_last; eauto. }
    destruct (AddDefaultTileGroup _) as [[x w1]|] eqn:Hadd; simpl in H; [|done].
    eapply AddDefaultTileGroup_full in Hadd as (Hs1 & Hcnt1 & Hix1); [|exact Hs'].
    eapply IH in H as (Hcnt & Hix & Hcase); [|exact Hs1].
    split; [by rewrite Hcnt, Hcnt1|]. split; [by rewrite Hix, Hix1|].
    right. split; [done|].
    destruct Hcase as [(Hlt & Hsh)|(<- & Hlt & _)]; [|lia].
    split; [done|]. eauto.
Qed.

Lemma InsertTuple_inserted fuel tuple c k w loc w' :
  inserted c k w →
  InsertTuple fuel tuple w = Some (Some loc, w') →
  inserted c (S k) w'.
Proof.
  intros (front & last & r & Hs & Hfr & Hcnt & Hk).
  unfold InsertTuple, GetTupleSlot.
  destruct (CheckConstraints _ _) as [[|]|]; simpl; try done.
  destruct (GetTupleSlot_loop _ _ _) as [[l w1]|] eqn:Hloop; simpl; [|done].
  eapply GetTupleSlot_loop_spec in Hloop as (Hcnt1 & Hix1 & Hcase); [|exact Hs].
  destruct (is_INVALID_OID _); [done|].
  unfold InsertInIndexes.
  destruct (mapM _ _) as [ixs|]; simpl; [|done].
  intros ?; simplify_eq.
  assert (Hframe : ∀ f l r,
    shape c f l r w1 →
    shape c f l r (with_table (λ _,
      set_indexes (fmap (Index_IncreaseNumberOfTuplesBy 1))
        (set_tuple_count_exact S (set_indexes (λ _, ixs) (table w1)))) w1)).
  { intros f l0 r1 Hsh. exact Hsh. }
  destruct Hcase as [(Hlt & Hsh)|(-> & Hlt & fresh & Hsh)].
  - exists front, last, (S r). split; [by apply Hframe|].
    split; [right; lia|]. simpl. split; [by rewrite Hcnt1|lia].
  - exists (front ++ [last]), fresh, 1. split; [by apply Hframe|].
    split; [by right|]. simpl. split; [by rewrite Hcnt1|].
    rewrite length_app. simpl. lia.
Qed.

Lemma DataTable_new_inserted sch name db tbl c adapt m w0 :
  DataTable_new sch name db tbl c adapt m = Some w0 →
  inserted c 0 w0.
Proof.
  unfold DataTable_new.
  destruct (BuildSampleSchema _ _) as [[scm ssl]|]; simpl; [|done].
  unfold Storage.AddDefaultTileGroup.
  destruct (GetTileGroupWithLayout _ _) as [[tg w1]|] eqn:Hw; simpl; [|done].
  apply GetTileGroupWithLayout_spec in Hw as (Ht & Hloc & Hoid & Hid & Hns & Hhd).
  simpl in *. rewrite Ht. simpl.
  intros ?; simplify_eq.
  exists [], (tile_group_id tg), 0.
  destruct w1 as [m1 t1]. simpl in Ht, Hloc, Hoid. subst t1.
  unfold shape, register_tile_group, GetTileGroupId, with_manager, with_table.
  simpl. split_and!; try done; try by left.
  - apply NoDup_singleton.
  - intros id Hin. apply list_elem_of_singleton in Hin. lia.
  - intros id Hin. by apply elem_of_nil in Hin.
  - exists tg. rewrite lookup_insert_eq. unfold GetNextTupleSlot.
    by rewrite Hhd.
  - lia.
Qed.

Lemma insert_tuples_inserted fuel tuples : ∀ c k w w',
  inserted c k w →
  insert_tuples peloton_layout_mode peloton_fsm hyadapt_column_map
    fuel tuples w = Some w' →
  inserted c (k + length tuples) w'.
Proof.
  induction tuples as [|t rest IH]; intros c k w w' Hi H; simpl in H.
  - simplify_eq. simpl. by rewrite Nat.add_0_r.
  - destruct (InsertTuple fuel t w) as [[[loc|] w1]|] eqn:Hins; try done.
    eapply InsertTuple_inserted in Hins; [|exact Hi].
    eapply IH in H; [|exact Hins].
    simpl. by rewrite Nat.add_succ_r.
Qed.

Lemma shape_next_slots c front last r w :
  shape c front last r w →
  next_slots w = Some (replicate (length front) c ++ [r]).
Proof.
  intros (Hc & Hg & Hnd & Hle & Hfront & (tgl & Hl & Hn & Hh & Hr) & Hrc).
  unfold next_slots. rewrite Hg. apply mapM_Some.
  apply Forall2_app.
  - clear Hg Hnd Hle. induction front as [|x front IH]; simpl; [constructor|].
    constructor.
    + destruct (Hfront x) as (tg & Hx & Hnx); [by left|].
      unfold GetTileGroupById, Manager_GetTileGroup. rewrite Hx. simpl.
      by rewrite Hnx.
    + apply IH. intros id Hin. apply Hfront. by right.
  - constructor; [|constructor].
    unfold GetTileGroupById, Manager_GetTileGroup. rewrite Hl. simpl.
    by rewrite Hr.
Qed.

Lemma ceil_div_tile_groups c n r :
  r ≤ c → (n = 0 ∨ 1 ≤ r) →
  max 1 (ceil_div (n * c + r) c) = n + 1.
Proof.
  intros Hrc Hn. unfold ceil_div.
  destruct (decide (c = 0)) as [->|Hc0].
  { assert (r = 0) as -> by lia. destruct Hn as [->|?]; [done|lia]. }
  destruct (decide (r = 0)) as [->|Hr0].
  { destruct Hn as [->|?]; [|lia]. simpl.
    rewrite Nat.div_small by lia. done. }
  replace (n * c + r + c - 1) with ((r - 1) + (n + 1) * c) by lia.
  rewrite Nat.div_add by done.
  rewrite Nat.div_small by lia. lia.
Qed.

(** C1. On a fresh table with per-tile-group capacity [c], after [k]
    successful single-threaded [InsertTuple] calls the [next_slot]s of the
    tile groups sum up to [tuple_count_exact], which is [k], and the table
    holds [max 1 (ceil (k / c))] tile groups. *)
Theorem insert_tuple_slot_count sch name db tbl c adapt m w0 fuel tuples w :
  DataTable_new sch name db tbl c adapt m = Some w0 →
  insert_tuples peloton_layout_mode peloton_fsm hyadapt_column_map
    fuel tuples w0 = Some w →
  ∃ slots,
    next_slots w = Some slots
    ∧ sum_list slots = tuple_count_exact (table w)
    ∧ tuple_count_exact (table w) = length tuples
    ∧ length (tile_groups (table w)) = max 1 (ceil_div (length tuples) c).
Proof.
  intros Hnew Hrun.
  apply DataTable_new_inserted in Hnew.
  eapply insert_tuples_inserted in Hrun; [|exact Hnew].
  destruct Hrun as (front & last & r & Hs & Hfr & Hcnt & Hk).
  simpl in Hcnt, Hk.
  exists (replicate (length front) c ++ [r]).
  split; [by eapply shape_next_slots|].
  split; [|split; [done|]].
  - rewrite sum_list_with_app, sum_list_replicate. simpl. lia.
  - destruct Hs as (_ & Hg & _ & _ & _ & _ & Hrc).
    rewrite Hg, length_app, Hk. simpl.
    rewrite ceil_div_tile_groups; [done|done|].
    destruct Hfr as [->|?]; auto.
Qed.

End Configuration.

Lemma insert_tuple_slot_count_witness :
  ∃ w0 w,
    DataTable_new LAYOUT_ROW false (λ _, ∅) S1_schema "S1" 1 1 2 false
      (mkManager 0 ∅) = Some w0
    ∧ insert_tuples LAYOUT_ROW false (λ _, ∅) 2 S1_rows w0 = Some w
    ∧ next_slots w = Some [2; 1]
    ∧ ∃ slots,
        next_slots w = Some slots
        ∧ sum_list slots = tuple_count_exact (table w)
        ∧ tuple_count_exact (table w) = 3
        ∧ length (tile_groups (table w)) = 2.
Proof.
  eexists. eexists.
  split; [vm_compute; reflexivity|].
  split; [vm_compute; reflexivity|].
  split; [vm_compute; reflexivity|].
  eapply (insert_tuple_slot_count LAYOUT_ROW false (λ _, ∅)
            S1_schema "S1"%string 1 1 2 false (mkManager 0 ∅) _ 2 S1_rows _);
    vm_compute; reflexivity.
Defined.

(** ** Layout transformation *)

Lemma TileGroup_GetValue_cell tg s col :
  TileGroup_GetValue tg s col
  = (p ← column_map tg !! col; cell tg p.1 s p.2).
Proof.
  unfold TileGroup_GetValue, LocateTileAndColumn, cell, GetTile.
  by destruct (column_map tg !! col) as [[t c]|].
Qed.

Lemma Tile_SetValue_get_eq v s c t t' :
  Tile_SetValue v s c t = Some t' → Tile_GetValue t' s c = Some v.
Proof.
  unfold Tile_SetValue, Tile_GetValue.
  destruct (tile_data t !! s) as [row|] eqn:Hrow; simpl; [|done].
  case_decide as Hc; [|done]. intros ?; simplify_eq. simpl.
  rewrite list_lookup_insert_eq by (by eapply lookup_lt_Some). simpl.
  by rewrite list_lookup_insert_eq.
Qed.

Lemma Tile_SetValue_get_ne v s c t t' s' c' :
  Tile_SetValue v s c t = Some t' → (s', c') ≠ (s, c) →
  Tile_GetValue t' s' c' = Tile_GetValue t s' c'.
Proof.
  unfold Tile_SetValue, Tile_GetValue.
  destruct (tile_data t !! s) as [row|] eqn:Hrow; simpl; [|done].
  case_decide as Hc; [|done]. intros ? Hne; simplify_eq. simpl.
  destruct (decide (s' = s)) as [->|Hs].
  - rewrite list_lookup_insert_eq by (by eapply lookup_lt_Some).
    rewrite Hrow. simpl. rewrite list_lookup_insert_ne; [done|congruence].
  - by rewrite list_lookup_insert_ne.
Qed.

Lemma TileGroup_SetValue_frame tg v s t c tg' :
  TileGroup_SetValue tg v s t c = Some tg' →
  column_map tg' = column_map tg
  ∧ tile_group_id tg' = tile_group_id tg
  ∧ cell tg' t s c = Some v
  ∧ ∀ t' s' c', (t', s', c') ≠ (t, s, c) → cell tg' t' s' c' = cell tg t' s' c'.
Proof.
  unfold TileGroup_SetValue, GetTile.
  destruct (tiles tg !! t) as [tile|] eqn:Ht; simpl; [|done].
  destruct (Tile_SetValue v s c tile) as [tile'|] eqn:Hset; simpl; [|done].
  intros ?; simplify_eq. unfold cell. simpl.
  split; [done|]. split; [done|]. split.
  - rewrite list_lookup_insert_eq by (by eapply lookup_lt_Some). simpl.
    by eapply Tile_SetValue_get_eq.
  - intros t' s' c' Hne. destruct (decide (t' = t)) as [->|Hn].
    + rewrite list_lookup_insert_eq by (by eapply lookup_lt_Some).
      rewrite Ht. simpl. eapply Tile_SetValue_get_ne; [done|congruence].
    + by rewrite list_lookup_insert_ne.
Qed.

(** The loop over the rows of one column. *)
Lemma copy_rows_spec orig_tile oc nt nc rows : ∀ new new',
  for_each (λ tuple_itr (new : TileGroup),
              val ← Tile_GetValue orig_tile tuple_itr oc;
              TileGroup_SetValue new val tuple_itr nt nc) rows new = Some new' →
  column_map new' = column_map new
  ∧ tile_group_id new' = tile_group_id new
  ∧ (∀ s, s ∈ rows →
       is_Some (cell new' nt s nc)
       ∧ cell new' nt s nc = Tile_GetValue orig_tile s oc)
  ∧ (∀ t s c, ¬ (t = nt ∧ c = nc ∧ s ∈ rows) → cell new' t s c = cell new t s c).
Proof.
  induction rows as [|x rows IH]; intros new new' H; simpl in H.
  - simplify_eq. split_and!; try done. intros s Hs. by apply elem_of_nil in Hs.
  - destruct (Tile_GetValue orig_tile x oc) as [val|] eqn:Hval; simpl in H; [|done].
    destruct (TileGroup_SetValue new val x nt nc) as [new1|] eqn:Hset;
      simpl in H; [|done].
    apply TileGroup_SetValue_frame in Hset as (Hm1 & Hi1 & Heq1 & Hne1).
    apply IH in H as (Hm & Hi & Hrows & Hframe).
    split; [congruence|]. split; [congruence|]. split.
    + intros s Hs. destruct (decide (s ∈ rows)) as [Hin|Hnin]; [by apply Hrows|].
      apply elem_of_cons in Hs as [->|Hs]; [|done].
      rewrite Hframe by tauto. rewrite Heq1, Hval. eauto.
    + intros t s c Hn. rewrite Hframe.
      * apply Hne1. intros ?; simplify_eq. apply Hn. split_and!; try done. by left.
      * intros (-> & -> & Hs). apply Hn. split_and!; try done. by right.
Qed.

Lemma copy_column_spec orig cap col new new' :
  copy_column orig cap col new = Some new' →
  column_map new' = column_map new
  ∧ tile_group_id new' = tile_group_id new
  ∧ (∃ p, column_map new !! col = Some p
       ∧ ∀ s, s < cap →
           is_Some (cell new' p.1 s p.2)
           ∧ cell new' p.1 s p.2 = TileGroup_GetValue orig s col)
  ∧ (∀ t s c, column_map new !! col ≠ Some (t, c) →
       cell new' t s c = cell new t s c).
Proof.
  unfold copy_column, LocateTileAndColumn, GetTile.
  destruct (column_map orig !! col) as [[ot oc]|] eqn:Ho; simpl; [|done].
  destruct (column_map new !! col) as [[nt nc]|] eqn:Hn; simpl; [|done].
  destruct (tiles orig !! ot) as [orig_tile|] eqn:Hot; simpl; [|done].
  destruct (tiles new !! nt) as [new_tile|] eqn:Hnt; simpl; [|done].
  intros H. apply copy_rows_spec in H as (Hm & Hi & Hrows & Hframe).
  split; [done|]. split; [done|]. split.
  - exists (nt, nc). split; [done|]. intros s Hs. simpl.
    rewrite TileGroup_GetValue_cell, Ho. simpl. unfold cell at 3.
    rewrite Hot. simpl. apply Hrows. apply elem_of_seq. lia.
  - intros t s c Hne. apply Hframe. intros (-> & -> & _). done.
Qed.

(** The loop over the columns. *)
Lemma copy_columns_spec orig cap cols : ∀ new new',
  (∀ c1 c2 p, column_map new !! c1 = Some p → column_map new !! c2 = Some p →
              c1 = c2) →
  for_each (copy_column orig cap) cols new = Some new' →
  column_map new' = column_map new
  ∧ tile_group_id new' = tile_group_id new
  ∧ (∀ col s, col ∈ cols → s < cap →
       is_Some (TileGroup_GetValue new' s col)
       ∧ TileGroup_GetValue new' s col = TileGroup_GetValue orig s col)
  ∧ (∀ t s c, (∀ col, col ∈ cols → column_map new !! col ≠ Some (t, c)) →
       cell new' t s c = cell new t s c).
Proof.
  induction cols as [|x cols IH]; intros new new' Hinj H; simpl in H.
  - simplify_eq. split_and!; try done. intros col s Hc. by apply elem_of_nil in Hc.
  - destruct (copy_column orig cap x new) as [new1|] eqn:Hcol; simpl in H; [|done].
    apply copy_column_spec in Hcol as (Hm1 & Hi1 & (p & Hp & Hcopied) & Hfr1).
    apply IH in H as (Hm & Hi & Hcols & Hframe); [|by rewrite Hm1].
    rewrite Hm1 in Hm, Hframe.
    split; [done|]. split; [congruence|]. split.
    + intros col s Hc Hs.
      destruct (decide (col ∈ cols)) as [Hin|Hnin]; [by apply Hcols|].
      apply elem_of_cons in Hc as [->|Hc]; [|done].
      rewrite TileGroup_GetValue_cell, Hm, Hp. simpl.
      rewrite Hframe; [by apply Hcopied|].
      intros col Hcol Heq. destruct p as [t c]. simpl in Heq.
      assert (col = x) by (eapply Hinj; eauto). by subst.
    + intros t s c Hn. rewrite Hframe.
      * apply Hfr1. apply Hn. by left.
      * intros col Hc. apply Hn. by right.
Qed.

Lemma SetTransformedTileGroup_spec orig new new' :
  (∀ c1 c2 p, column_map new !! c1 = Some p → column_map new !! c2 = Some p →
              c1 = c2) →
  SetTransformedTileGroup orig new = Some new' →
  tile_group_id new' = tile_group_id new
  ∧ tile_group_header new' = tile_group_header orig
  ∧ ∀ s c, s < num_tuple_slots orig → c < size (column_map new) →
      is_Some (TileGroup_GetValue new' s c)
      ∧ TileGroup_GetValue new' s c = TileGroup_GetValue orig s c.
Proof.
  intros Hinj. unfold SetTransformedTileGroup, GetColumnMap, GetAllocatedTupleCount, GetHeader.
  case_decide as Hsize; [|done].
  destruct (for_each _ _ new) as [new1|] eqn:Hloop; simpl; [|done].
  intros ?; simplify_eq.
  apply copy_columns_spec in Hloop as (Hm & Hi & Hcols & _); [|done].
  split; [done|]. split; [done|].
  intros s c Hs Hc.
  assert (Hget : TileGroup_GetValue (set_header new1 (tile_group_header orig)) s c
                 = TileGroup_GetValue new1 s c) by done.
  rewrite Hget. apply Hcols; [|done]. apply elem_of_seq. lia.
Qed.

(** C7. When [TransformTileGroup] performs a transformation, the tile group
    stays registered under the same id in the same place of the table, the
    new tile group carries the old one's id and header (hence [next_slot]),
    and every slot of every column reads the value it had in the old tile
    group.  The default partition places no two columns in the same cell
    (it is a bijection, the table's invariant). *)
Theorem transform_preserves_identity_and_data w offset theta new w' tg_id old :
  TransformTileGroup w offset theta = Some (Some new, w') →
  tile_groups (table w) !! offset = Some tg_id →
  Manager_GetTileGroup tg_id (manager w) = Some old →
  (∀ c1 c2 p, default_partition (table w) !! c1 = Some p →
              default_partition (table w) !! c2 = Some p → c1 = c2) →
  table w' = table w
  ∧ Manager_GetTileGroup tg_id (manager w') = Some new
  ∧ (∀ id, id ≠ tg_id →
       Manager_GetTileGroup id (manager w') = Manager_GetTileGroup id (manager w))
  ∧ GetTileGroupId new = GetTileGroupId old
  ∧ GetHeader new = GetHeader old
  ∧ GetNextTupleSlot new = GetNextTupleSlot old
  ∧ ∀ s c, s < GetAllocatedTupleCount old →
           c < size (default_partition (table w)) →
      is_Some (TileGroup_GetValue new s c)
      ∧ TileGroup_GetValue new s c = TileGroup_GetValue old s c.
Proof.
  intros H Hoff Hold Hinj. unfold TransformTileGroup in H.
  case_decide as Hrange; [done|].
  rewrite Hoff in H. simpl in H. rewrite Hold in H. simpl in H.
  destruct (double_lt _ _); [done|].
  destruct (TransformTileGroupSchema _ _) as [new_schema|]; simpl in H; [|done].
  destruct (SetTransformedTileGroup _ _) as [new1|] eqn:Hset; simpl in H; [|done].
  simplify_eq.
  apply SetTransformedTileGroup_spec in Hset as (Hid & Hhd & Hdata); [|done].
  unfold Manager_GetTileGroup, GetTileGroupId, GetHeader, GetNextTupleSlot,
    GetAllocatedTupleCount. simpl.
  split; [done|]. split; [by rewrite lookup_insert_eq|].
  split; [by intros id Hne; rewrite lookup_insert_ne|].
  split; [done|]. split; [done|]. split; [by rewrite Hhd|].
  apply Hdata.
Qed.

Lemma copy_columns_column_map orig cap cols : ∀ new new',
  for_each (copy_column orig cap) cols new = Some new' →
  column_map new' = column_map new.
Proof.
  induction cols as [|c cols IH]; intros new new' H; simpl in H; [by simplify_eq|].
  destruct (copy_column orig cap c new) as [new1|] eqn:Hc; [|done]. simpl in H.
  apply copy_column_spec in Hc as (Hcm & _). apply IH in H. congruence.
Qed.

Lemma copy_columns_id orig cap cols : ∀ new new',
  for_each (copy_column orig cap) cols new = Some new' →
  tile_group_id new' = tile_group_id new.
Proof.
  induction cols as [|c cols IH]; intros new new' H; simpl in H; [by simplify_eq|].
  destruct (copy_column orig cap c new) as [new1|] eqn:Hc; [|done]. simpl in H.
  apply copy_column_spec in Hc as (_ & Hid & _). apply IH in H. congruence.
Qed.

Lemma differing_columns_same tg :
  differing_columns tg (column_map tg) = [].
Proof.
  unfold differing_columns.
  assert (H : Forall (λ e : nat * (nat * nat), column_map tg !! e.1 = Some e.2)
                (map_to_list (column_map tg))).
  { apply Forall_forall. intros [c p] Hin. by apply elem_of_map_to_list. }
  induction H as [|e l He _ IH]; [done|].
  rewrite filter_cons, decide_False by (by intros Hne; apply Hne). done.
Qed.

(** What [TransformTileGroup] does when the difference is not below the
    threshold: the new tile group is laid out as the default partition
    says, has the id and the header of the old one, and replaces it in the
    catalog. *)
Lemma TransformTileGroup_performed w offset theta tg_id tg r w' :
  tile_groups (table w) !! offset = Some tg_id →
  Manager_GetTileGroup tg_id (manager w) = Some tg →
  double_lt (GetSchemaDifference tg (default_partition (table w))) theta = false →
  TransformTileGroup w offset theta = Some (r, w') →
  ∃ new, r = Some new
    ∧ GetColumnMap new = default_partition (table w)
    ∧ GetTileGroupId new = GetTileGroupId tg
    ∧ GetHeader new = GetHeader tg
    ∧ w' = with_manager (Manager_AddTileGroup tg_id new) w.
Proof.
  intros Hoff Htg Hge H. unfold TransformTileGroup in H.
  case_decide as Hrange; [apply lookup_lt_Some in Hoff; lia|].
  rewrite Hoff in H. simpl in H. rewrite Htg in H. simpl in H. rewrite Hge in H.
  destruct (TransformTileGroupSchema _ _) as [new_schema|]; simpl in H; [|done].
  destruct (SetTransformedTileGroup _ _) as [new1|] eqn:Hset; simpl in H; [|done].
  injection H as <- <-. exists new1. split; [done|].
  unfold SetTransformedTileGroup in Hset. case_decide; [|done].
  destruct (for_each _ _ _) as [n1|] eqn:Hf; [|done]. simpl in Hset.
  injection Hset as <-.
  pose proof (copy_columns_column_map _ _ _ _ _ Hf) as Hcm.
  pose proof (copy_columns_id _ _ _ _ _ Hf) as Hid.
  unfold GetColumnMap, GetTileGroupId, GetHeader. simpl. by rewrite Hcm, Hid.
Qed.

(** C8, as the code has it.  For a tile group of the table, the result of
    [TransformTileGroup] is null, with the process state unchanged, exactly
    when the schema difference is below the threshold; the two are doubles
    and so is their comparison.  When the difference is not below the
    threshold and the call returns, the transformation is performed: the
    result is a new tile group laid out as the default partition says, with
    the id and the header of the old one, which it replaces in the catalog.
    A tile group that is laid out as the default partition says has the
    difference zero: the result is null for every threshold above zero.
    A tile group none of whose columns is where the default partition
    places it has a difference that is not below 1.0: with that threshold
    the result is not null. *)
Theorem transform_null_iff_below_threshold w offset theta tg_id tg :
  tile_groups (table w) !! offset = Some tg_id →
  Manager_GetTileGroup tg_id (manager w) = Some tg →
  (double_lt (GetSchemaDifference tg (default_partition (table w))) theta = true →
     TransformTileGroup w offset theta = Some (None, w))
  ∧ (∀ w', TransformTileGroup w offset theta = Some (None, w') →
       double_lt (GetSchemaDifference tg (default_partition (table w))) theta = true)
  ∧ (double_lt (GetSchemaDifference tg (default_partition (table w))) theta = false →
     ∀ r w', TransformTileGroup w offset theta = Some (r, w') →
       ∃ new, r = Some new
         ∧ GetColumnMap new = default_partition (table w)
         ∧ GetTileGroupId new = GetTileGroupId tg
         ∧ GetHeader new = GetHeader tg
         ∧ w' = with_manager (Manager_AddTileGroup tg_id new) w
         ∧ Manager_GetTileGroup tg_id (manager w') = Some new)
  ∧ (GetColumnMap tg = default_partition (table w) → GetColumnMap tg ≠ ∅ →
     GetSchemaDifference tg (default_partition (table w)) = double_of_nat 0
     ∧ (double_lt (double_of_nat 0) theta = true →
        TransformTileGroup w offset theta = Some (None, w)))
  ∧ (length (differing_columns tg (default_partition (table w)))
     = size (column_map tg) →
     double_lt (GetSchemaDifference tg (default_partition (table w)))
       (double_of_nat 1) = false
     ∧ ∀ w', TransformTileGroup w offset (double_of_nat 1) ≠ Some (None, w')).
Proof.
  intros Hoff Htg.
  assert (Hrange : ¬ length (tile_groups (table w)) ≤ offset).
  { apply lookup_lt_Some in Hoff. lia. }
  assert (Hnull : double_lt (GetSchemaDifference tg (default_partition (table w)))
                    theta = true →
                  TransformTileGroup w offset theta = Some (None, w)).
  { intros Hlt. unfold TransformTileGroup. case_decide; [done|].
    rewrite Hoff. simpl. rewrite Htg. simpl. by rewrite Hlt. }
  split; [exact Hnull|]. split; [|split; [|split]].
  - intros w' H.
    destruct (double_lt _ theta) eqn:Hlt; [done|].
    destruct (TransformTileGroup_performed _ _ _ _ _ _ _ Hoff Htg Hlt H)
      as (new & Hr & _). done.
  - intros Hge r w' H.
    destruct (TransformTileGroup_performed _ _ _ _ _ _ _ Hoff Htg Hge H)
      as (new & -> & Hcm & Hid & Hhd & ->).
    exists new. split_and!; try done.
    unfold Manager_GetTileGroup. simpl. by rewrite lookup_insert_eq.
  - intros Hcm Hne.
    assert (Hd : GetSchemaDifference tg (default_partition (table w))
                 = double_of_nat 0).
    { rewrite <- Hcm. unfold GetSchemaDifference, GetColumnMap.
      rewrite differing_columns_same. simpl length.
      rewrite zero_div_double_of_nat. rewrite decide_False; [done|].
      intros Hz. by apply map_size_empty_iff in Hz. }
    split; [done|]. intros Hlt. apply Hnull. by rewrite Hd.
  - intros Hall.
    assert (Hge : double_lt (GetSchemaDifference tg (default_partition (table w)))
                    (double_of_nat 1) = false).
    { unfold GetSchemaDifference. rewrite Hall. apply double_of_nat_div_diag. }
    split; [done|]. intros w' H.
    destruct (TransformTileGroup_performed _ _ _ _ _ _ _ Hoff Htg Hge H)
      as (new & Hr & _). done.
Qed.

Lemma distinct_cells_injective (m : gmap nat (nat * nat)) :
  NoDup ((map_to_list m).*2) →
  ∀ c1 c2 p, m !! c1 = Some p → m !! c2 = Some p → c1 = c2.
Proof.
  intros Hnd c1 c2 p H1 H2.
  apply elem_of_map_to_list in H1, H2.
  apply list_elem_of_lookup in H1 as [i Hi], H2 as [j Hj].
  assert (i = j) as ->.
  { eapply NoDup_lookup; [exact Hnd| |];
      rewrite list_lookup_fmap; [by rewrite Hi|by rewrite Hj]. }
  congruence.
Qed.

Lemma transform_preserves_identity_and_data_witness :
  ∃ w old new w',
    S2_world S2_partition = Some w
    ∧ TransformTileGroup w 0 (double_of_nat 0) = Some (Some new, w')
    ∧ tile_groups (table w) !! 0 = Some 1
    ∧ Manager_GetTileGroup 1 (manager w) = Some old
    ∧ length (tiles new) = 2
    ∧ TileGroup_GetValue new 3 <$> [0; 1; 2; 3]
      = Some <$> S2_row 3
    ∧ (table w' = table w
       ∧ Manager_GetTileGroup 1 (manager w') = Some new
       ∧ (∀ id, id ≠ 1 →
            Manager_GetTileGroup id (manager w') = Manager_GetTileGroup id (manager w))
       ∧ GetTileGroupId new = GetTileGroupId old
       ∧ GetHeader new = GetHeader old
       ∧ GetNextTupleSlot new = GetNextTupleSlot old
       ∧ ∀ s c, s < GetAllocatedTupleCount old →
                c < size (default_partition (table w)) →
           is_Some (TileGroup_GetValue new s c)
           ∧ TileGroup_GetValue new s c = TileGroup_GetValue old s c).
Proof.
  eexists. eexists. eexists. eexists.
  split; [vm_compute; reflexivity|].
  split; [vm_compute; reflexivity|].
  split; [vm_compute; reflexivity|].
  split; [vm_compute; reflexivity|].
  split; [vm_compute; reflexivity|].
  split; [vm_compute; reflexivity|].
  eapply (transform_preserves_identity_and_data _ 0 (double_of_nat 0)).
  - vm_compute; reflexivity.
  - vm_compute; reflexivity.
  - vm_compute; reflexivity.
  - apply distinct_cells_injective.
    apply (bool_decide_unpack (NoDup _)). vm_compute. exact I.
Defined.

Lemma swapped_world_transformed :
  ∃ w tg new w',
    swapped_world = Some w
    ∧ Manager_GetTileGroup 1 (manager w) = Some tg
    ∧ length (differing_columns tg (default_partition (table w)))
      = size (column_map tg)
    ∧ GetSchemaDifference tg (default_partition (table w)) = double_of_nat 1
    ∧ TransformTileGroup w 0 (double_of_nat 1) = Some (Some new, w').
Proof.
  eexists _, _, _, _.
  split; [vm_compute; reflexivity|].
  split; [vm_compute; reflexivity|].
  split; [vm_compute; reflexivity|].
  split; vm_compute; reflexivity.
Qed.

(** C8 as stated fails: with [theta = 1.0] the result is not always null. *)
Lemma transform_theta_one_not_always_null :
  ¬ (∀ w offset r w',
       TransformTileGroup w offset (double_of_nat 1) = Some (r, w') → r = None).
Proof.
  intros H.
  destruct swapped_world_transformed as (w & tg & new & w' & _ & _ & _ & _ & Ht).
  specialize (H _ _ _ _ Ht). discriminate.
Qed.

Lemma transform_null_iff_below_threshold_witness :
  ∃ w tg,
    S2_world S2_partition = Some w
    ∧ tile_groups (table w) !! 0 = Some 1
    ∧ Manager_GetTileGroup 1 (manager w) = Some tg
    ∧ length (differing_columns tg (default_partition (table w))) = 2
    ∧ size (column_map tg) = 4
    ∧ TransformTileGroup w 0 (double_of_nat 1) = Some (None, w)
    ∧ ((double_lt (GetSchemaDifference tg (default_partition (table w)))
          (double_of_nat 1) = true →
        TransformTileGroup w 0 (double_of_nat 1) = Some (None, w))
       ∧ (∀ w', TransformTileGroup w 0 (double_of_nat 1) = Some (None, w') →
            double_lt (GetSchemaDifference tg (default_partition (table w)))
              (double_of_nat 1) = true)
       ∧ (double_lt (GetSchemaDifference tg (default_partition (table w)))
            (double_of_nat 1) = false →
          ∀ r w', TransformTileGroup w 0 (double_of_nat 1) = Some (r, w') →
            ∃ new, r = Some new
              ∧ GetColumnMap new = default_partition (table w)
              ∧ GetTileGroupId new = GetTileGroupId tg
              ∧ GetHeader new = GetHeader tg
              ∧ w' = with_manager (Manager_AddTileGroup 1 new) w
              ∧ Manager_GetTileGroup 1 (manager w') = Some new)
       ∧ (GetColumnMap tg = default_partition (table w) → GetColumnMap tg ≠ ∅ →
          GetSchemaDifference tg (default_partition (table w)) = double_of_nat 0
          ∧ (double_lt (double_of_nat 0) (double_of_nat 1) = true →
             TransformTileGroup w 0 (double_of_nat 1) = Some (None, w)))
       ∧ (length (differing_columns tg (default_partition (table w)))
          = size (column_map tg) →
          double_lt (GetSchemaDifference tg (default_partition (table w)))
            (double_of_nat 1) = false
          ∧ ∀ w', TransformTileGroup w 0 (double_of_nat 1) ≠ Some (None, w'))).
Proof.
  eexists. eexists.
  split; [vm_compute; reflexivity|].
  split; [vm_compute; reflexivity|].
  split; [vm_compute; reflexivity|].
  split; [vm_compute; reflexivity|].
  split; [vm_compute; reflexivity|].
  split; [vm_compute; reflexivity|].
  eapply (transform_null_iff_below_threshold _ 0 (double_of_nat 1) 1);
    vm_compute; reflexivity.
Defined.

(** ** Sampling *)

Lemma length_ordered (s : gset nat) : length (ordered s) = size s.
Proof. unfold ordered. by rewrite merge_sort_Permutation. Qed.



(** C9, the code at the input where it departs from the claim: capacity 2,
    row id 3.  The row lives in tile group 1 at slot 1, a claimed slot; the
    code hands the row id 3 to the visibility predicate, which is not a
    slot of that tile group, so the row is never sampled. *)
Theorem sample_rows_visibility_slot :
  ∃ w,
    four_rows = Some w
    ∧ draw_visible_per_spec claimed_slot_visible w 3 = Some true
    ∧ draw_visible claimed_slot_visible w 3 = Some false
    ∧ fst <$> SampleRows claimed_slot_visible (λ _, 3) w 1 = Some 0.
Proof.
  eexists. split; [vm_compute; reflexivity|].
  split; [vm_compute; reflexivity|].
  split; vm_compute; reflexivity.
Qed.

(** The argument handed to [IsVisible] is the row id itself, for every
    draw. *)
Lemma draw_visible_argument IsVisible w row_id tg :
  tuples_per_tilegroup (table w) ≠ 0 →
  GetTileGroup w (row_id / tuples_per_tilegroup (table w)) = Some tg →
  draw_visible IsVisible w row_id = Some (IsVisible (GetHeader tg) row_id).
Proof.
  intros Hc Htg. unfold draw_visible. case_decide; [done|].
  by rewrite Htg.
Qed.

End StorageFacts.

(** * Properties of the binding iterators *)

Module OdometerFacts.
Import Binding.

Lemma odometer_zeros rs :
  Forall (λ r, 0 < r) rs →
  odometer rs = replicate (length rs) 0 :: rest rs (replicate (length rs) 0).
Proof.
  induction 1 as [|r rs Hr _ IH]; [done|].
  simpl. destruct r as [|r]; [lia|].
  simpl. rewrite IH at 1. simpl. by rewrite Nat.sub_0_r.
Qed.

Lemma Forall2_lt_pos pos rs : Forall2 lt pos rs → Forall (λ r, 0 < r) rs.
Proof. induction 1; constructor; [lia|done]. Qed.

Lemma incr_rest rs : ∀ pos,
  Forall2 lt pos rs →
  match incr rs pos with
  | Some pos' => rest rs pos = pos' :: rest rs pos' ∧ Forall2 lt pos' rs
  | None => rest rs pos = []
  end.
Proof.
  induction rs as [|r rs IH]; intros pos H; inversion H as [|p ? ps ? Hp Hps]; subst.
  { done. }
  simpl. specialize (IH ps Hps).
  destruct (incr rs ps) as [ps'|].
  - destruct IH as [IH1 IH2]. rewrite IH1. simpl. split; [done|].
    by constructor.
  - rewrite IH. simpl. case_decide as Hlt.
    + replace (r - S p) with (S (r - S (S p))) by lia. simpl.
      rewrite (odometer_zeros rs) at 1 by (by eapply Forall2_lt_pos).
      simpl. rewrite (Forall2_length _ _ _ Hps).
      split; [done|]. constructor; [done|].
      apply Forall2_lt_pos in Hps. clear -Hps.
      induction Hps; simpl; constructor; done.
    + by replace (r - S p) with 0 by lia.
Qed.

Lemma length_odometer rs : length (odometer rs) = foldr Nat.mul 1 rs.
Proof.
  induction rs as [|r rs IH]; [done|]. simpl.
  rewrite <- IH. generalize 0 as a.
  induction r as [|r IHr]; intros a; simpl; [done|].
  rewrite length_app, length_fmap. by rewrite IHr.
Qed.

End OdometerFacts.

Module ItemFacts.
Import Binding OdometerFacts.

(** ** The store of plan nodes *)

Lemma set_node_set_node s l n n' :
  set_node (set_node s l n) l n' = set_node s l n'.
Proof. unfold set_node. simpl. by rewrite list_insert_insert_eq. Qed.

Lemma set_node_lookup s l n :
  l < length (plan_nodes s) → plan_nodes (set_node s l n) !! l = Some n.
Proof. intros. simpl. by apply list_lookup_insert_eq. Qed.

Lemma set_node_id s l n : plan_nodes s !! l = Some n → set_node s l n = s.
Proof.
  intros H. unfold set_node. rewrite list_insert_id by done. by destruct s.
Qed.

Lemma PushChild_spec l c s o ch :
  plan_nodes s !! l = Some (mkOpPlanNode o ch) →
  PushChild l c s = Ok () (set_node s l (mkOpPlanNode o (ch ++ [c]))).
Proof.
  intros H. unfold PushChild, update_node, mbind, M_bind, get_state, must.
  rewrite H. done.
Qed.

Lemma PopChild_spec l s o ch c :
  plan_nodes s !! l = Some (mkOpPlanNode o (ch ++ [c])) →
  PopChild l s = Ok () (set_node s l (mkOpPlanNode o ch)).
Proof.
  intros H. unfold PopChild, update_node, mbind, M_bind, get_state, must.
  rewrite H. simpl.
  destruct (ch ++ [c]) eqn:E; [by destruct ch|].
  rewrite <- E. by rewrite removelast_last.
Qed.

(** ** Positions and combinations *)

Lemma select_pick cb : ∀ pos,
  Forall2 lt pos (length <$> cb) → select cb pos = Some (pick cb pos).
Proof.
  unfold select, pick.
  induction cb as [|l cb IH]; intros pos H; simpl in H;
    inversion H as [|p ? ps ? Hp Hps]; subst.
  { done. }
  simpl. destruct (lookup_lt_is_Some_2 _ _ Hp) as [x Hx]. rewrite Hx. simpl.
  by rewrite (IH ps Hps).
Qed.

Lemma incr_snoc rs : ∀ ps r p,
  length ps = length rs →
  incr (rs ++ [r]) (ps ++ [p])
  = if decide (S p < r) then Some (ps ++ [S p])
    else (λ q, q ++ [0]) <$> incr rs ps.
Proof.
  induction rs as [|r0 rs IH]; intros ps r p Hlen; destruct ps as [|p0 ps];
    simplify_eq/=.
  { by case_decide. }
  rewrite IH by done. case_decide.
  - done.
  - destruct (incr rs ps) as [q|]; simpl; [done|].
    case_decide; [|done]. rewrite length_app. simpl.
    by rewrite Nat.add_1_r, replicate_S_end.
Qed.

Lemma M_bind_Ok {A B : Type} (m : M A) (f : A → M B) s a s' :
  m s = Ok a s' → (m ≫= f) s = f a s'.
Proof. intros H. unfold mbind, M_bind. by rewrite H. Qed.

Lemma must_Some {A : Type} (o : option A) a s : o = Some a → must o s = Ok a s.
Proof. by intros ->. Qed.

(** ** The two loops of [HasNext] *)

Lemma carry_loop_spec cur cb size o : ∀ k pos s ch,
  length cb = size → k ≤ size →
  Forall2 lt pos (length <$> cb) →
  plan_nodes s !! cur = Some (mkOpPlanNode o ch) → length ch = k →
  match incr (take k (length <$> cb)) (take k pos) with
  | Some q =>
      ∃ j, j < k ∧ take j q = take j pos
        ∧ Forall2 lt (q ++ drop k pos) (length <$> cb)
        ∧ carry_loop cur cb size k pos s
          = Ok (size - S j, q ++ drop k pos)
               (set_node s cur (mkOpPlanNode o (take j ch)))
  | None =>
      carry_loop cur cb size k pos s
      = Ok (size, replicate k 0 ++ drop k pos)
           (set_node s cur (mkOpPlanNode o []))
  end.
Proof.
  induction k as [|k IH]; intros pos s ch Hcb Hk Hpos Hnode Hch.
  { simpl. rewrite drop_0. destruct ch; [|done].
    rewrite set_node_id by done. reflexivity. }
  assert (Hlen : length pos = size).
  { apply Forall2_length in Hpos. rewrite length_fmap in Hpos. lia. }
  destruct (lookup_lt_is_Some_2 pos k) as [p Hp]; [lia|].
  destruct (lookup_lt_is_Some_2 cb k) as [l Hl]; [lia|].
  assert (Hpl : p < length l).
  { eapply (Forall2_lookup_lr _ _ _ k) in Hpos; [exact Hpos|done|].
    by rewrite list_lookup_fmap, Hl. }
  rewrite (take_S_r pos k p) by done.
  rewrite (take_S_r (length <$> cb) k (length l))
    by (by rewrite list_lookup_fmap, Hl).
  rewrite incr_snoc by (rewrite !length_take, length_fmap; lia).
  destruct ch as [|c ch _] using rev_ind; [done|].
  rewrite length_app in Hch. simpl in Hch.
  assert (Hcur : cur < length (plan_nodes s)) by (by eapply lookup_lt_Some).
  simpl carry_loop.
  rewrite (M_bind_Ok _ _ _ _ _ (PopChild_spec _ _ _ _ _ Hnode)).
  rewrite (M_bind_Ok _ _ _ _ _ (must_Some _ _ _ Hl)).
  rewrite (M_bind_Ok _ _ _ _ _ (must_Some _ _ _ Hp)).
  case_decide as Hlt.
  - exists k. split; [lia|]. split.
    { by rewrite take_app_length' by (rewrite length_take; lia). }
    rewrite <- app_assoc. simpl. rewrite <- insert_take_drop by lia.
    split.
    + rewrite <- (list_insert_id (length <$> cb) k (length l))
        by (by rewrite list_lookup_fmap, Hl).
      by apply Forall2_insert.
    + by rewrite take_app_length' by lia.
  - rewrite list_insert_insert_eq.
    assert (Hpos0 : Forall2 lt (<[k:=0]> pos) (length <$> cb)).
    { rewrite <- (list_insert_id (length <$> cb) k (length l))
        by (by rewrite list_lookup_fmap, Hl).
      apply Forall2_insert; [done|lia]. }
    specialize (IH (<[k:=0]> pos)
                  (set_node s cur (mkOpPlanNode o ch)) ch Hcb ltac:(lia) Hpos0
                  (set_node_lookup _ _ _ Hcur) ltac:(lia)).
    rewrite take_insert_ge in IH by done.
    rewrite drop_insert_ge, Nat.sub_diag in IH by done.
    rewrite (drop_S pos p k) in IH by done. simpl in IH.
    destruct (incr _ _) as [q|]; simpl.
    + destruct IH as (j & Hj & Htake & Hvalid & Hrun).
      exists j. split; [lia|].
      assert (Hq : length q = k).
      { apply Forall2_length in Hvalid.
        rewrite length_app, length_fmap in Hvalid. simpl in Hvalid.
        rewrite length_drop in Hvalid. lia. }
      split.
      { rewrite take_app_le by lia. rewrite Htake.
        by rewrite take_insert_ge by lia. }
      rewrite <- app_assoc. simpl. split; [done|].
      rewrite Hrun, set_node_set_node.
      by rewrite (take_app_le ch) by lia.
    + rewrite IH, set_node_set_node.
      assert (Hz : ∀ X : list nat, replicate k 0 ++ 0 :: X = 0 :: replicate k 0 ++ X).
      { intros X. clear. induction k; simpl; [done|]. by f_equal. }
      by rewrite Hz.
Qed.

Lemma length_pick cb pos :
  Forall2 lt pos (length <$> cb) → length (pick cb pos) = length cb.
Proof.
  intros H. apply Forall2_length in H. rewrite length_fmap in H.
  unfold pick. rewrite length_zip_with. lia.
Qed.

Lemma replay_spec cur cb pos o : ∀ n idx s ch,
  Forall2 lt pos (length <$> cb) → idx + n ≤ length cb →
  plan_nodes s !! cur = Some (mkOpPlanNode o ch) →
  replay cur cb pos idx n s
  = Ok () (set_node s cur (mkOpPlanNode o (ch ++ take n (drop idx (pick cb pos))))).
Proof.
  induction n as [|n IH]; intros idx s ch Hpos Hn Hnode.
  { simpl. rewrite app_nil_r. by rewrite set_node_id by done. }
  assert (Hlen : length pos = length cb).
  { apply Forall2_length in Hpos. by rewrite length_fmap in Hpos. }
  destruct (lookup_lt_is_Some_2 pos idx) as [p Hp]; [lia|].
  destruct (lookup_lt_is_Some_2 cb idx) as [l Hl]; [lia|].
  assert (Hpl : p < length l).
  { eapply (Forall2_lookup_lr _ _ _ idx) in Hpos; [exact Hpos|done|].
    by rewrite list_lookup_fmap, Hl. }
  destruct (lookup_lt_is_Some_2 l p Hpl) as [b Hb].
  assert (Hcur : cur < length (plan_nodes s)) by (by eapply lookup_lt_Some).
  simpl replay.
  rewrite (M_bind_Ok _ _ _ _ _ (must_Some _ _ _ Hl)).
  rewrite (M_bind_Ok _ _ _ _ _ (must_Some _ _ _ Hp)).
  rewrite (M_bind_Ok _ _ _ _ _ (must_Some _ _ _ Hb)).
  rewrite (M_bind_Ok _ _ _ _ _ (PushChild_spec _ b _ _ _ Hnode)).
  rewrite (IH (S idx) _ (ch ++ [b])); [|done|lia|by apply set_node_lookup].
  rewrite set_node_set_node, <- app_assoc. simpl.
  assert (Hpick : pick cb pos !! idx = Some b).
  { unfold pick. rewrite lookup_zip_with, Hl. simpl. rewrite Hp. simpl.
    by rewrite Hb. }
  by rewrite (drop_S _ _ _ Hpick).
Qed.

(** A call of [HasNext] after the first one moves the odometer by one step
    and leaves the selected combination in the current binding; when the
    odometer overflows, the current binding is left without children. *)
Lemma HasNext_step it s o :
  has_next it = true → first it = false → positions_valid it →
  plan_nodes s !! current_binding it
  = Some (mkOpPlanNode o (pick (children_bindings it) (children_bindings_pos it))) →
  match incr (length <$> children_bindings it) (children_bindings_pos it) with
  | Some pos' =>
      positions_valid (set_children_bindings_pos pos' it)
      ∧ ItemBindingIterator_HasNext it s
        = Ok (true, set_children_bindings_pos pos' it)
             (set_node s (current_binding it)
                (mkOpPlanNode o (pick (children_bindings it) pos')))
  | None =>
      ItemBindingIterator_HasNext it s
      = Ok (false,
            set_has_next false
              (set_children_bindings_pos
                 (replicate (length (children_bindings_pos it)) 0) it))
           (set_node s (current_binding it) (mkOpPlanNode o []))
  end.
Proof.
  destruct it as [gid idx p fst hn cur cb pos]. simpl.
  intros -> -> Hpos Hnode. unfold positions_valid in *. simpl in *.
  assert (Hlen : length pos = length cb).
  { apply Forall2_length in Hpos. by rewrite length_fmap in Hpos. }
  pose proof (carry_loop_spec cur cb (length pos) o (length pos) pos s
                (pick cb pos) (eq_sym Hlen) (le_n _) Hpos Hnode) as Hc.
  rewrite length_pick in Hc by done. specialize (Hc (eq_sym Hlen)).
  rewrite (take_ge (length <$> cb)) in Hc by (rewrite length_fmap; lia).
  rewrite (take_ge pos), (drop_ge pos) in Hc by lia.
  unfold ItemBindingIterator_HasNext. cbn -[replay carry_loop].
  destruct (incr (length <$> cb) pos) as [q|].
  - destruct Hc as (j & Hj & Htake & Hvalid & Hrun).
    rewrite app_nil_r in Hvalid, Hrun. split; [done|].
    rewrite (M_bind_Ok _ _ _ _ _ Hrun).
    case_decide as Hi; [lia|].
    assert (Hcur : cur < length (plan_nodes s)) by (by eapply lookup_lt_Some).
    erewrite M_bind_Ok;
      [|apply (replay_spec cur cb q o _ _ _ (take j (pick cb pos)));
        [done|lia|by apply set_node_lookup]].
    replace (length pos - 1 - (length pos - S j)) with j by lia.
    rewrite set_node_set_node.
    replace (take j (pick cb pos)) with (take j (pick cb q)).
    2:{ unfold pick. rewrite !zip_with_take. by rewrite Htake. }
    rewrite (take_ge (drop j _)) by (rewrite length_drop, length_pick by done; lia).
    by rewrite take_drop.
  - rewrite app_nil_r in Hc. rewrite (M_bind_Ok _ _ _ _ _ Hc).
    case_decide; [|done]. done.
Qed.

Lemma odometer_valid rs : Forall (λ q, Forall2 lt q rs) (odometer rs).
Proof.
  induction rs as [|r rs IH]; simpl.
  { repeat constructor. }
  apply Forall_forall. intros q Hq.
  apply list_elem_of_bind in Hq as (i & Hq & Hi).
  apply elem_of_seq in Hi.
  apply list_elem_of_fmap in Hq as (q' & -> & Hq').
  constructor; [lia|]. by eapply Forall_forall in IH.
Qed.

Lemma rest_valid rs pos :
  Forall2 lt pos rs → Forall (λ q, Forall2 lt q rs) (rest rs pos).
Proof.
  intros H. pose proof (odometer_valid rs) as Hall.
  revert pos H. induction rs as [|r rs IH]; intros pos H;
    inversion H as [|p ? ps ? Hp Hps]; subst; simpl.
  { constructor. }
  apply Forall_app. split.
  - apply Forall_fmap. eapply Forall_impl.
    + apply IH; [apply odometer_valid|done].
    + intros q Hq. simpl. by constructor.
  - apply Forall_forall. intros q Hq.
    apply list_elem_of_bind in Hq as (i & Hq & Hi).
    apply elem_of_seq in Hi.
    apply list_elem_of_fmap in Hq as (q' & -> & Hq').
    constructor; [lia|].
    pose proof (odometer_valid rs) as Hv. by eapply Forall_forall in Hv.
Qed.

(** The yields of an iterator that has delivered its first binding: the
    combinations after the current one, in the odometer's order. *)
Lemma item_yields_rest fuel : ∀ it s o acc,
  has_next it = true → first it = false → positions_valid it →
  plan_nodes s !! current_binding it
  = Some (mkOpPlanNode o (pick (children_bindings it) (children_bindings_pos it))) →
  length (rest (length <$> children_bindings it) (children_bindings_pos it)) < fuel →
  item_yields fuel it acc s
  = Ok (acc ++ ((λ q, (q, Some (mkOpPlanNode o (pick (children_bindings it) q))))
                  <$> rest (length <$> children_bindings it)
                        (children_bindings_pos it)))
       (set_node s (current_binding it) (mkOpPlanNode o [])).
Proof.
  induction fuel as [|fuel IH]; intros it s o acc Hn Hf Hv Hnode Hfuel; [lia|].
  assert (Hcur : current_binding it < length (plan_nodes s))
    by (by eapply lookup_lt_Some).
  pose proof (HasNext_step it s o Hn Hf Hv Hnode) as Hstep.
  pose proof (incr_rest _ _ Hv) as Hrest.
  simpl item_yields.
  destruct (incr _ _) as [pos'|].
  - destruct Hstep as [Hv' Hstep]. destruct Hrest as [Hrest _].
    rewrite (M_bind_Ok _ _ _ _ _ Hstep). cbn -[item_yields].
    rewrite Hrest in Hfuel |- *. simpl in Hfuel.
    unfold mbind, M_bind, get_state. cbn -[item_yields].
    rewrite list_lookup_insert_eq by done.
    rewrite (IH _ _ o); try done.
    + rewrite set_node_set_node. simpl. by rewrite <- app_assoc.
    + simpl. by apply list_lookup_insert_eq.
    + simpl. lia.
  - rewrite (M_bind_Ok _ _ _ _ _ Hstep). rewrite Hrest. simpl.
    by rewrite app_nil_r.
Qed.

(** The yields of a freshly constructed iterator whose children all have
    bindings: every combination, in the odometer's order. *)
Lemma item_yields_odometer it s o fuel :
  has_next it = true → first it = true →
  children_bindings_pos it = replicate (length (children_bindings it)) 0 →
  Forall (λ l, l ≠ []) (children_bindings it) →
  plan_nodes s !! current_binding it
  = Some (mkOpPlanNode o (pick (children_bindings it) (children_bindings_pos it))) →
  length (odometer (length <$> children_bindings it)) < fuel →
  item_yields fuel it [] s
  = Ok ((λ q, (q, mkOpPlanNode o <$> select (children_bindings it) q))
          <$> odometer (length <$> children_bindings it))
       (set_node s (current_binding it) (mkOpPlanNode o [])).
Proof.
  intros Hn Hf Hpos Hne Hnode Hfuel.
  assert (Hrs : Forall (λ r, 0 < r) (length <$> children_bindings it)).
  { apply Forall_fmap. eapply Forall_impl; [exact Hne|].
    intros [|] ?; simpl; [done|lia]. }
  assert (Hv : positions_valid it).
  { unfold positions_valid. rewrite Hpos.
    rewrite <- (length_fmap length (children_bindings it)).
    clear -Hrs. induction Hrs; simpl; constructor; done. }
  rewrite (odometer_zeros _ Hrs) in Hfuel |- *.
  rewrite length_fmap, <- Hpos in Hfuel |- *. simpl in Hfuel.
  destruct fuel as [|fuel]; [lia|].
  simpl item_yields. unfold ItemBindingIterator_HasNext.
  rewrite Hn, Hf. cbn -[item_yields].
  unfold mbind, M_bind, get_state, mret, M_ret. cbn -[item_yields].
  rewrite Hnode.
  destruct it as [gid idx p fst hn cur cb pos]. simpl in *. subst fst hn.
  rewrite (item_yields_rest fuel _ s o); try done; [|simpl; lia].
  simpl. f_equal. f_equal.
  - by rewrite select_pick.
  - apply Forall_fmap_ext_1. eapply Forall_impl; [by apply rest_valid|].
    intros q Hq. simpl. by rewrite select_pick.
Qed.

End ItemFacts.

Module FrameFacts.
Import Binding ItemFacts.

(** ** Which plan nodes a piece of the program can change *)

Lemma frame_refl n s : frame n s s.
Proof. by split. Qed.

Lemma frame_trans n s1 s2 s3 : frame n s1 s2 → frame n s2 s3 → frame n s1 s3.
Proof.
  intros (? & H1 & ?) (? & H2 & ?). split; [lia|]. split; congruence.
Qed.

Lemma frame_le n m s s' : m ≤ n → frame n s s' → frame m s s'.
Proof.
  intros Hm (? & H & ?). split; [done|]. split; [|done].
  rewrite <- (Nat.min_l m n) by done. by rewrite <- !take_take, H.
Qed.

Lemma frame_same_nodes n s s' :
  plan_nodes s' = plan_nodes s → length (groups s') = length (groups s) →
  frame n s s'.
Proof. intros H Hg. split; [by rewrite H|]. split; [by rewrite H|done]. Qed.

Lemma frame_lookup n s s' l :
  frame n s s' → l < n → plan_nodes s' !! l = plan_nodes s !! l.
Proof.
  intros (_ & H & _) Hl.
  rewrite <- (lookup_take_lt _ n l), H by done. by apply lookup_take_lt.
Qed.

Lemma M_bind_inv {A B : Type} (m : M A) (f : A → M B) s b s' :
  (m ≫= f) s = Ok b s' → ∃ a s1, m s = Ok a s1 ∧ f a s1 = Ok b s'.
Proof.
  unfold mbind, M_bind. destruct (m s) as [a s1| |]; [eauto|done|done].
Qed.

Lemma must_inv {A : Type} (o : option A) s a s' :
  must o s = Ok a s' → o = Some a ∧ s' = s.
Proof. destruct o; simpl; intros H; [|done]. by inversion H. Qed.

Lemma mret_inv {A : Type} (a a' : A) s s' :
  (mret a : M A) s = Ok a' s' → a' = a ∧ s' = s.
Proof. intros H. by inversion H. Qed.

Lemma update_node_frame l f s u s' n :
  update_node l f s = Ok u s' → n ≤ l →
  frame n s s' ∧ length (plan_nodes s') = length (plan_nodes s)
  ∧ groups s' = groups s.
Proof.
  unfold update_node. intros H Hn.
  apply M_bind_inv in H as (s0 & s1 & H0 & H). inversion H0; subst.
  apply M_bind_inv in H as (nd & s2 & H1 & H). apply must_inv in H1 as [_ ->].
  apply M_bind_inv in H as (nd' & s3 & H2 & H). apply must_inv in H2 as [_ ->].
  inversion H; subst. simpl. unfold frame. simpl.
  rewrite length_insert. split_and!; try done.
  by rewrite take_insert_ge.
Qed.

Lemma carry_loop_frame cur cb size n : ∀ k pos s r s',
  carry_loop cur cb size k pos s = Ok r s' → n ≤ cur →
  frame n s s' ∧ length (plan_nodes s') = length (plan_nodes s)
  ∧ groups s' = groups s.
Proof.
  induction k as [|k IH]; intros pos s r s' H Hn; simpl in H.
  { apply mret_inv in H as [_ ->]. split; [apply frame_refl|done]. }
  apply M_bind_inv in H as (u & s1 & H1 & H).
  apply (update_node_frame _ _ _ _ _ n) in H1 as (F1 & L1 & G1); [|done].
  apply M_bind_inv in H as (l & s2 & H2 & H). apply must_inv in H2 as [_ ->].
  apply M_bind_inv in H as (p & s3 & H3 & H). apply must_inv in H3 as [_ ->].
  case_decide.
  - apply mret_inv in H as [_ ->]. done.
  - apply IH in H as (F2 & L2 & G2); [|done].
    split; [by eapply frame_trans|]. split; congruence.
Qed.

Lemma replay_frame cur cb pos n : ∀ k idx s r s',
  replay cur cb pos idx k s = Ok r s' → n ≤ cur →
  frame n s s' ∧ length (plan_nodes s') = length (plan_nodes s)
  ∧ groups s' = groups s.
Proof.
  induction k as [|k IH]; intros idx s r s' H Hn; simpl in H.
  { apply mret_inv in H as [_ ->]. split; [apply frame_refl|done]. }
  apply M_bind_inv in H as (l & s1 & H1 & H). apply must_inv in H1 as [_ ->].
  apply M_bind_inv in H as (p & s2 & H2 & H). apply must_inv in H2 as [_ ->].
  apply M_bind_inv in H as (b & s3 & H3 & H). apply must_inv in H3 as [_ ->].
  apply M_bind_inv in H as (u & s4 & H4 & H).
  apply (update_node_frame _ _ _ _ _ n) in H4 as (F1 & L1 & G1); [|done].
  apply IH in H as (F2 & L2 & G2); [|done].
  split; [by eapply frame_trans|]. split; congruence.
Qed.

Lemma ItemBindingIterator_HasNext_frame it s b it' s' n :
  ItemBindingIterator_HasNext it s = Ok (b, it') s' →
  n ≤ current_binding it →
  frame n s s' ∧ length (plan_nodes s') = length (plan_nodes s)
  ∧ groups s' = groups s
  ∧ current_binding it' = current_binding it.
Proof.
  unfold ItemBindingIterator_HasNext. intros H Hn.
  destruct (has_next it && first it).
  { apply mret_inv in H as [? ->]. simplify_eq.
    split; [apply frame_refl|done]. }
  destruct (has_next it).
  2:{ apply mret_inv in H as [? ->]. simplify_eq.
      split; [apply frame_refl|done]. }
  apply M_bind_inv in H as ([i pos] & s1 & H1 & H).
  apply (carry_loop_frame _ _ _ n) in H1 as (F1 & L1 & G1); [|done].
  case_decide.
  { apply mret_inv in H as [? ->]. by simplify_eq. }
  apply M_bind_inv in H as (u & s2 & H2 & H).
  apply (replay_frame _ _ _ n) in H2 as (F2 & L2 & G2); [|done].
  apply mret_inv in H as [? ->]. simplify_eq.
  split; [by eapply frame_trans|]. split_and!; try congruence. done.
Qed.

End FrameFacts.

Module ExploreFacts.
Import Binding ItemFacts FrameFacts.

Lemma memo_grows_refl m : memo_grows m m.
Proof. intros id g H. exists g. by split_and!. Qed.

Lemma memo_grows_trans m1 m2 m3 :
  memo_grows m1 m2 → memo_grows m2 m3 → memo_grows m1 m3.
Proof.
  intros H1 H2 id g Hg.
  destruct (H1 id g Hg) as (g2 & Hg2 & Hp2 & Hf2).
  destruct (H2 id g2 Hg2) as (g3 & Hg3 & Hp3 & Hf3).
  exists g3. split_and!; [done|by etrans|auto].
Qed.

Lemma get_group_inv id s g s' :
  get_group id s = Ok g s' → groups s !! id = Some g ∧ s' = s.
Proof.
  unfold get_group. intros H.
  apply M_bind_inv in H as (s0 & s1 & H0 & H). inversion H0; subst.
  by apply must_inv in H.
Qed.

Lemma get_group_Ok id s g : groups s !! id = Some g → get_group id s = Ok g s.
Proof.
  intros H. unfold get_group, mbind, M_bind, get_state. by rewrite H.
Qed.

Lemma read_target_group_inv bound id s g s' :
  read_target_group bound id s = Ok g s' →
  groups s !! id = Some g ∧ s' = s ∧ length (groups s) = bound.
Proof.
  unfold read_target_group. intros H.
  apply M_bind_inv in H as (s0 & s1 & H0 & H). inversion H0; subst.
  case_decide; [|done]. by apply must_inv in H as [? ->].
Qed.

Lemma read_target_group_Ok bound id s g :
  groups s !! id = Some g → length (groups s) = bound →
  read_target_group bound id s = Ok g s.
Proof.
  intros H Hb. unfold read_target_group, mbind, M_bind, get_state.
  rewrite decide_True by done. by rewrite H.
Qed.

Lemma set_explored_inv id i s u s' :
  set_explored id i s = Ok u s' →
  ∃ g, groups s !! id = Some g ∧ i < length (explored g)
    ∧ s' = mkState (<[id := mkGroup (items g) (<[i := true]> (explored g))]> (groups s))
             (rules s) (plan_nodes s) (explore_calls s).
Proof.
  unfold set_explored. intros H.
  apply M_bind_inv in H as (g & s1 & H1 & H). apply get_group_inv in H1 as [Hg ->].
  apply M_bind_inv in H as (s0 & s1 & H0 & H). inversion H0; subst.
  case_decide; [|done]. inversion H; subst. eauto.
Qed.

Lemma set_explored_grows id i s u s' :
  set_explored id i s = Ok u s' →
  memo_grows (groups s) (groups s')
  ∧ (∃ g', groups s' !! id = Some g' ∧ explored g' !! i = Some true).
Proof.
  intros H. apply set_explored_inv in H as (g & Hg & Hi & ->). simpl.
  assert (Hid : id < length (groups s)) by (by eapply lookup_lt_Some).
  split.
  - intros id' g0 Hg0. destruct (decide (id' = id)) as [->|Hne].
    + rewrite list_lookup_insert_eq by done. eexists. split; [done|].
      simplify_eq. simpl. split; [done|].
      intros j Hj. destruct (decide (j = i)) as [->|].
      * by rewrite list_lookup_insert_eq.
      * by rewrite list_lookup_insert_ne.
    + rewrite list_lookup_insert_ne by done. exists g0. by split_and!.
  - eexists. rewrite list_lookup_insert_eq by done. split; [done|]. simpl.
    by rewrite list_lookup_insert_eq.
Qed.

Section Optimizer.

Variable ExploreItem : list Group → GroupID → nat → Rule → list Group.

Lemma explore_rules_spec id i rs : ∀ s,
  ∃ s', explore_rules ExploreItem id i rs s = Ok () s'
    ∧ plan_nodes s' = plan_nodes s ∧ rules s' = rules s
    ∧ explore_calls s' = explore_calls s ++ ((λ r, (id, i, r)) <$> rs)
    ∧ groups s' = foldl (λ m r, ExploreItem m id i r) (groups s) rs.
Proof.
  induction rs as [|r rs IH]; intros s; simpl.
  { exists s. by rewrite app_nil_r. }
  destruct (IH (mkState (ExploreItem (groups s) id i r) (rules s) (plan_nodes s)
                  (explore_calls s ++ [(id, i, r)]))) as (s' & H & Hp & Hr & Hc & Hg).
  exists s'. split; [exact H|]. simpl in *.
  split_and!; try done. by rewrite Hc, <- app_assoc.
Qed.

(** The constructor leaves the store of plan nodes alone. *)
Lemma explore_loop_nodes fuel bound id : ∀ i s u s',
  explore_loop ExploreItem fuel bound id i s = Ok u s' →
  plan_nodes s' = plan_nodes s ∧ rules s' = rules s
  ∧ length (groups s) = bound ∧ length (groups s') = bound.
Proof.
  induction fuel as [|fuel IH]; intros i s u s' H; simpl in H; [done|].
  apply M_bind_inv in H as (g & s1 & H1 & H).
  apply read_target_group_inv in H1 as (Hg & -> & Hbound).
  case_decide; [|by apply mret_inv in H as [_ ->]].
  apply M_bind_inv in H as (flag & s1 & H1 & H). apply must_inv in H1 as [Hflag ->].
  apply M_bind_inv in H as (u1 & s1 & H1 & H).
  apply IH in H as (Hn & Hr & _ & Hb'). rewrite Hn, Hr.
  split; [|split; [|done]].
  all: destruct flag.
  1,3: by apply mret_inv in H1 as [_ ->].
  all: apply M_bind_inv in H1 as (u2 & s2 & H2 & H1).
  all: apply set_explored_inv in H2 as (g2 & _ & _ & ->).
  all: apply M_bind_inv in H1 as (s0 & s3 & Hst & H1); inversion Hst; subst.
  all: destruct (explore_rules_spec id i (rules s)
                (mkState (<[id:=mkGroup (items g2) (<[i:=true]> (explored g2))]> (groups s))
                   (rules s) (plan_nodes s) (explore_calls s)))
      as (s4 & Hrun & Hp & Hr' & _).
  all: simpl in *; rewrite Hrun in H1; inversion H1; subst; done.
Qed.

Lemma GroupBindingIterator_new_inv fuel id p s it s' :
  GroupBindingIterator_new ExploreItem fuel id p s = Ok it s' →
  it = mkGroupBindingIterator id p (length (groups s)) 0 None
  ∧ is_Some (groups s !! id)
  ∧ explore_loop ExploreItem fuel (length (groups s)) id 0 s = Ok () s'
  ∧ length (groups s') = length (groups s).
Proof.
  unfold GroupBindingIterator_new. intros H.
  apply M_bind_inv in H as (s0 & s1 & H0 & H). inversion H0; subst s0 s1.
  apply M_bind_inv in H as (g & s1 & H1 & H). apply get_group_inv in H1 as [Hg ->].
  apply M_bind_inv in H as ([] & s1 & H1 & H).
  apply mret_inv in H as [-> ->].
  pose proof (explore_loop_nodes _ _ _ _ _ _ _ H1) as (_ & _ & _ & Hb). eauto.
Qed.

Lemma GroupBindingIterator_new_nodes fuel id p s it s' :
  GroupBindingIterator_new ExploreItem fuel id p s = Ok it s' →
  plan_nodes s' = plan_nodes s ∧ current_iterator it = None.
Proof.
  intros H. apply GroupBindingIterator_new_inv in H as (-> & _ & H & _).
  apply explore_loop_nodes in H as [H _]. done.
Qed.

(** When every item of the group is explored, the loop of the constructor
    changes nothing. *)
Lemma explore_loop_explored fuel id : ∀ i s g,
  groups s !! id = Some g →
  (∀ j, j < length (items g) → explored g !! j = Some true) →
  length (items g) - i < fuel →
  explore_loop ExploreItem fuel (length (groups s)) id i s = Ok () s.
Proof.
  induction fuel as [|fuel IH]; intros i s g Hg Hall Hfuel; [lia|].
  simpl.
  rewrite (M_bind_Ok _ _ _ _ _ (read_target_group_Ok _ _ _ _ Hg eq_refl)).
  case_decide as Hi; [|done].
  rewrite (M_bind_Ok _ _ _ _ _ (must_Some _ _ _ (Hall i Hi))).
  rewrite (M_bind_Ok _ _ s () s eq_refl).
  apply (IH (S i) s g); [done|done|lia].
Qed.

Hypothesis ExploreItem_grows : ∀ m id i r, memo_grows m (ExploreItem m id i r).

Lemma explore_rules_grows id i rs : ∀ m,
  memo_grows m (foldl (λ m r, ExploreItem m id i r) m rs).
Proof.
  induction rs as [|r rs IH]; intros m; simpl; [apply memo_grows_refl|].
  eapply memo_grows_trans; [apply ExploreItem_grows|apply IH].
Qed.

(** The loop of the constructor, from index [i] on. *)
Lemma explore_loop_spec fuel bound id : ∀ i s u s',
  explore_loop ExploreItem fuel bound id i s = Ok u s' →
  memo_grows (groups s) (groups s')
  ∧ (∃ calls,
       explore_calls s' = explore_calls s ++ calls
       ∧ Forall (λ c : GroupID * nat * Rule,
                   c.1.1 = id ∧ i ≤ c.1.2
                   ∧ (∀ g, groups s !! id = Some g → explored g !! c.1.2 ≠ Some true)
                   ∧ (∀ g', groups s' !! id = Some g' → c.1.2 < length (items g')))
                calls)
  ∧ (∀ g', groups s' !! id = Some g' →
       ∀ j, i ≤ j → j < length (items g') → explored g' !! j = Some true).
Proof.
  induction fuel as [|fuel IH]; intros i s u s' H; simpl in H; [done|].
  apply M_bind_inv in H as (g & s1 & H1 & H).
  apply read_target_group_inv in H1 as (Hg & -> & Hbound).
  case_decide as Hi.
  2:{ apply mret_inv in H as [_ ->]. split; [apply memo_grows_refl|].
      split; [exists []; by rewrite app_nil_r|].
      intros g' Hg' j Hj Hlt. simplify_eq. lia. }
  apply M_bind_inv in H as (flag & s1 & H1 & H). apply must_inv in H1 as [Hflag ->].
  apply M_bind_inv in H as (u1 & s1 & H1 & H).
  assert (Hstep : memo_grows (groups s) (groups s1)
            ∧ (∃ g1, groups s1 !! id = Some g1 ∧ explored g1 !! i = Some true)
            ∧ ∃ calls, explore_calls s1 = explore_calls s ++ calls
                ∧ Forall (λ c : GroupID * nat * Rule,
                            c.1.1 = id ∧ c.1.2 = i ∧ flag = false) calls).
  { destruct flag.
    - apply mret_inv in H1 as [_ ->]. split; [apply memo_grows_refl|].
      split; [eauto|]. exists []. by rewrite app_nil_r.
    - apply M_bind_inv in H1 as (u2 & s2 & H2 & H1).
      pose proof (set_explored_grows _ _ _ _ _ H2) as (Hgr & g2 & Hg2 & Hf2).
      apply set_explored_inv in H2 as (g0 & _ & _ & Hs2).
      apply M_bind_inv in H1 as (s0 & s3 & Hst & H1). inversion Hst; subst s0 s3.
      destruct (explore_rules_spec id i (rules s2) s2)
        as (s3 & Hrun & Hp & Hr' & Hc & Hgs).
      rewrite Hrun in H1. inversion H1; subst s3.
      pose proof (explore_rules_grows id i (rules s2) (groups s2)) as Hgr2.
      rewrite <- Hgs in Hgr2.
      split; [by eapply memo_grows_trans|].
      split.
      + destruct (Hgr2 id g2 Hg2) as (g3 & Hg3 & _ & Hf3). eauto.
      + exists ((λ r, (id, i, r)) <$> rules s2).
        rewrite Hc, Hs2. simpl. split; [done|].
        apply Forall_fmap, Forall_true. done. }
  destruct Hstep as (Hgr1 & (g1 & Hg1 & Hf1) & calls1 & Hc1 & Hcalls1).
  apply IH in H as (Hgr2 & (calls2 & Hc2 & Hcalls2) & Hall).
  split; [by eapply memo_grows_trans|].
  assert (Hfinal : ∀ g', groups s' !! id = Some g' →
            items g1 `prefix_of` items g' ∧ explored g' !! i = Some true).
  { intros g' Hg'. destruct (Hgr2 id g1 Hg1) as (g3 & Hg3 & Hp3 & Hf3).
    simplify_eq. auto. }
  split.
  - exists (calls1 ++ calls2). split; [by rewrite Hc2, Hc1, app_assoc|].
    apply Forall_app. split.
    + eapply Forall_impl; [exact Hcalls1|].
      intros [[cid ci] cr] (-> & -> & ->). simpl. split_and!; try done.
      * intros g0 Hg0. simplify_eq. by rewrite Hflag.
      * intros g' Hg'. destruct (Hfinal g' Hg') as [_ Hf].
        apply lookup_lt_Some in Hf.
        destruct (Hgr1 id g Hg) as (g1' & Hg1' & Hp1 & _). simplify_eq.
        destruct (Hfinal g' Hg') as [Hp _].
        apply prefix_length in Hp1, Hp. lia.
    + eapply Forall_impl; [exact Hcalls2|].
      intros [[cid ci] cr] (-> & Hle & Hnot & Hlt). simpl in *.
      split_and!; try done; [lia|].
      intros g0 Hg0 Htrue.
      destruct (Hgr1 id g0 Hg0) as (g1' & Hg1' & _ & Hf1').
      apply (Hnot g1' Hg1'). by apply Hf1'.
  - intros g' Hg' j Hj Hlt.
    destruct (decide (j = i)) as [->|Hne].
    + by apply Hfinal.
    + apply Hall; [done|lia|done].
Qed.

(** The items that the loop explores: every rule is applied to each of
    them, once, in increasing order of the items, and none of them was
    explored when the loop was entered. *)
Lemma explore_loop_visits fuel bound id : ∀ i s u s',
  explore_loop ExploreItem fuel bound id i s = Ok u s' →
  ∃ idxs,
    explore_calls s'
    = explore_calls s ++ (j ← idxs; (λ r, (id, j, r)) <$> rules s)
    ∧ StronglySorted lt idxs
    ∧ Forall (λ j, i ≤ j
                   ∧ ∀ g, groups s !! id = Some g → explored g !! j ≠ Some true)
             idxs.
Proof.
  induction fuel as [|fuel IH]; intros i s u s' H; simpl in H; [done|].
  apply M_bind_inv in H as (g & s1 & H1 & H).
  apply read_target_group_inv in H1 as (Hg & -> & Hbound).
  case_decide as Hi.
  2:{ apply mret_inv in H as [_ ->]. exists []. simpl. rewrite app_nil_r.
      split; [done|]. split; constructor. }
  apply M_bind_inv in H as (flag & s1 & H1 & H).
  apply must_inv in H1 as [Hflag ->].
  apply M_bind_inv in H as (u1 & s1 & H1 & H).
  apply IH in H as (idxs & Hc & Hs & Hge).
  destruct flag.
  - apply mret_inv in H1 as [_ ->]. exists idxs. split; [done|].
    split; [done|]. eapply Forall_impl; [exact Hge|]. simpl.
    intros j [Hj Hun]. split; [lia|done].
  - apply M_bind_inv in H1 as (u2 & s2 & H2 & H1).
    pose proof (set_explored_grows _ _ _ _ _ H2) as (Hgr & _).
    apply set_explored_inv in H2 as (g0 & _ & _ & Hs2).
    apply M_bind_inv in H1 as (s0 & s3 & Hst & H1). inversion Hst; subst s0 s3.
    destruct (explore_rules_spec id i (rules s2) s2)
      as (s3 & Hrun & _ & Hr' & Hc3 & Hgs).
    rewrite Hrun in H1. inversion H1; subst s3.
    pose proof (explore_rules_grows id i (rules s2) (groups s2)) as Hgr2.
    rewrite <- Hgs in Hgr2.
    assert (Hrs : rules s2 = rules s) by (by rewrite Hs2).
    assert (Hcs : explore_calls s2 = explore_calls s) by (by rewrite Hs2).
    exists (i :: idxs). simpl.
    rewrite Hc, Hc3, Hr', Hrs, Hcs, <- app_assoc. split; [done|].
    split.
    + constructor; [done|]. eapply Forall_impl; [exact Hge|]. simpl. lia.
    + constructor.
      * split; [done|]. intros g1 Hg1. simplify_eq. by rewrite Hflag.
      * eapply Forall_impl; [exact Hge|]. simpl.
        intros j [Hj Hun]. split; [lia|].
        intros g1 Hg1 Htrue.
        destruct (Hgr id g1 Hg1) as (g2 & Hg2 & _ & Hf2).
        destruct (Hgr2 id g2 Hg2) as (g3 & Hg3 & _ & Hf3).
        apply (Hun g3 Hg3). by apply Hf3, Hf2.
Qed.

End Optimizer.
End ExploreFacts.

Module IteratorFacts.
Import Binding ItemFacts FrameFacts ExploreFacts.

Lemma new_OpPlanNode_inv o s l s' :
  new_OpPlanNode o s = Ok l s' →
  l = length (plan_nodes s)
  ∧ s' = mkState (groups s) (rules s) (plan_nodes s ++ [mkOpPlanNode o []])
           (explore_calls s).
Proof. unfold new_OpPlanNode. intros H. by inversion H. Qed.

Lemma frame_alloc s nd :
  frame (length (plan_nodes s))
    s (mkState (groups s) (rules s) (plan_nodes s ++ [nd]) (explore_calls s)).
Proof.
  split; simpl; [rewrite length_app; lia|]. by rewrite take_app_length, take_ge.
Qed.

Lemma find_item_frame new_item fuel : ∀ it s it' s',
  fresh_item new_item →
  find_item new_item fuel it s = Ok it' s' →
  current_iterator it = None →
  frame (length (plan_nodes s)) s s'
  ∧ current_above (length (plan_nodes s)) it'.
Proof.
  induction fuel as [|fuel IH]; intros it s it' s' Hnew H Hnone; simpl in H; [done|].
  apply M_bind_inv in H as (g & s1 & H1 & H). 
  apply read_target_group_inv in H1 as (Hg & -> & Hbound).
  case_decide.
  2:{ apply mret_inv in H as [-> ->]. split; [apply frame_refl|].
      intros i Hi. congruence. }
  apply M_bind_inv in H as (item_it & s1 & H1 & H).
  apply Hnew in H1 as (F1 & Hcur & Hlt).
  apply M_bind_inv in H as ([b item_it'] & s2 & H2 & H).
  apply (ItemBindingIterator_HasNext_frame _ _ _ _ _ (length (plan_nodes s))) in H2
    as (F2 & L2 & _ & Hsame); [|done].
  destruct b.
  - apply mret_inv in H as [-> ->]. split; [by eapply frame_trans|].
    intros i Hi. simpl in Hi. simplify_eq. lia.
  - apply IH in H as (F3 & Habove); [|done|done].
    assert (Hle : length (plan_nodes s) ≤ length (plan_nodes s2)).
    { destruct F1. lia. }
    split.
    + eapply frame_trans; [exact F1|]. eapply frame_trans; [exact F2|].
      by eapply frame_le.
    + intros i Hi. specialize (Habove i Hi). lia.
Qed.

Lemma GroupBindingIterator_HasNext_frame new_item fuel it s b it' s' n :
  fresh_item new_item →
  GroupBindingIterator_HasNext new_item fuel it s = Ok (b, it') s' →
  n ≤ length (plan_nodes s) → current_above n it →
  frame n s s' ∧ current_above n it'.
Proof.
  intros Hnew H Hn Habove. unfold GroupBindingIterator_HasNext in H.
  case_decide.
  { apply mret_inv in H as [? ->]. simplify_eq. split; [apply frame_refl|done]. }
  apply M_bind_inv in H as (it1 & s1 & H1 & H).
  assert (Hfirst : frame n s s1 ∧ current_above n it1
                   ∧ length (plan_nodes s1) = length (plan_nodes s)).
  { destruct (current_iterator it) as [item_it|] eqn:Hcur.
    - apply M_bind_inv in H1 as ([b1 item_it'] & s2 & H2 & H1).
      apply (ItemBindingIterator_HasNext_frame _ _ _ _ _ n) in H2
        as (F2 & L2 & _ & Hsame); [|by apply Habove].
      destruct b1; apply mret_inv in H1 as [-> ->].
      + split; [done|]. split; [|done]. intros i Hi. simpl in Hi. simplify_eq.
        rewrite Hsame. by apply Habove.
      + split; [done|]. split; [|done]. intros i Hi. simpl in Hi. done.
    - apply mret_inv in H1 as [-> ->]. split; [apply frame_refl|]. done. }
  destruct Hfirst as (F1 & Hab1 & L1).
  apply M_bind_inv in H as (it2 & s2 & H2 & H).
  apply mret_inv in H as [? ->]. simplify_eq.
  destruct (current_iterator it1) as [item_it|] eqn:Hcur.
  - apply mret_inv in H2 as [-> ->]. done.
  - apply find_item_frame in H2 as (F2 & Hab2); [|done|done].
    split.
    + eapply frame_trans; [exact F1|]. eapply frame_le; [|exact F2]. lia.
    + intros i Hi. specialize (Hab2 i Hi). lia.
Qed.

Lemma GroupBindingIterator_Next_frame it s l it' s' :
  GroupBindingIterator_Next it s = Ok (l, it') s' →
  frame (length (plan_nodes s)) s s'
  ∧ current_iterator it' = current_iterator it.
Proof.
  unfold GroupBindingIterator_Next. intros H. case_decide.
  - apply M_bind_inv in H as (g & s1 & H1 & H). 
    apply read_target_group_inv in H1 as (Hg & -> & Hbound).
    apply M_bind_inv in H as (l1 & s1 & H1 & H).
    apply new_OpPlanNode_inv in H1 as [-> ->].
    apply mret_inv in H as [? ->]. simplify_eq.
    split; [apply frame_alloc|done].
  - apply M_bind_inv in H as (i & s1 & H1 & H). apply must_inv in H1 as [_ ->].
    apply mret_inv in H as [? ->]. simplify_eq. split; [apply frame_refl|done].
Qed.

Lemma drain_frame new_item fuel : ∀ it acc s r s' n,
  fresh_item new_item →
  drain new_item fuel it acc s = Ok r s' →
  n ≤ length (plan_nodes s) → current_above n it →
  frame n s s'.
Proof.
  induction fuel as [|fuel IH]; intros it acc s r s' n Hnew H Hn Hab;
    simpl in H; [done|].
  apply M_bind_inv in H as ([b it1] & s1 & H1 & H).
  apply (GroupBindingIterator_HasNext_frame _ _ _ _ _ _ _ n) in H1
    as (F1 & Hab1); [|done..].
  destruct b.
  2:{ apply mret_inv in H as [_ ->]. done. }
  apply M_bind_inv in H as ([l it2] & s2 & H2 & H).
  apply GroupBindingIterator_Next_frame in H2 as (F2 & Hsame).
  assert (Hle : n ≤ length (plan_nodes s1)) by (destruct F1; lia).
  apply (IH _ _ _ _ _ n) in H; [|done|destruct F2; lia|].
  - eapply frame_trans; [exact F1|]. eapply frame_trans; [|exact H].
    by eapply frame_le.
  - intros i Hi. rewrite Hsame in Hi. by apply Hab1.
Qed.

(** The loop of the item constructor over the child groups. *)
Lemma bind_children_spec all_bindings cur o :
  (∀ g p, keeps_nodes (all_bindings g p)) →
  ∀ children i cb s ch found cb' s',
  bind_children all_bindings cur children i cb s = Ok (found, cb') s' →
  plan_nodes s !! cur = Some (mkOpPlanNode o ch) →
  length cb = i + length children →
  (∀ j l, i ≤ j → cb !! j = Some l → l = []) →
  frame cur s s'
  ∧ length cb' = length cb
  ∧ take i cb' = take i cb
  ∧ (∀ j l, i ≤ j → cb' !! j = Some l → l ≠ [] →
       ∃ g p sa sb, children !! (j - i) = Some (g, p)
         ∧ all_bindings g p sa = Ok l sb)
  ∧ (if found
     then Forall (λ l, l ≠ []) (drop i cb')
          ∧ plan_nodes s' !! cur
            = Some (mkOpPlanNode o
                      (ch ++ pick (drop i cb') (replicate (length children) 0)))
     else ¬ Forall (λ l, l ≠ []) (drop i cb')).
Proof.
  intros Hab children. induction children as [|gp children IH];
    intros i cb s ch found cb' s' H Hnode Hlen Hempty; [|destruct gp as [g p]];
    simpl in H.
  { apply mret_inv in H as [? ->]. simplify_eq.
    split; [apply frame_refl|]. split; [done|]. split; [done|].
    simpl in Hlen. split.
    { intros j l Hj Hl Hne. by rewrite (Hempty j l Hj Hl) in Hne. }
    rewrite drop_ge by lia. split; [constructor|].
    unfold pick. simpl. by rewrite app_nil_r. }
  assert (Hcur : cur < length (plan_nodes s)) by (by eapply lookup_lt_Some).
  simpl in Hlen.
  apply M_bind_inv in H as (child_bindings & s1 & H1 & H).
  pose proof (Hab _ _ _ _ _ H1) as F1.
  assert (Hnode1 : plan_nodes s1 !! cur = Some (mkOpPlanNode o ch)).
  { by rewrite (frame_lookup _ _ _ _ F1 Hcur). }
  assert (Hi : i < length cb) by lia.
  assert (Hdrop : drop i (<[i:=child_bindings]> cb)
                  = child_bindings :: drop (S i) cb).
  { rewrite drop_insert_ge, Nat.sub_diag by done.
    destruct (lookup_lt_is_Some_2 cb i Hi) as [x Hx].
    by rewrite (drop_S _ _ _ Hx). }
  destruct child_bindings as [|b0 bs].
  - apply mret_inv in H as [? ->]. simplify_eq.
    split; [by eapply frame_le; [|exact F1]; lia|].
    rewrite length_insert. split; [done|].
    rewrite take_insert_ge by done. split; [done|].
    split.
    { intros j l Hj Hl Hne. destruct (decide (j = i)) as [->|Hji].
      - rewrite list_lookup_insert_eq in Hl by done. by simplify_eq.
      - rewrite list_lookup_insert_ne in Hl by done.
        by rewrite (Hempty j l Hj Hl) in Hne. }
    rewrite Hdrop. intros Hall. by inversion Hall.
  - apply M_bind_inv in H as (u & s2 & H2 & H).
    rewrite (PushChild_spec _ _ _ _ _ Hnode1) in H2. inversion H2; subst u s2.
    apply (IH _ _ _ (ch ++ [b0])) in H as (F3 & L3 & T3 & Hfrom & Hres);
      [|by apply set_node_lookup; destruct F1; lia
       |rewrite length_insert; lia
       |].
    2:{ intros j l Hj Hl. rewrite list_lookup_insert_ne in Hl by lia.
        apply (Hempty j l); [lia|done]. }
    rewrite length_insert in L3.
    split.
    { eapply frame_trans; [by eapply frame_le; [|exact F1]; lia|].
      eapply frame_trans; [|exact F3].
      split; simpl; [by rewrite length_insert|by rewrite take_insert_ge]. }
    split; [done|].
    assert (Hcb'i : cb' !! i = Some (b0 :: bs)).
    { rewrite <- (lookup_take_lt _ (S i)), T3 by lia.
      rewrite lookup_take_lt by lia. by rewrite list_lookup_insert_eq. }
    split.
    { apply (f_equal (take i)) in T3.
      rewrite !take_take, Nat.min_l in T3 by lia.
      by rewrite take_insert_ge in T3. }
    split.
    { intros j l Hj Hl Hne. destruct (decide (j = i)) as [->|Hji].
      - rewrite Nat.sub_diag. simpl. rewrite Hcb'i in Hl. inversion Hl; subst l.
        by exists g, p, s, s1.
      - destruct (Hfrom j l) as (g' & p' & sa & sb & Hch & Hrun); [lia|done|done|].
        exists g', p', sa, sb. split; [|done].
        replace (j - i) with (S (j - S i)) by lia. done. }
    rewrite (drop_S _ _ _ Hcb'i).
    destruct found.
    + destruct Hres as [Hall Hn]. split; [by constructor|].
      rewrite Hn, <- app_assoc. done.
    + intros Hall. inversion Hall; subst. done.
Qed.

Lemma get_item_inv id idx s o s' :
  get_item id idx s = Ok o s' →
  ∃ g, groups s !! id = Some g ∧ items g !! idx = Some o ∧ s' = s.
Proof.
  unfold get_item. intros H.
  apply M_bind_inv in H as (g & s1 & H1 & H). apply get_group_inv in H1 as [Hg ->].
  apply must_inv in H as [Hi ->]. eauto.
Qed.

(** What the constructor of the item iterator leaves behind. *)
Lemma ItemBindingIterator_new_inv all_bindings id idx p s it s' :
  (∀ g p, keeps_nodes (all_bindings g p)) →
  ItemBindingIterator_new all_bindings id idx p s = Ok it s' →
  ∃ g item,
    groups s !! id = Some g ∧ items g !! idx = Some item
    ∧ frame (length (plan_nodes s)) s s'
    ∧ current_binding it = length (plan_nodes s)
    ∧ current_binding it < length (plan_nodes s')
    ∧ first it = true
    ∧ (((type item ≠ Type_ p ∨ length (GetChildren item) ≠ length (Children p))
        ∧ has_next it = false ∧ s' = set_node s' (current_binding it) (mkOpPlanNode item []))
       ∨ (type item = Type_ p
          ∧ length (GetChildren item) = length (Children p)
          ∧ length (children_bindings it) = length (Children p)
          ∧ children_bindings_pos it = replicate (length (children_bindings it)) 0
          ∧ (∀ j l, children_bindings it !! j = Some l → l ≠ [] →
               ∃ cg cp sa sb, GetChildren item !! j = Some cg
                 ∧ Children p !! j = Some cp
                 ∧ all_bindings cg cp sa = Ok l sb)
          ∧ if has_next it
            then Forall (λ l, l ≠ []) (children_bindings it)
                 ∧ plan_nodes s' !! current_binding it
                   = Some (mkOpPlanNode item
                             (pick (children_bindings it) (children_bindings_pos it)))
            else ¬ Forall (λ l, l ≠ []) (children_bindings it))).
Proof.
  intros Hab H. unfold ItemBindingIterator_new in H.
  apply M_bind_inv in H as (o & s1 & H1 & H).
  apply get_item_inv in H1 as (g & Hg & Hitem & ->).
  apply M_bind_inv in H as (cur & s1 & H1 & H).
  apply new_OpPlanNode_inv in H1 as [-> ->].
  apply M_bind_inv in H as (item & s1 & H1 & H).
  apply get_item_inv in H1 as (g' & Hg' & Hitem' & ->). simpl in Hg'.
  simplify_eq. try rename o into item.
  exists g, item. split; [done|]. split; [done|].
  set (s1 := mkState (groups s) (rules s)
               (plan_nodes s ++ [mkOpPlanNode item []]) (explore_calls s)) in *.
  assert (Hnode1 : plan_nodes s1 !! length (plan_nodes s)
                   = Some (mkOpPlanNode item [])).
  { simpl. by rewrite lookup_app_r, Nat.sub_diag. }
  assert (Hsimple : ∀ it0, it0 = mkItemBindingIterator id idx p true false
                                   (length (plan_nodes s)) [] [] →
            frame (length (plan_nodes s)) s s1
            ∧ current_binding it0 = length (plan_nodes s)
            ∧ current_binding it0 < length (plan_nodes s1)
            ∧ first it0 = true ∧ has_next it0 = false
            ∧ s1 = set_node s1 (current_binding it0) (mkOpPlanNode item [])).
  { intros it0 ->. simpl. split; [apply frame_alloc|].
    rewrite length_app. simpl. split_and!; try done; [lia|].
    by rewrite set_node_id. }
  case_decide as Hty.
  { apply mret_inv in H as [-> ->].
    destruct (Hsimple _ eq_refl) as (? & ? & ? & ? & ? & ?).
    split_and!; try done. left. auto. }
  case_decide as Har.
  { apply mret_inv in H as [-> ->].
    destruct (Hsimple _ eq_refl) as (? & ? & ? & ? & ? & ?).
    split_and!; try done. left. auto. }
  apply M_bind_inv in H as ([found cb] & s2 & H2 & H).
  apply mret_inv in H as [-> ->]. simpl.
  apply (bind_children_spec _ _ item Hab _ _ _ _ []) in H2
    as (F2 & L2 & _ & Hfrom & Hres); [|done| |].
  2:{ rewrite length_replicate, length_zip. simpl. lia. }
  2:{ intros j l _ Hl. apply lookup_replicate in Hl as [-> _]. done. }
  rewrite length_replicate in L2. rewrite drop_0 in Hres.
  rewrite length_zip in Hres.
  assert (Hlen1 : length (plan_nodes s1) = S (length (plan_nodes s))).
  { simpl. rewrite length_app. simpl. lia. }
  split. { eapply frame_trans; [apply frame_alloc|exact F2]. }
  split; [done|]. split; [destruct F2; lia|]. split; [done|].
  right.
  split; [done|]. split; [done|]. split; [lia|]. split; [by rewrite L2|].
  split.
  { intros j l Hl Hne.
    destruct (Hfrom j l) as (cg & cp & sa & sb & Hz & Hrun); [lia|done|done|].
    rewrite Nat.sub_0_r in Hz. apply lookup_zip_with_Some in Hz
      as (cg' & cp' & Heq & Hcg & Hcp). simplify_eq.
    exists cg', cp', sa, sb. done. }
  replace (length (GetChildren item) `min` length (Children p))
    with (length (GetChildren item)) in Hres by lia.
  exact Hres.
Qed.

Lemma all_empty_replicate (cb : list (list loc)) :
  (∀ j l, cb !! j = Some l → l = []) → cb = replicate (length cb) [].
Proof.
  induction cb as [|x cb IH]; intros H; simpl; [done|].
  rewrite (H 0 x eq_refl). f_equal. apply IH.
  intros j l Hl. by apply (H (S j)).
Qed.

(** The loop over the child groups collects what [collected] says. *)
Lemma bind_children_collected all_bindings cur :
  ∀ pairs i cb s found cb' s',
  bind_children all_bindings cur pairs i cb s = Ok (found, cb') s' →
  length cb = i + length pairs →
  (∀ j l, i ≤ j → cb !! j = Some l → l = []) →
  collected all_bindings cur pairs (drop i cb') s s'
  ∧ take i cb' = take i cb ∧ length cb' = length cb.
Proof.
  intros pairs. induction pairs as [|gp pairs IH];
    intros i cb s found cb' s' H Hlen Hempty; [|destruct gp as [g p]];
    simpl in H, Hlen.
  { apply mret_inv in H as [? ->]. simplify_eq.
    rewrite drop_ge by lia. split; [constructor|done]. }
  apply M_bind_inv in H as (child_bindings & s1 & H1 & H).
  assert (Hi : i < length cb) by lia.
  destruct child_bindings as [|b0 bs].
  - apply mret_inv in H as [? ->]. simplify_eq.
    rewrite length_insert, take_insert_ge by done. split; [|done].
    rewrite drop_insert_ge, Nat.sub_diag by done.
    destruct (lookup_lt_is_Some_2 cb i Hi) as [x Hx].
    rewrite (drop_S _ _ _ Hx). simpl.
    assert (Hrest : drop (S i) cb = replicate (length pairs) []).
    { rewrite (all_empty_replicate (drop (S i) cb)).
      - rewrite length_drop. f_equal. lia.
      - intros j l Hl. rewrite lookup_drop in Hl. apply (Hempty (S i + j) l); [lia|done]. }
    rewrite Hrest. by constructor.
  - apply M_bind_inv in H as ([] & s2 & H2 & H).
    apply IH in H as (Hcol & Htake & Hlen'); [|rewrite length_insert; lia|].
    2:{ intros j l Hj Hl. rewrite list_lookup_insert_ne in Hl by lia.
        apply (Hempty j l); [lia|done]. }
    rewrite length_insert in Hlen'.
    assert (Hcb'i : cb' !! i = Some (b0 :: bs)).
    { rewrite <- (lookup_take_lt _ (S i)), Htake by lia.
      rewrite lookup_take_lt by lia. by rewrite list_lookup_insert_eq. }
    split; [|split; [|done]].
    + rewrite (drop_S _ _ _ Hcb'i). by econstructor.
    + apply (f_equal (take i)) in Htake.
      rewrite !take_take, Nat.min_l in Htake by lia.
      by rewrite take_insert_ge in Htake.
Qed.

(** An empty list among the collected ones: the run on that child, or on
    one before it, has returned no binding. *)
Lemma collected_empty all_bindings cur pairs cbs s s' :
  collected all_bindings cur pairs cbs s s' →
  ∀ j, cbs !! j = Some [] →
    ∃ j' g p sa sb, j' ≤ j ∧ pairs !! j' = Some (g, p)
      ∧ all_bindings g p sa = Ok [] sb.
Proof.
  induction 1 as [s|g p rest s s1 Hrun|g p rest b0 l cbs s s1 s2 s3 Hrun Hpush _ IH];
    intros j Hj.
  - done.
  - exists 0, g, p, s, s1. split; [lia|done].
  - destruct j as [|j]; [done|]. simpl in Hj.
    destruct (IH j Hj) as (j' & g' & p' & sa & sb & Hle & Hp & Hr).
    exists (S j'), g', p', sa, sb. split; [lia|done].
Qed.

(** The lists of the iterator that the constructor returns are collected
    from the child groups, in the state in which the node of the current
    binding has just been allocated. *)
Lemma ItemBindingIterator_new_collected all_bindings id idx p s it s' g item :
  ItemBindingIterator_new all_bindings id idx p s = Ok it s' →
  groups s !! id = Some g → items g !! idx = Some item →
  type item = Type_ p → length (GetChildren item) = length (Children p) →
  collected all_bindings (current_binding it)
    (zip (GetChildren item) (Children p)) (children_bindings it)
    (mkState (groups s) (rules s) (plan_nodes s ++ [mkOpPlanNode item []])
       (explore_calls s)) s'.
Proof.
  intros H Hg Hitem Hty Har. unfold ItemBindingIterator_new in H.
  apply M_bind_inv in H as (o & s1 & H1 & H).
  apply get_item_inv in H1 as (g0 & Hg0 & Hitem0 & ->).
  apply M_bind_inv in H as (cur & s1 & H1 & H).
  apply new_OpPlanNode_inv in H1 as [-> ->].
  apply M_bind_inv in H as (item' & s1 & H1 & H).
  apply get_item_inv in H1 as (g' & Hg' & Hitem' & ->). simpl in Hg'.
  simplify_eq.
  rewrite decide_False in H by (intros Hne; by apply Hne).
  rewrite decide_False in H by (intros Hne; by apply Hne).
  apply M_bind_inv in H as ([found cb] & s2 & H2 & H).
  apply mret_inv in H as [-> ->]. simpl.
  apply bind_children_collected in H2 as (Hcol & _ & _).
  - by rewrite drop_0 in Hcol.
  - rewrite length_replicate, length_zip. simpl. lia.
  - intros j l _ Hl. apply lookup_replicate in Hl as [-> _]. done.
Qed.

Section Optimizer.

Variable ExploreItem : list Group → GroupID → nat → Rule → list Group.

Lemma all_bindings_keeps_nodes new_item fuel g p :
  fresh_item new_item →
  keeps_nodes
    (iterator ← GroupBindingIterator_new ExploreItem fuel g p;
     drain new_item fuel iterator []).
Proof.
  intros Hnew s r s' H.
  apply M_bind_inv in H as (it & s1 & H1 & H).
  pose proof (GroupBindingIterator_new_inv _ _ _ _ _ _ _ H1)
    as (_ & _ & _ & Hsize).
  apply GroupBindingIterator_new_nodes in H1 as [Hn Hnone].
  apply (drain_frame _ _ _ _ _ _ _ (length (plan_nodes s))) in H;
    [|done|by rewrite Hn|by intros i Hi; congruence].
  eapply frame_trans; [|exact H]. by apply frame_same_nodes.
Qed.

Lemma new_ItemBindingIterator_fresh fuel :
  fresh_item (new_ItemBindingIterator ExploreItem fuel).
Proof.
  induction fuel as [|fuel IH]; intros id idx p s it s' H; simpl in H; [done|].
  apply ItemBindingIterator_new_inv in H
    as (g & item & _ & _ & F & Hcur & Hlt & _).
  - split; [done|]. split; [lia|done].
  - intros g p'. by apply all_bindings_keeps_nodes.
Qed.

End Optimizer.

End IteratorFacts.

Module BindingFacts.
Import Binding BindingScenarios ItemFacts FrameFacts ExploreFacts IteratorFacts.
Import OdometerFacts.

(** ** The item iterator enumerates the product in odometer order *)



(** ** Exploration by the constructor *)

Lemma add_item_grows id o m : memo_grows m (add_item id o m).
Proof.
  unfold add_item. destruct (m !! id) as [g|] eqn:Hg; [|apply memo_grows_refl].
  case_decide; [apply memo_grows_refl|].
  assert (Hid : id < length m) by (by eapply lookup_lt_Some).
  intros id' g0 Hg0. destruct (decide (id' = id)) as [->|Hne].
  - rewrite list_lookup_insert_eq by done. eexists. split; [done|].
    simplify_eq. simpl. split; [by apply prefix_app_r|].
    intros j Hj. by apply lookup_app_l_Some.
  - rewrite list_lookup_insert_ne by done. exists g0. by split_and!.
Qed.

Lemma filter_merge_grows m id i r : memo_grows m (filter_merge m id i r).
Proof.
  unfold filter_merge.
  destruct (m !! id ≫= _) as [[]|]; try apply memo_grows_refl.
  generalize (default [] (items <$> m !! child)). intros l.
  assert (H : ∀ m', memo_grows m m' →
            memo_grows m (foldl (λ m o, match o with
                                        | LogicalFilter x => add_item id (LogicalFilter x) m
                                        | _ => m
                                        end) m' l)).
  { induction l as [|o l IH]; intros m' Hm'; simpl; [done|].
    apply IH. destruct o; try done.
    eapply memo_grows_trans; [exact Hm'|apply add_item_grows]. }
  apply H, memo_grows_refl.
Qed.

Lemma find_item_exhausted new_item fuel : ∀ it s it' s',
  find_item new_item fuel it s = Ok it' s' →
  current_iterator it' = None →
  group_id it' = group_id it
  ∧ target_group it' = target_group it
  ∧ length (groups s') = target_group it
  ∧ ∃ g', groups s' !! group_id it = Some g'
      ∧ length (items g') ≤ current_item_index it'.
Proof.
  induction fuel as [|fuel IH]; intros it s it' s' H Hnone; simpl in H; [done|].
  apply M_bind_inv in H as (g & s1 & H1 & H).
  apply read_target_group_inv in H1 as (Hg & -> & Hbound).
  case_decide as Hlt.
  2:{ apply mret_inv in H as [-> ->]. split_and!; try done.
      exists g. split; [done|lia]. }
  apply M_bind_inv in H as (item_it & s1 & H1 & H).
  apply M_bind_inv in H as ([b item_it'] & s2 & H2 & H).
  destruct b.
  - apply mret_inv in H as [-> ->]. done.
  - apply IH in H as (Hid & Htg & Hb' & g' & Hg' & Hle); [|done]. simpl in *.
    split_and!; try done. eauto.
Qed.

Section Optimizer.

Variable ExploreItem : list Group → GroupID → nat → Rule → list Group.
Hypothesis ExploreItem_grows : ∀ m id i r, memo_grows m (ExploreItem m id i r).



End Optimizer.




(** When exploration creates a group, the vector of groups has grown and
    the references that the iterator has bound may dangle: the next test of
    the constructor's loop reads the size of the group through one of
    them, which the model does not take to be defined. *)
Lemma constructor_reads_dangling_references :
  GroupBindingIterator_new add_group 3 0 filter_of_leaf (initial_state S6_memo [7])
  = Fault.
Proof. vm_compute. reflexivity. Qed.

(** ** Leaf patterns *)

(** On a group that has items, a leaf pattern yields its one plan and is
    exhausted afterwards. *)
Lemma leaf_iterator_nonempty_group_once ExploreItem fuel id p s g :
  Type_ p = Leaf → groups s !! id = Some g → items g ≠ [] →
  let it := mkGroupBindingIterator id p (length (groups s)) 0 None in
  let it1 := mkGroupBindingIterator id p (length (groups s)) (length (items g)) None in
  HasNext ExploreItem fuel it s = Ok (true, it) s
  ∧ Next it s
    = Ok (length (plan_nodes s), it1)
         (mkState (groups s) (rules s)
            (plan_nodes s ++ [mkOpPlanNode (LeafOperator id) []])
            (explore_calls s))
  ∧ ∀ fuel2 s2, HasNext ExploreItem fuel2 it1 s2 = Ok (false, it1) s2.
Proof.
  intros Hty Hg Hne. simpl.
  unfold HasNext, Next, GroupBindingIterator_HasNext, GroupBindingIterator_Next.
  simpl. rewrite Hty. simpl. split; [done|]. split.
  - by rewrite (M_bind_Ok _ _ _ _ _ (read_target_group_Ok _ _ _ _ Hg eq_refl)).
  - intros fuel2 s2. destruct (items g); [done|]. done.
Qed.

Lemma plans_of_S ExploreItem fuel it acc :
  plans_of ExploreItem (S fuel) it acc
  = ('(b, it) ← HasNext ExploreItem fuel it;
     if (b : bool) then
       '(l, it) ← Next it;
       s ← get_state;
       plans_of ExploreItem fuel it (acc ++ [read_plan fuel (plan_nodes s) l])
     else mret acc).
Proof. done. Qed.

Lemma leaf_iterator_empty_group_diverges fuel : ∀ acc s,
  groups s = [mkGroup [] []] →
  plans_of no_rule fuel (mkGroupBindingIterator 0 leaf_pattern 1 0 None) acc s
  = OutOfFuel.
Proof.
  induction fuel as [|fuel IH]; intros acc s Hs; [done|].
  assert (Hg : groups s !! 0 = Some (mkGroup [] [])) by (by rewrite Hs).
  assert (Hnext : Next (mkGroupBindingIterator 0 leaf_pattern 1 0 None) s
                  = Ok (length (plan_nodes s),
                        mkGroupBindingIterator 0 leaf_pattern 1 0 None)
                       (mkState (groups s) (rules s)
                          (plan_nodes s ++ [mkOpPlanNode (LeafOperator 0) []])
                          (explore_calls s))).
  { unfold Next, GroupBindingIterator_Next. simpl.
    rewrite (M_bind_Ok _ _ _ _ _ (read_target_group_Ok 1 _ _ _ Hg ltac:(by rewrite Hs))).
    done. }
  assert (Hhas : HasNext no_rule fuel (mkGroupBindingIterator 0 leaf_pattern 1 0 None) s
                 = Ok (true, mkGroupBindingIterator 0 leaf_pattern 1 0 None) s)
    by reflexivity.
  rewrite plans_of_S.
  erewrite M_bind_Ok; [|exact Hhas]. cbn beta iota.
  erewrite M_bind_Ok; [|exact Hnext]. cbn beta iota.
  erewrite M_bind_Ok; [|reflexivity].
  by apply IH.
Qed.

(** C6, the code on a group without items.  [Next] marks the iterator as
    exhausted by moving the item index to the size of the group, which is
    the value it started with: [HasNext] answers [true] again, after every
    [Next], and a consumer that runs the iterator to exhaustion does not
    terminate. *)
Theorem leaf_iterator_empty_group_never_exhausted :
  ∃ (it : GroupBindingIterator) (s1 : State),
    GroupBindingIterator_new no_rule 1 0 leaf_pattern (initial_state [[]] [])
    = Ok it (initial_state [[]] [])
    ∧ HasNext no_rule 1 it (initial_state [[]] [])
      = Ok (true, it) (initial_state [[]] [])
    ∧ Next it (initial_state [[]] []) = Ok (0, it) s1
    ∧ plan_nodes s1 = [mkOpPlanNode (LeafOperator 0) []]
    ∧ HasNext no_rule 1 it s1 = Ok (true, it) s1
    ∧ ∀ fuel, plans_of no_rule fuel it [] (initial_state [[]] []) = OutOfFuel.
Proof.
  eexists. eexists.
  split; [vm_compute; reflexivity|].
  split; [vm_compute; reflexivity|].
  split; [vm_compute; reflexivity|].
  split; [vm_compute; reflexivity|].
  split; [vm_compute; reflexivity|].
  intros fuel. by apply leaf_iterator_empty_group_diverges.
Qed.

(** ** Patterns of depth three *)

(** C2, the code on a pattern whose child pattern has children.  The plans
    of a child group are pointers to the current binding of the child's
    item iterator, which that iterator keeps changing in place and leaves
    without children when it is exhausted: the plan yielded for
    [Project(Filter(Leaf))] holds a [Filter] without its child, and the two
    pointers collected for [Filter(Get)] are one node. *)
Theorem nested_pattern_plan_loses_children :
  matching_plans (memo_of chain_memo) project_filter_leaf 0
  = [PlanNode (LogicalProject 1)
       [PlanNode (LogicalFilter 2) [PlanNode (LeafOperator 2) []]]]
  ∧ value_of
      ((it ← GroupBindingIterator_new no_rule 4 0 project_filter_leaf;
        plans_of no_rule 6 it []) (initial_state chain_memo []))
    = Some [Some (PlanNode (LogicalProject 1) [PlanNode (LogicalFilter 2) []])]
  ∧ ∃ s',
      (it ← GroupBindingIterator_new no_rule 4 0 filter_of_get;
       drain (new_ItemBindingIterator no_rule 6) 6 it [])
        (initial_state filter_memo [])
      = Ok [0; 0] s'
      ∧ plan_nodes s' !! 0 = Some (mkOpPlanNode (LogicalFilter 1) []).
Proof.
  split; [vm_compute; reflexivity|].
  split; [vm_compute; reflexivity|].
  eexists. split; vm_compute; reflexivity.
Qed.

End BindingFacts.

(** * Properties of the memory pool helpers *)

Module PoolFacts.
Import Pool.
Local Open Scope Z_scope.

Lemma run_step L w k :
  0 ≤ L → 0 < w → run L w k → run L (2 * w) (Z.lor k (Z.shiftr k w)).
Proof.
  intros HL Hw [[Hk0 Hk] Hbits]. split.
  - assert (0 ≤ Z.shiftr k w) by (apply Z.shiftr_nonneg; lia).
    assert (Z.shiftr k w ≤ k).
    { rewrite Z.shiftr_div_pow2 by lia.
      apply Z.div_le_upper_bound; [lia|].
      pose proof (Z.pow_pos_nonneg 2 w ltac:(lia) ltac:(lia)). nia. }
    assert (0 ≤ Z.lor k (Z.shiftr k w)) by (apply Z.lor_nonneg; lia).
    split; [done|].
    destruct (decide (k = 0)) as [->|Hne].
    { rewrite Z.shiftr_0_l, Z.lor_0_l. lia. }
    destruct (decide (Z.lor k (Z.shiftr k w) = 0)) as [->|Hne2]; [lia|].
    apply Z.log2_lt_pow2; [lia|].
    assert (Z.log2 k < L + 1) by (apply Z.log2_lt_pow2; lia).
    pose proof (Z.log2_lor k (Z.shiftr k w) ltac:(lia) ltac:(lia)) as Hl.
    pose proof (Z.log2_le_mono (Z.shiftr k w) k ltac:(lia)). lia.
  - intros j Hj0 Hj. rewrite Z.lor_spec, Z.shiftr_spec by lia.
    destruct (decide (L - w < j)) as [Hin|Hout].
    + rewrite Hbits by lia. done.
    + rewrite (Hbits (j + w)) by lia. apply orb_true_r.
Qed.

(** The loop leaves by its condition, not for lack of fuel, as soon as
    [i * 2 ^ fuel] reaches [bits]; by then the run of ones reaches bit 0. *)
Lemma smear_run fuel : ∀ bits i k L,
  0 ≤ L < bits → 0 < i → run L i k →
  bits ≤ i * 2 ^ Z.of_nat fuel →
  run L bits (smear fuel bits i k).
Proof.
  induction fuel as [|fuel IH]; intros bits i k L HL Hi Hrun Hfuel; simpl.
  - simpl in Hfuel. destruct Hrun as [Hk Hb]. split; [done|].
    intros j Hj0 Hj. apply Hb; lia.
  - destruct (Z.ltb_spec i bits) as [Hlt|Hge].
    + apply (IH _ _ _ L); [lia|rewrite Z.shiftl_mul_pow2 by lia; lia| |].
      * rewrite Z.shiftl_mul_pow2 by lia. replace (i * 2 ^ 1) with (2 * i) by lia.
        apply run_step; [lia|lia|done].
      * rewrite Z.shiftl_mul_pow2 by lia.
        rewrite Nat2Z.inj_succ, Z.pow_succ_r in Hfuel by lia. lia.
    + destruct Hrun as [Hk Hb]. split; [done|].
      intros j Hj0 Hj. apply Hb; lia.
Qed.

Lemma run_ones L w k : 0 ≤ L < w → run L w k → k = 2 ^ (L + 1) - 1.
Proof.
  intros HL [[Hk0 Hk] Hb].
  replace (2 ^ (L + 1) - 1) with (Z.ones (L + 1)) by (rewrite Z.ones_equiv; lia).
  apply Z.bits_inj'. intros j Hj.
  destruct (decide (j ≤ L)) as [Hle|Hgt].
  - rewrite Hb by lia. rewrite Z.ones_spec_low by lia. done.
  - rewrite Z.ones_spec_high by lia.
    destruct (decide (k = 0)) as [->|Hne]; [apply Z.bits_0|].
    apply Z.bits_above_log2; [lia|].
    assert (Z.log2 k < L + 1) by (apply Z.log2_lt_pow2; lia). lia.
Qed.

Lemma smear_0 fuel : ∀ bits i, smear fuel bits i 0 = 0.
Proof.
  induction fuel as [|fuel IH]; intros bits i; simpl; [done|].
  destruct (i <? bits); [|done]. rewrite Z.shiftr_0_l. apply IH.
Qed.

(** The value of [nexthigher] on every argument of the type. *)
Lemma nexthigher_value bits k :
  0 < bits → 0 ≤ k < 2 ^ bits →
  nexthigher bits k = wrap bits (2 ^ Z.log2_up k).
Proof.
  intros Hbits Hk. unfold nexthigher.
  assert (H1 : 1 < 2 ^ bits) by (apply Z.pow_gt_1; lia).
  destruct (Z.eqb_spec k 0) as [->|Hk0].
  { unfold wrap. change (2 ^ Z.log2_up 0) with 1. rewrite Z.mod_small; lia. }
  unfold wrap at 2. rewrite Z.mod_small by lia.
  destruct (decide (k = 1)) as [->|Hk1].
  { change (1 - 1) with 0. change (2 ^ Z.log2_up 1) with 1.
    rewrite smear_0. done. }
  set (L := Z.log2 (k - 1)).
  assert (HL : 0 ≤ L < bits).
  { split; [apply Z.log2_nonneg|]. apply Z.log2_lt_pow2; lia. }
  assert (Hrun : run L 1 (k - 1)).
  { split.
    - split; [lia|]. apply Z.log2_spec. lia.
    - intros j _ Hj. assert (j = L) as -> by lia. apply Z.bit_log2. lia. }
  apply (smear_run (Z.to_nat bits) bits) in Hrun; [|done|lia|].
  2:{ rewrite Z2Nat.id by lia. pose proof (Z.pow_gt_lin_r 2 bits). lia. }
  apply run_ones in Hrun; [|done]. rewrite Hrun.
  f_equal. replace (2 ^ (L + 1) - 1 + 1) with (2 ^ (L + 1)) by lia.
  f_equal. unfold L. rewrite (Z.log2_up_eqn k) by lia.
  replace (Z.pred k) with (k - 1) by lia. lia.
Qed.

(** X1. For an unsigned type of [bits] bits and [0 < k ≤ 2 ^ (bits - 1)],
    [nexthigher] returns the least power of two that is not below [k]: a
    power of two, at least [k] and less than twice [k].  A power of two is
    returned as it is, whatever the name of the function suggests. *)
Theorem nexthigher_least_power_of_two bits k :
  0 < bits → 0 < k ≤ 2 ^ (bits - 1) →
  (∃ n, 0 ≤ n < bits ∧ nexthigher bits k = 2 ^ n ∧ k ≤ 2 ^ n ∧ 2 ^ n < 2 * k)
  ∧ (∀ m, 0 ≤ m → k = 2 ^ m → nexthigher bits k = k).
Proof.
  intros Hbits Hk.
  assert (Hpow : 2 ^ bits = 2 * 2 ^ (bits - 1)).
  { rewrite <- Z.pow_succ_r by lia. f_equal. lia. }
  assert (Hn : 0 ≤ Z.log2_up k < bits).
  { split; [apply Z.log2_up_nonneg|].
    assert (Z.log2_up k ≤ bits - 1) by (apply Z.log2_up_le_pow2; lia). lia. }
  assert (Hval : nexthigher bits k = 2 ^ Z.log2_up k).
  { rewrite nexthigher_value by lia. unfold wrap. apply Z.mod_small.
    split; [apply Z.pow_nonneg; lia|]. apply Z.pow_lt_mono_r; lia. }
  split.
  - exists (Z.log2_up k). split; [done|]. split; [done|].
    destruct (decide (k = 1)) as [->|Hk1]; [done|].
    pose proof (Z.log2_up_spec k ltac:(lia)) as [Hlo Hhi].
    split; [done|].
    replace (Z.log2_up k) with (Z.succ (Z.pred (Z.log2_up k))) by lia.
    rewrite Z.pow_succ_r; [lia|].
    assert (0 < Z.log2_up k) by (apply Z.log2_up_pos; lia). lia.
  - intros m Hm ->. rewrite Hval. f_equal. apply Z.log2_up_pow2. done.
Qed.

Lemma nexthigher_least_power_of_two_witness :
  nexthigher 64 1000 = 1024
  ∧ (∃ n, 0 ≤ n < 64 ∧ nexthigher 64 1000 = 2 ^ n ∧ 1000 ≤ 2 ^ n
       ∧ 2 ^ n < 2 * 1000)
  ∧ (∀ m, 0 ≤ m → 1000 = 2 ^ m → nexthigher 64 1000 = 1000).
Proof.
  split; [reflexivity|].
  apply (nexthigher_least_power_of_two 64 1000); [lia|].
  split; [lia|]. vm_compute. discriminate.
Defined.

(** X2. Above half of the range of the type there is no power of two to
    return: for [2 ^ (bits - 1) < k < 2 ^ bits] the increment wraps and
    [nexthigher] returns 0. *)
Theorem nexthigher_wraps_to_zero bits k :
  0 < bits → 2 ^ (bits - 1) < k < 2 ^ bits → nexthigher bits k = 0.
Proof.
  intros Hbits Hk.
  assert (0 < 2 ^ (bits - 1)) by (apply Z.pow_pos_nonneg; lia).
  rewrite nexthigher_value by lia.
  assert (Z.log2_up k = bits) as ->.
  { apply Z.le_antisymm.
    - apply Z.log2_up_le_pow2; lia.
    - assert (¬ Z.log2_up k ≤ bits - 1); [|lia].
      rewrite <- Z.log2_up_le_pow2 by lia. lia. }
  unfold wrap. apply Z.mod_same. lia.
Qed.

Lemma nexthigher_wraps_to_zero_witness :
  2 ^ (8 - 1) < 129 < 2 ^ 8 ∧ nexthigher 8 129 = 0.
Proof.
  split; [vm_compute; split; reflexivity|].
  apply (nexthigher_wraps_to_zero 8 129); [lia|].
  vm_compute; split; reflexivity.
Defined.

End PoolFacts.

(** * Iteration order of the ordered containers *)

Module OrderFacts.

#[global] Instance key_le_total {A : Type} : Total (@key_le A).
Proof. intros x y. unfold key_le. lia. Qed.

#[global] Instance key_le_trans {A : Type} : Transitive (@key_le A).
Proof. intros x y z. unfold key_le. lia. Qed.

#[global] Instance pair_le_total {A : Type} : Total (@pair_le A).
Proof. intros x y. unfold pair_le. lia. Qed.

#[global] Instance pair_le_trans {A : Type} : Transitive (@pair_le A).
Proof. intros x y z. unfold pair_le. lia. Qed.

(** Two sorted lists with the same elements are the same list, when the
    order tells the elements apart. *)
Lemma sorted_perm_eq {A : Type} (R : relation A) : ∀ l1 l2,
  StronglySorted R l1 → StronglySorted R l2 → l1 ≡ₚ l2 →
  (∀ x y, x ∈ l1 → y ∈ l1 → R x y → R y x → x = y) →
  l1 = l2.
Proof.
  induction l1 as [|x l1 IH]; intros l2 S1 S2 Hp Hanti.
  { by apply Permutation_nil in Hp. }
  destruct l2 as [|y l2]; [by apply Permutation_sym, Permutation_nil in Hp|].
  apply StronglySorted_inv in S1 as [S1 F1].
  apply StronglySorted_inv in S2 as [S2 F2].
  assert (x = y) as <-.
  { assert (Hx : x ∈ y :: l2) by (rewrite <- Hp; left).
    assert (Hy : y ∈ x :: l1) by (rewrite Hp; left).
    apply elem_of_cons in Hx as [->|Hx]; [done|].
    apply elem_of_cons in Hy as [->|Hy]; [done|].
    rewrite Forall_forall in F1, F2.
    apply Hanti; [left|by right|by apply F1|by apply F2]. }
  f_equal. apply IH; [done|done|by eapply Permutation_cons_inv|].
  intros a b Ha Hb. apply Hanti; by right.
Qed.

Lemma NoDup_fst_eq {K A : Type} (l : list (K * A)) x y :
  NoDup l.*1 → x ∈ l → y ∈ l → x.1 = y.1 → x = y.
Proof.
  induction l as [|z l IH]; intros Hnd Hx Hy Hxy; [by apply elem_of_nil in Hx|].
  simpl in Hnd. apply NoDup_cons in Hnd as [Hz Hnd].
  apply elem_of_cons in Hx as [->|Hx]; apply elem_of_cons in Hy as [->|Hy].
  - done.
  - exfalso. apply Hz. rewrite Hxy. by apply list_elem_of_fmap_2.
  - exfalso. apply Hz. rewrite <- Hxy. by apply list_elem_of_fmap_2.
  - by apply IH.
Qed.

(** The entries of a [std::map] in iteration order: the one list of the
    entries whose keys increase. *)
Lemma sorted_entries_eq {A : Type} (m : gmap nat A) l :
  StronglySorted key_le l → l ≡ₚ map_to_list m → sorted_entries m = l.
Proof.
  intros Hs Hp. unfold sorted_entries.
  apply sorted_perm_eq with (R := key_le).
  - apply Sorted_StronglySorted; [apply _|]. apply Sorted_merge_sort, _.
  - done.
  - by rewrite merge_sort_Permutation.
  - intros x y Hx Hy Hxy Hyx. rewrite merge_sort_Permutation in Hx, Hy.
    apply (NoDup_fst_eq (map_to_list m)); [apply NoDup_fst_map_to_list|done|done|].
    unfold key_le in *. lia.
Qed.

Lemma sorted_entries_perm {A : Type} (m : gmap nat A) :
  sorted_entries m ≡ₚ map_to_list m.
Proof. apply merge_sort_Permutation. Qed.

Lemma elem_of_sorted_entries {A : Type} (m : gmap nat A) k v :
  (k, v) ∈ sorted_entries m ↔ m !! k = Some v.
Proof. by rewrite sorted_entries_perm, elem_of_map_to_list. Qed.

Lemma length_sorted_entries {A : Type} (m : gmap nat A) :
  length (sorted_entries m) = size m.
Proof. by rewrite sorted_entries_perm, length_map_to_list. Qed.

(** A list with increasing keys is the iteration order of the map it
    builds. *)
Lemma sorted_entries_list_to_map {A : Type} (l : list (nat * A)) :
  StronglySorted lt l.*1 → sorted_entries (list_to_map l) = l.
Proof.
  intros Hs. apply sorted_entries_eq.
  - clear -Hs. induction l as [|x l IH]; [constructor|].
    simpl in Hs. apply StronglySorted_inv in Hs as [Hs Hx].
    constructor; [by apply IH|].
    rewrite Forall_fmap in Hx. eapply Forall_impl; [exact Hx|].
    intros y Hy. unfold key_le. simpl in Hy. lia.
  - symmetry. apply map_to_list_to_map.
    clear -Hs. induction l.*1 as [|x l' IH]; [constructor|].
    apply StronglySorted_inv in Hs as [Hs Hx]. constructor; [|by apply IH].
    intros Hin. rewrite Forall_forall in Hx. apply Hx in Hin. lia.
Qed.

Lemma StronglySorted_lt_seq j n : StronglySorted lt (seq j n).
Proof.
  revert j. induction n as [|n IH]; intros j; simpl; [constructor|].
  constructor; [apply IH|]. apply Forall_forall. intros x Hx.
  apply elem_of_seq in Hx. lia.
Qed.

(** The entries of a map built over the keys [j, j + 1, ...] come in that
    order. *)
Lemma sorted_entries_seq {A : Type} (f : nat → A) j n :
  sorted_entries (list_to_map ((λ k, (k, f k)) <$> seq j n))
  = (λ k, (k, f k)) <$> seq j n.
Proof.
  apply sorted_entries_list_to_map.
  rewrite <- list_fmap_compose.
  replace (fst ∘ (λ k : nat, (k, f k)) <$> seq j n) with (seq j n);
    [apply StronglySorted_lt_seq|].
  induction (seq j n) as [|x l IH]; [done|]. simpl. by f_equal.
Qed.

Lemma sorted_pair_entries_eq {A : Type} (m : gmap (nat * nat) A) l :
  StronglySorted pair_le l → l ≡ₚ map_to_list m → sorted_pair_entries m = l.
Proof.
  intros Hs Hp. unfold sorted_pair_entries.
  apply sorted_perm_eq with (R := pair_le).
  - apply Sorted_StronglySorted; [apply _|]. apply Sorted_merge_sort, _.
  - done.
  - by rewrite merge_sort_Permutation.
  - intros x y Hx Hy Hxy Hyx. rewrite merge_sort_Permutation in Hx, Hy.
    apply (NoDup_fst_eq (map_to_list m)); [apply NoDup_fst_map_to_list|done|done|].
    unfold pair_le in *. destruct x as [[??]?], y as [[??]?]; simpl in *.
    f_equal; lia.
Qed.

Lemma sorted_pair_entries_perm {A : Type} (m : gmap (nat * nat) A) :
  sorted_pair_entries m ≡ₚ map_to_list m.
Proof. apply merge_sort_Permutation. Qed.

End OrderFacts.

(** * Properties of the indexes of a table *)

Module IndexFacts.
Import Storage Scenarios.

Lemma set_indexes_id t : set_indexes (λ _, indexes t) t = t.
Proof. by destruct t. Qed.

Lemma list_find_app_None {A : Type} (P : A → Prop) `{∀ x, Decision (P x)} l1 l2 :
  list_find P l1 = None →
  list_find P (l1 ++ l2) = prod_map (λ n, length l1 + n) id <$> list_find P l2.
Proof.
  intros Hnone. induction l1 as [|x l1 IH]; simpl.
  { destruct (list_find P l2) as [[??]|]; done. }
  simpl in Hnone. case_decide; [done|].
  destruct (list_find P l1) as [[??]|] eqn:Hf; [done|].
  rewrite IH by done. destruct (list_find P l2) as [[??]|]; done.
Qed.

Lemma list_find_app_Some {A : Type} (P : A → Prop) `{∀ x, Decision (P x)} l1 l2 r :
  list_find P l1 = Some r → list_find P (l1 ++ l2) = Some r.
Proof.
  revert r. induction l1 as [|x l1 IH]; intros r Hr; simpl in *; [done|].
  case_decide; [done|].
  destruct (list_find P l1) as [[??]|] eqn:Hf; [|done].
  by rewrite (IH _ eq_refl).
Qed.

(** X3. [AddIndex] appends: the index is found at the last offset and the
    offsets of the others stay.  A lookup by oid returns the first index
    with the oid in insertion order, so an index that is added under an oid
    in use is not found by its oid. *)
Theorem add_index_lookup index ts oid :
  GetIndexCount (AddIndex index ts).1 = S (GetIndexCount ts.1)
  ∧ GetIndex (AddIndex index ts).1 (GetIndexCount ts.1) = Some index
  ∧ (∀ i, i < GetIndexCount ts.1 →
       GetIndex (AddIndex index ts).1 i = GetIndex ts.1 i)
  ∧ GetIndexWithOid (AddIndex index ts).1 oid
    = match GetIndexWithOid ts.1 oid with
      | Some found => Some found
      | None => if decide (index_oid index = oid) then Some index else None
      end.
Proof.
  destruct ts as [t st].
  assert (Hix : indexes (AddIndex index (t, st)).1 = indexes t ++ [index]).
  { unfold AddIndex. destruct (index_type index); done. }
  unfold GetIndexCount, GetIndex, GetIndexWithOid. rewrite Hix. simpl.
  split; [rewrite length_app; simpl; lia|].
  split; [by rewrite lookup_app_r, Nat.sub_diag by lia|].
  split; [by intros i Hi; rewrite lookup_app_l by done|].
  destruct (list_find _ (indexes t)) as [r|] eqn:Hf.
  - by rewrite (list_find_app_Some _ _ _ _ Hf).
  - rewrite list_find_app_None by done. simpl. by case_decide.
Qed.

(** X4. [DropIndexWithOid] removes the first index with the oid and nothing
    else, the indexes behind it move down by one; when no index has the oid
    the assertion fails.  The statistics that [AddIndex] wrote are not
    taken back. *)
Theorem drop_index_removes_first ts oid :
  match GetIndexWithOid ts.1 oid with
  | None => DropIndexWithOid ts oid = None
  | Some found =>
      ∃ before after,
        indexes ts.1 = before ++ found :: after
        ∧ Forall (λ index, index_oid index ≠ oid) before
        ∧ index_oid found = oid
        ∧ DropIndexWithOid ts oid
          = Some (set_indexes (λ _, before ++ after) ts.1, ts.2)
  end.
Proof.
  destruct ts as [t st]. unfold GetIndexWithOid, DropIndexWithOid. simpl.
  destruct (list_find _ (indexes t)) as [[i found]|] eqn:Hf; simpl.
  - apply list_find_Some in Hf as (Hi & Hoid & Hbefore).
    exists (take i (indexes t)), (drop (S i) (indexes t)).
    split; [by rewrite <- (take_drop_middle _ _ _ Hi) at 1|].
    split.
    { apply Forall_forall. intros x Hx.
      apply list_elem_of_lookup in Hx as [j Hj].
      apply lookup_take_Some in Hj as [Hj Hlt]. by eapply Hbefore. }
    split; [done|].
    rewrite decide_True by (by eapply lookup_lt_Some).
    do 2 f_equal. unfold set_indexes. f_equal. apply delete_take_drop.
  - rewrite decide_False by lia. done.
Qed.

(** X5. Adding an index under an oid that is free and dropping it again
    gives the table back as it was, but the table still counts the
    constraint: [has_primary_key] and [unique_constraint_count] are as
    [AddIndex] left them. *)
Theorem add_then_drop_index index ts :
  GetIndexWithOid ts.1 (index_oid index) = None →
  DropIndexWithOid (AddIndex index ts) (index_oid index)
  = Some (ts.1, (AddIndex index ts).2)
  ∧ (index_type index = INDEX_CONSTRAINT_TYPE_PRIMARY_KEY →
       has_primary_key (AddIndex index ts).2 = true)
  ∧ (index_type index = INDEX_CONSTRAINT_TYPE_UNIQUE →
       unique_constraint_count (AddIndex index ts).2
       = S (unique_constraint_count ts.2)).
Proof.
  intros Hfree. destruct ts as [t st]. simpl in Hfree.
  assert (Hix : (AddIndex index (t, st)).1 = set_indexes (λ l, l ++ [index]) t).
  { unfold AddIndex. destruct (index_type index); done. }
  split; [|split; intros Hty; unfold AddIndex; rewrite Hty; reflexivity].
  unfold DropIndexWithOid. rewrite Hix.
  unfold GetIndexWithOid in Hfree.
  destruct (list_find _ (indexes t)) as [r|] eqn:Hf; [done|].
  assert (indexes (set_indexes (λ l, l ++ [index]) t) = indexes t ++ [index])
    as -> by done.
  rewrite list_find_app_None by done. simpl.
  destruct (decide (index_oid index = index_oid index)); [|done]. simpl.
  rewrite length_app, Nat.add_0_r. simpl. rewrite decide_True by lia.
  do 2 f_equal. destruct t. unfold set_indexes. simpl. f_equal.
  rewrite delete_take_drop, take_app_length.
  rewrite drop_ge by (rewrite length_app; simpl; lia).
  by rewrite app_nil_r.
Qed.

Lemma add_then_drop_index_witness :
  ∃ w,
    four_rows = Some w
    ∧ GetIndexWithOid (table w) 7 = None
    ∧ DropIndexWithOid
        (AddIndex (mkIndex 7 INDEX_CONSTRAINT_TYPE_PRIMARY_KEY [0] [] 0)
           (table w, mkIndexStats false 0)) 7
      = Some (table w, mkIndexStats true 0).
Proof.
  eexists. split; [vm_compute; reflexivity|]. split; [reflexivity|].
  refine (proj1 (add_then_drop_index
                   (mkIndex 7 INDEX_CONSTRAINT_TYPE_PRIMARY_KEY [0] [] 0)
                   (_, mkIndexStats false 0) _)).
  reflexivity.
Defined.

End IndexFacts.

(** * Properties of the insertion paths *)

Module InsertFacts.
Import Storage Scenarios StorageFacts.

Lemma mapM_lookup {A B : Type} (f : A → option B) l k :
  mapM f l = Some k →
  length k = length l ∧ ∀ i x, l !! i = Some x → k !! i = f x ∧ is_Some (f x).
Proof.
  intros H. apply mapM_Some in H. split; [symmetry; by eapply Forall2_length|].
  intros i x Hx. destruct (Forall2_lookup_l _ _ _ _ _ H Hx) as (y & Hy & Hf).
  rewrite Hy, Hf. eauto.
Qed.

(** The key of an index: the values of the tuple at the indexed columns. *)
Lemma SetFromTuple_lookup tuple columns key :
  SetFromTuple tuple columns = Some key →
  length key = length columns
  ∧ ∀ j c, columns !! j = Some c → key !! j = tuple !! c.
Proof.
  intros H. apply mapM_lookup in H as [Hlen Hlook]. split; [done|].
  intros j c Hc. by destruct (Hlook j c Hc).
Qed.

(** What the insertion functions do to the indexes. *)
Lemma InsertInIndexes_spec t tuple loc r t' :
  InsertInIndexes t tuple loc = Some (r, t') →
  r = true
  ∧ t' = set_indexes (λ _, indexes t') t
  ∧ length (indexes t') = length (indexes t)
  ∧ ∀ i ix, indexes t !! i = Some ix →
      ∃ key, SetFromTuple tuple (indexed_columns ix) = Some key
        ∧ indexes t' !! i = Some (InsertEntry key loc ix).
Proof.
  unfold InsertInIndexes. intros H.
  destruct (mapM _ (indexes t)) as [ixs|] eqn:Hm; [|done].
  simpl in H. simplify_eq. split; [done|]. split; [by destruct t|].
  apply mapM_lookup in Hm as [Hlen Hlook]. split; [done|].
  intros i ix Hix. destruct (Hlook i ix Hix) as [Hi [y Hy]].
  destruct (SetFromTuple tuple (indexed_columns ix)) as [key|] eqn:Hkey; [|done].
  exists key. split; [done|]. simpl. rewrite Hi. done.
Qed.

Lemma InsertInSecondaryIndexes_spec t tuple loc r t' :
  InsertInSecondaryIndexes t tuple loc = Some (r, t') →
  r = true
  ∧ t' = set_indexes (λ _, indexes t') t
  ∧ length (indexes t') = length (indexes t)
  ∧ ∀ i ix, indexes t !! i = Some ix →
      ∃ key, SetFromTuple tuple (indexed_columns ix) = Some key
        ∧ indexes t' !! i
          = Some (if decide (index_type ix = INDEX_CONSTRAINT_TYPE_DEFAULT)
                  then InsertEntry key loc ix else ix).
Proof.
  unfold InsertInSecondaryIndexes. intros H.
  destruct (mapM _ (indexes t)) as [ixs|] eqn:Hm; [|done].
  simpl in H. simplify_eq. split; [done|]. split; [by destruct t|].
  apply mapM_lookup in Hm as [Hlen Hlook]. split; [done|].
  intros i ix Hix. destruct (Hlook i ix Hix) as [Hi [y Hy]].
  destruct (SetFromTuple tuple (indexed_columns ix)) as [key|] eqn:Hkey; [|done].
  exists key. split; [done|]. simpl. rewrite Hi. simpl.
  by destruct (index_type ix).
Qed.

Section Configuration.

Variable peloton_layout_mode : LayoutType.
Variable peloton_fsm : bool.
Variable hyadapt_column_map : nat → gmap nat (nat * nat).

Local Abbreviation AddDefaultTileGroup :=
  (AddDefaultTileGroup peloton_layout_mode peloton_fsm hyadapt_column_map).
Local Abbreviation GetTupleSlot_loop :=
  (GetTupleSlot_loop peloton_layout_mode peloton_fsm hyadapt_column_map).
Local Abbreviation GetTupleSlot :=
  (GetTupleSlot peloton_layout_mode peloton_fsm hyadapt_column_map).
Local Abbreviation InsertTuple :=
  (InsertTuple peloton_layout_mode peloton_fsm hyadapt_column_map).
Local Abbreviation InsertVersion :=
  (InsertVersion peloton_layout_mode peloton_fsm hyadapt_column_map).
Local Abbreviation InsertEmptyVersion :=
  (InsertEmptyVersion peloton_layout_mode peloton_fsm hyadapt_column_map).
Local Abbreviation insert_version :=
  (insert_version peloton_layout_mode peloton_fsm hyadapt_column_map).

(** Claiming a slot changes nothing of the table but its list of tile
    groups. *)
Lemma AddDefaultTileGroup_table w r w' :
  AddDefaultTileGroup w = Some (r, w') →
  table w' = set_tile_groups (λ _, tile_groups (table w')) (table w).
Proof.
  unfold Storage.AddDefaultTileGroup. intros H.
  destruct (GetTileGroupWithLayout w _) as [[tg w1]|] eqn:Hg; [|done].
  apply GetTileGroupWithLayout_spec in Hg as (Ht & _). simpl in H.
  assert (Hreg : table (register_tile_group tg w1)
                 = set_tile_groups (λ _, tile_groups (table w) ++ [GetTileGroupId tg])
                     (table w)).
  { unfold register_tile_group. simpl. rewrite Ht. by destruct (table w). }
  destruct (tile_groups (table w1)) eqn:Htg.
  - simplify_eq. rewrite Hreg. by destruct (table w).
  - destruct (GetTileGroup w1 _) as [last|]; [|done]. simpl in H.
    case_decide; simplify_eq.
    + rewrite Ht. by destruct (table w).
    + rewrite Hreg. by destruct (table w).
Qed.

Lemma GetTupleSlot_loop_table fuel : ∀ tuple w loc w',
  GetTupleSlot_loop fuel tuple w = Some (loc, w') →
  table w' = set_tile_groups (λ _, tile_groups (table w')) (table w).
Proof.
  induction fuel as [|fuel IH]; intros tuple w loc w' H; simpl in H; [done|].
  case_decide; [|done].
  destruct (tile_groups (table w) !! _) as [key|]; [|done]. simpl in H.
  destruct (GetTileGroup w _) as [tg|]; [|done]. simpl in H.
  destruct (TileGroup_InsertTuple tg tuple) as [[slot tg']|]; [|done]. simpl in H.
  destruct slot as [slot|].
  - simplify_eq. simpl. by destruct (table w).
  - destruct (AddDefaultTileGroup _) as [[r w1]|] eqn:Ha; [|done]. simpl in H.
    apply AddDefaultTileGroup_table in Ha. simpl in Ha.
    apply IH in H. rewrite H, Ha. by destruct (table w).
Qed.

Lemma GetTupleSlot_inv fuel tuple check w r w' :
  GetTupleSlot fuel tuple check w = Some (r, w') →
  ∃ loc, r = Some loc ∧ GetTupleSlot_loop fuel tuple w = Some (loc, w')
    ∧ (check = true → CheckNulls (table w) tuple = Some true).
Proof.
  unfold Storage.GetTupleSlot. intros H.
  assert (Hc : (if check then CheckConstraints (table w) tuple else Some true)
               = Some true ∨
               (if check then CheckConstraints (table w) tuple else Some true) = None).
  { destruct check; [|by left]. unfold CheckConstraints.
    destruct (CheckNulls (table w) tuple) as [[]|]; auto. }
  destruct Hc as [Hc|Hc]; rewrite Hc in H; [|done].
  destruct (GetTupleSlot_loop fuel tuple w) as [[loc w1]|] eqn:Hl; [|done].
  simpl in H. simplify_eq. exists loc. split; [done|]. split; [done|].
  intros ->. unfold CheckConstraints in Hc.
  by destruct (CheckNulls (table w) tuple) as [[]|].
Qed.

(** X6. After [InsertTuple] has returned a location, the table counts one
    tuple more and every index of the table, whatever its type, has one
    entry more, the last one: the values of the tuple at the indexed
    columns, at that location; the tuple counter of every index is one
    higher. *)
Theorem insert_tuple_updates_every_index fuel tuple w loc w' :
  InsertTuple fuel tuple w = Some (Some loc, w') →
  tuple_count_exact (table w') = S (tuple_count_exact (table w))
  ∧ length (indexes (table w')) = length (indexes (table w))
  ∧ ∀ i ix, indexes (table w) !! i = Some ix →
      ∃ key, length key = length (indexed_columns ix)
        ∧ (∀ j c, indexed_columns ix !! j = Some c → key !! j = tuple !! c)
        ∧ indexes (table w') !! i
          = Some (mkIndex (index_oid ix) (index_type ix) (indexed_columns ix)
                    (index_entries ix ++ [(key, loc)])
                    (index_number_of_tuples ix + 1)).
Proof.
  unfold Storage.InsertTuple. intros H.
  destruct (GetTupleSlot fuel tuple true w) as [[r w1]|] eqn:Hs; [|done].
  apply GetTupleSlot_inv in Hs as (loc1 & -> & Hl & _). simpl in H.
  apply GetTupleSlot_loop_table in Hl as Ht.
  destruct (is_INVALID_OID (block loc1)); [done|].
  destruct (InsertInIndexes (table w1) tuple loc1) as [[ok t]|] eqn:Hi; [|done].
  apply InsertInIndexes_spec in Hi as (-> & Ht' & Hlen & Hix).
  simpl in H. simplify_eq. simpl.
  assert (Hidx : indexes (table w1) = indexes (table w)).
  { rewrite Ht. by destruct (table w). }
  assert (Hcnt : tuple_count_exact (table w1) = tuple_count_exact (table w)).
  { rewrite Ht. by destruct (table w). }
  split; [rewrite Ht'; simpl; by rewrite Hcnt|].
  split; [by rewrite length_fmap, Hlen, Hidx|].
  intros i ix Hi. rewrite <- Hidx in Hi.
  destruct (Hix i ix Hi) as (key & Hkey & Hnew).
  apply SetFromTuple_lookup in Hkey as [Hklen Hk].
  exists key. split; [done|]. split; [done|].
  rewrite list_lookup_fmap, Hnew. done.
Qed.

(** X7. [InsertVersion] and [InsertEmptyVersion] count the tuple, but give
    the entry to the indexes of the default type only: a primary key or
    unique index is not touched, and no index has its tuple counter
    increased. *)
Theorem insert_version_updates_default_indexes fuel tuple w loc w' :
  InsertVersion fuel tuple w = Some (Some loc, w')
  ∨ InsertEmptyVersion fuel tuple w = Some (Some loc, w') →
  tuple_count_exact (table w') = S (tuple_count_exact (table w))
  ∧ length (indexes (table w')) = length (indexes (table w))
  ∧ ∀ i ix, indexes (table w) !! i = Some ix →
      if decide (index_type ix = INDEX_CONSTRAINT_TYPE_DEFAULT)
      then ∃ key, length key = length (indexed_columns ix)
             ∧ (∀ j c, indexed_columns ix !! j = Some c → key !! j = tuple !! c)
             ∧ indexes (table w') !! i
               = Some (mkIndex (index_oid ix) (index_type ix) (indexed_columns ix)
                         (index_entries ix ++ [(key, loc)])
                         (index_number_of_tuples ix))
      else indexes (table w') !! i = Some ix.
Proof.
  intros H.
  assert (∃ check, insert_version check fuel tuple w = Some (Some loc, w'))
    as [check Hv] by (destruct H; eauto).
  clear H. unfold Storage.insert_version in Hv.
  destruct (GetTupleSlot fuel tuple check w) as [[r w1]|] eqn:Hs; [|done].
  apply GetTupleSlot_inv in Hs as (loc1 & -> & Hl & _). simpl in Hv.
  apply GetTupleSlot_loop_table in Hl as Ht.
  destruct (is_INVALID_OID (block loc1)); [done|].
  destruct (InsertInSecondaryIndexes (table w1) tuple loc1) as [[ok t]|] eqn:Hi;
    [|done].
  apply InsertInSecondaryIndexes_spec in Hi as (-> & Ht' & Hlen & Hix).
  simpl in Hv. simplify_eq. simpl.
  assert (Hidx : indexes (table w1) = indexes (table w)).
  { rewrite Ht. by destruct (table w). }
  assert (Hcnt : tuple_count_exact (table w1) = tuple_count_exact (table w)).
  { rewrite Ht. by destruct (table w). }
  split; [rewrite Ht'; simpl; by rewrite Hcnt|].
  split; [by rewrite Hlen, Hidx|].
  intros i ix Hi. rewrite <- Hidx in Hi.
  destruct (Hix i ix Hi) as (key & Hkey & Hnew).
  apply SetFromTuple_lookup in Hkey as [Hklen Hk].
  case_decide; [|done]. exists key. done.
Qed.

(** [InsertTuple] returns the location of the slot that it claimed; the
    catalog and the list of tile groups are not touched after that. *)
Lemma InsertTuple_slot fuel tuple w loc w' :
  InsertTuple fuel tuple w = Some (Some loc, w') →
  ∃ w1, GetTupleSlot_loop fuel tuple w = Some (loc, w1)
    ∧ manager w' = manager w1
    ∧ tile_groups (table w') = tile_groups (table w1).
Proof.
  unfold Storage.InsertTuple. intros H.
  destruct (GetTupleSlot fuel tuple true w) as [[r1 w1]|] eqn:Hs; [|done].
  apply GetTupleSlot_inv in Hs as (loc1 & -> & Hl & _). simpl in H.
  destruct (is_INVALID_OID (block loc1)); [done|].
  destruct (InsertInIndexes (table w1) tuple loc1) as [[ok t]|] eqn:Hi; [|done].
  apply InsertInIndexes_spec in Hi as (-> & Ht & _). simpl in H. simplify_eq.
  exists w1. split; [done|]. split; [done|]. simpl. by rewrite Ht.
Qed.

(** X8. The three insertion functions return [INVALID_ITEMPOINTER] in one
    case only: the slot has been claimed in a tile group whose id is
    [INVALID_OID].  The slot stays claimed then, and the tuple is neither
    given to an index nor counted.  In every other case a call that returns
    returns the location that it has claimed: [CheckConstraints] throws
    instead of returning [false], and the index functions return [true]
    whatever they find. *)
Theorem insert_returns_invalid_pointer_for_invalid_oid fuel tuple w r w' :
  InsertTuple fuel tuple w = Some (r, w')
  ∨ InsertVersion fuel tuple w = Some (r, w')
  ∨ InsertEmptyVersion fuel tuple w = Some (r, w') →
  ∃ loc w1, GetTupleSlot_loop fuel tuple w = Some (loc, w1)
    ∧ manager w' = manager w1
    ∧ r = (if is_INVALID_OID (block loc) then None else Some loc)
    ∧ (is_INVALID_OID (block loc) = true → w' = w1).
Proof.
  intros [H|H].
  - unfold Storage.InsertTuple in H.
    destruct (GetTupleSlot fuel tuple true w) as [[r1 w1]|] eqn:Hs; [|done].
    apply GetTupleSlot_inv in Hs as (loc1 & -> & Hl & _). simpl in H.
    exists loc1, w1. split; [done|].
    destruct (is_INVALID_OID (block loc1)); [by simplify_eq|].
    destruct (InsertInIndexes (table w1) tuple loc1) as [[ok t]|] eqn:Hi; [|done].
    apply InsertInIndexes_spec in Hi as (-> & _). simpl in H. by simplify_eq.
  - assert (∃ check, insert_version check fuel tuple w = Some (r, w'))
      as [check Hv] by (destruct H; eauto).
    clear H. unfold Storage.insert_version in Hv.
    destruct (GetTupleSlot fuel tuple check w) as [[r1 w1]|] eqn:Hs; [|done].
    apply GetTupleSlot_inv in Hs as (loc1 & -> & Hl & _). simpl in Hv.
    exists loc1, w1. split; [done|].
    destruct (is_INVALID_OID (block loc1)); [by simplify_eq|].
    destruct (InsertInSecondaryIndexes (table w1) tuple loc1) as [[ok t]|] eqn:Hi;
      [|done].
    apply InsertInSecondaryIndexes_spec in Hi as (-> & _). simpl in Hv.
    by simplify_eq.
Qed.

(** X9. A tuple with a NULL in a column that does not allow it makes
    [InsertTuple] and [InsertVersion] throw before a slot is claimed;
    [InsertEmptyVersion] does not look at the constraints: it stores the
    tuple whenever a slot can be claimed and the keys of the indexes can be
    built, and returns the location of the slot, or [INVALID_ITEMPOINTER]
    when the slot is in a tile group whose id is [INVALID_OID]. *)
Theorem not_null_is_checked_except_for_empty_versions fuel tuple w :
  (CheckNulls (table w) tuple ≠ Some true →
     InsertTuple fuel tuple w = None ∧ InsertVersion fuel tuple w = None)
  ∧ (∀ loc w1,
       GetTupleSlot_loop fuel tuple w = Some (loc, w1) →
       Forall (λ ix, is_Some (SetFromTuple tuple (indexed_columns ix)))
              (indexes (table w)) →
       ∃ w', InsertEmptyVersion fuel tuple w
             = Some (if is_INVALID_OID (block loc) then None else Some loc, w')).
Proof.
  split.
  - intros Hn.
    assert (Hc : CheckConstraints (table w) tuple = None).
    { unfold CheckConstraints. by destruct (CheckNulls (table w) tuple) as [[]|]. }
    unfold Storage.InsertTuple, Storage.InsertVersion, Storage.insert_version,
      Storage.GetTupleSlot.
    by rewrite Hc.
  - intros loc w1 Hl Hkeys.
    unfold Storage.InsertEmptyVersion, Storage.insert_version, Storage.GetTupleSlot.
    rewrite Hl. simpl.
    destruct (is_INVALID_OID (block loc)); [eauto|].
    apply GetTupleSlot_loop_table in Hl as Ht.
    assert (Hidx : indexes (table w1) = indexes (table w)).
    { rewrite Ht. by destruct (table w). }
    unfold InsertInSecondaryIndexes. rewrite Hidx.
    destruct (mapM _ (indexes (table w))) as [ixs|] eqn:Hm; [simpl; eauto|].
    exfalso. revert Hm. generalize (indexes (table w)) Hkeys. clear.
    intros l Hl. induction Hl as [|ix l [key Hkey] _ IH]; [done|].
    intros Hm. apply IH. clear IH. simpl in Hm. rewrite Hkey in Hm. simpl in Hm.
    destruct (mapM _ l); [|done].
    by destruct (index_type ix).
Qed.

End Configuration.

Lemma insert_tuple_updates_every_index_witness :
  ∃ w w',
    indexed_world = Some w
    ∧ InsertTuple LAYOUT_ROW false (λ _, ∅) 2 [ValInteger 4; ValInteger 0] w
      = Some (Some (mkItemPointer 3 0), w')
    ∧ indexes (table w')
      = [mkIndex 1 INDEX_CONSTRAINT_TYPE_PRIMARY_KEY [0]
           [([ValInteger 4], mkItemPointer 3 0)] 1;
         mkIndex 2 INDEX_CONSTRAINT_TYPE_DEFAULT [1]
           [([ValInteger 0], mkItemPointer 3 0)] 1]
    ∧ tuple_count_exact (table w') = S (tuple_count_exact (table w)).
Proof.
  eexists _, _. split; [vm_compute; reflexivity|].
  split; [vm_compute; reflexivity|]. split; [vm_compute; reflexivity|].
  eapply (insert_tuple_updates_every_index LAYOUT_ROW false (λ _, ∅) 2
            [ValInteger 4; ValInteger 0]).
  vm_compute; reflexivity.
Defined.

Lemma insert_version_updates_default_indexes_witness :
  ∃ w w',
    indexed_world = Some w
    ∧ InsertVersion LAYOUT_ROW false (λ _, ∅) 2 [ValInteger 4; ValInteger 0] w
      = Some (Some (mkItemPointer 3 0), w')
    ∧ indexes (table w')
      = [mkIndex 1 INDEX_CONSTRAINT_TYPE_PRIMARY_KEY [0] [] 0;
         mkIndex 2 INDEX_CONSTRAINT_TYPE_DEFAULT [1]
           [([ValInteger 0], mkItemPointer 3 0)] 0]
    ∧ tuple_count_exact (table w') = S (tuple_count_exact (table w)).
Proof.
  eexists _, _. split; [vm_compute; reflexivity|].
  split; [vm_compute; reflexivity|]. split; [vm_compute; reflexivity|].
  eapply (insert_version_updates_default_indexes LAYOUT_ROW false (λ _, ∅) 2
            [ValInteger 4; ValInteger 0]).
  left. vm_compute; reflexivity.
Defined.

Lemma insert_returns_invalid_pointer_for_invalid_oid_witness :
  ∃ w r w',
    indexed_world = Some w
    ∧ InsertEmptyVersion LAYOUT_ROW false (λ _, ∅) 2 [ValNull; ValInteger 0] w
      = Some (r, w')
    ∧ r = Some (mkItemPointer 3 0)
    ∧ ∃ loc w1,
        GetTupleSlot_loop LAYOUT_ROW false (λ _, ∅) 2 [ValNull; ValInteger 0] w
        = Some (loc, w1)
        ∧ manager w' = manager w1
        ∧ r = (if is_INVALID_OID (block loc) then None else Some loc)
        ∧ (is_INVALID_OID (block loc) = true → w' = w1).
Proof.
  eexists _, _, _. split; [vm_compute; reflexivity|].
  split; [vm_compute; reflexivity|].
  split; [reflexivity|].
  eapply (insert_returns_invalid_pointer_for_invalid_oid LAYOUT_ROW false (λ _, ∅) 2
            [ValNull; ValInteger 0]).
  right; right. vm_compute; reflexivity.
Defined.

End InsertFacts.

(** * Properties of the layouts *)

Module LayoutFacts.
Import Storage Scenarios StorageFacts OrderFacts.

Lemma injective_distinct_cells (m : gmap nat (nat * nat)) :
  (∀ c1 c2 p, m !! c1 = Some p → m !! c2 = Some p → c1 = c2) →
  distinct_cells m.
Proof.
  intros Hinj. unfold distinct_cells.
  apply NoDup_fmap_2_strong; [|apply NoDup_map_to_list].
  intros [c1 p1] [c2 p2] H1 H2 Heq. simpl in Heq. subst p2.
  apply elem_of_map_to_list in H1, H2. f_equal. by eapply Hinj.
Qed.

Lemma lookup_layout (f : nat → nat * nat) n c :
  (list_to_map ((λ col_itr, (col_itr, f col_itr)) <$> seq 0 n)
     : gmap nat (nat * nat)) !! c
  = if decide (c < n) then Some (f c) else None.
Proof.
  case_decide as Hc.
  - apply elem_of_list_to_map_1.
    + rewrite <- list_fmap_compose.
      replace (fst ∘ (λ col_itr : nat, (col_itr, f col_itr)) <$> seq 0 n)
        with (seq 0 n); [apply NoDup_seq|].
      induction (seq 0 n) as [|x l IH]; [done|]. simpl. by f_equal.
    + apply list_elem_of_fmap. exists c. split; [done|]. apply elem_of_seq. lia.
  - apply not_elem_of_list_to_map_1. rewrite <- list_fmap_compose.
    intros Hin. apply list_elem_of_fmap in Hin as (x & -> & Hx).
    apply elem_of_seq in Hx. simpl in Hc. lia.
Qed.

Lemma lookup_row_layout n c :
  row_layout n !! c = if decide (c < n) then Some (0, c) else None.
Proof. apply (lookup_layout (λ c, (0, c))). Qed.

Lemma lookup_column_layout n c :
  column_layout n !! c = if decide (c < n) then Some (c, 0) else None.
Proof. apply (lookup_layout (λ c, (c, 0))). Qed.

Lemma foldl_insert_lookup (f : nat → nat * nat) l : ∀ (m : gmap nat (nat * nat)) c,
  foldl (λ cm column_id, <[column_id := f column_id]> cm) m l !! c
  = if decide (c ∈ l) then Some (f c) else m !! c.
Proof.
  induction l as [|x l IH]; intros m c; cbn [foldl].
  { rewrite decide_False; [done|]. apply not_elem_of_nil. }
  rewrite IH. destruct (decide (c ∈ l)) as [Hin|Hout].
  - rewrite decide_True; [done|]. by right.
  - destruct (decide (c = x)) as [->|Hne].
    + rewrite lookup_insert_eq, decide_True; [done|]. by left.
    + rewrite lookup_insert_ne by done. rewrite decide_False; [done|].
      intros Hin. apply elem_of_cons in Hin as [?|?]; done.
Qed.

Section Configuration.

Variable peloton_fsm : bool.
Variable hyadapt_column_map : nat → gmap nat (nat * nat).

Local Abbreviation GetStaticColumnMap :=
  (GetStaticColumnMap peloton_fsm hyadapt_column_map).
Local Abbreviation GetTileGroupLayout :=
  (GetTileGroupLayout peloton_fsm hyadapt_column_map).

(** The layout of a table that is not the HYADAPT table. *)
Lemma GetTileGroupLayout_cases t layout_type c :
  table_name t ≠ "HYADAPTTABLE"%string ∨ peloton_fsm = true →
  c < length (schema t) →
  GetTileGroupLayout t layout_type !! c = Some (0, c)
  ∨ GetTileGroupLayout t layout_type !! c = Some (c, 0)
  ∨ (10 ≤ length (schema t)
     ∧ ∀ d, GetTileGroupLayout t layout_type !! d
            = if decide (d = 0) then Some (0, 0)
              else if decide (d < length (schema t)) then Some (1, d - 1)
              else None).
Proof.
  intros Hname Hc. unfold Storage.GetTileGroupLayout.
  assert (Hrow : row_layout (length (schema t)) !! c = Some (0, c)).
  { by rewrite lookup_row_layout, decide_True. }
  assert (Hcol : column_layout (length (schema t)) !! c = Some (c, 0)).
  { by rewrite lookup_column_layout, decide_True. }
  destruct (if adapt_table t then layout_type else LAYOUT_ROW); [by left|by right; left|].
  case_decide as Hn; [by left|].
  unfold Storage.GetStaticColumnMap.
  destruct (String.eqb_spec (table_name t) "HYADAPTTABLE") as [Heq|Hne].
  { destruct Hname as [?| ->]; [done|by left]. }
  destruct (String.eqb (table_name t) "USERTABLE"); [|by left].
  right; right. split; [lia|]. intros d. rewrite foldl_insert_lookup.
  destruct (decide (d ∈ seq 1 (length (schema t) - 1))) as [Hin|Hout].
  - apply elem_of_seq in Hin. rewrite decide_False by lia.
    rewrite decide_True by lia. done.
  - rewrite elem_of_seq in Hout. destruct (decide (d = 0)) as [->|Hd].
    + by rewrite lookup_insert_eq.
    + rewrite lookup_insert_ne by done. rewrite decide_False by lia. done.
Qed.

(** X10. Every layout that a table other than the HYADAPT table is given,
    row, column or hybrid, places every column of the schema, and no two
    columns in the same cell of the same tile; a table that is not
    adaptive gets the row layout whatever the layout mode. *)
Theorem table_layouts_place_every_column_once t layout_type :
  table_name t ≠ "HYADAPTTABLE"%string ∨ peloton_fsm = true →
  (∀ c, c < length (schema t) → is_Some (GetTileGroupLayout t layout_type !! c))
  ∧ (∀ c1 c2 p, c1 < length (schema t) → c2 < length (schema t) →
       GetTileGroupLayout t layout_type !! c1 = Some p →
       GetTileGroupLayout t layout_type !! c2 = Some p → c1 = c2)
  ∧ distinct_cells (GetTileGroupLayout t layout_type)
  ∧ (adapt_table t = false →
       GetTileGroupLayout t layout_type = row_layout (length (schema t))).
Proof.
  intros Hname.
  assert (Hinj : ∀ c1 c2 p,
            GetTileGroupLayout t layout_type !! c1 = Some p →
            GetTileGroupLayout t layout_type !! c2 = Some p → c1 = c2).
  { unfold Storage.GetTileGroupLayout.
    assert (Hrow : ∀ c1 c2 p,
              row_layout (length (schema t)) !! c1 = Some p →
              row_layout (length (schema t)) !! c2 = Some p → c1 = c2).
    { intros c1 c2 p. rewrite !lookup_row_layout.
      repeat case_decide; intros; simplify_eq; done. }
    destruct (if adapt_table t then layout_type else LAYOUT_ROW); [done| |].
    - intros c1 c2 p. rewrite !lookup_column_layout.
      repeat case_decide; intros; simplify_eq; done.
    - case_decide; [done|]. unfold Storage.GetStaticColumnMap.
      destruct (String.eqb_spec (table_name t) "HYADAPTTABLE") as [Heq|Hne].
      { destruct Hname as [?| ->]; done. }
      destruct (String.eqb (table_name t) "USERTABLE"); [|done].
      intros c1 c2 p. rewrite !foldl_insert_lookup.
      destruct (decide (c1 ∈ _)) as [H1|H1], (decide (c2 ∈ _)) as [H2|H2];
        rewrite ?elem_of_seq in H1, H2; intros E1 E2; simplify_eq.
      + lia.
      + destruct (decide (c2 = 0)) as [->|?];
          [by rewrite lookup_insert_eq in E2|by rewrite lookup_insert_ne in E2].
      + destruct (decide (c1 = 0)) as [->|?];
          [by rewrite lookup_insert_eq in E1|by rewrite lookup_insert_ne in E1].
      + destruct (decide (c1 = 0)) as [->|?];
          [|by rewrite lookup_insert_ne in E1].
        destruct (decide (c2 = 0)) as [->|?];
          [done|by rewrite lookup_insert_ne in E2]. }
  split.
  { intros c Hc.
    destruct (GetTileGroupLayout_cases t layout_type c Hname Hc) as [H|[H|[Hn H]]].
    - by rewrite H.
    - by rewrite H.
    - rewrite H. repeat case_decide; done. }
  split; [intros c1 c2 p _ _; apply Hinj|].
  split; [by apply injective_distinct_cells|].
  intros Ha. unfold Storage.GetTileGroupLayout. by rewrite Ha.
Qed.

End Configuration.

Lemma table_layouts_place_every_column_once_witness :
  ∃ w,
    four_rows = Some w
    ∧ distinct_cells (GetTileGroupLayout false (λ _, ∅) (table w) LAYOUT_COLUMN)
    ∧ GetTileGroupLayout false (λ _, ∅) (table w) LAYOUT_COLUMN
      = row_layout 2.
Proof.
  eexists. split; [vm_compute; reflexivity|].
  lazymatch goal with
  | |- distinct_cells (GetTileGroupLayout _ _ ?t _) ∧ _ =>
      destruct (table_layouts_place_every_column_once false (λ _, ∅) t LAYOUT_COLUMN)
        as (_ & _ & Hd & Hrow); [left; vm_compute; discriminate|]
  end.
  split; [exact Hd|]. apply Hrow. reflexivity.
Defined.

(** The loop of the static HYADAPT layout: a column id that is listed once
    among the positions visited keeps the cell it was given there, an id
    that is not listed keeps what it had. *)
Lemma hyadapt_loop_lookup (num_groups : nat) (ids : list nat) (tcc : nat) :
  tcc ≠ 0 →
  ∀ l (m0 m : gmap nat (nat * nat)),
  for_each (λ column_id (column_map : gmap nat (nat * nat)),
              hyadapt_column_id ← ids !! (column_id - 1);
              if decide (tcc = 0) then None
              else
                let tile_id := (column_id - 1) / tcc in
                let tile_column_id :=
                  if decide (tile_id = 0) then column_id `mod` tcc
                  else (column_id - 1) `mod` tcc in
                let tile_id :=
                  if decide (num_groups ≤ tile_id)
                  then num_groups - 1 else tile_id in
                Some (<[hyadapt_column_id := (tile_id, tile_column_id)]> column_map))
           l m0 = Some m →
  (∀ col, col ∈ l → is_Some (ids !! (col - 1)))
  ∧ (∀ k, (∀ col, col ∈ l → ids !! (col - 1) ≠ Some k) → m !! k = m0 !! k)
  ∧ (∀ k col, col ∈ l → ids !! (col - 1) = Some k →
       (∀ col', col' ∈ l → ids !! (col' - 1) = Some k → col' = col) →
       m !! k
       = Some (if decide (num_groups ≤ (col - 1) / tcc)
               then num_groups - 1 else (col - 1) / tcc,
               if decide ((col - 1) / tcc = 0) then col `mod` tcc
               else (col - 1) `mod` tcc)).
Proof.
  intros Htcc. induction l as [|x l IH]; intros m0 m H; simpl in H.
  { simplify_eq. split; [by intros col Hcol; apply elem_of_nil in Hcol|].
    split; [done|]. intros k col Hcol. by apply elem_of_nil in Hcol. }
  destruct (ids !! (x - 1)) as [kx|] eqn:Hkx; [|done]. simpl in H.
  rewrite decide_False in H by done.
  apply IH in H as (IH0 & IH1 & IH2). split; [|split].
  - intros col Hcol. apply elem_of_cons in Hcol as [->|Hcol]; [by rewrite Hkx|].
    by apply IH0.
  - intros k Hk. rewrite IH1.
    + rewrite lookup_insert_ne; [done|]. intros ->. by apply (Hk x); [left|].
    + intros col Hcol. apply Hk. by right.
  - intros k col Hcol Hkey Huniq.
    destruct (decide (col ∈ l)) as [Hin|Hout].
    { apply IH2; [done|done|]. intros col' Hcol'. apply Huniq. by right. }
    apply elem_of_cons in Hcol as [->|?]; [|done].
    rewrite IH1.
    + rewrite Hkx in Hkey. simplify_eq. by rewrite lookup_insert_eq.
    + intros col' Hcol' Hkey'. apply Hout.
      rewrite <- (Huniq col'); [done|by right|done].
Qed.

(** X11. The static HYADAPT layout for several groups gives two columns the
    same cell: with at least two groups, no more groups than columns and a
    list of distinct column ids other than 0, column 0 and the column
    listed at position [tile_column_count - 1] of [hyadapt_column_ids] are
    both placed at column 0 of tile 0. *)
Theorem hyadapt_groups_share_a_cell num_groups ids column_count m :
  2 ≤ num_groups → num_groups ≤ column_count →
  NoDup ids → 0 ∉ ids →
  hyadapt_groups_column_map num_groups ids column_count = Some m →
  GetStaticColumnMap false
    (λ n, default ∅ (hyadapt_groups_column_map num_groups ids n))
    "HYADAPTTABLE" column_count = m
  ∧ ∃ c, c ≠ 0
      ∧ ids !! (column_count / num_groups - 1) = Some c
      ∧ m !! 0 = Some (0, 0) ∧ m !! c = Some (0, 0)
      ∧ ¬ distinct_cells m.
Proof.
  intros Hg Hn Hnd H0 H.
  split; [by unfold GetStaticColumnMap; simpl; rewrite H|].
  unfold hyadapt_groups_column_map in H.
  set (tcc := column_count / num_groups) in *.
  assert (Htcc : 1 ≤ tcc).
  { unfold tcc. apply Nat.div_le_lower_bound; lia. }
  assert (Htcc2 : tcc < column_count).
  { unfold tcc. apply Nat.div_lt; lia. }
  apply (hyadapt_loop_lookup num_groups ids tcc ltac:(lia)) in H as (H0' & H1 & H2).
  assert (Hin : tcc ∈ seq 1 (column_count - 1)) by (apply elem_of_seq; lia).
  destruct (H0' tcc Hin) as [c Hc].
  exists c.
  assert (Hc0 : c ≠ 0).
  { intros ->. apply H0. by eapply list_elem_of_lookup_2. }
  split; [done|]. split; [done|].
  assert (Hm0 : m !! 0 = Some (0, 0)).
  { rewrite H1; [by rewrite lookup_insert_eq|].
    intros col _ Hcol. apply H0. by eapply list_elem_of_lookup_2. }
  assert (Hmc : m !! c = Some (0, 0)).
  { rewrite (H2 c tcc Hin Hc).
    - assert ((tcc - 1) / tcc = 0) as -> by (apply Nat.div_small; lia).
      rewrite decide_False by lia. rewrite decide_True by done.
      by rewrite Nat.Div0.mod_same.
    - intros col' Hcol' Hkey. apply elem_of_seq in Hcol'.
      pose proof (NoDup_lookup _ _ _ _ Hnd Hkey Hc). lia. }
  split; [done|]. split; [done|].
  intros Hd. apply Hc0. symmetry.
  by apply (distinct_cells_injective m Hd 0 c (0, 0)).
Qed.

Lemma hyadapt_groups_share_a_cell_witness :
  ∃ m,
    hyadapt_groups_column_map 3 [1; 2; 3; 4; 5; 6; 7; 8; 9] 10 = Some m
    ∧ m !! 0 = Some (0, 0) ∧ m !! 3 = Some (0, 0)
    ∧ GetStaticColumnMap false
        (λ n, default ∅ (hyadapt_groups_column_map 3 [1; 2; 3; 4; 5; 6; 7; 8; 9] n))
        "HYADAPTTABLE" 10 = m
    ∧ ∃ c, c ≠ 0
        ∧ [1; 2; 3; 4; 5; 6; 7; 8; 9] !! (10 / 3 - 1) = Some c
        ∧ m !! 0 = Some (0, 0) ∧ m !! c = Some (0, 0)
        ∧ ¬ distinct_cells m.
Proof.
  eexists. split; [vm_compute; reflexivity|].
  split; [vm_compute; reflexivity|]. split; [vm_compute; reflexivity|].
  apply (hyadapt_groups_share_a_cell 3 [1; 2; 3; 4; 5; 6; 7; 8; 9] 10);
    [lia|lia|by apply (bool_decide_unpack (NoDup _))
    |by apply (bool_decide_unpack (_ ∉ _))|vm_compute; reflexivity].
Defined.

End LayoutFacts.

(** * Reading back what was inserted *)

Module ReadFacts.
Import Storage Scenarios StorageFacts OrderFacts InsertFacts LayoutFacts.

Lemma TileGroup_GetValue_set_header tg h s c :
  TileGroup_GetValue (set_header tg h) s c = TileGroup_GetValue tg s c.
Proof. done. Qed.

(** [CopyTuple] writes the values of the tuple at the slot and nothing
    else, when no two columns share a cell. *)
Lemma CopyTuple_from_values tuple : ∀ tg i slot tg',
  CopyTuple_from tg tuple i slot = Some tg' →
  (∀ c1 c2 p, column_map tg !! c1 = Some p → column_map tg !! c2 = Some p →
              c1 = c2) →
  (∀ c v, tuple !! c = Some v → TileGroup_GetValue tg' slot (i + c) = Some v)
  ∧ (∀ s c, s ≠ slot ∨ c < i →
       TileGroup_GetValue tg' s c = TileGroup_GetValue tg s c).
Proof.
  induction tuple as [|v rest IH]; intros tg i slot tg' H Hinj; simpl in H.
  { simplify_eq. split; [by intros c v Hc|done]. }
  destruct (LocateTileAndColumn tg i) as [[t k]|] eqn:Hloc; [|done]. simpl in H.
  destruct (TileGroup_SetValue tg v slot t k) as [tg1|] eqn:Hset; [|done].
  simpl in H. unfold LocateTileAndColumn in Hloc.
  apply TileGroup_SetValue_frame in Hset as (Hcm & _ & Hcell & Hother).
  apply IH in H as [IH1 IH2]; [|by rewrite Hcm].
  assert (Hstep : ∀ s c, s ≠ slot ∨ c < i →
            TileGroup_GetValue tg1 s c = TileGroup_GetValue tg s c).
  { intros s c Hsc. rewrite !TileGroup_GetValue_cell, Hcm.
    destruct (column_map tg !! c) as [[t' k']|] eqn:Hc; [|done]. simpl.
    apply Hother. intros ?; simplify_eq. destruct Hsc as [?|Hlt]; [done|].
    assert (c = i) by (by eapply Hinj). lia. }
  split.
  - intros [|c] x Hx; simpl in Hx.
    + simplify_eq. rewrite Nat.add_0_r, IH2 by (right; lia).
      by rewrite TileGroup_GetValue_cell, Hcm, Hloc.
    + replace (i + S c) with (S i + c) by lia. by apply IH1.
  - intros s c Hsc. rewrite IH2 by (destruct Hsc; [by left|right; lia]).
    by apply Hstep.
Qed.

Lemma TileGroup_InsertTuple_values tg tuple s tg' :
  TileGroup_InsertTuple tg tuple = Some (Some s, tg') →
  (∀ c1 c2 p, column_map tg !! c1 = Some p → column_map tg !! c2 = Some p →
              c1 = c2) →
  (∀ c v, tuple !! c = Some v → TileGroup_GetValue tg' s c = Some v)
  ∧ (∀ s' c, s' ≠ s → TileGroup_GetValue tg' s' c = TileGroup_GetValue tg s' c).
Proof.
  unfold TileGroup_InsertTuple. intros H Hinj.
  destruct (GetNextEmptyTupleSlot (tile_group_header tg)) as [[slot|] h]; [|done].
  destruct (CopyTuple_from _ tuple 0 slot) as [tg1|] eqn:Hcopy; [|done].
  simpl in H. simplify_eq.
  apply CopyTuple_from_values in Hcopy as [H1 H2]; [|done].
  split; [by intros c v Hc; apply (H1 c v)|].
  intros s' c Hs. rewrite H2 by (by left). done.
Qed.

Lemma GetTileGroupWithLayout_column_map w cmap tg w' :
  GetTileGroupWithLayout w cmap = Some (tg, w') → column_map tg = cmap.
Proof.
  unfold GetTileGroupWithLayout. intros H.
  destruct (build_tile_schemas _ _); [|done]. simpl in H. by simplify_eq.
Qed.

Lemma catalog_ok_insert w id tg :
  catalog_ok w → tile_group_id tg = id → id ≤ oid (manager w) →
  distinct_cells (column_map tg) →
  catalog_ok (with_manager (Manager_AddTileGroup id tg) w).
Proof.
  intros Hok Hid Hle Hd. unfold catalog_ok. simpl.
  apply map_Forall_insert_2; done.
Qed.

Section Configuration.

Variable peloton_layout_mode : LayoutType.
Variable peloton_fsm : bool.
Variable hyadapt_column_map : nat → gmap nat (nat * nat).

Local Abbreviation GetTileGroupLayout :=
  (GetTileGroupLayout peloton_fsm hyadapt_column_map).
Local Abbreviation AddDefaultTileGroup :=
  (AddDefaultTileGroup peloton_layout_mode peloton_fsm hyadapt_column_map).
Local Abbreviation GetTupleSlot_loop :=
  (GetTupleSlot_loop peloton_layout_mode peloton_fsm hyadapt_column_map).
Local Abbreviation InsertTuple :=
  (InsertTuple peloton_layout_mode peloton_fsm hyadapt_column_map).

(** A tile group that is added gets an id above those of the catalog: the
    tile groups that are there stay as they are. *)
Lemma AddDefaultTileGroup_catalog w r w' :
  catalog_ok w →
  distinct_cells (GetTileGroupLayout (table w) peloton_layout_mode) →
  AddDefaultTileGroup w = Some (r, w') →
  catalog_ok w'
  ∧ ∀ id tg, locator (manager w) !! id = Some tg →
             locator (manager w') !! id = Some tg.
Proof.
  intros Hok Hd H. unfold Storage.AddDefaultTileGroup in H.
  destruct (GetTileGroupWithLayout w _) as [[tg w1]|] eqn:Hg; [|done].
  apply GetTileGroupWithLayout_column_map in Hg as Hcm.
  apply GetTileGroupWithLayout_spec in Hg as (Ht & Hloc & Hoid & Hid & _).
  simpl in H.
  assert (Hok1 : catalog_ok w1).
  { unfold catalog_ok. rewrite Hloc, Hoid. eapply map_Forall_impl; [exact Hok|].
    intros id tg0 (? & ? & ?). split; [done|]. split; [lia|done]. }
  assert (Hreg : catalog_ok (register_tile_group tg w1)
                 ∧ ∀ id tg0, locator (manager w) !! id = Some tg0 →
                     locator (manager (register_tile_group tg w1)) !! id = Some tg0).
  { split.
    - unfold register_tile_group, catalog_ok. simpl.
      apply map_Forall_insert_2; [|exact Hok1].
      unfold GetTileGroupId. rewrite Hid, Hoid, Hcm. done.
    - intros id tg0 Hin. unfold register_tile_group. simpl.
      rewrite lookup_insert_ne; [by rewrite Hloc|].
      unfold GetTileGroupId. rewrite Hid. intros <-.
      destruct (Hok _ _ Hin) as (_ & Hle & _). lia. }
  destruct (tile_groups (table w1)).
  - by simplify_eq.
  - destruct (GetTileGroup w1 _) as [last|]; [|done]. simpl in H.
    case_decide; simplify_eq; [|done].
    split; [done|]. by rewrite Hloc.
Qed.

Lemma GetTileGroupLayout_table t t' layout_type :
  t' = set_tile_groups (λ _, tile_groups t') t →
  GetTileGroupLayout t' layout_type = GetTileGroupLayout t layout_type.
Proof. intros ->. done. Qed.

(** The slot that is claimed holds the tuple, every other slot of the
    catalog holds what it held. *)
Lemma GetTupleSlot_loop_values fuel : ∀ tuple w loc w',
  catalog_ok w →
  distinct_cells (GetTileGroupLayout (table w) peloton_layout_mode) →
  GetTupleSlot_loop fuel tuple w = Some (loc, w') →
  catalog_ok w'
  ∧ (∃ tg, Manager_GetTileGroup (block loc) (manager w') = Some tg
       ∧ ∀ c v, tuple !! c = Some v →
           TileGroup_GetValue tg (offset loc) c = Some v)
  ∧ (∀ id tg0, Manager_GetTileGroup id (manager w) = Some tg0 →
       ∃ tg1, Manager_GetTileGroup id (manager w') = Some tg1
         ∧ ∀ s c, (id, s) ≠ (block loc, offset loc) →
             TileGroup_GetValue tg1 s c = TileGroup_GetValue tg0 s c).
Proof.
  induction fuel as [|fuel IH]; intros tuple w loc w' Hok Hd H; simpl in H; [done|].
  case_decide; [|done].
  destruct (tile_groups (table w) !! _) as [key|] eqn:Hkey; [|done]. simpl in H.
  unfold GetTileGroup in H. rewrite Hkey in H. simpl in H.
  unfold GetTileGroupById, Manager_GetTileGroup in H.
  destruct (locator (manager w) !! key) as [tg|] eqn:Htg; [|done]. simpl in H.
  destruct (Hok _ _ Htg) as (Hid & Hle & Hdist).
  pose proof (distinct_cells_injective _ Hdist) as Hinj.
  destruct (TileGroup_InsertTuple tg tuple) as [[slot tg']|] eqn:Hins; [|done].
  simpl in H.
  apply TileGroup_InsertTuple_spec in Hins as Hspec.
  destruct Hspec as (_ & Hid' & Hcm' & _ & Hslot).
  destruct slot as [slot|].
  - simplify_eq. unfold GetTileGroupId. rewrite Hid'. simpl.
    apply TileGroup_InsertTuple_values in Hins as [Hv Hf]; [|done].
    split; [apply catalog_ok_insert; [done|done|done|by rewrite Hcm']|].
    unfold Manager_GetTileGroup. simpl. split.
    + exists tg'. by rewrite lookup_insert_eq.
    + intros id tg0 Hin. destruct (decide (id = tile_group_id tg)) as [->|Hne].
      * rewrite lookup_insert_eq. exists tg'. split; [done|].
        intros s c Hs. rewrite Htg in Hin. simplify_eq. apply Hf. congruence.
      * rewrite lookup_insert_ne by done. eauto.
  - destruct Hslot as [_ ->].
    assert (Hw1 : with_manager (Manager_AddTileGroup key tg) w = w).
    { destruct w as [[o l] t]. unfold with_manager, Manager_AddTileGroup.
      simpl in *. by rewrite insert_id. }
    rewrite Hw1 in H.
    destruct (AddDefaultTileGroup w) as [[r w1]|] eqn:Ha; [|done]. simpl in H.
    apply AddDefaultTileGroup_table in Ha as Ht.
    apply AddDefaultTileGroup_catalog in Ha as [Hok1 Hkeep]; [|done|done].
    apply IH in H as (Hok' & Hval & Hframe); [|done|].
    2:{ by rewrite (GetTileGroupLayout_table (table w)). }
    split; [done|]. split; [done|].
    intros id tg0 Hin. apply Hframe. by apply Hkeep.
Qed.

(** X12. Insert, then read: when [InsertTuple] returns a location, the
    tile group that the catalog holds under the block of the location has
    the values of the tuple at the offset of the location, column by
    column. *)
Theorem insert_then_read fuel tuple w loc w' :
  catalog_ok w →
  distinct_cells (GetTileGroupLayout (table w) peloton_layout_mode) →
  InsertTuple fuel tuple w = Some (Some loc, w') →
  ∃ tg, Manager_GetTileGroup (block loc) (manager w') = Some tg
    ∧ GetTileGroupId tg = block loc
    ∧ ∀ c v, tuple !! c = Some v →
        TileGroup_GetValue tg (offset loc) c = Some v.
Proof.
  intros Hok Hd H.
  apply InsertTuple_slot in H as (w1 & Hl & Hm & _).
  apply GetTupleSlot_loop_values in Hl as (Hok1 & (tg & Htg & Hv) & _); [|done|done].
  exists tg. rewrite Hm. split; [done|]. split; [|done].
  by destruct (Hok1 _ _ Htg) as (? & _).
Qed.

(** X13. [InsertTuple] writes the slot it returns and no other: every tile
    group of the catalog is still there, and reads the same at every slot
    but that one.  The catalog stays in order: tile groups under their own
    ids, below the oid counter, columns in cells of their own. *)
Theorem insert_keeps_the_other_rows fuel tuple w loc w' :
  catalog_ok w →
  distinct_cells (GetTileGroupLayout (table w) peloton_layout_mode) →
  InsertTuple fuel tuple w = Some (Some loc, w') →
  catalog_ok w'
  ∧ ∀ id tg0, Manager_GetTileGroup id (manager w) = Some tg0 →
      ∃ tg1, Manager_GetTileGroup id (manager w') = Some tg1
        ∧ ∀ s c, (id, s) ≠ (block loc, offset loc) →
            TileGroup_GetValue tg1 s c = TileGroup_GetValue tg0 s c.
Proof.
  intros Hok Hd H.
  apply InsertTuple_slot in H as (w1 & Hl & Hm & _).
  apply GetTupleSlot_loop_values in Hl as (Hok1 & _ & Hframe); [|done|done].
  split.
  - unfold catalog_ok. rewrite Hm. exact Hok1.
  - intros id tg0. rewrite Hm. apply Hframe.
Qed.

End Configuration.

Lemma insert_then_read_witness :
  ∃ w w',
    four_rows = Some w
    ∧ catalog_ok w
    ∧ InsertTuple LAYOUT_ROW false (λ _, ∅) 2 [ValInteger 4; ValInteger 0] w
      = Some (Some (mkItemPointer 3 0), w')
    ∧ ∃ tg, Manager_GetTileGroup 3 (manager w') = Some tg
        ∧ GetTileGroupId tg = 3
        ∧ ∀ c v, [ValInteger 4; ValInteger 0] !! c = Some v →
            TileGroup_GetValue tg 0 c = Some v.
Proof.
  eexists _, _. split; [vm_compute; reflexivity|].
  lazymatch goal with
  | |- catalog_ok ?w ∧ _ =>
      assert (Hok : catalog_ok w)
        by (apply (bool_decide_unpack (catalog_ok _)); vm_compute; exact I);
      split; [exact Hok|]; split; [vm_compute; reflexivity|];
      apply (insert_then_read LAYOUT_ROW false (λ _, ∅) 2
               [ValInteger 4; ValInteger 0] w (mkItemPointer 3 0) _ Hok);
        [apply (bool_decide_unpack (distinct_cells _)); vm_compute; exact I
        |vm_compute; reflexivity]
  end.
Defined.

Lemma insert_keeps_the_other_rows_witness :
  ∃ w w',
    four_rows = Some w
    ∧ InsertTuple LAYOUT_ROW false (λ _, ∅) 2 [ValInteger 4; ValInteger 0] w
      = Some (Some (mkItemPointer 3 0), w')
    ∧ catalog_ok w'
    ∧ ∀ id tg0, Manager_GetTileGroup id (manager w) = Some tg0 →
        ∃ tg1, Manager_GetTileGroup id (manager w') = Some tg1
          ∧ ∀ s c, (id, s) ≠ (3, 0) →
              TileGroup_GetValue tg1 s c = TileGroup_GetValue tg0 s c.
Proof.
  eexists _, _. split; [vm_compute; reflexivity|].
  split; [vm_compute; reflexivity|].
  eapply (insert_keeps_the_other_rows LAYOUT_ROW false (λ _, ∅) 2
           [ValInteger 4; ValInteger 0] _ (mkItemPointer 3 0));
    [apply (bool_decide_unpack (catalog_ok _)); vm_compute; exact I
    |apply (bool_decide_unpack (distinct_cells _)); vm_compute; exact I
    |vm_compute; reflexivity].
Defined.

End ReadFacts.

(** * Properties of the sampling for the optimizer *)

Module SampleFacts.
Import Storage Scenarios StorageFacts OrderFacts.

(** Iteration over a [std::set<oid_t>]: the elements, increasing. *)
Lemma ordered_spec (s : gset nat) :
  StronglySorted lt (ordered s) ∧ ∀ x, x ∈ ordered s ↔ x ∈ s.
Proof.
  unfold ordered.
  assert (Hp : merge_sort le (elements s) ≡ₚ elements s)
    by apply merge_sort_Permutation.
  assert (Hs : StronglySorted le (merge_sort le (elements s))).
  { apply Sorted_StronglySorted; [apply _|]. apply Sorted_merge_sort, _. }
  assert (Hnd : NoDup (merge_sort le (elements s))).
  { rewrite Hp. apply NoDup_elements. }
  split; [|by intros x; rewrite Hp, elem_of_elements].
  revert Hs Hnd. generalize (merge_sort le (elements s)). clear.
  induction l as [|x l IH]; intros Hs Hnd; [constructor|].
  apply StronglySorted_inv in Hs as [Hs Hx]. apply NoDup_cons in Hnd as [Hin Hnd].
  constructor; [by apply IH|].
  rewrite Forall_forall in Hx. apply Forall_forall. intros y Hy.
  assert (x ≠ y) by (by intros ->). specialize (Hx y Hy). lia.
Qed.

Lemma StronglySorted_lt_le l : StronglySorted lt l → StronglySorted le l.
Proof.
  induction 1 as [|x l Hs IH Hx]; constructor; [done|].
  eapply Forall_impl; [exact Hx|]. simpl. lia.
Qed.

Lemma StronglySorted_lt_NoDup l : StronglySorted lt l → NoDup l.
Proof.
  induction 1 as [|x l Hs IH Hx]; constructor; [|done].
  intros Hin. rewrite Forall_forall in Hx. specialize (Hx x Hin). lia.
Qed.

(** The increasing list of the elements of a set is its iteration order. *)
Lemma ordered_eq (s : gset nat) l :
  StronglySorted lt l → (∀ x, x ∈ l ↔ x ∈ s) → ordered s = l.
Proof.
  intros Hl Hel. destruct (ordered_spec s) as [Hs Hin].
  apply sorted_perm_eq with (R := le).
  - by apply StronglySorted_lt_le.
  - by apply StronglySorted_lt_le.
  - apply NoDup_Permutation; [by apply StronglySorted_lt_NoDup
                              |by apply StronglySorted_lt_NoDup|].
    intros x. by rewrite Hin, Hel.
  - intros x y _ _ ? ?. lia.
Qed.

Lemma mapM_row_to_item_pointer t rows :
  tuples_per_tilegroup t ≠ 0 →
  mapM (row_to_item_pointer t) rows
  = Some ((λ row_id, mkItemPointer (row_id / tuples_per_tilegroup t)
                       (row_id `mod` tuples_per_tilegroup t)) <$> rows).
Proof.
  intros Hc. apply mapM_Some. apply Forall2_fmap_r, Forall_Forall2_diag.
  apply Forall_forall. intros x _. unfold row_to_item_pointer.
  by rewrite decide_False.
Qed.

Lemma mapM_row_to_item_pointer_inv t rows pointers :
  mapM (row_to_item_pointer t) rows = Some pointers →
  pointers = (λ row_id, mkItemPointer (row_id / tuples_per_tilegroup t)
                          (row_id `mod` tuples_per_tilegroup t)) <$> rows
  ∧ (rows ≠ [] → tuples_per_tilegroup t ≠ 0).
Proof.
  intros H. destruct (decide (tuples_per_tilegroup t = 0)) as [Hz|Hnz].
  - apply mapM_Some in H. destruct rows as [|r rows].
    + by apply Forall2_nil_inv_l in H as ->.
    + apply Forall2_cons_inv_l in H as (y & k & Hy & _ & _).
      unfold row_to_item_pointer in Hy. by rewrite decide_True in Hy.
  - rewrite mapM_row_to_item_pointer in H by done. by simplify_eq.
Qed.

Section Sampling.

Variable IsVisible : TileGroupHeader → nat → bool.
Variable generator : nat → nat.

Local Abbreviation SampleRows := (SampleRows IsVisible generator).
Local Abbreviation sample_inner := (sample_inner IsVisible generator).
Local Abbreviation sample_outer := (sample_outer IsVisible generator).

(** X14. When the sample is to be at least as large as the table,
    [SampleRows] takes every row, without a look at its visibility and
    without a random number: it returns the exact tuple count and the
    samples are the rows [0, 1, ...] in that order, each as (tile group
    offset, slot). *)
Theorem sample_rows_of_the_whole_table w sample_size :
  tuples_per_tilegroup (table w) ≠ 0 →
  tuple_count_exact (table w) ≤ sample_size →
  ∃ w', SampleRows w sample_size = Some (tuple_count_exact (table w), w')
    ∧ samples_for_optimizer (table w')
      = (λ row_id, mkItemPointer (row_id / tuples_per_tilegroup (table w))
                     (row_id `mod` tuples_per_tilegroup (table w)))
        <$> seq 0 (tuple_count_exact (table w)).
Proof.
  intros Hc Hn. unfold Storage.SampleRows.
  remember (with_table (set_cardinality_map (λ _, ∅)) _) as w1 eqn:Hw1.
  assert (Ht : tuple_count_exact (table w1) = tuple_count_exact (table w)
               ∧ tuples_per_tilegroup (table w1) = tuples_per_tilegroup (table w)
               ∧ samples_for_optimizer (table w1) = []).
  { rewrite Hw1. by destruct (sampled_tile_group_id _). }
  clear Hw1. destruct Ht as (Hcount & Hcap & Hnil). rewrite Hcount.
  rewrite decide_True by done. simpl.
  assert (Hord : ordered (list_to_set (seq 0 (tuple_count_exact (table w))))
                 = seq 0 (tuple_count_exact (table w))).
  { apply ordered_eq; [apply StronglySorted_lt_seq|].
    intros x. by rewrite elem_of_list_to_set. }
  rewrite Hord, mapM_row_to_item_pointer by (by rewrite Hcap). simpl.
  rewrite size_list_to_set, length_seq by apply NoDup_seq.
  eexists. split; [done|]. simpl. by rewrite Hnil, Hcap.
Qed.

(** The loops that draw random rows keep the set of row ids within the
    table and within the sample size. *)
Lemma sample_inner_bounds w sample_size total : ∀ n st st',
  0 < total →
  size st.1 < sample_size → (∀ x, x ∈ st.1 → x < total) →
  sample_inner w sample_size total n st = Some st' →
  size st'.1 ≤ sample_size ∧ (∀ x, x ∈ st'.1 → x < total).
Proof.
  intros n st st' Htotal. revert st.
  induction n as [|n IH]; intros st Hsize Hin H; simpl in H.
  { simplify_eq. split; [lia|done]. }
  destruct (draw_visible IsVisible w _) as [visible|]; [|done]. simpl in H.
  set (row := distribution generator total st.2) in *.
  assert (Hrow : row < total) by (apply Nat.mod_upper_bound; lia).
  set (s1 := if visible then {[row]} ∪ st.1 else st.1) in *.
  assert (Hs1 : size s1 ≤ sample_size ∧ ∀ x, x ∈ s1 → x < total).
  { unfold s1. destruct visible; [|split; [lia|done]]. split.
    - pose proof (size_union_alt ({[row]} : gset nat) st.1) as Hu.
      rewrite size_singleton in Hu.
      assert (size (st.1 ∖ {[row]}) ≤ size st.1)
        by (apply subseteq_size, subseteq_difference_l; done).
      lia.
    - intros x Hx. apply elem_of_union in Hx as [Hx|Hx]; [|by apply Hin].
      apply elem_of_singleton in Hx. by subst. }
  case_decide as Hfull.
  - simplify_eq. done.
  - apply IH in H; [done|simpl; lia|by destruct Hs1].
Qed.

Lemma sample_outer_bounds w sample_size total : ∀ rounds st st',
  0 < total →
  size st.1 ≤ sample_size → (∀ x, x ∈ st.1 → x < total) →
  sample_outer w sample_size total rounds st = Some st' →
  size st'.1 ≤ sample_size ∧ (∀ x, x ∈ st'.1 → x < total).
Proof.
  intros rounds st st' Htotal. revert st.
  induction rounds as [|rounds IH]; intros st Hsize Hin H; simpl in H.
  { by simplify_eq. }
  case_decide as Hlt; [|by simplify_eq].
  destruct (sample_inner w _ _ _ st) as [st1|] eqn:Hinner; [|done]. simpl in H.
  apply sample_inner_bounds in Hinner as [? ?]; [|done|done|done].
  by apply IH in H.
Qed.

(** X15. Whatever the random numbers and the visibility of the rows,
    [SampleRows] returns no more samples than asked for and no more than
    the table has tuples; the samples are rows of the table, pairwise
    different, in increasing order of their row ids, and there are as many
    of them as the function returns. *)
Theorem sample_rows_are_distinct_rows_of_the_table w sample_size k w' :
  SampleRows w sample_size = Some (k, w') →
  k ≤ sample_size ∧ k ≤ tuple_count_exact (table w)
  ∧ ∃ rows,
      length rows = k
      ∧ StronglySorted lt rows
      ∧ Forall (λ row_id, row_id < tuple_count_exact (table w)) rows
      ∧ samples_for_optimizer (table w')
        = (λ row_id, mkItemPointer (row_id / tuples_per_tilegroup (table w))
                       (row_id `mod` tuples_per_tilegroup (table w))) <$> rows.
Proof.
  unfold Storage.SampleRows.
  remember (with_table (set_cardinality_map (λ _, ∅)) _) as w1 eqn:Hw1.
  assert (Ht : tuple_count_exact (table w1) = tuple_count_exact (table w)
               ∧ tuples_per_tilegroup (table w1) = tuples_per_tilegroup (table w)
               ∧ samples_for_optimizer (table w1) = []).
  { rewrite Hw1. by destruct (sampled_tile_group_id _). }
  clear Hw1. destruct Ht as (Hcount & Hcap & Hnil). rewrite Hcount.
  intros H.
  destruct (if decide (tuple_count_exact (table w) ≤ sample_size)
            then _ else _) as [row_id_set|] eqn:Hset; [|done].
  simpl in H.
  destruct (mapM _ (ordered row_id_set)) as [pointers|] eqn:Hp; [|done].
  simpl in H. simplify_eq. simpl.
  apply mapM_row_to_item_pointer_inv in Hp as [-> _].
  destruct (ordered_spec row_id_set) as [Hsorted Hin].
  assert (Hbounds : size row_id_set ≤ sample_size
                    ∧ ∀ x, x ∈ row_id_set → x < tuple_count_exact (table w)).
  { case_decide as Hle.
    - simplify_eq. rewrite size_list_to_set, length_seq by apply NoDup_seq.
      split; [done|]. intros x Hx. apply elem_of_list_to_set, elem_of_seq in Hx. lia.
    - destruct (sample_outer w1 _ _ _ _) as [st|] eqn:Ho; [|done].
      simpl in Hset. simplify_eq.
      apply sample_outer_bounds in Ho; [done|lia| |].
      + change (size (∅ : gset nat) ≤ sample_size). rewrite size_empty. lia.
      + intros x Hx. by apply elem_of_empty in Hx. }
  destruct Hbounds as [Hsize Hlt].
  assert (Hlen : length (ordered row_id_set) = size row_id_set)
    by apply length_ordered.
  split; [done|]. split.
  { rewrite <- Hlen.
    transitivity (length (seq 0 (tuple_count_exact (table w))));
      [|by rewrite length_seq].
    apply submseteq_length, NoDup_submseteq.
    - by apply StronglySorted_lt_NoDup.
    - intros x Hx. apply elem_of_seq. apply Hin, Hlt in Hx. lia. }
  exists (ordered row_id_set). split; [done|]. split; [done|]. split.
  - apply Forall_forall. intros x Hx. by apply Hlt, Hin.
  - by rewrite Hnil, Hcap.
Qed.

(** X16. [SampleRows] drops the materialized sample from the catalog but
    keeps its id: until [MaterializeSample] is called again there is no
    sample tile group to be had under that id, so computing a cardinality
    fails for every sample column, and every cardinality reads 0. *)
Theorem sample_id_dangles_after_sampling w sample_size k w' id :
  SampleRows w sample_size = Some (k, w') →
  sampled_tile_group_id (table w) = Some id →
  sampled_tile_group_id (table w') = Some id
  ∧ GetSampleTileGroup w' = None
  ∧ (∀ sample_column_id, ComputeSampleCardinality w' sample_column_id = None)
  ∧ (∀ table_column_id,
       is_Some (inline_column_map (table w') !! table_column_id) →
       ComputeTableCardinality w' table_column_id = None)
  ∧ (0 < k → FillSampleTileGroup w' = None)
  ∧ (∀ table_column_id, GetTableCardinality (table w') table_column_id = 0).
Proof.
  unfold Storage.SampleRows. intros H Hid.
  assert (Hid' : sampled_tile_group_id
                   (table (with_table (set_samples_for_optimizer (λ _, [])) w))
                 = Some id) by done.
  rewrite Hid' in H. clear Hid'.
  destruct (if decide (_ ≤ sample_size) then _ else _) as [row_id_set|]; [|done].
  simpl in H.
  destruct (mapM _ (ordered row_id_set)) as [pointers|] eqn:Hp; [|done].
  simpl in H. simplify_eq. simpl.
  apply mapM_Some, Forall2_length in Hp. rewrite length_ordered in Hp.
  assert (Hnone : GetSampleTileGroup
                    (with_table (set_samples_for_optimizer (λ l, l ++ pointers))
                       (with_table (set_cardinality_map (λ _, ∅))
                          (with_manager (Manager_DropTileGroup id)
                             (with_table (set_samples_for_optimizer (λ _, [])) w))))
                  = None).
  { unfold GetSampleTileGroup. simpl. rewrite Hid. simpl.
    unfold Manager_GetTileGroup. simpl. apply lookup_delete_eq. }
  split; [done|]. split; [done|].
  split; [by intros j; unfold ComputeSampleCardinality; rewrite Hnone|].
  split.
  { intros c [j Hj]. unfold ComputeTableCardinality.
    simpl in Hj |- *. rewrite Hj.
    unfold ComputeSampleCardinality. by rewrite Hnone. }
  split.
  { intros Hk. unfold FillSampleTileGroup, GetOptimizerSampleSize. simpl.
    rewrite decide_False by (rewrite <- Hp; lia).
    rewrite Hnone. simpl. by rewrite Hid. }
  intros c. unfold GetTableCardinality, GetSampleCardinality. simpl.
  destruct (inline_column_map (table w) !! c); [|done].
  by rewrite lookup_empty.
Qed.

End Sampling.

Lemma sample_rows_of_the_whole_table_witness :
  ∃ w,
    four_rows = Some w
    ∧ ∃ w', SampleRows claimed_slot_visible (λ _, 0) w 7 = Some (4, w')
        ∧ samples_for_optimizer (table w')
          = [mkItemPointer 0 0; mkItemPointer 0 1;
             mkItemPointer 1 0; mkItemPointer 1 1].
Proof.
  eexists. split; [vm_compute; reflexivity|].
  lazymatch goal with
  | |- ∃ w', SampleRows _ _ ?w _ = _ ∧ _ =>
      apply (sample_rows_of_the_whole_table claimed_slot_visible (λ _, 0) w 7);
        vm_compute; [discriminate|lia]
  end.
Defined.

Lemma sample_rows_are_distinct_rows_of_the_table_witness :
  ∃ w k w',
    four_rows = Some w
    ∧ SampleRows claimed_slot_visible (λ n, 3 * n) w 2 = Some (k, w')
    ∧ samples_for_optimizer (table w') = [mkItemPointer 0 0; mkItemPointer 0 1]
    ∧ k ≤ 2 ∧ k ≤ tuple_count_exact (table w)
    ∧ ∃ rows,
        length rows = k
        ∧ StronglySorted lt rows
        ∧ Forall (λ row_id, row_id < tuple_count_exact (table w)) rows
        ∧ samples_for_optimizer (table w')
          = (λ row_id, mkItemPointer (row_id / tuples_per_tilegroup (table w))
                         (row_id `mod` tuples_per_tilegroup (table w))) <$> rows.
Proof.
  eexists _, _, _. split; [vm_compute; reflexivity|].
  lazymatch goal with
  | |- SampleRows _ _ ?w0 _ = _ ∧ _ =>
      split; [vm_compute; reflexivity|]; split; [vm_compute; reflexivity|];
      apply (sample_rows_are_distinct_rows_of_the_table claimed_slot_visible
               (λ n, 3 * n) w0 2);
      vm_compute; reflexivity
  end.
Defined.

Lemma sample_id_dangles_after_sampling_witness :
  ∃ w k w',
    sampled_world = Some w
    ∧ SampleRows claimed_slot_visible (λ n, n) w 2 = Some (k, w')
    ∧ sampled_tile_group_id (table w) = Some 3
    ∧ GetTableCardinality (table w) 1 = 2
    ∧ sampled_tile_group_id (table w') = Some 3
    ∧ GetSampleTileGroup w' = None
    ∧ (∀ sample_column_id, ComputeSampleCardinality w' sample_column_id = None)
    ∧ (∀ table_column_id,
         is_Some (inline_column_map (table w') !! table_column_id) →
         ComputeTableCardinality w' table_column_id = None)
    ∧ (0 < k → FillSampleTileGroup w' = None)
    ∧ (∀ table_column_id, GetTableCardinality (table w') table_column_id = 0).
Proof.
  eexists _, _, _. split; [vm_compute; reflexivity|].
  lazymatch goal with
  | |- SampleRows _ _ ?w0 _ = _ ∧ _ =>
      split; [vm_compute; reflexivity|]; split; [vm_compute; reflexivity|];
      split; [vm_compute; reflexivity|];
      apply (sample_id_dangles_after_sampling claimed_slot_visible (λ n, n) w0 2
               _ _ 3); vm_compute; reflexivity
  end.
Defined.

End SampleFacts.

(** * Properties of the tile groups of a table *)

Module TableFacts.
Import Storage Scenarios DoubleFacts StorageFacts OrderFacts InsertFacts LayoutFacts.

(** ** The destructor *)

Lemma drop_all_lookup l : ∀ m id,
  locator (foldl (λ m tile_group_id, Manager_DropTileGroup tile_group_id m) m l) !! id
  = (if decide (id ∈ l) then None else locator m !! id)
  ∧ oid (foldl (λ m tile_group_id, Manager_DropTileGroup tile_group_id m) m l)
    = oid m.
Proof.
  induction l as [|x l IH]; intros m id; cbn [foldl].
  { split; [|done]. rewrite decide_False; [done|]. apply not_elem_of_nil. }
  destruct (IH (Manager_DropTileGroup x m) id) as [-> ->]. split; [|done].
  simpl. destruct (decide (id ∈ l)) as [Hin|Hout].
  - rewrite decide_True; [done|]. by right.
  - destruct (decide (id = x)) as [->|Hne].
    + rewrite lookup_delete_eq, decide_True; [done|]. by left.
    + rewrite lookup_delete_ne by done. rewrite decide_False; [done|].
      intros Hin. apply elem_of_cons in Hin as [?|?]; done.
Qed.

(** X17. The destructor leaves in the catalog no tile group of the table
    and not its sample tile group; the tile groups of other tables stay,
    and the oid counter is not set back. *)
Theorem destructor_drops_the_tile_groups w id :
  (id ∈ tile_groups (table w) ∨ sampled_tile_group_id (table w) = Some id →
     Manager_GetTileGroup id (DataTable_delete w) = None)
  ∧ (id ∉ tile_groups (table w) → sampled_tile_group_id (table w) ≠ Some id →
     Manager_GetTileGroup id (DataTable_delete w)
     = Manager_GetTileGroup id (manager w))
  ∧ oid (DataTable_delete w) = oid (manager w).
Proof.
  unfold DataTable_delete, Manager_GetTileGroup.
  destruct (drop_all_lookup (tile_groups (table w)) (manager w) id) as [Hl Ho].
  destruct (sampled_tile_group_id (table w)) as [sid|]; simpl.
  - split; [|split; [|done]].
    + intros [Hin|Heq].
      * destruct (decide (id = sid)) as [->|Hne]; [apply lookup_delete_eq|].
        rewrite lookup_delete_ne by done. by rewrite Hl, decide_True.
      * simplify_eq. apply lookup_delete_eq.
    + intros Hout Hne. rewrite lookup_delete_ne by congruence.
      by rewrite Hl, decide_False.
  - split; [|split; [|done]].
    + intros [Hin|Heq]; [|done]. by rewrite Hl, decide_True.
    + intros Hout _. by rewrite Hl, decide_False.
Qed.

(** ** Statistics of the default partition *)

Lemma column_map_stats_fold l : ∀ (acc : gmap nat nat) (c0 : nat → nat) tile,
  (∀ tile, acc !! tile = if decide (c0 tile = 0) then None else Some (c0 tile)) →
  foldl (λ (column_map_stats : gmap nat nat) (entry : nat * (nat * nat)),
           let tile_id := entry.2.1 in
           match column_map_stats !! tile_id with
           | None => <[tile_id := 1]> column_map_stats
           | Some n => <[tile_id := S n]> column_map_stats
           end) acc l !! tile
  = let n := c0 tile + length (filter (λ e : nat * (nat * nat), e.2.1 = tile) l) in
    if decide (n = 0) then None else Some n.
Proof.
  induction l as [|e l IH]; intros acc c0 tile Hacc; cbn [foldl].
  { rewrite filter_nil. simpl. rewrite Nat.add_0_r. apply Hacc. }
  rewrite (IH _ (λ t, if decide (e.2.1 = t) then S (c0 t) else c0 t)).
  - rewrite filter_cons. cbn beta zeta.
    destruct (decide (e.2.1 = tile)) as [He|He]; simpl;
      repeat case_decide; try lia; f_equal; lia.
  - intros t. rewrite (Hacc e.2.1). destruct (decide (e.2.1 = t)) as [<-|Hne].
    + rewrite (decide_False (P := S _ = 0)) by lia.
      destruct (decide (c0 e.2.1 = 0)) as [Hz|Hnz]; rewrite lookup_insert_eq;
        [by rewrite Hz|done].
    + destruct (decide (c0 e.2.1 = 0)); rewrite lookup_insert_ne by done; apply Hacc.
Qed.

Lemma sum_list_perm l k : l ≡ₚ k → sum_list l = sum_list k.
Proof. induction 1; simpl; lia. Qed.

Lemma sum_values_insert (m : gmap nat nat) t v :
  sum_list (snd <$> map_to_list (<[t:=v]> m)) + default 0 (m !! t)
  = v + sum_list (snd <$> map_to_list m).
Proof.
  assert (E1 : snd <$> map_to_list (<[t:=v]> m)
               ≡ₚ v :: (snd <$> map_to_list (delete t m))).
  { rewrite <- (map_to_list_delete (<[t:=v]> m) t v) by apply lookup_insert_eq.
    by rewrite delete_insert_eq. }
  rewrite (sum_list_perm _ _ E1). simpl.
  destruct (m !! t) as [n|] eqn:Hn; simpl.
  - rewrite <- (sum_list_perm _ _
                  (fmap_Permutation snd _ _ (map_to_list_delete m t n Hn))).
    simpl. unfold fmap. lia.
  - by rewrite delete_id.
Qed.

Lemma column_map_stats_sum l : ∀ (acc : gmap nat nat),
  sum_list (snd <$> map_to_list
    (foldl (λ (column_map_stats : gmap nat nat) (entry : nat * (nat * nat)),
              let tile_id := entry.2.1 in
              match column_map_stats !! tile_id with
              | None => <[tile_id := 1]> column_map_stats
              | Some n => <[tile_id := S n]> column_map_stats
              end) acc l))
  = sum_list (snd <$> map_to_list acc) + length l.
Proof.
  induction l as [|e l IH]; intros acc; cbn [foldl]; [simpl; lia|].
  rewrite IH. cbn zeta. simpl.
  destruct (acc !! e.2.1) as [n|] eqn:Hn.
  - pose proof (sum_values_insert acc e.2.1 (S n)) as Hs. rewrite Hn in Hs.
    simpl in Hs. lia.
  - pose proof (sum_values_insert acc e.2.1 1) as Hs. rewrite Hn in Hs.
    simpl in Hs. lia.
Qed.

(** X18. [GetColumnMapStats] counts, for every tile of the default
    partition, the columns that the partition places in it: a tile without
    a column has no entry, and the counts add up to the number of columns
    of the partition. *)
Theorem column_map_stats_count_the_columns t :
  (∀ tile,
     GetColumnMapStats t !! tile
     = let n := length (filter (λ e : nat * (nat * nat), e.2.1 = tile)
                               (map_to_list (default_partition t))) in
       if decide (n = 0) then None else Some n)
  ∧ sum_list (snd <$> map_to_list (GetColumnMapStats t))
    = size (default_partition t).
Proof.
  split.
  - intros tile. unfold GetColumnMapStats.
    rewrite (column_map_stats_fold _ ∅ (λ _, 0)) by (by intros ?; rewrite lookup_empty).
    assert (Hlen : length (filter (λ e : nat * (nat * nat), e.2.1 = tile)
                                  (sorted_entries (default_partition t)))
                   = length (filter (λ e : nat * (nat * nat), e.2.1 = tile)
                                    (map_to_list (default_partition t))))
      by (by rewrite sorted_entries_perm).
    cbn beta zeta. rewrite Hlen. done.
  - unfold GetColumnMapStats. rewrite column_map_stats_sum.
    rewrite map_to_list_empty, length_sorted_entries. simpl. lia.
Qed.

(** ** Tile groups added by hand *)

Section Configuration.

Variable peloton_layout_mode : LayoutType.
Variable peloton_fsm : bool.
Variable hyadapt_column_map : nat → gmap nat (nat * nat).

Local Abbreviation GetTupleSlot_loop :=
  (GetTupleSlot_loop peloton_layout_mode peloton_fsm hyadapt_column_map).
Local Abbreviation InsertTuple :=
  (InsertTuple peloton_layout_mode peloton_fsm hyadapt_column_map).

(** X19. [AddTileGroupWithOid] appends a tile group of the row layout
    under the given id without a look at the last tile group and without
    moving the oid counter; the new tile group is the insertion target at
    once: the next tuple goes to its slot 0, whether or not the tile group
    before it was full. *)
Theorem add_tile_group_with_oid_is_the_insertion_target
    fuel tuple w id r w1 loc w2 :
  AddTileGroupWithOid w id = Some (r, w1) →
  0 < tuples_per_tilegroup (table w) →
  InsertTuple fuel tuple w1 = Some (Some loc, w2) →
  r = id ∧ id ≠ 0
  ∧ tile_groups (table w1) = tile_groups (table w) ++ [id]
  ∧ oid (manager w1) = oid (manager w)
  ∧ (∃ tg, GetTileGroup w1 (length (tile_groups (table w))) = Some tg
       ∧ GetColumnMap tg = row_layout (length (schema (table w)))
       ∧ GetNextTupleSlot tg = 0)
  ∧ loc = mkItemPointer id 0
  ∧ tile_groups (table w2) = tile_groups (table w) ++ [id].
Proof.
  unfold AddTileGroupWithOid. intros Ha Hc Hi.
  case_decide as Hid; [done|]. simplify_eq.
  set (tg := TileGroupFactory_GetTileGroup _ _ _ _ _ _) in *.
  assert (Hlast : tile_groups (table (register_tile_group tg w))
                  = tile_groups (table w) ++ [r]) by done.
  assert (Hget : GetTileGroup (register_tile_group tg w)
                   (length (tile_groups (table w))) = Some tg).
  { unfold GetTileGroup. rewrite Hlast.
    rewrite lookup_app_r, Nat.sub_diag by lia. simpl.
    unfold GetTileGroupById, Manager_GetTileGroup. simpl.
    apply lookup_insert_eq. }
  assert (Hcap : header_num_tuple_slots (tile_group_header tg)
                 = tuples_per_tilegroup (table w)) by done.
  assert (Hnext : GetNextTupleSlot tg = 0) by done.
  assert (Htgid : tile_group_id tg = r) by done.
  assert (Hcmap : GetColumnMap tg = row_layout (length (schema (table w)))) by done.
  assert (Hoid : oid (manager (register_tile_group tg w)) = oid (manager w)) by done.
  revert Hi Hlast Hget Hoid. generalize (register_tile_group tg w).
  clearbody tg. intros w1 Hi Hlast Hget Hoid.
  split; [done|]. split; [done|]. split; [done|]. split; [done|].
  split; [by exists tg|].
  apply InsertTuple_slot in Hi as (w1' & Hl & _ & Htg). rewrite Htg. clear Htg.
  destruct fuel as [|fuel]; [done|]. simpl in Hl.
  unfold GetTileGroupCount in Hl. rewrite Hlast in Hl.
  rewrite length_app in Hl. simpl in Hl.
  rewrite decide_True in Hl by lia.
  replace (length (tile_groups (table w)) + 1 - 1)
    with (length (tile_groups (table w))) in Hl by lia.
  rewrite lookup_app_r, Nat.sub_diag in Hl by lia. simpl in Hl.
  rewrite Hget in Hl. simpl in Hl.
  destruct (TileGroup_InsertTuple tg tuple) as [[slot tg']|] eqn:Hins; [|done].
  apply TileGroup_InsertTuple_spec in Hins as (_ & Hid' & _ & _ & Hslot).
  simpl in Hl. destruct slot as [slot|].
  - destruct Hslot as (-> & _). simplify_eq. unfold GetTileGroupId.
    rewrite Hid', Hnext. done.
  - destruct Hslot as [Hfull _]. exfalso. apply Hfull. rewrite Hnext, Hcap. done.
Qed.

End Configuration.

Lemma add_tile_group_with_oid_is_the_insertion_target_witness :
  ∃ w w1 w2,
    (w ← DataTable_new LAYOUT_ROW false (λ _, ∅) sampled_schema "T" 1 1 2 false
           (mkManager 0 ∅);
     insert_tuples LAYOUT_ROW false (λ _, ∅) 2 [[ValInteger 0; ValInteger 0]] w)
    = Some w
    ∧ next_slots w = Some [1]
    ∧ AddTileGroupWithOid w 9 = Some (9, w1)
    ∧ InsertTuple LAYOUT_ROW false (λ _, ∅) 2 [ValInteger 1; ValInteger 1] w1
      = Some (Some (mkItemPointer 9 0), w2)
    ∧ next_slots w2 = Some [1; 1]
    ∧ tile_groups (table w2) = tile_groups (table w) ++ [9].
Proof.
  eexists _, _, _. split; [vm_compute; reflexivity|].
  split; [vm_compute; reflexivity|]. split; [vm_compute; reflexivity|].
  split; [vm_compute; reflexivity|]. split; [vm_compute; reflexivity|].
  eapply (add_tile_group_with_oid_is_the_insertion_target LAYOUT_ROW false (λ _, ∅)
            2 [ValInteger 1; ValInteger 1] _ 9 9 _ (mkItemPointer 9 0));
    [vm_compute; reflexivity|vm_compute; lia|vm_compute; reflexivity].
Defined.

(** ** Transformation, again *)

(** X20. A tile group that has been transformed has the default partition
    as its column map, so that nothing is left to do: another call for the
    same tile group with a threshold above 0 returns null and changes
    nothing, as long as the default partition is the same. *)
Theorem transform_twice w offset theta new w' theta' :
  TransformTileGroup w offset theta = Some (Some new, w') →
  GetColumnMap new = default_partition (table w)
  ∧ GetSchemaDifference new (default_partition (table w'))
    = (if decide (size (default_partition (table w)) = 0) then S754_nan
       else S754_zero false)
  ∧ (double_lt (double_of_nat 0) theta' = true →
     default_partition (table w) ≠ ∅ →
     TransformTileGroup w' offset theta' = Some (None, w')).
Proof.
  unfold TransformTileGroup. intros H.
  case_decide as Hoff; [done|].
  destruct (tile_groups (table w) !! offset) as [tg_id|] eqn:Hid; [|done].
  simpl in H.
  destruct (Manager_GetTileGroup tg_id (manager w)) as [tg|] eqn:Htg; [|done].
  simpl in H. destruct (double_lt _ theta); [done|].
  destruct (TransformTileGroupSchema tg _) as [new_schema|]; [|done]. simpl in H.
  destruct (SetTransformedTileGroup tg _) as [new1|] eqn:Hset; [|done].
  simpl in H. simplify_eq.
  assert (Hcm : column_map new = default_partition (table w)).
  { unfold SetTransformedTileGroup in Hset. case_decide; [|done].
    destruct (for_each _ _ _) as [n1|] eqn:Hf; [|done]. simpl in Hset.
    simplify_eq. apply copy_columns_column_map in Hf. simpl. by rewrite Hf. }
  assert (Hdiff : GetSchemaDifference new (default_partition (table w))
                  = if decide (size (default_partition (table w)) = 0) then S754_nan
                    else S754_zero false).
  { rewrite <- Hcm. unfold GetSchemaDifference.
    rewrite differing_columns_same. simpl length.
    by rewrite zero_div_double_of_nat. }
  split; [done|]. split; [done|].
  intros Htheta Hne. simpl. rewrite decide_False by done. rewrite Hid. simpl.
  unfold Manager_GetTileGroup. simpl. rewrite lookup_insert_eq. simpl.
  rewrite Hdiff. rewrite decide_False.
  2:{ intros Hz. by apply map_size_empty_iff in Hz. }
  change (S754_zero false) with (double_of_nat 0). by rewrite Htheta.
Qed.

Lemma transform_twice_witness :
  ∃ w new w',
    S2_world S2_partition = Some w
    ∧ TransformTileGroup w 0 (double_of_nat 0) = Some (Some new, w')
    ∧ GetColumnMap new = default_partition (table w)
    ∧ TransformTileGroup w' 0 (double_div (double_of_nat 1) (double_of_nat 2))
      = Some (None, w').
Proof.
  eexists _, _, _. split; [vm_compute; reflexivity|].
  split; [vm_compute; reflexivity|].
  lazymatch goal with
  | |- GetColumnMap ?new = default_partition (table ?w)
       ∧ TransformTileGroup ?w' _ _ = _ =>
      destruct (transform_twice w 0 (double_of_nat 0) new w'
                  (double_div (double_of_nat 1) (double_of_nat 2)))
        as (Hcm & _ & Hnull);
        [vm_compute; reflexivity|]
  end.
  split; [exact Hcm|]. apply Hnull; [vm_compute; reflexivity|discriminate].
Defined.

End TableFacts.

(** * Properties of the constructor and of the cardinalities *)

Module SampleSchemaFacts.
Import Storage Scenarios StorageFacts OrderFacts InsertFacts LayoutFacts SampleFacts.

Lemma build_inline_column_map_list sch : ∀ col_itr sample_it,
  build_inline_column_map sch col_itr sample_it
  = list_to_map (inline_columns sch col_itr sample_it).
Proof.
  induction sch as [|c rest IH]; intros col_itr sample_it; simpl; [done|].
  destruct (is_inlined (column_type c)); simpl; by rewrite IH.
Qed.

Lemma inlined_cons c rest :
  inlined (c :: rest)
  = if is_inlined (column_type c) then c :: inlined rest else inlined rest.
Proof.
  unfold inlined, Schema. rewrite filter_cons.
  destruct (is_inlined (column_type c)); simpl; done.
Qed.

(** The inlined columns are listed in column order and numbered from
    [sample_it] on. *)
Lemma inline_columns_spec sch : ∀ col_itr sample_it,
  (inline_columns sch col_itr sample_it).*2
  = seq sample_it (length (inlined sch))
  ∧ StronglySorted lt (inline_columns sch col_itr sample_it).*1
  ∧ Forall (λ c, col_itr ≤ c) (inline_columns sch col_itr sample_it).*1
  ∧ ∀ c j, (c, j) ∈ inline_columns sch col_itr sample_it ↔
      ∃ i col, sch !! i = Some col ∧ is_inlined (column_type col) = true
        ∧ c = col_itr + i ∧ j = sample_it + length (inlined (take i sch)).
Proof.
  induction sch as [|col rest IH]; intros col_itr sample_it.
  { simpl. split; [done|]. split; [constructor|]. split; [constructor|].
    intros c j. split; [by intros ?%elem_of_nil|]. by intros (i & x & ? & _). }
  specialize (IH (S col_itr)). cbn [inline_columns]. rewrite inlined_cons.
  destruct (is_inlined (column_type col)) eqn:Hin.
  - destruct (IH (S sample_it)) as (Hv & Hs & Hge & Hel). cbn [fmap list_fmap].
    split; [simpl; by rewrite <- Hv|]. split.
    { constructor; [done|]. eapply Forall_impl; [exact Hge|]. simpl. lia. }
    split.
    { constructor; [done|]. eapply Forall_impl; [exact Hge|]. simpl. lia. }
    intros c j. rewrite elem_of_cons, Hel. split.
    + intros [Heq|(i & x & Hx & Hi & -> & ->)].
      * simplify_eq. exists 0, col. simpl. split; [done|]. split; [done|].
        simpl. lia.
      * exists (S i), x. simpl. rewrite inlined_cons, Hin. simpl.
        split; [done|]. split; [done|]. lia.
    + intros ([|i] & x & Hx & Hi & -> & ->); simpl in Hx.
      * left. rewrite take_0. simpl. f_equal; lia.
      * right. exists i, x. cbn [take]. rewrite inlined_cons, Hin. simpl.
        split; [done|]. split; [done|]. lia.
  - destruct (IH sample_it) as (Hv & Hs & Hge & Hel).
    split; [done|]. split; [done|]. split.
    { eapply Forall_impl; [exact Hge|]. simpl. lia. }
    intros c j. rewrite Hel. split.
    + intros (i & x & Hx & Hi & -> & ->).
      exists (S i), x. simpl. rewrite inlined_cons, Hin.
      split; [done|]. split; [done|]. lia.
    + intros ([|i] & x & Hx & Hi & -> & ->); simpl in Hx.
      * simplify_eq. congruence.
      * exists i, x. cbn [take]. rewrite inlined_cons, Hin.
        split; [done|]. split; [done|]. lia.
Qed.

(** The loop of [BuildSampleSchema] over the inlined columns of the rest of
    the schema. *)
Lemma BuildSampleSchema_fold full rest : ∀ pre sample_it scm ssl,
  full = pre ++ rest →
  ∃ scm',
    foldl (λ (acc : option (gmap nat (nat * nat) * list Schema)) (item : nat * nat),
             '(scm, ssl) ← acc;
             c ← full !! item.1;
             Some (<[item.2 := (item.2, 0)]> scm, ssl ++ [[c]]))
          (Some (scm, ssl)) (inline_columns rest (length pre) sample_it)
    = Some (scm', ssl ++ ((λ col, [col]) <$> inlined rest))
    ∧ ∀ j, scm' !! j
           = if decide (sample_it ≤ j < sample_it + length (inlined rest))
             then Some (j, 0) else scm !! j.
Proof.
  induction rest as [|col rest IH]; intros pre sample_it scm ssl Hfull.
  { simpl. exists scm. rewrite app_nil_r. split; [done|].
    intros j. rewrite decide_False; [done|]. unfold inlined. simpl. lia. }
  cbn [inline_columns]. rewrite inlined_cons.
  match goal with |- context [foldl ?f _ _] => set (F := f) in * end.
  assert (Hfull' : full = (pre ++ [col]) ++ rest) by (by rewrite <- app_assoc).
  assert (Hlen : length (pre ++ [col]) = S (length pre))
    by (rewrite length_app; simpl; lia).
  destruct (is_inlined (column_type col)).
  - cbn [foldl].
    assert (Hcol : full !! length pre = Some col).
    { rewrite Hfull, lookup_app_r, Nat.sub_diag by lia. done. }
    assert (F (Some (scm, ssl)) (length pre, sample_it)
            = Some (<[sample_it := (sample_it, 0)]> scm, ssl ++ [[col]])) as ->.
    { unfold F. simpl. by rewrite Hcol. }
    destruct (IH (pre ++ [col]) (S sample_it) (<[sample_it := (sample_it, 0)]> scm)
                (ssl ++ [[col]]) Hfull') as (scm' & Hfold & Hlook).
    rewrite Hlen in Hfold. exists scm'. rewrite Hfold, <- app_assoc. split; [done|].
    intros j. rewrite Hlook. simpl.
    destruct (decide (j = sample_it)) as [->|Hne].
    + rewrite decide_False by lia. rewrite lookup_insert_eq.
      by rewrite decide_True by lia.
    + rewrite lookup_insert_ne by done. repeat case_decide; try done; lia.
  - destruct (IH (pre ++ [col]) sample_it scm ssl Hfull') as (scm' & Hfold & Hlook).
    rewrite Hlen in Hfold. by exists scm'.
Qed.

Section Configuration.

Variable peloton_layout_mode : LayoutType.
Variable peloton_fsm : bool.
Variable hyadapt_column_map : nat → gmap nat (nat * nat).

Local Abbreviation DataTable_new :=
  (DataTable_new peloton_layout_mode peloton_fsm hyadapt_column_map).

(** X21. A table that has been constructed samples its inlined columns,
    that is all but the VARCHAR and VARBINARY ones: [inline_column_map]
    numbers them in column order, so that no two of them share a sample
    column, the sample layout is the pure column layout over that many
    columns, and the schema of sample column [j] is the [j]-th inlined
    column alone.  The table starts with the row layout
    as its default partition, no tuple, no sample. *)
Theorem constructor_samples_the_inlined_columns sch name db tbl c adapt m w :
  DataTable_new sch name db tbl c adapt m = Some w →
  sample_column_map (table w) = column_layout (length (inlined sch))
  ∧ sample_schema_list (table w) = (λ col, [col]) <$> inlined sch
  ∧ (∀ col_itr j,
       inline_column_map (table w) !! col_itr = Some j ↔
       ∃ col, sch !! col_itr = Some col ∧ is_inlined (column_type col) = true
         ∧ j = length (inlined (take col_itr sch)))
  ∧ distinct_sample_columns (table w)
  ∧ default_partition (table w) = row_layout (length sch)
  ∧ tuple_count_exact (table w) = 0
  ∧ samples_for_optimizer (table w) = []
  ∧ sampled_tile_group_id (table w) = None.
Proof.
  unfold Storage.DataTable_new. intros H.
  destruct (BuildSampleSchema sch _) as [[scm ssl]|] eqn:Hb; [|done]. simpl in H.
  destruct (AddDefaultTileGroup _ _ _ _) as [[r w1]|] eqn:Ha; [|done].
  simpl in H. simplify_eq.
  apply AddDefaultTileGroup_table in Ha. simpl in Ha. rewrite Ha. simpl.
  unfold BuildSampleSchema in Hb. rewrite build_inline_column_map_list in Hb.
  destruct (inline_columns_spec sch 0 0) as (Hv & Hs & _ & Hel).
  rewrite sorted_entries_list_to_map in Hb by done.
  destruct (BuildSampleSchema_fold sch sch [] 0 ∅ [] eq_refl) as (scm' & Hfold & Hlook).
  simpl in Hfold.
  assert (Heq : Some (scm, ssl) = Some (scm', (λ col, [col]) <$> inlined sch))
    by (rewrite <- Hb; exact Hfold).
  clear Hb Hfold. simplify_eq.
  split.
  { apply map_eq. intros j. rewrite Hlook, lookup_column_layout, lookup_empty.
    repeat case_decide; try done; lia. }
  split; [done|].
  assert (Hnd : NoDup (inline_columns sch 0 0).*1)
    by (by apply StronglySorted_lt_NoDup).
  split; [|split; [|done]].
  2:{ unfold distinct_sample_columns. simpl.
      rewrite build_inline_column_map_list, map_to_list_to_map by done.
      rewrite Hv. apply NoDup_seq. }
  intros col_itr j. rewrite build_inline_column_map_list.
  rewrite <- elem_of_list_to_map by done.
  rewrite Hel. split.
  - intros (i & col & ? & ? & -> & ->). by exists col.
  - intros (col & ? & ? & ->). by exists col_itr, col.
Qed.

End Configuration.

Lemma constructor_samples_the_inlined_columns_witness :
  ∃ w,
    DataTable_new LAYOUT_ROW false (λ _, ∅) S1_schema "S1" 1 1 2 false
      (mkManager 0 ∅) = Some w
    ∧ inline_column_map (table w) !! 0 = Some 0
    ∧ inline_column_map (table w) !! 1 = None
    ∧ sample_column_map (table w) = column_layout (length (inlined S1_schema))
    ∧ sample_schema_list (table w) = [[mkColumn VALUE_TYPE_INTEGER false]].
Proof.
  eexists. split; [vm_compute; reflexivity|].
  split; [vm_compute; reflexivity|]. split; [vm_compute; reflexivity|].
  split.
  - eapply (constructor_samples_the_inlined_columns LAYOUT_ROW false (λ _, ∅)
              S1_schema "S1" 1 1 2 false (mkManager 0 ∅)).
    vm_compute; reflexivity.
  - vm_compute; reflexivity.
Defined.

End SampleSchemaFacts.

(** * Properties of the cardinalities *)

Module CardinalityFacts.
Import Storage Scenarios StorageFacts OrderFacts.

Lemma remove_dups_length_le {A} `{EqDecision A} (l : list A) :
  length (remove_dups l) ≤ length l.
Proof.
  induction l as [|x l IH]; simpl; [done|].
  destruct (decide_rel elem_of x l); simpl; lia.
Qed.

Lemma mapM_seq_lookup {A} (f : nat → option A) n l :
  mapM f (seq 0 n) = Some l →
  length l = n ∧ ∀ v, v ∈ l ↔ ∃ i, i < n ∧ f i = Some v.
Proof.
  rewrite mapM_Some. intros HF.
  pose proof (Forall2_length _ _ _ HF) as Hlen. rewrite length_seq in Hlen.
  split; [done|]. intros v. split.
  - intros (i & Hi)%list_elem_of_lookup.
    destruct (Forall2_lookup_r _ _ _ _ _ HF Hi) as (k & Hk & Hf).
    apply lookup_seq in Hk as [-> ?]. exists i. split; [lia|done].
  - intros (i & Hi & Hf).
    assert (Hk : seq 0 n !! i = Some i) by (apply lookup_seq; split; [done|lia]).
    destruct (Forall2_lookup_l _ _ _ _ _ HF Hk) as (v' & Hv' & Hf').
    rewrite Hf in Hf'. simplify_eq. by eapply list_elem_of_lookup_2.
Qed.

(** X22. [ComputeTableCardinality] stores, for a sampled column, the number
    of distinct values that the materialized sample holds in its sample
    column, which is at most the sample size; for a column that is not
    sampled it does nothing and the cardinality reads 0.  The catalog and
    the cardinalities of the other columns are left as they were. *)
Theorem table_cardinality_counts_distinct_sample_values w c w' :
  ComputeTableCardinality w c = Some w' →
  manager w' = manager w
  ∧ GetTableCardinality (table w') c ≤ GetOptimizerSampleSize (table w)
  ∧ (inline_column_map (table w) !! c = None →
       w' = w ∧ GetTableCardinality (table w') c = 0)
  ∧ (∀ j, inline_column_map (table w) !! c = Some j →
       ∃ tg distinct,
         GetSampleTileGroup w = Some tg
         ∧ NoDup distinct
         ∧ (∀ v, v ∈ distinct ↔
              ∃ i, i < GetOptimizerSampleSize (table w)
                   ∧ TileGroup_GetValue tg i j = Some v)
         ∧ GetTableCardinality (table w') c = length distinct)
  ∧ (∀ c', inline_column_map (table w) !! c'
           ≠ inline_column_map (table w) !! c →
       GetTableCardinality (table w') c' = GetTableCardinality (table w) c').
Proof.
  unfold ComputeTableCardinality, GetTableCardinality.
  destruct (inline_column_map (table w) !! c) as [j|] eqn:Hc.
  2:{ intros [= <-]. rewrite Hc. split; [done|]. split; [lia|]. split; [done|].
      split; [by intros j ?|]. intros c' _. done. }
  unfold ComputeSampleCardinality. intros H.
  destruct (GetSampleTileGroup w) as [tg|] eqn:Htg; [|done]. simpl in H.
  destruct (LocateTileAndColumn tg j) as [[tile_id tile_column_id]|] eqn:Hl;
    [|done]. simpl in H.
  destruct (decide (tile_column_id = 0)) as [->|]; [|done].
  destruct (GetTile tg tile_id) as [tile_p|] eqn:Ht; [|done]. simpl in H.
  destruct (mapM _ _) as [values|] eqn:Hv; [|done]. simpl in H.
  injection H as <-. simpl. rewrite Hc.
  unfold GetSampleCardinality. simpl. rewrite lookup_insert_eq. simpl.
  apply mapM_seq_lookup in Hv as [Hlen Hv].
  split; [done|]. split.
  { rewrite <- Hlen. apply remove_dups_length_le. }
  split; [done|]. split.
  - intros ? [= <-]. exists tg, (remove_dups values).
    split; [done|]. split; [apply NoDup_remove_dups|]. split; [|done].
    intros v. rewrite elem_of_remove_dups, Hv. unfold TileGroup_GetValue.
    rewrite Hl. simpl. rewrite Ht. done.
  - intros c' Hne. destruct (inline_column_map (table w) !! c') as [j'|]; [|done].
    rewrite lookup_insert_ne by congruence. done.
Qed.

Lemma table_cardinality_counts_distinct_sample_values_witness :
  ∃ w w',
    materialized_world = Some w
    ∧ ComputeTableCardinality w 1 = Some w'
    ∧ GetOptimizerSampleSize (table w) = 4
    ∧ GetTableCardinality (table w') 1 = 2
    ∧ GetTableCardinality (table w') 1 ≤ GetOptimizerSampleSize (table w).
Proof.
  eexists _, _. split; [vm_compute; reflexivity|].
  split; [vm_compute; reflexivity|].
  split; [vm_compute; reflexivity|]. split; [vm_compute; reflexivity|].
  lazymatch goal with
  | |- GetTableCardinality (table ?w1) _ ≤ GetOptimizerSampleSize (table ?w0) =>
      apply (table_cardinality_counts_distinct_sample_values w0 1 w1)
  end.
  vm_compute; reflexivity.
Defined.

End CardinalityFacts.

(** * Properties of the materialized sample *)

Module MaterializeFacts.
Import Storage Scenarios StorageFacts OrderFacts.

Lemma TileGroup_SetValue_header tg v s t c tg' :
  TileGroup_SetValue tg v s t c = Some tg' →
  tile_group_header tg' = tile_group_header tg
  ∧ num_tuple_slots tg' = num_tuple_slots tg.
Proof.
  unfold TileGroup_SetValue.
  destruct (GetTile tg t) as [tile|]; simpl; [|done].
  destruct (Tile_SetValue v s c tile) as [tile'|]; simpl; [|done].
  by intros [= <-].
Qed.

(** The inner loop of [FillSampleTileGroup]: the sampled columns of row
    [row_offset] of [tile_group_p] are written to row [r] of the sample. *)
Lemma fill_columns tile_group_p row_offset r (L : list (nat * nat)) :
  ∀ sample_tg sample_tg',
  for_each (λ (column_pair : nat * nat) (sample_tg : TileGroup),
              let table_column_id := column_pair.1 in
              let sample_column_id := column_pair.2 in
              '(table_tile_offset, table_tile_column_offset) ←
                 LocateTileAndColumn tile_group_p table_column_id;
              tile_p ← GetTile tile_group_p table_tile_offset;
              temp_value ← Tile_GetValue tile_p row_offset table_tile_column_offset;
              '(sample_tile_offset, sample_tile_column_offset) ←
                 LocateTileAndColumn sample_tg sample_column_id;
              if decide (sample_tile_column_offset = 0
                         ∧ sample_tile_offset = sample_column_id)
              then TileGroup_SetValue sample_tg temp_value r
                     sample_tile_offset sample_tile_column_offset
              else None) L sample_tg = Some sample_tg' →
  NoDup L.*2 →
  column_map sample_tg' = column_map sample_tg
  ∧ tile_group_id sample_tg' = tile_group_id sample_tg
  ∧ tile_group_header sample_tg' = tile_group_header sample_tg
  ∧ num_tuple_slots sample_tg' = num_tuple_slots sample_tg
  ∧ (∀ c j, (c, j) ∈ L →
       ∃ v, TileGroup_GetValue tile_group_p row_offset c = Some v
            ∧ TileGroup_GetValue sample_tg' r j = Some v)
  ∧ (∀ t s k, s ≠ r ∨ t ∉ L.*2 →
       cell sample_tg' t s k = cell sample_tg t s k).
Proof.
  induction L as [|[c j] L IH]; intros stg stg' H Hnd.
  { simpl in H. simplify_eq. split_and!; try done.
    by intros c j ?%elem_of_nil. }
  cbn [for_each] in H.
  match type of H with (?b ≫= _) = _ => destruct b as [stg1|] eqn:Hb end;
    [|done].
  simpl in H, Hb.
  destruct (LocateTileAndColumn tile_group_p c) as [[tt tc]|] eqn:Hlt; [|done].
  simpl in Hb.
  destruct (GetTile tile_group_p tt) as [tile_p|] eqn:Htile; [|done].
  simpl in Hb.
  destruct (Tile_GetValue tile_p row_offset tc) as [v|] eqn:Hv; [|done].
  simpl in Hb.
  destruct (LocateTileAndColumn stg j) as [[st sc]|] eqn:Hls; [|done].
  simpl in Hb.
  destruct (decide (sc = 0 ∧ st = j)) as [[-> ->]|]; [|done].
  pose proof (TileGroup_SetValue_header _ _ _ _ _ _ Hb) as [Hh1 Hn1].
  apply TileGroup_SetValue_frame in Hb as (Hcm1 & Hid1 & Hcell1 & Hother1).
  simpl in Hnd. apply NoDup_cons in Hnd as [Hj Hnd].
  destruct (IH _ _ H Hnd) as (Hcm & Hid & Hh & Hn & Hval & Hframe).
  split; [congruence|]. split; [congruence|]. split; [congruence|].
  split; [congruence|]. split.
  - intros c' j' [Heq|Hin]%elem_of_cons.
    + simplify_eq. exists v. split.
      * unfold TileGroup_GetValue. rewrite Hlt. simpl. by rewrite Htile.
      * rewrite TileGroup_GetValue_cell, Hcm, Hcm1.
        unfold LocateTileAndColumn in Hls. rewrite Hls. simpl.
        rewrite Hframe by (by right). done.
    + by apply Hval.
  - intros t s k Hts. rewrite Hframe.
    + apply Hother1. intros ?; simplify_eq.
      destruct Hts as [?|Ht]; [done|]. apply Ht. simpl. apply elem_of_cons. by left.
    + destruct Hts as [?|Ht]; [by left|right]. intros ?. apply Ht. simpl.
      apply elem_of_cons. by right.
Qed.

(** The loop of [FillSampleTileGroup] over the sampled pointers: the
    samples take the next rows of the sample tile group, in order. *)
Lemma fill_rows w : ∀ samples sample_tg sample_tg',
  for_each (fill_sample_row w) samples sample_tg = Some sample_tg' →
  distinct_sample_columns (table w) →
  column_map sample_tg' = column_map sample_tg
  ∧ tile_group_id sample_tg' = tile_group_id sample_tg
  ∧ num_tuple_slots sample_tg' = num_tuple_slots sample_tg
  ∧ next_tuple_slot (tile_group_header sample_tg')
    = next_tuple_slot (tile_group_header sample_tg) + length samples
  ∧ (∀ i ptr c j,
       samples !! i = Some ptr → inline_column_map (table w) !! c = Some j →
       ∃ tgp v,
         GetTileGroup w (block ptr) = Some tgp
         ∧ TileGroup_GetValue tgp (offset ptr) c = Some v
         ∧ TileGroup_GetValue sample_tg'
             (next_tuple_slot (tile_group_header sample_tg) + i) j = Some v)
  ∧ (∀ t s k, s < next_tuple_slot (tile_group_header sample_tg) →
       cell sample_tg' t s k = cell sample_tg t s k).
Proof.
  induction samples as [|ptr samples IH]; intros stg stg' H Hd.
  { simpl in H. simplify_eq. by split_and!. }
  cbn [for_each] in H.
  destruct (fill_sample_row w ptr stg) as [stg1|] eqn:Hrow; [|done].
  simpl in H. unfold fill_sample_row in Hrow.
  destruct (GetTileGroup w (block ptr)) as [tgp|] eqn:Htgp; [|done].
  simpl in Hrow. unfold GetNextEmptyTupleSlot, GetHeader in Hrow.
  case_decide as Hfree; [|done]. simpl in Hrow.
  apply fill_columns in Hrow
    as (Hcm1 & Hid1 & Hh1 & Hn1 & Hval1 & Hframe1).
  2:{ unfold distinct_sample_columns in Hd.
      by rewrite sorted_entries_perm. }
  simpl in Hcm1, Hid1, Hh1, Hn1.
  destruct (IH _ _ H Hd) as (Hcm & Hid & Hn & Hnext & Hval & Hframe).
  rewrite Hh1 in Hnext, Hval, Hframe. simpl in Hnext, Hval, Hframe.
  split; [congruence|]. split; [congruence|]. split; [congruence|].
  split; [simpl; lia|]. split.
  - intros [|i] p c j Hp Hc; simpl in Hp.
    + simplify_eq. rewrite Nat.add_0_r.
      destruct (Hval1 c j) as (v & Hv & Hs); [by apply elem_of_sorted_entries|].
      exists tgp, v. split; [done|]. split; [done|].
      rewrite TileGroup_GetValue_cell, Hcm.
      rewrite TileGroup_GetValue_cell in Hs.
      destruct (column_map stg1 !! j) as [[t k]|]; [|done]. simpl in *.
      rewrite Hframe by lia. done.
    + destruct (Hval i p c j Hp Hc) as (tg & v & ? & ? & Hs).
      exists tg, v. split; [done|]. split; [done|].
      by replace (next_tuple_slot (tile_group_header stg) + S i)
        with (S (next_tuple_slot (tile_group_header stg)) + i) by lia.
  - intros t s k Hs. rewrite Hframe by lia. rewrite Hframe1 by (left; lia). done.
Qed.

(** X23. [MaterializeSample] registers a new tile group under a new oid, in
    the sample layout and with one row per sampled pointer, all of them
    claimed; row [i] holds in sample column [j] the value that the [i]-th
    sampled row of the table holds in the column that is sampled as [j].
    The tile groups of the table are left as they were.  Without samples
    nothing is done. *)
Theorem materialize_copies_the_sampled_rows w w' :
  MaterializeSample w = Some w' →
  distinct_sample_columns (table w) →
  sample_apart w →
  (samples_for_optimizer (table w) = [] → w' = w)
  ∧ (samples_for_optimizer (table w) ≠ [] →
     ∃ tg,
       sampled_tile_group_id (table w') = Some (S (oid (manager w)))
       ∧ GetSampleTileGroup w' = Some tg
       ∧ GetAllocatedTupleCount tg = GetOptimizerSampleSize (table w)
       ∧ GetNextTupleSlot tg = GetOptimizerSampleSize (table w)
       ∧ GetColumnMap tg = sample_column_map (table w)
       ∧ (∀ i ptr c j,
            samples_for_optimizer (table w) !! i = Some ptr →
            inline_column_map (table w) !! c = Some j →
            ∃ tgp v,
              GetTileGroup w (block ptr) = Some tgp
              ∧ TileGroup_GetValue tgp (offset ptr) c = Some v
              ∧ TileGroup_GetValue tg i j = Some v)
       ∧ (∀ tile_group_offset,
            GetTileGroup w' tile_group_offset = GetTileGroup w tile_group_offset)
       ∧ samples_for_optimizer (table w') = samples_for_optimizer (table w)).
Proof.
  unfold MaterializeSample, GetOptimizerSampleSize. intros H Hd Hap.
  destruct (decide (length (samples_for_optimizer (table w)) = 0)) as [Hz|Hz].
  { injection H as <-. split; [done|]. intros Hne.
    by destruct (samples_for_optimizer (table w)). }
  split; [by intros Hnil; rewrite Hnil in Hz|]. intros _.
  remember (match sampled_tile_group_id (table w) with
            | Some id => with_manager (Manager_DropTileGroup id) w
            | None => w
            end) as w0 eqn:Hw0.
  assert (Ht0 : table w0 = table w) by (subst w0; by destruct (sampled_tile_group_id _)).
  assert (Hoid0 : oid (manager w0) = oid (manager w))
    by (subst w0; by destruct (sampled_tile_group_id _)).
  assert (Hloc0 : ∀ id, id ∈ tile_groups (table w) →
            locator (manager w0) !! id = locator (manager w) !! id).
  { intros id Hin. unfold sample_apart in Hap.
    rewrite Forall_forall in Hap. destruct (Hap id Hin) as [_ Hne].
    subst w0. destruct (sampled_tile_group_id (table w)) as [old|]; [|done].
    simpl. apply lookup_delete_ne. congruence. }
  unfold BuildSampleTileGroup, GetOptimizerSampleSize in H. rewrite Ht0 in H.
  rewrite decide_False in H by done. simpl in H.
  unfold FillSampleTileGroup, GetOptimizerSampleSize in H. simpl in H.
  rewrite Ht0 in H. rewrite decide_False in H by done. simpl in H.
  unfold GetSampleTileGroup, Manager_GetTileGroup in H. simpl in H.
  unfold GetTileGroupId in H. simpl in H. rewrite lookup_insert_eq in H.
  simpl in H.
  match type of H with
  | (for_each (fill_sample_row ?w1) _ ?stg ≫= _) = _ =>
      remember w1 as wf eqn:Hwf; remember stg as stg0 eqn:Hstg0
  end.
  destruct (for_each (fill_sample_row wf) _ stg0) as [stg'|] eqn:Hfill; [|done].
  simpl in H. injection H as <-.
  assert (Htf : table wf = set_sampled_tile_group_id
                             (λ _, Some (S (oid (manager w)))) (table w)).
  { subst wf. simpl. rewrite Ht0, Hoid0. done. }
  apply fill_rows in Hfill as (Hcm & Hid & Hn & Hnext & Hval & _).
  2:{ unfold distinct_sample_columns. rewrite Htf. done. }
  assert (Hget : ∀ off, GetTileGroup wf off = GetTileGroup w off).
  { intros off. unfold GetTileGroup, GetTileGroupById, Manager_GetTileGroup.
    rewrite Htf. simpl.
    destruct (tile_groups (table w) !! off) as [id|] eqn:Hoff; [|done]. simpl.
    assert (Hin : id ∈ tile_groups (table w)) by (by eapply list_elem_of_lookup_2).
    subst wf. simpl. rewrite Hoid0.
    unfold sample_apart in Hap. rewrite Forall_forall in Hap.
    destruct (Hap id Hin) as [Hle _].
    rewrite lookup_insert_ne by lia. by apply Hloc0. }
  exists stg'. rewrite Hoid0.
  split; [simpl; by rewrite Htf|]. split.
  { unfold GetSampleTileGroup, Manager_GetTileGroup. simpl. rewrite Htf. simpl.
    by rewrite lookup_insert_eq. }
  split; [unfold GetAllocatedTupleCount; by rewrite Hn, Hstg0|].
  split; [unfold GetNextTupleSlot; by rewrite Hnext, Hstg0|].
  split; [unfold GetColumnMap; by rewrite Hcm, Hstg0|].
  split.
  { intros i ptr c j Hi Hc.
    destruct (Hval i ptr c j Hi) as (tgp & v & Hg & ? & Hs); [by rewrite Htf|].
    exists tgp, v. rewrite <- Hget. split; [done|]. split; [done|].
    by rewrite Hstg0 in Hs. }
  split; [|simpl; by rewrite Htf].
  intros off. rewrite <- Hget.
  unfold GetTileGroup, GetTileGroupById, Manager_GetTileGroup. simpl.
  rewrite Htf. simpl.
  destruct (tile_groups (table w) !! off) as [id|] eqn:Hoff; [|done]. simpl.
  assert (Hin : id ∈ tile_groups (table w)) by (by eapply list_elem_of_lookup_2).
  unfold sample_apart in Hap. rewrite Forall_forall in Hap.
  destruct (Hap id Hin) as [Hle _].
  rewrite lookup_insert_ne by lia. done.
Qed.

Lemma materialize_copies_the_sampled_rows_witness :
  ∃ w w',
    drawn_world = Some w
    ∧ MaterializeSample w = Some w'
    ∧ samples_for_optimizer (table w) !! 3 = Some {| block := 1; offset := 1 |}
    ∧ inline_column_map (table w) !! 0 = Some 0
    ∧ ∃ tg tgp,
        GetSampleTileGroup w' = Some tg
        ∧ GetTileGroup w 1 = Some tgp
        ∧ TileGroup_GetValue tgp 1 0 = Some (ValInteger 3)
        ∧ TileGroup_GetValue tg 3 0 = Some (ValInteger 3).
Proof.
  eexists _, _. split; [vm_compute; reflexivity|].
  split; [vm_compute; reflexivity|].
  split; [vm_compute; reflexivity|]. split; [vm_compute; reflexivity|].
  lazymatch goal with
  | |- ∃ tg tgp, GetSampleTileGroup ?w1 = _ ∧ GetTileGroup ?w0 _ = _ ∧ _ =>
      destruct (materialize_copies_the_sampled_rows w0 w1) as [_ Hmat];
        [vm_compute; reflexivity
        |apply (bool_decide_unpack (distinct_sample_columns _)); vm_compute; exact I
        |apply (bool_decide_unpack (sample_apart _)); vm_compute; exact I
        |]
  end.
  destruct Hmat as (tg & _ & Htg & _ & _ & _ & Hval & _); [done|].
  destruct (Hval 3 {| block := 1; offset := 1 |} 0 0) as (tgp & v & Hg & Hv & Hs);
    [vm_compute; reflexivity|vm_compute; reflexivity|].
  exists tg, tgp. split; [exact Htg|]. split; [exact Hg|].
  assert (Hv3 : v = ValInteger 3).
  { revert Hg Hv. vm_compute. intros Hg Hv. injection Hg as <-.
    vm_compute in Hv. by injection Hv as <-. }
  rewrite <- Hv3. done.
Defined.

End MaterializeFacts.

(** * The protocol of the binding iterators *)

Module ProtocolFacts.
Import Binding BindingScenarios ItemFacts FrameFacts ExploreFacts IteratorFacts
  BindingFacts.

Lemma find_item_pattern new_item fuel : ∀ it s it' s',
  find_item new_item fuel it s = Ok it' s' →
  pattern it' = pattern it ∧ group_id it' = group_id it.
Proof.
  induction fuel as [|fuel IH]; intros it s it' s' H; simpl in H; [done|].
  apply M_bind_inv in H as (g & s1 & H1 & H).
  apply read_target_group_inv in H1 as (Hg & -> & Hbound).
  case_decide as Hlt.
  2:{ by apply mret_inv in H as [-> ->]. }
  apply M_bind_inv in H as (item_it & s1 & H1 & H).
  apply M_bind_inv in H as ([b item_it'] & s2 & H2 & H).
  destruct b.
  - by apply mret_inv in H as [-> ->].
  - by apply IH in H as [-> ->].
Qed.

Lemma get_item_Ok id idx s g o :
  groups s !! id = Some g → items g !! idx = Some o → get_item id idx s = Ok o s.
Proof.
  intros Hg Ho. unfold get_item.
  rewrite (M_bind_Ok _ _ _ _ _ (get_group_Ok _ _ _ Hg)). by rewrite Ho.
Qed.

Section Optimizer.

Variable ExploreItem : list Group → GroupID → nat → Rule → list Group.

(** X24. Once [HasNext] has returned false it returns false again, with
    the iterator and the state as they are, for as long as the memo is not
    changed by somebody else.  [Next] on an exhausted iterator of a pattern
    other than [Leaf] dereferences the null [current_iterator]. *)
Theorem exhausted_iterator_stays_exhausted fuel it s it' s' :
  HasNext ExploreItem fuel it s = Ok (false, it') s' →
  (∀ fuel', 0 < fuel' → HasNext ExploreItem fuel' it' s' = Ok (false, it') s')
  ∧ (Type_ (pattern it') ≠ Leaf → Next it' s' = Fault)
  ∧ pattern it' = pattern it ∧ group_id it' = group_id it.
Proof.
  unfold HasNext, Next, GroupBindingIterator_HasNext, GroupBindingIterator_Next.
  intros H. case_decide as Hleaf.
  { apply mret_inv in H as [[= Hb <-] ->].
    split; [|done]. intros fuel' _. rewrite decide_True by done.
    unfold mret, M_ret. by rewrite <- Hb. }
  apply M_bind_inv in H as (it1 & s1 & H1 & H).
  apply M_bind_inv in H as (it2 & s2 & H2 & H).
  apply mret_inv in H as [[= Hb <-] ->].
  assert (Hnone : current_iterator it' = None).
  { destruct (current_iterator it'); [done|done]. }
  assert (H1' : pattern it1 = pattern it ∧ group_id it1 = group_id it).
  { destruct (current_iterator it) as [item_it|].
    - apply M_bind_inv in H1 as ([b item_it'] & s0 & _ & H1).
      destruct b; by apply mret_inv in H1 as [-> _].
    - by apply mret_inv in H1 as [-> _]. }
  destruct (current_iterator it1) as [item_it|] eqn:Hc1.
  { apply mret_inv in H2 as [-> ->]. congruence. }
  pose proof (find_item_pattern _ _ _ _ _ _ H2) as [Hp Hid].
  apply find_item_exhausted in H2 as (_ & Htg & Hsize & g' & Hg' & Hle); [|done].
  destruct H1' as [Hp1 Hid1].
  assert (Hleaf' : Type_ (pattern it') ≠ Leaf) by congruence.
  split; [|split; [|split; congruence]].
  - intros [|fuel'] Hpos; [lia|]. rewrite decide_False by done.
    rewrite Hnone. simpl.
    unfold mbind, M_bind, mret, M_ret. simpl. rewrite Hnone.
    rewrite <- Hid in Hg'. unfold read_target_group, get_state, mbind, M_bind.
    rewrite decide_True by congruence.
    rewrite Hg'. simpl. rewrite decide_False by lia.
    unfold mret, M_ret. by rewrite Hnone.
  - intros _. rewrite decide_False by done. by rewrite Hnone.
Qed.

(** X25. When no item of the group has the type and the arity of the
    pattern, the first [HasNext] returns false without a look at a child
    group: the memo, the rules and the record of explorations are as
    before, and every item of the group has cost one plan node that nobody
    holds. *)
Theorem unmatched_group_yields_nothing fuel id p s g :
  Type_ p ≠ Leaf →
  groups s !! id = Some g →
  Forall (λ item, type item ≠ Type_ p
                  ∨ length (GetChildren item) ≠ length (Children p)) (items g) →
  length (items g) < fuel →
  HasNext ExploreItem fuel (mkGroupBindingIterator id p (length (groups s)) 0 None) s
  = Ok (false, mkGroupBindingIterator id p (length (groups s)) (length (items g)) None)
       (mkState (groups s) (rules s)
          (plan_nodes s ++ ((λ item, mkOpPlanNode item []) <$> items g))
          (explore_calls s)).
Proof.
  intros Hleaf Hg Hall Hfuel.
  unfold HasNext, GroupBindingIterator_HasNext. simpl.
  rewrite decide_False by done.
  assert (Hfind : ∀ k f idx nodes,
    idx + k = length (items g) → k < f →
    find_item (new_ItemBindingIterator ExploreItem fuel) f
      (mkGroupBindingIterator id p (length (groups s)) idx None)
      (mkState (groups s) (rules s) nodes (explore_calls s))
    = Ok (mkGroupBindingIterator id p (length (groups s)) (length (items g)) None)
         (mkState (groups s) (rules s)
            (nodes ++ ((λ item, mkOpPlanNode item []) <$> drop idx (items g)))
            (explore_calls s))).
  { induction k as [|k IH]; intros f idx nodes Hk Hf;
      (destruct f as [|f]; [lia|]); cbn [find_item].
    - erewrite M_bind_Ok by (by apply read_target_group_Ok). simpl.
      rewrite decide_False by lia. rewrite drop_ge by lia. simpl.
      rewrite app_nil_r. unfold mret, M_ret. do 2 f_equal. lia.
    - erewrite M_bind_Ok by (by apply read_target_group_Ok). simpl.
      rewrite decide_True by lia.
      destruct (lookup_lt_is_Some_2 (items g) idx) as [item Hitem]; [lia|].
      assert (Hmis : type item ≠ Type_ p
                     ∨ length (GetChildren item) ≠ length (Children p)).
      { rewrite Forall_forall in Hall. apply Hall.
        by eapply list_elem_of_lookup_2. }
      set (s1 := mkState (groups s) (rules s) (nodes ++ [mkOpPlanNode item []])
                   (explore_calls s)).
      set (item_it := mkItemBindingIterator id idx p true false (length nodes) [] []).
      assert (Hnew : new_ItemBindingIterator ExploreItem fuel id idx p
                       (mkState (groups s) (rules s) nodes (explore_calls s))
                     = Ok item_it s1).
      { destruct fuel as [|fuel']; [lia|]. cbn [new_ItemBindingIterator].
        unfold ItemBindingIterator_new.
        erewrite M_bind_Ok by (by eapply get_item_Ok).
        erewrite M_bind_Ok by reflexivity. cbn [plan_nodes groups rules explore_calls].
        erewrite M_bind_Ok by (by eapply (get_item_Ok id idx s1 g item)).
        destruct (decide (type item ≠ Type_ p)); [done|].
        destruct (decide (length (GetChildren item) ≠ length (Children p)));
          [done|]. by destruct Hmis. }
      erewrite M_bind_Ok by exact Hnew.
      erewrite M_bind_Ok by reflexivity. simpl.
      change (set_current (S idx) None
                (mkGroupBindingIterator id p (length (groups s)) idx None))
        with (mkGroupBindingIterator id p (length (groups s)) (S idx) None).
      unfold s1. rewrite IH by lia.
      rewrite (drop_S _ _ _ Hitem). simpl. by rewrite <- app_assoc. }
  destruct s as [gs rs nodes calls]. simpl in *.
  erewrite M_bind_Ok by reflexivity. simpl.
  erewrite M_bind_Ok by (apply (Hfind (length (items g)) fuel 0 nodes); [done|lia]).
  by rewrite drop_0.
Qed.

End Optimizer.

Lemma exhausted_iterator_stays_exhausted_witness :
  ∃ it' s',
    HasNext no_rule 5 (mkGroupBindingIterator 0 filter_of_get 3 0 None)
      (initial_state S5_memo []) = Ok (false, it') s'
    ∧ HasNext no_rule 1 it' s' = Ok (false, it') s'
    ∧ Next it' s' = Fault.
Proof.
  eexists _, _. split; [vm_compute; reflexivity|].
  lazymatch goal with
  | |- HasNext _ _ ?it1 ?s1 = _ ∧ _ =>
      destruct (exhausted_iterator_stays_exhausted no_rule 5
                  (mkGroupBindingIterator 0 filter_of_get 3 0 None)
                  (initial_state S5_memo []) it1 s1) as (Hagain & Hnext & _);
        [vm_compute; reflexivity|]
  end.
  split; [apply Hagain; lia|apply Hnext; vm_compute; discriminate].
Defined.

Lemma unmatched_group_yields_nothing_witness :
  HasNext no_rule 4 (mkGroupBindingIterator 2 filter_of_get 3 0 None)
    (initial_state S5_memo [])
  = Ok (false, mkGroupBindingIterator 2 filter_of_get 3 3 None)
       (mkState (memo_of S5_memo) []
          [mkOpPlanNode (LogicalGet 10) []; mkOpPlanNode (LogicalGet 11) [];
           mkOpPlanNode (LogicalGet 12) []] []).
Proof.
  apply (unmatched_group_yields_nothing no_rule 4 2 filter_of_get
           (initial_state S5_memo [])
           (mkGroup [LogicalGet 10; LogicalGet 11; LogicalGet 12]
              [false; false; false])).
  - vm_compute; discriminate.
  - vm_compute; reflexivity.
  - repeat (constructor; [left; vm_compute; discriminate|]). constructor.
  - simpl; lia.
Defined.

End ProtocolFacts.

(** * The number of bindings *)

Module CountFacts.
Import Binding BindingScenarios OdometerFacts ItemFacts FrameFacts ExploreFacts
  IteratorFacts BindingFacts ProtocolFacts.

Lemma Pattern_ind_Forall (P : Pattern → Prop) :
  (∀ ty ps, Forall P ps → P (mkPattern ty ps)) → ∀ p, P p.
Proof.
  intros H. fix IH 1. intros [ty ps]. apply H.
  induction ps as [|q ps IHps]; constructor; [apply IH|exact IHps].
Qed.

Lemma length_bind_cons {A} (ms : list A) (acc : list (list A)) :
  length (m ← ms; (cons m) <$> acc) = length ms * length acc.
Proof.
  induction ms as [|x ms IH]; [done|].
  rewrite bind_cons, length_app, length_fmap, IH. simpl. done.
Qed.

Lemma length_cartesian {A} (lists : list (list A)) :
  length (foldr (λ (ms : list A) (acc : list (list A)), m ← ms; (cons m) <$> acc)
                [[]] lists)
  = foldr Nat.mul 1 (length <$> lists).
Proof.
  induction lists as [|ms lists IH]; [done|].
  rewrite fmap_cons. cbn [foldr]. by rewrite length_bind_cons, IH.
Qed.

Lemma matching_plans_length m p id :
  Type_ p ≠ Leaf →
  length (matching_plans m p id)
  = sum_list (item_count m p <$> default [] (items <$> m !! id)).
Proof.
  destruct p as [ty ps]. simpl. intros Hleaf.
  rewrite decide_False by done.
  induction (default [] (items <$> m !! id)) as [|item l IH]; [done|].
  rewrite bind_cons, length_app, IH, fmap_cons. cbn [sum_list sum_list_with].
  f_equal. unfold item_count. simpl.
  destruct (decide (type item = ty ∧ length (GetChildren item) = length ps));
    [|done].
  rewrite length_fmap, length_cartesian. f_equal.
  generalize (GetChildren item). clear. induction ps as [|q ps IH]; intros gs.
  - by destruct gs.
  - destruct gs as [|g gs]; simpl; [done|]. by rewrite IH.
Qed.

Lemma bounded_below (f : nat → nat) n : ∃ B, ∀ i, i < n → f i ≤ B.
Proof.
  induction n as [|n [B HB]]; [exists 0; lia|].
  exists (B + f n). intros i Hi. destruct (decide (i = n)) as [->|]; [lia|].
  specialize (HB i). lia.
Qed.

Lemma GroupBindingIterator_HasNext_exhausted_item new_item fuel id p tg idx item_it s s' it' :
  Type_ p ≠ Leaf →
  ItemBindingIterator_HasNext item_it s = Ok (false, it') s' →
  GroupBindingIterator_HasNext new_item fuel
    (mkGroupBindingIterator id p tg idx (Some item_it)) s
  = GroupBindingIterator_HasNext new_item fuel
      (mkGroupBindingIterator id p tg (S idx) None) s'.
Proof.
  intros Hleaf H. unfold GroupBindingIterator_HasNext. simpl.
  destruct (decide (Type_ p = Leaf)); [done|].
  unfold mbind, M_bind, mret, M_ret. rewrite H. reflexivity.
Qed.

Lemma GroupBindingIterator_HasNext_next_item new_item fuel id p tg idx item_it s s' it' :
  Type_ p ≠ Leaf →
  ItemBindingIterator_HasNext item_it s = Ok (true, it') s' →
  GroupBindingIterator_HasNext new_item fuel
    (mkGroupBindingIterator id p tg idx (Some item_it)) s
  = Ok (true, mkGroupBindingIterator id p tg idx (Some it')) s'.
Proof.
  intros Hleaf H. unfold GroupBindingIterator_HasNext. simpl.
  destruct (decide (Type_ p = Leaf)); [done|].
  unfold mbind, M_bind, mret, M_ret. rewrite H. reflexivity.
Qed.

Lemma GroupBindingIterator_Next_item id p tg idx item_it s :
  Type_ p ≠ Leaf →
  GroupBindingIterator_Next (mkGroupBindingIterator id p tg idx (Some item_it)) s
  = Ok (current_binding item_it, mkGroupBindingIterator id p tg idx (Some item_it)) s.
Proof.
  intros Hleaf. unfold GroupBindingIterator_Next. simpl.
  by rewrite decide_False by done.
Qed.

Lemma GroupBindingIterator_HasNext_leaf new_item fuel id p tg idx cur s :
  Type_ p = Leaf →
  GroupBindingIterator_HasNext new_item fuel (mkGroupBindingIterator id p tg idx cur) s
  = Ok (bool_decide (idx = 0), mkGroupBindingIterator id p tg idx cur) s.
Proof.
  intros Hleaf. unfold GroupBindingIterator_HasNext. simpl.
  by rewrite decide_True by done.
Qed.

Lemma GroupBindingIterator_Next_leaf id p tg idx cur s g :
  Type_ p = Leaf → groups s !! id = Some g → length (groups s) = tg →
  GroupBindingIterator_Next (mkGroupBindingIterator id p tg idx cur) s
  = Ok (length (plan_nodes s), mkGroupBindingIterator id p tg (length (items g)) cur)
       (mkState (groups s) (rules s)
          (plan_nodes s ++ [mkOpPlanNode (LeafOperator id) []])
          (explore_calls s)).
Proof.
  intros Hleaf Hg Hsize. unfold GroupBindingIterator_Next. simpl.
  rewrite decide_True by done.
  by erewrite M_bind_Ok by (by apply read_target_group_Ok).
Qed.

Lemma GroupBindingIterator_HasNext_find new_item fuel id p tg idx s :
  Type_ p ≠ Leaf →
  GroupBindingIterator_HasNext new_item fuel (mkGroupBindingIterator id p tg idx None) s
  = (it ← find_item new_item fuel (mkGroupBindingIterator id p tg idx None);
     mret (bool_decide (is_Some (current_iterator it)), it)) s.
Proof.
  intros Hleaf. unfold GroupBindingIterator_HasNext. simpl.
  by rewrite decide_False by done.
Qed.

Lemma zeros_valid (cb : list (list loc)) :
  Forall (λ l, l ≠ []) cb →
  Forall2 lt (replicate (length cb) 0) (length <$> cb).
Proof.
  induction 1 as [|l cb Hl _ IH]; simpl; constructor; [|done].
  destruct l; [done|simpl; lia].
Qed.

(** The bindings of an item iterator that is running: one per vector of
    positions that is left, all of them the node of the iterator; then the
    group iterator goes on with the next item. *)
Lemma drain_item new_item id p tg idx o : ∀ n item_it s acc fuel,
  Type_ p ≠ Leaf →
  running o item_it s →
  n = length (rest (length <$> children_bindings item_it)
                   (children_bindings_pos item_it)) →
  n < fuel →
  drain new_item fuel (mkGroupBindingIterator id p tg idx (Some item_it)) acc s
  = drain new_item (fuel - n) (mkGroupBindingIterator id p tg (S idx) None)
      (acc ++ replicate n (current_binding item_it))
      (set_node s (current_binding item_it) (mkOpPlanNode o [])).
Proof.
  induction n as [|n IH]; intros item_it s acc fuel Hleaf (Hn & Hf & Hv & Hnode) Hrest Hfuel;
    (destruct fuel as [|fuel]; [lia|]).
  - pose proof (HasNext_step item_it s o Hn Hf Hv Hnode) as Hstep.
    pose proof (incr_rest _ _ Hv) as Hincr.
    destruct (incr _ _) as [pos'|].
    { destruct Hincr as [Hr _]. rewrite Hr in Hrest. done. }
    rewrite Nat.sub_0_r, app_nil_r. cbn [drain].
    unfold mbind at 1 3. unfold M_bind at 1 3.
    by rewrite (GroupBindingIterator_HasNext_exhausted_item _ _ _ _ _ _ _ _ _ _ Hleaf Hstep).
  - pose proof (HasNext_step item_it s o Hn Hf Hv Hnode) as Hstep.
    pose proof (incr_rest _ _ Hv) as Hincr.
    destruct (incr _ _) as [pos'|]; [|by rewrite Hincr in Hrest].
    destruct Hincr as [Hr Hv']. destruct Hstep as [Hvalid Hstep].
    rewrite Hr in Hrest. simpl in Hrest. injection Hrest as Hrest.
    cbn [drain].
    erewrite M_bind_Ok
      by (by apply GroupBindingIterator_HasNext_next_item).
    simpl.
    erewrite M_bind_Ok by (by apply GroupBindingIterator_Next_item).
    simpl.
    rewrite (IH (set_children_bindings_pos pos' item_it)); [|done| |done|lia].
    + simpl. rewrite set_node_set_node, <- app_assoc. done.
    + split; [done|]. split; [done|]. split; [done|]. simpl.
      apply set_node_lookup. by eapply lookup_lt_Some.
Qed.

Lemma Forall_common_bound {A} (Q : nat → A → Prop) (l : list A) :
  Forall (λ x, ∃ N, ∀ fuel, N ≤ fuel → Q fuel x) l →
  ∃ N, ∀ fuel, N ≤ fuel → Forall (Q fuel) l.
Proof.
  induction 1 as [|x l [N HN] _ [N' HN']]; [by exists 0|].
  exists (N + N'). intros fuel Hfuel. constructor; [apply HN|apply HN']; lia.
Qed.

Section Count.

Variable ExploreItem : list Group → GroupID → nat → Rule → list Group.
Variable m : list Group.
Hypothesis Hsettled : memo_settled m.
Hypothesis Hclosed : memo_closed m.

(** What [all_bindings] does on the memo with the given fuel. *)
Local Abbreviation counts fuel q :=
  (∀ id s, groups s = m → id < length m →
     ∃ l s', all_bindings ExploreItem fuel id q s = Ok l s'
       ∧ length l = length (matching_plans m q id)
       ∧ groups s' = m ∧ rules s' = rules s
       ∧ explore_calls s' = explore_calls s).

Lemma GroupBindingIterator_new_settled fuel id p s g :
  groups s = m → m !! id = Some g → length (items g) < fuel →
  GroupBindingIterator_new ExploreItem fuel id p s
  = Ok (mkGroupBindingIterator id p (length m) 0 None) s.
Proof.
  intros Hs Hg Hf. unfold GroupBindingIterator_new.
  erewrite M_bind_Ok by reflexivity. cbn beta iota.
  erewrite M_bind_Ok by (apply get_group_Ok; by rewrite Hs).
  erewrite M_bind_Ok; [by rewrite Hs|].
  apply explore_loop_explored with g; [by rewrite Hs| |lia].
  intros j Hj. unfold memo_settled in Hsettled. rewrite Forall_forall in Hsettled.
  rewrite (Hsettled g) by (by eapply list_elem_of_lookup_2).
  by apply lookup_replicate_2.
Qed.

Lemma all_bindings_leaf fuel id p s g :
  Type_ p = Leaf → groups s = m → m !! id = Some g →
  S (length (items g)) < fuel →
  all_bindings ExploreItem fuel id p s
  = Ok [length (plan_nodes s)]
       (mkState (groups s) (rules s)
          (plan_nodes s ++ [mkOpPlanNode (LeafOperator id) []])
          (explore_calls s)).
Proof.
  intros Hleaf Hs Hg Hf. unfold all_bindings.
  erewrite M_bind_Ok by (eapply GroupBindingIterator_new_settled; [done|done|lia]).
  destruct fuel as [|[|fuel]]; [lia..|]. cbn [drain].
  erewrite M_bind_Ok by (by apply GroupBindingIterator_HasNext_leaf).
  rewrite bool_decide_eq_true_2 by done. cbn beta iota.
  erewrite M_bind_Ok
    by (apply GroupBindingIterator_Next_leaf with (g := g);
          [done|by rewrite Hs|by rewrite Hs]).
  cbn beta iota.
  erewrite M_bind_Ok by (by apply GroupBindingIterator_HasNext_leaf).
  unfold memo_closed in Hclosed. rewrite Forall_forall in Hclosed.
  destruct (Hclosed g) as [Hne _]; [by eapply list_elem_of_lookup_2|].
  rewrite bool_decide_eq_false_2 by (by destruct (items g)). done.
Qed.

Section Pattern.

Variable p : Pattern.
Hypothesis Hleaf : Type_ p ≠ Leaf.
Variable F' : nat.
Hypothesis Hab : ∀ q, q ∈ Children p → counts F' q.

Lemma bind_children_total cur : ∀ pairs i cb s,
  groups s = m → cur < length (plan_nodes s) →
  length cb = i + length pairs →
  Forall (λ gq : GroupID * Pattern, gq.1 < length m ∧ gq.2 ∈ Children p) pairs →
  ∃ (found : bool) cb' s',
    bind_children (all_bindings ExploreItem F') cur pairs i cb s
    = Ok (found, cb') s'
    ∧ groups s' = m ∧ rules s' = rules s ∧ explore_calls s' = explore_calls s
    ∧ (if found then length <$> drop i cb' = child_count m <$> pairs
       else foldr Nat.mul 1 (child_count m <$> pairs) = 0)
    ∧ length cb' = length cb ∧ take i cb' = take i cb.
Proof.
  induction pairs as [|[g q] rest IH]; intros i cb s Hs Hcur Hlen Hall.
  { exists true, cb, s. simpl. split; [done|]. split; [done|]. split; [done|].
    split; [done|]. split; [|done]. rewrite drop_ge; [done|]. simpl in Hlen. lia. }
  apply Forall_cons in Hall as [[Hg Hq] Hall]. simpl in Hg, Hq, Hlen.
  destruct (Hab q Hq g s Hs Hg) as (l & s1 & Hrun & Hl & Hs1 & Hr1 & Hc1).
  pose proof (all_bindings_keeps_nodes ExploreItem
                (new_ItemBindingIterator ExploreItem F') F' g q
                (new_ItemBindingIterator_fresh ExploreItem F') s l s1 Hrun)
    as [Hle _].
  cbn [bind_children]. erewrite M_bind_Ok by exact Hrun.
  destruct l as [|b0 l].
  - exists false, (<[i := []]> cb), s1. split; [done|]. split; [done|].
    split; [done|]. split; [done|]. split.
    { simpl. unfold child_count at 1. simpl. rewrite <- Hl. done. }
    split; [by rewrite length_insert|]. by rewrite take_insert_ge.
  - destruct (lookup_lt_is_Some_2 (plan_nodes s1) cur) as [[o ch] Hnode]; [lia|].
    erewrite M_bind_Ok by (by eapply PushChild_spec).
    destruct (IH (S i) (<[i := b0 :: l]> cb)
                (set_node s1 cur (mkOpPlanNode o (ch ++ [b0]))))
      as (found & cb' & s' & Hrun' & Hs' & Hr' & Hc' & Hfound & Hlen' & Htake');
      [done|simpl; rewrite length_insert; lia|rewrite length_insert; lia|done|].
    simpl in Hr', Hc'.
    exists found, cb', s'. split; [done|]. split; [done|].
    split; [congruence|]. split; [congruence|].
    rewrite length_insert in Hlen'.
    assert (Hi : cb' !! i = Some (b0 :: l)).
    { rewrite <- (lookup_take_lt cb' (S i) i), Htake' by lia.
      rewrite lookup_take_lt by lia. apply list_lookup_insert_eq. lia. }
    split.
    { destruct found.
      - rewrite (drop_S _ _ _ Hi), !fmap_cons, Hfound. f_equal.
        unfold child_count. simpl. by rewrite <- Hl.
      - rewrite fmap_cons. cbn [foldr]. rewrite Hfound. lia. }
    split; [done|].
    apply (f_equal (take i)) in Htake'.
    rewrite !take_take, Nat.min_l in Htake' by lia.
    rewrite Htake'. by rewrite take_insert_ge.
Qed.

Lemma new_item_total id idx s g item :
  groups s = m → m !! id = Some g → items g !! idx = Some item →
  ∃ it s1,
    new_ItemBindingIterator ExploreItem (S F') id idx p s = Ok it s1
    ∧ groups s1 = m ∧ rules s1 = rules s ∧ explore_calls s1 = explore_calls s
    ∧ first it = true
    ∧ (if has_next it
       then running item (set_first false it) s1
            ∧ children_bindings_pos it
              = replicate (length (children_bindings it)) 0
            ∧ foldr Nat.mul 1 (length <$> children_bindings it)
              = item_count m p item
       else item_count m p item = 0).
Proof.
  intros Hs Hg Hitem.
  assert (Hkeep : ∀ g p, keeps_nodes (all_bindings ExploreItem F' g p)).
  { intros g0 p0. apply all_bindings_keeps_nodes, new_ItemBindingIterator_fresh. }
  set (s0 := mkState (groups s) (rules s) (plan_nodes s ++ [mkOpPlanNode item []])
               (explore_calls s)).
  set (cur := length (plan_nodes s)).
  assert (Hrun : ∃ it s1,
    ItemBindingIterator_new (all_bindings ExploreItem F') id idx p s = Ok it s1
    ∧ groups s1 = m ∧ rules s1 = rules s ∧ explore_calls s1 = explore_calls s
    ∧ (if has_next it
       then length <$> children_bindings it
            = child_count m <$> zip (GetChildren item) (Children p)
            ∧ type item = Type_ p
            ∧ length (GetChildren item) = length (Children p)
       else item_count m p item = 0)).
  { unfold ItemBindingIterator_new.
    erewrite M_bind_Ok by (eapply get_item_Ok; [by rewrite Hs|done]).
    erewrite M_bind_Ok by reflexivity. fold s0 cur.
    erewrite M_bind_Ok by (eapply (get_item_Ok id idx s0); [by rewrite <- Hs in Hg|done]).
    destruct (decide (type item ≠ Type_ p)) as [Hty|Hty].
    { eexists _, _. split; [reflexivity|]. simpl. split; [done|]. split; [done|].
      split; [done|]. unfold item_count. rewrite decide_False; [done|]. tauto. }
    destruct (decide (length (GetChildren item) ≠ length (Children p))) as [Har|Har].
    { eexists _, _. split; [reflexivity|]. simpl. split; [done|]. split; [done|].
      split; [done|]. unfold item_count. rewrite decide_False; [done|]. tauto. }
    apply dec_stable in Hty. apply dec_stable in Har.
    destruct (bind_children_total cur (zip (GetChildren item) (Children p)) 0
                (replicate (length (GetChildren item)) []) s0)
      as (found & cb' & s1 & Hb & Hs1 & Hr1 & Hc1 & Hfound & _ & _).
    { done. }
    { unfold cur, s0. simpl. rewrite length_app. simpl. lia. }
    { rewrite length_replicate, length_zip, Har. simpl. lia. }
    { apply Forall_forall. intros [cg cp] Hin. simpl. split.
      - apply elem_of_zip_l in Hin.
        unfold memo_closed in Hclosed. rewrite Forall_forall in Hclosed.
        destruct (Hclosed g) as [_ Hitems]; [by eapply list_elem_of_lookup_2|].
        rewrite Forall_forall in Hitems.
        specialize (Hitems item (list_elem_of_lookup_2 _ _ _ Hitem)).
        rewrite Forall_forall in Hitems. by apply Hitems.
      - by apply elem_of_zip_r in Hin. }
    erewrite M_bind_Ok by exact Hb. cbn beta iota.
    eexists _, _. split; [reflexivity|]. simpl. split; [done|]. split; [done|].
    split; [done|]. destruct found.
    - rewrite drop_0 in Hfound. done.
    - unfold item_count. rewrite decide_True by done. done. }
  destruct Hrun as (it & s1 & Hnew & Hs1 & Hr1 & Hc1 & Hcount).
  exists it, s1. split; [done|]. split; [done|]. split; [done|]. split; [done|].
  destruct (ItemBindingIterator_new_inv _ _ _ _ _ _ _ Hkeep Hnew)
    as (g' & item' & Hg' & Hitem' & _ & _ & _ & Hfirst & Hcases).
  rewrite Hs, Hg in Hg'. injection Hg' as <-.
  rewrite Hitem in Hitem'. injection Hitem' as <-.
  split; [done|].
  destruct (has_next it) eqn:Hhn; [|done].
  destruct Hcount as (Hlens & Hty & Har).
  destruct Hcases as [([?|?] & _)|(_ & _ & _ & Hpos & _ & Hnode)]; [done..|].
  destruct Hnode as [Hne Hnode].
  split; [|split; [done|]].
  - split; [done|]. split; [done|]. split; [|done].
    unfold positions_valid. simpl. rewrite Hpos. by apply zeros_valid.
  - rewrite Hlens. unfold item_count. by rewrite decide_True by done.
Qed.

Lemma find_item_total id g :
  m !! id = Some g → ∀ k idx s fuel,
  groups s = m → idx + k = length (items g) → k < fuel →
  ∃ it' s',
    find_item (new_ItemBindingIterator ExploreItem (S F')) fuel
      (mkGroupBindingIterator id p (length m) idx None) s = Ok it' s'
    ∧ groups s' = m ∧ rules s' = rules s ∧ explore_calls s' = explore_calls s
    ∧ ((it' = mkGroupBindingIterator id p (length m) (length (items g)) None
        ∧ sum_list (item_count m p <$> drop idx (items g)) = 0)
       ∨ (∃ idx' item item_it,
            it' = mkGroupBindingIterator id p (length m) idx' (Some item_it)
            ∧ idx ≤ idx' ∧ items g !! idx' = Some item
            ∧ running item item_it s'
            ∧ children_bindings_pos item_it
              = replicate (length (children_bindings item_it)) 0
            ∧ foldr Nat.mul 1 (length <$> children_bindings item_it)
              = item_count m p item
            ∧ sum_list (item_count m p <$> drop idx (items g))
              = item_count m p item
                + sum_list (item_count m p <$> drop (S idx') (items g)))).
Proof.
  intros Hg k. induction k as [|k IH]; intros idx s fuel Hs Hk Hfuel;
    (destruct fuel as [|fuel]; [lia|]); cbn [find_item].
  { erewrite M_bind_Ok by (apply read_target_group_Ok; by rewrite Hs). simpl.
    rewrite decide_False by lia. eexists _, _. split; [reflexivity|].
    split; [done|]. split; [done|]. split; [done|]. left.
    split; [f_equal; lia|]. by rewrite drop_ge by lia. }
  erewrite M_bind_Ok by (apply read_target_group_Ok; by rewrite Hs). simpl.
  rewrite decide_True by lia.
  destruct (lookup_lt_is_Some_2 (items g) idx) as [item Hitem]; [lia|].
  destruct (new_item_total id idx s g item Hs Hg Hitem)
    as (it & s1 & Hnew & Hs1 & Hr1 & Hc1 & Hfirst & Hcases).
  erewrite M_bind_Ok by exact Hnew.
  rewrite (drop_S _ _ _ Hitem), fmap_cons. cbn [sum_list sum_list_with].
  destruct (has_next it) eqn:Hhn.
  - destruct Hcases as (Hrunning & Hpos & Hprod).
    erewrite M_bind_Ok.
    2:{ unfold ItemBindingIterator_HasNext. rewrite Hhn, Hfirst. reflexivity. }
    cbn beta iota. eexists _, _. split; [reflexivity|].
    split; [done|]. split; [done|]. split; [done|]. right.
    exists idx, item, (set_first false it). split; [done|]. split; [done|].
    split; [done|]. split; [done|]. split; [done|]. split; [done|]. done.
  - erewrite M_bind_Ok.
    2:{ unfold ItemBindingIterator_HasNext. rewrite Hhn. reflexivity. }
    cbn beta iota.
    change (set_current (S idx) None
              (mkGroupBindingIterator id p (length m) idx None))
      with (mkGroupBindingIterator id p (length m) (S idx) None).
    destruct (IH (S idx) s1 fuel) as (it' & s' & Hfind & Hs' & Hr' & Hc' & Hres);
      [done|lia|lia|].
    exists it', s'. split; [done|]. split; [done|]. split; [congruence|].
    split; [congruence|]. rewrite Hcases. simpl.
    destruct Hres as [?|(idx' & item' & item_it & ? & ? & ?)]; [by left|right].
    exists idx', item', item_it. split; [done|]. split; [lia|done].
Qed.

Lemma drain_total id g :
  m !! id = Some g → ∀ k idx s acc fuel,
  groups s = m → idx + k = length (items g) →
  sum_list (item_count m p <$> drop idx (items g)) + k + 1 < fuel →
  ∃ l s',
    drain (new_ItemBindingIterator ExploreItem (S F')) fuel
      (mkGroupBindingIterator id p (length m) idx None) acc s = Ok (acc ++ l) s'
    ∧ length l = sum_list (item_count m p <$> drop idx (items g))
    ∧ groups s' = m ∧ rules s' = rules s ∧ explore_calls s' = explore_calls s.
Proof.
  intros Hg k. induction k as [k IH] using lt_wf_ind.
  intros idx s acc fuel Hs Hk Hfuel. destruct fuel as [|fuel]; [lia|].
  cbn [drain].
  destruct (find_item_total id g Hg k idx s fuel Hs Hk)
    as (it' & s1 & Hfind & Hs1 & Hr1 & Hc1 & Hres); [lia|].
  erewrite M_bind_Ok.
  2:{ rewrite GroupBindingIterator_HasNext_find by done.
      erewrite M_bind_Ok by exact Hfind. reflexivity. }
  cbn beta iota.
  destruct Hres as [[-> Hsum]|(idx' & item & item_it & -> & Hle & Hitem
                               & Hrunning & Hpos & Hprod & Hsum)].
  { simpl. exists [], s1. rewrite app_nil_r. by rewrite Hsum. }
  simpl.
  erewrite M_bind_Ok by (by apply GroupBindingIterator_Next_item).
  cbn beta iota.
  pose proof Hrunning as (_ & _ & Hvalid & _).
  unfold positions_valid in Hvalid.
  pose proof (odometer_zeros _ (Forall2_lt_pos _ _ Hvalid)) as Hodo.
  rewrite length_fmap, <- Hpos in Hodo.
  pose proof (length_odometer (length <$> children_bindings item_it)) as Hlen.
  rewrite Hodo, Hprod in Hlen. simpl in Hlen.
  pose proof (lookup_lt_Some _ _ _ Hitem) as Hlt.
  rewrite (drain_item _ id p (length m) idx' item
             (length (rest (length <$> children_bindings item_it)
                           (children_bindings_pos item_it))));
    [|done|done|done|lia].
  destruct (IH (length (items g) - S idx') ltac:(lia) (S idx')
              (set_node s1 (current_binding item_it) (mkOpPlanNode item []))
              ((acc ++ [current_binding item_it])
                 ++ replicate (length (rest (length <$> children_bindings item_it)
                                           (children_bindings_pos item_it)))
                      (current_binding item_it))
              (fuel - length (rest (length <$> children_bindings item_it)
                                   (children_bindings_pos item_it))))
    as (l & s' & Hdrain & Hl & Hs' & Hr' & Hc'); [done|lia|lia|].
  simpl in Hr', Hc'.
  exists ([current_binding item_it]
            ++ replicate (length (rest (length <$> children_bindings item_it)
                                      (children_bindings_pos item_it)))
                 (current_binding item_it) ++ l), s'.
  split; [etrans; [exact Hdrain|by rewrite <- !app_assoc]|].
  split; [|split; [done|split; congruence]].
  rewrite !length_app, length_replicate, Hl, Hsum. simpl. lia.
Qed.

End Pattern.

(** With enough fuel [all_bindings] returns, for every group and every
    state over the memo. *)
Lemma all_bindings_total p : ∃ N, ∀ fuel, N ≤ fuel → counts fuel p.
Proof.
  induction p as [ty ps IH] using Pattern_ind_Forall.
  apply Forall_common_bound in IH as [Nc HNc].
  destruct (bounded_below (λ i, from_option (λ g, length (items g)) 0 (m !! i))
              (length m)) as [L HL].
  destruct (bounded_below (λ i, length (matching_plans m (mkPattern ty ps) i))
              (length m)) as [B HB].
  exists (Nc + L + B + 3). intros fuel Hfuel id s Hs Hid.
  destruct (lookup_lt_is_Some_2 m id Hid) as [g Hg].
  specialize (HL id Hid). rewrite Hg in HL. simpl in HL.
  specialize (HB id Hid).
  destruct (decide (ty = Leaf)) as [->|Hleaf].
  { erewrite all_bindings_leaf by (try done; lia).
    eexists _, _. split; [reflexivity|]. simpl. done. }
  destruct fuel as [|F']; [lia|].
  assert (Hab : ∀ q, q ∈ Children (mkPattern ty ps) → counts F' q).
  { intros q Hq. specialize (HNc F' ltac:(lia)). rewrite Forall_forall in HNc.
    by apply HNc. }
  rewrite matching_plans_length in HB |- * by done. rewrite Hg in HB |- *.
  simpl in HB |- *.
  unfold all_bindings.
  erewrite M_bind_Ok by (eapply GroupBindingIterator_new_settled; [done|done|lia]).
  destruct (drain_total (mkPattern ty ps) Hleaf F' Hab id g Hg
              (length (items g)) 0 s [] (S F'))
    as (l & s' & Hdrain & Hl & Hs' & Hr' & Hc'); [done|lia|rewrite drop_0; lia|].
  rewrite drop_0 in Hl. exists l, s'. done.
Qed.

End Count.

(** X26. On a memo that is explored, without an empty group and with the
    child groups of every item in it, the binding iterator of a group runs
    to exhaustion for every pattern: it hands out as many bindings as there
    are plan trees that match the pattern in the group, applies no rule
    and leaves the memo as it is. *)
Theorem all_bindings_count ExploreItem p s id :
  memo_settled (groups s) → memo_closed (groups s) → id < length (groups s) →
  ∃ fuel0, ∀ fuel, fuel0 ≤ fuel →
    ∃ l s',
      all_bindings ExploreItem fuel id p s = Ok l s'
      ∧ length l = length (matching_plans (groups s) p id)
      ∧ groups s' = groups s ∧ rules s' = rules s
      ∧ explore_calls s' = explore_calls s.
Proof.
  intros Hsettled Hclosed Hid.
  destruct (all_bindings_total ExploreItem (groups s) Hsettled Hclosed p)
    as [N HN].
  exists N. intros fuel Hfuel. by apply HN.
Qed.

Lemma all_bindings_count_witness :
  length <$> value_of (all_bindings filter_merge 9 0 join_of_gets
                         (explored_state S5_memo [7])) = Some 6
  ∧ ∃ fuel0, ∀ fuel, fuel0 ≤ fuel →
    ∃ l s',
      all_bindings filter_merge fuel 0 join_of_gets (explored_state S5_memo [7])
      = Ok l s'
      ∧ length l = 6
      ∧ groups s' = explored_memo S5_memo
      ∧ explore_calls s' = [].
Proof.
  split; [vm_compute; reflexivity|].
  destruct (all_bindings_count filter_merge join_of_gets
              (explored_state S5_memo [7]) 0) as [fuel0 H].
  - apply (bool_decide_unpack (memo_settled _)). vm_compute. exact I.
  - apply (bool_decide_unpack (memo_closed _)). vm_compute. exact I.
  - simpl. lia.
  - exists fuel0. intros fuel Hfuel.
    destruct (H fuel Hfuel) as (l & s' & Hrun & Hl & Hg & _ & Hc).
    exists l, s'. done.
Defined.

End CountFacts.

(** * The nodes behind the bindings *)

Module AliasFacts.
Import Binding BindingScenarios OdometerFacts ItemFacts FrameFacts ExploreFacts
  IteratorFacts BindingFacts ProtocolFacts CountFacts.

Lemma bare_frame n s s' c : frame n s s' → c < n → bare s c → bare s' c.
Proof.
  intros Hf Hc [o Ho]. exists o. by rewrite (frame_lookup _ _ _ _ Hf Hc).
Qed.

Lemma bare_lt s c : bare s c → c < length (plan_nodes s).
Proof. intros [o Ho]. by eapply lookup_lt_Some. Qed.

(** [HasNext] of an item iterator that is running. *)
Lemma ItemBindingIterator_HasNext_running o it s b it' s' :
  running o it s →
  ItemBindingIterator_HasNext it s = Ok (b, it') s' →
  frame (current_binding it) s s'
  ∧ length (plan_nodes s') = length (plan_nodes s)
  ∧ current_binding it' = current_binding it
  ∧ (if b then running o it' s' else bare s' (current_binding it)).
Proof.
  intros (Hn & Hf & Hv & Hnode) H.
  destruct (ItemBindingIterator_HasNext_frame _ _ _ _ _ (current_binding it) H)
    as (Hframe & Hlen & _ & Hcur); [done|].
  split; [done|]. split; [done|]. split; [done|].
  pose proof (HasNext_step it s o Hn Hf Hv Hnode) as Hstep.
  pose proof (lookup_lt_Some _ _ _ Hnode) as Hlt.
  destruct (incr _ _) as [pos'|].
  - destruct Hstep as [Hvalid Hstep]. rewrite Hstep in H.
    injection H as <- <- <-. split; [done|]. split; [done|]. split; [done|].
    simpl. by apply set_node_lookup.
  - rewrite Hstep in H. injection H as <- <- <-.
    exists o. by apply set_node_lookup.
Qed.

Section Optimizer.

Variable ExploreItem : list Group → GroupID → nat → Rule → list Group.
Variable F : nat.

Local Abbreviation new_item := (new_ItemBindingIterator ExploreItem F).

(** The current item iterator of a group iterator, if there is one, is
    running and its node is at or above [bound]. *)
Local Abbreviation current_running bound it s :=
  (∀ item_it, current_iterator it = Some item_it →
     ∃ o, running o item_it s ∧ bound ≤ current_binding item_it).

Lemma new_item_running id idx p s it s1 :
  new_item id idx p s = Ok it s1 →
  frame (length (plan_nodes s)) s s1
  ∧ length (plan_nodes s) ≤ current_binding it
  ∧ first it = true
  ∧ (has_next it = true → ∃ o, running o (set_first false it) s1).
Proof.
  intros H.
  destruct (new_ItemBindingIterator_fresh ExploreItem F _ _ _ _ _ _ H)
    as (Hframe & Hle & _).
  split; [done|]. split; [done|].
  destruct F as [|F']; [done|]. cbn [new_ItemBindingIterator] in H.
  apply ItemBindingIterator_new_inv in H
    as (g & item & _ & _ & _ & _ & _ & Hfirst & Hcases).
  2:{ intros g p0. apply all_bindings_keeps_nodes, new_ItemBindingIterator_fresh. }
  split; [done|]. intros Hn.
  destruct Hcases as [(_ & Hn' & _)|(_ & _ & _ & Hpos & _ & Hnode)];
    [congruence|].
  rewrite Hn in Hnode. destruct Hnode as [Hne Hnode].
  exists item. split; [done|]. split; [done|]. split; [|done].
  unfold positions_valid. simpl. rewrite Hpos. by apply zeros_valid.
Qed.

Lemma find_item_running fuel : ∀ it s it' s',
  find_item new_item fuel it s = Ok it' s' →
  current_iterator it = None →
  frame (length (plan_nodes s)) s s'
  ∧ pattern it' = pattern it
  ∧ current_running (length (plan_nodes s)) it' s'.
Proof.
  induction fuel as [|fuel IH]; intros it s it' s' H Hnone; simpl in H; [done|].
  apply M_bind_inv in H as (g & s0 & H0 & H).
  apply read_target_group_inv in H0 as (Hg & -> & Hsize).
  case_decide as Hlt.
  2:{ apply mret_inv in H as [-> ->]. split; [apply frame_refl|].
      split; [done|]. intros item_it Hc. congruence. }
  apply M_bind_inv in H as (it0 & s1 & Hnew & H).
  apply new_item_running in Hnew as (Hframe & Hle & Hfirst & Hrun).
  apply M_bind_inv in H as ([b it1] & s2 & Hhas & H).
  unfold ItemBindingIterator_HasNext in Hhas. rewrite Hfirst in Hhas.
  destruct (has_next it0) eqn:Hn; simpl in Hhas;
    apply mret_inv in Hhas as [[= -> ->] ->].
  - apply mret_inv in H as [-> ->]. split; [done|]. split; [done|].
    intros item_it [= <-]. destruct (Hrun eq_refl) as [o Ho]. by exists o.
  - apply IH in H as (Hframe' & Hp & Hcur); [|done].
    pose proof Hframe as [Hlen _].
    split; [|split; [done|]].
    + eapply frame_trans; [done|]. eapply frame_le; [|done]. done.
    + intros item_it Hc. destruct (Hcur item_it Hc) as (o & Ho & Hb).
      exists o. split; [done|]. lia.
Qed.

(** The bindings that a group iterator hands out for a pattern other than
    [Leaf] are nodes without children once the iterator is exhausted. *)
Lemma drain_bare fuel : ∀ it acc s l s' bound,
  drain new_item fuel it acc s = Ok l s' →
  Type_ (pattern it) ≠ Leaf →
  bound ≤ length (plan_nodes s) →
  current_running bound it s →
  Forall (λ c, (c < bound ∧ bare s c)
               ∨ ∃ item_it, current_iterator it = Some item_it
                            ∧ c = current_binding item_it) acc →
  Forall (bare s') l.
Proof.
  induction fuel as [|fuel IH]; intros it acc s l s' bound H Hleaf Hbound Hcur Hacc;
    simpl in H; [done|].
  apply M_bind_inv in H as ([b it1] & s1 & Hhas & H).
  (* the state of the iterator after [HasNext] *)
  assert (Hafter : ∃ bound1,
    bound1 ≤ length (plan_nodes s1) ∧ pattern it1 = pattern it
    ∧ current_running bound1 it1 s1
    ∧ b = bool_decide (is_Some (current_iterator it1))
    ∧ Forall (λ c, (c < bound1 ∧ bare s1 c)
                   ∨ ∃ item_it, current_iterator it1 = Some item_it
                                ∧ c = current_binding item_it) acc).
  { unfold GroupBindingIterator_HasNext in Hhas.
    rewrite decide_False in Hhas by done.
    apply M_bind_inv in Hhas as (ita & sa & Ha & Hhas).
    apply M_bind_inv in Hhas as (itb & sb & Hb & Hhas).
    apply mret_inv in Hhas as [[= -> ->] ->].
    destruct (current_iterator it) as [item_it|] eqn:Hc.
    - destruct (Hcur item_it eq_refl) as (o & Hrun & Hle).
      apply M_bind_inv in Ha as ([b0 item_it'] & s0 & Hitem & Ha).
      destruct (ItemBindingIterator_HasNext_running _ _ _ _ _ _ Hrun Hitem)
        as (Hframe & Hlen & Hsame & Hres).
      pose proof Hrun as (_ & _ & _ & Hnode).
      apply lookup_lt_Some in Hnode.
      destruct b0.
      + apply mret_inv in Ha as [-> ->]. simpl in Hb.
        apply mret_inv in Hb as [-> ->].
        exists bound. split; [lia|]. split; [done|]. split.
        { intros ? [= <-]. exists o. split; [done|]. lia. }
        split; [done|].
        eapply Forall_impl; [exact Hacc|]. simpl.
        intros c [[Hlt Hbare]|(? & [= <-] & ->)].
        * left. split; [done|]. eapply bare_frame; [exact Hframe|lia|done].
        * right. eexists. split; [done|]. done.
      + apply mret_inv in Ha as [-> ->]. simpl in Hb.
        apply find_item_running in Hb as (Hframe' & Hp & Hcur'); [|done].
        exists (length (plan_nodes s0)).
        destruct Hframe' as [Hlen' Htake].
        split; [done|]. split; [done|]. split; [done|]. split; [done|].
        eapply Forall_impl; [exact Hacc|]. simpl.
        intros c Hc'. left.
        assert (Hc0 : c < length (plan_nodes s0) ∧ bare s0 c).
        { destruct Hc' as [[Hlt Hbare]|(? & [= <-] & ->)].
          - split; [lia|]. eapply bare_frame; [exact Hframe|lia|done].
          - split; [lia|done]. }
        destruct Hc0 as [Hlt0 Hbare0]. split; [done|].
        eapply bare_frame; [split; [exact Hlen'|exact Htake]|done|done].
    - apply mret_inv in Ha as [-> ->]. rewrite Hc in Hb.
      apply find_item_running in Hb as (Hframe' & Hp & Hcur'); [|done].
      exists (length (plan_nodes s)).
      pose proof Hframe' as [Hlen' _].
      split; [done|]. split; [done|]. split; [done|]. split; [done|].
      eapply Forall_impl; [exact Hacc|]. simpl.
      intros c [[Hlt Hbare]|(? & [=] & _)]. left. split; [lia|].
      eapply bare_frame; [exact Hframe'|lia|done]. }
  destruct Hafter as (bound1 & Hb1 & Hp1 & Hcur1 & -> & Hacc1).
  destruct (current_iterator it1) as [item_it|] eqn:Hc1.
  - rewrite bool_decide_eq_true_2 in H by done.
    apply M_bind_inv in H as ([c it2] & s2 & Hnext & H).
    unfold GroupBindingIterator_Next in Hnext.
    rewrite decide_False in Hnext by congruence. rewrite Hc1 in Hnext.
    apply mret_inv in Hnext as [[= -> ->] ->].
    eapply (IH _ _ _ _ _ bound1); [exact H|congruence|done| |].
    + intros ? Hc. rewrite Hc1 in Hc. injection Hc as <-.
      by apply Hcur1.
    + apply Forall_app. split.
      * eapply Forall_impl; [exact Hacc1|]. simpl.
        intros c [?|(? & [= <-] & ->)]; [by left|right].
        eexists. by rewrite Hc1.
      * constructor; [|done]. right. eexists. by rewrite Hc1.
  - rewrite bool_decide_eq_false_2 in H by (by intros [? ?]).
    apply mret_inv in H as [-> ->].
    eapply Forall_impl; [exact Hacc1|]. simpl.
    intros c [[_ ?]|(? & [=] & _)]. done.
Qed.

(** The same for a [Leaf] pattern: every [Next] makes a node of its own. *)
Lemma drain_leaf_bare fuel : ∀ it acc s l s',
  drain new_item fuel it acc s = Ok l s' →
  Type_ (pattern it) = Leaf →
  Forall (bare s) acc →
  Forall (bare s') l.
Proof.
  induction fuel as [|fuel IH]; intros it acc s l s' H Hleaf Hacc;
    simpl in H; [done|].
  apply M_bind_inv in H as ([b it1] & s1 & Hhas & H).
  unfold GroupBindingIterator_HasNext in Hhas.
  rewrite decide_True in Hhas by done.
  apply mret_inv in Hhas as [[= -> ->] ->].
  destruct (bool_decide (current_item_index it = 0)).
  2:{ by apply mret_inv in H as [-> ->]. }
  apply M_bind_inv in H as ([c it2] & s2 & Hnext & H).
  unfold GroupBindingIterator_Next in Hnext.
  rewrite decide_True in Hnext by done.
  apply M_bind_inv in Hnext as (g & s0 & Hg & Hnext).
  apply read_target_group_inv in Hg as (Hg & -> & Hsize).
  apply M_bind_inv in Hnext as (c0 & s0 & Hnode & Hnext).
  apply new_OpPlanNode_inv in Hnode as [-> ->].
  apply mret_inv in Hnext as [[= -> ->] ->].
  eapply IH; [exact H|done|].
  apply Forall_app. split.
  - eapply Forall_impl; [exact Hacc|]. simpl. intros c [o Ho]. exists o.
    simpl. by apply lookup_app_l_Some.
  - constructor; [|done]. exists (LeafOperator (group_id it)). simpl.
    by rewrite lookup_app_r, Nat.sub_diag by lia.
Qed.

End Optimizer.



End AliasFacts.

(** * Insertion returns *)

Module TotalFacts.
Import Storage Scenarios StorageFacts OrderFacts InsertFacts LayoutFacts
  SampleSchemaFacts.

Lemma CopyTuple_from_total n c : ∀ tuple tg column_itr slot,
  row_group n c tg → slot < c → column_itr + length tuple ≤ n →
  ∃ tg', CopyTuple_from tg tuple column_itr slot = Some tg'
    ∧ row_group n c tg'
    ∧ tile_group_header tg' = tile_group_header tg.
Proof.
  induction tuple as [|v rest IH]; intros tg i slot Hrow Hslot Hlen.
  { by exists tg. }
  simpl in Hlen. cbn [CopyTuple_from].
  pose proof Hrow as (Hcm & Hn & Hh & Htiles).
  destruct (tiles tg) as [|tile [|? ?]] eqn:Ht; [done| |done].
  destruct Htiles as [Hrows Hcols].
  unfold LocateTileAndColumn. rewrite Hcm, lookup_row_layout.
  rewrite decide_True by lia. simpl.
  destruct (lookup_lt_is_Some_2 (tile_data tile) slot) as [row Hr]; [lia|].
  assert (Hrowlen : length row = n).
  { rewrite Forall_forall in Hcols. apply Hcols. by eapply list_elem_of_lookup_2. }
  unfold TileGroup_SetValue, GetTile, Tile_SetValue. rewrite Ht. simpl.
  rewrite Hr. simpl. rewrite decide_True by lia. simpl.
  match goal with |- context [CopyTuple_from ?tg1 rest (S i) slot] =>
    destruct (IH tg1 (S i) slot) as (tg' & Hcopy & Hrow' & Hhead); [|done|lia|]
  end.
  { split; [done|]. split; [done|]. split; [done|]. simpl. rewrite Ht. simpl.
    split; [by rewrite length_insert|].
    apply Forall_insert; [done|]. by rewrite length_insert. }
  exists tg'. done.
Qed.

Lemma TileGroup_InsertTuple_total n c tg tuple :
  row_group n c tg → length tuple = n →
  ∃ r tg', TileGroup_InsertTuple tg tuple = Some (r, tg')
    ∧ row_group n c tg'
    ∧ (if decide (GetNextTupleSlot tg < c) then r = Some (GetNextTupleSlot tg)
       else r = None ∧ tg' = tg).
Proof.
  intros Hrow Hlen. unfold TileGroup_InsertTuple, GetNextEmptyTupleSlot, GetNextTupleSlot.
  pose proof Hrow as (Hcm & Hn & Hh & Htiles). rewrite Hh.
  destruct (decide (next_tuple_slot (tile_group_header tg) < c)) as [Hlt|Hge].
  - match goal with |- context [CopyTuple_from ?tg1 tuple 0 ?slot] =>
      destruct (CopyTuple_from_total n c tuple tg1 0 slot)
        as (tg' & Hcopy & Hrow' & _); [done|done|lia|]
    end.
    rewrite Hcopy. simpl. by exists (Some (next_tuple_slot (tile_group_header tg))), tg'.
  - by exists None, tg.
Qed.

(** The tiles that [GetTileGroupWithLayout] makes for the row layout. *)
Lemma foldl_tile_column_map n :
  foldl (λ (acc : gmap (nat * nat) nat) (entry : nat * (nat * nat)),
           <[entry.2 := entry.1]> acc)
        ∅ ((λ k, (k, (0, k))) <$> seq 0 n)
  = list_to_map ((λ k, ((0, k), k)) <$> seq 0 n).
Proof.
  induction n as [|n IH]; [done|].
  rewrite seq_S, !fmap_app, foldl_app, IH. simpl.
  rewrite list_to_map_snoc; [done|].
  rewrite <- list_fmap_compose. intros (k & Hk & Hin)%list_elem_of_fmap.
  apply elem_of_seq in Hin. simpl in Hk. injection Hk as ->. lia.
Qed.

Lemma sorted_pair_entries_row n :
  sorted_pair_entries
    (list_to_map ((λ k, ((0, k), k)) <$> seq 0 n) : gmap (nat * nat) nat)
  = (λ k, ((0, k), k)) <$> seq 0 n.
Proof.
  apply sorted_pair_entries_eq.
  - generalize 0 at 2. induction n as [|n IH]; intros j; simpl; [constructor|].
    constructor; [apply IH|]. apply Forall_forall.
    intros x (k & -> & Hk)%list_elem_of_fmap. apply elem_of_seq in Hk.
    unfold pair_le. simpl. right. lia.
  - symmetry. apply map_to_list_to_map. rewrite <- list_fmap_compose.
    apply NoDup_fmap_2; [|apply NoDup_seq]. intros x y [=]. done.
Qed.

Lemma foldl_tile_schemas (sch : list Column) n :
  n ≤ length sch →
  foldl (λ (acc : option (gmap nat (list Column))) (entry : (nat * nat) * nat),
           m ← acc;
           c ← sch !! entry.2;
           Some (<[entry.1.1 := default [] (m !! entry.1.1) ++ [c]]> m))
        (Some ∅) ((λ k, ((0, k), k)) <$> seq 0 n)
  = Some (if decide (n = 0) then ∅ else <[0 := take n sch]> ∅).
Proof.
  induction n as [|n IH]; intros Hn; [done|].
  rewrite seq_S, fmap_app, foldl_app, IH by lia. simpl.
  destruct (lookup_lt_is_Some_2 sch n) as [col Hcol]; [lia|].
  unfold Schema in *. rewrite Hcol. simpl. rewrite (take_S_r _ _ _ Hcol). f_equal.
  destruct (decide (n = 0)) as [->|].
  - by rewrite lookup_empty.
  - rewrite lookup_insert_eq. simpl. by rewrite insert_insert_eq.
Qed.

Lemma GetTileGroupWithLayout_row w :
  schema (table w) ≠ [] →
  ∃ tg w',
    GetTileGroupWithLayout w (row_layout (length (schema (table w)))) = Some (tg, w')
    ∧ row_group (length (schema (table w))) (tuples_per_tilegroup (table w)) tg
    ∧ GetNextTupleSlot tg = 0.
Proof.
  intros Hne. unfold GetTileGroupWithLayout. simpl.
  unfold build_tile_column_map, row_layout.
  rewrite sorted_entries_seq, foldl_tile_column_map.
  unfold build_tile_schemas. rewrite sorted_pair_entries_row.
  rewrite foldl_tile_schemas by done.
  rewrite decide_False by (by destruct (schema (table w))).
  simpl. rewrite firstn_all.
  change (<[0 := schema (table w)]> ∅ : gmap nat (list Column))
    with (list_to_map [(0, schema (table w))] : gmap nat (list Column)).
  rewrite sorted_entries_list_to_map by (repeat constructor).
  eexists _, _. split; [reflexivity|]. split; [|done].
  split; [done|]. split; [done|]. split; [done|]. simpl.
  split; [by rewrite length_replicate|].
  apply Forall_replicate. by rewrite length_replicate.
Qed.

Lemma row_table_last w :
  row_table w →
  ∃ id tg,
    tile_groups (table w) !! (GetTileGroupCount (table w) - 1) = Some id
    ∧ 0 < GetTileGroupCount (table w)
    ∧ Manager_GetTileGroup id (manager w) = Some tg
    ∧ row_group (length (schema (table w))) (tuples_per_tilegroup (table w)) tg.
Proof.
  intros (_ & _ & _ & Hlast). unfold GetTileGroupCount.
  rewrite last_lookup in Hlast.
  destruct (tile_groups (table w) !! pred (length (tile_groups (table w))))
    as [id|] eqn:Hid; [|done].
  simpl in Hlast.
  destruct (Manager_GetTileGroup id (manager w)) as [tg|] eqn:Htg; [|done].
  exists id, tg. apply lookup_lt_Some in Hid as Hlt.
  replace (length (tile_groups (table w)) - 1)
    with (pred (length (tile_groups (table w)))) by lia.
  split; [done|]. split; [lia|done].
Qed.

Section Configuration.

Variable peloton_layout_mode : LayoutType.
Variable peloton_fsm : bool.
Variable hyadapt_column_map : nat → gmap nat (nat * nat).

Local Abbreviation AddDefaultTileGroup :=
  (AddDefaultTileGroup peloton_layout_mode peloton_fsm hyadapt_column_map).
Local Abbreviation GetTupleSlot_loop :=
  (GetTupleSlot_loop peloton_layout_mode peloton_fsm hyadapt_column_map).
Local Abbreviation GetTupleSlot :=
  (GetTupleSlot peloton_layout_mode peloton_fsm hyadapt_column_map).
Local Abbreviation InsertTuple :=
  (InsertTuple peloton_layout_mode peloton_fsm hyadapt_column_map).

Lemma GetTupleSlot_loop_S fuel tuple w :
  GetTupleSlot_loop (S fuel) tuple w
  = if decide (0 < GetTileGroupCount (table w)) then
      let tile_group_offset := GetTileGroupCount (table w) - 1 in
      key ← tile_groups (table w) !! tile_group_offset;
      tile_group ← GetTileGroup w tile_group_offset;
      '(tuple_slot, tile_group) ← TileGroup_InsertTuple tile_group tuple;
      let w := with_manager (Manager_AddTileGroup key tile_group) w in
      let tg_id := GetTileGroupId tile_group in
      match tuple_slot with
      | None =>
          '(_, w) ← AddDefaultTileGroup w;
          GetTupleSlot_loop fuel tuple w
      | Some slot => Some (mkItemPointer tg_id slot, w)
      end
    else None.
Proof. done. Qed.

(** An iteration of the loop of [GetTupleSlot] when the last tile group has
    a slot left. *)
Lemma GetTupleSlot_loop_room fuel tuple w id tg :
  row_table w → length tuple = length (schema (table w)) →
  tile_groups (table w) !! (GetTileGroupCount (table w) - 1) = Some id →
  Manager_GetTileGroup id (manager w) = Some tg →
  GetNextTupleSlot tg < tuples_per_tilegroup (table w) →
  ∃ w' tg',
    GetTupleSlot_loop (S fuel) tuple w
    = Some (mkItemPointer (GetTileGroupId tg) (GetNextTupleSlot tg), w')
    ∧ row_table w'
    ∧ tile_groups (table w') = tile_groups (table w)
    ∧ oid (manager w') = oid (manager w)
    ∧ Manager_GetTileGroup id (manager w') = Some tg'
    ∧ GetNextTupleSlot tg' = S (GetNextTupleSlot tg).
Proof.
  intros Hrow Hlen Hid Htg Hroom.
  destruct (row_table_last w Hrow) as (id' & tg' & Hid' & Hpos & Htg' & Hgroup).
  rewrite Hid in Hid'. injection Hid' as <-.
  rewrite Htg in Htg'. injection Htg' as <-.
  destruct (TileGroup_InsertTuple_total _ _ tg tuple Hgroup Hlen)
    as (r & tg1 & Hins & Hgroup1 & Hr).
  rewrite decide_True in Hr by done. subst r.
  pose proof (TileGroup_InsertTuple_spec _ _ _ _ Hins)
    as (_ & Htgid & _ & _ & _ & _ & Hnext).
  cbn [Storage.GetTupleSlot_loop]. rewrite decide_True by done.
  rewrite Hid. simpl. unfold GetTileGroup, GetTileGroupById. rewrite Hid. simpl.
  rewrite Htg. simpl. rewrite Hins. simpl.
  eexists _, tg1. split; [unfold GetTileGroupId; by rewrite Htgid|].
  destruct Hrow as (Hadapt & Hsch & Hcap & Hlast).
  split.
  { split; [done|]. split; [done|]. split; [done|]. simpl.
    rewrite last_lookup.
    replace (pred (length (tile_groups (table w))))
      with (GetTileGroupCount (table w) - 1) by (unfold GetTileGroupCount; lia).
    rewrite Hid. simpl. unfold Manager_GetTileGroup. simpl.
    by rewrite lookup_insert_eq. }
  split; [done|]. split; [done|]. split; [|done].
  unfold Manager_GetTileGroup. simpl. by rewrite lookup_insert_eq.
Qed.

(** Two iterations of the loop of [GetTupleSlot] when the last tile group is
    full: a tile group is added under the next oid and takes the tuple. *)
Lemma GetTupleSlot_loop_full fuel tuple w id tg :
  row_table w → length tuple = length (schema (table w)) →
  tile_groups (table w) !! (GetTileGroupCount (table w) - 1) = Some id →
  Manager_GetTileGroup id (manager w) = Some tg →
  ¬ GetNextTupleSlot tg < tuples_per_tilegroup (table w) →
  ∃ w' tg',
    GetTupleSlot_loop (S (S fuel)) tuple w
    = Some (mkItemPointer (S (oid (manager w))) 0, w')
    ∧ row_table w'
    ∧ tile_groups (table w') = tile_groups (table w) ++ [S (oid (manager w))]
    ∧ oid (manager w') = S (oid (manager w))
    ∧ Manager_GetTileGroup (S (oid (manager w))) (manager w') = Some tg'
    ∧ GetNextTupleSlot tg' = 1.
Proof.
  intros Hrow Hlen Hid Htg Hfull.
  destruct (row_table_last w Hrow) as (id' & tg0 & Hid' & Hpos & Htg' & Hgroup).
  rewrite Hid in Hid'. injection Hid' as <-.
  rewrite Htg in Htg'. injection Htg' as <-.
  destruct (TileGroup_InsertTuple_total _ _ tg tuple Hgroup Hlen)
    as (r & tg1 & Hins & _ & Hr).
  rewrite decide_False in Hr by done. destruct Hr as [-> ->].
  pose proof Hrow as (Hadapt & Hsch & Hcap & _).
  pose proof Hgroup as (_ & Hslots & Hhead & _).
  set (w1 := with_manager (Manager_AddTileGroup id tg) w).
  destruct (GetTileGroupWithLayout_row w1) as (new & w2 & Hnew & Hgroup2 & Hnext2);
    [done|].
  pose proof (GetTileGroupWithLayout_spec _ _ _ _ Hnew)
    as (Htab2 & Hloc2 & Hoid2 & Hnewid & _).
  change (oid (manager w1)) with (oid (manager w)) in Hoid2, Hnewid.
  set (w3 := register_tile_group new w2).
  assert (Hadd : AddDefaultTileGroup w1 = Some (Some (GetTileGroupId new), w3)).
  { unfold Storage.AddDefaultTileGroup, GetTileGroupLayout.
    change (table w1) with (table w). rewrite Hadapt.
    change (schema (table w)) with (schema (table w1)). rewrite Hnew. simpl.
    assert (Hmatch : ∀ (A : Type) (a b : A),
              match tile_groups (table w2) with [] => a | _ :: _ => b end = b).
    { intros A a b. rewrite Htab2. change (table w1) with (table w).
      clear -Hpos. unfold GetTileGroupCount in Hpos.
      destruct (tile_groups (table w)); [simpl in Hpos; lia|done]. }
    rewrite Hmatch.
    unfold GetTileGroup, GetTileGroupById, Manager_GetTileGroup.
    rewrite Htab2. change (table w1) with (table w). rewrite Hid. simpl.
    rewrite Hloc2. simpl. rewrite lookup_insert_eq. simpl.
    unfold GetAllocatedTupleCount. rewrite Hslots.
    by rewrite decide_False by done. }
  assert (Hrow3 : row_table w3).
  { unfold w3, register_tile_group. split; [simpl; by rewrite Htab2|].
    split; [simpl; by rewrite Htab2|]. split; [simpl; by rewrite Htab2|].
    simpl. rewrite last_snoc. simpl. unfold Manager_GetTileGroup. simpl.
    rewrite lookup_insert_eq, Htab2. done. }
  destruct (GetTupleSlot_loop_room fuel tuple w3 (GetTileGroupId new) new)
    as (w' & tg' & Hrun & Hrow' & Hgroups' & Hoid' & Hget' & Hnext'); [done| | | | |].
  { unfold w3, register_tile_group. simpl. by rewrite Htab2. }
  { unfold w3, register_tile_group, GetTileGroupCount. simpl.
    rewrite length_app. simpl.
    replace (length (tile_groups (table w2)) + 1 - 1)
      with (length (tile_groups (table w2)) + 0) by lia.
    by rewrite lookup_app_r, Nat.add_0_r, Nat.sub_diag by lia. }
  { unfold w3, register_tile_group, Manager_GetTileGroup. simpl.
    by rewrite lookup_insert_eq. }
  { unfold w3, register_tile_group. simpl. rewrite Htab2, Hnext2. done. }
  unfold GetTileGroupId in Hrun, Hget'. rewrite Hnewid in Hrun, Hget'.
  rewrite Hnext2 in Hrun, Hnext'.
  exists w', tg'. split.
  { assert (Hget : GetTileGroup w (GetTileGroupCount (table w) - 1) = Some tg).
    { unfold GetTileGroup, GetTileGroupById. rewrite Hid. simpl. done. }
    rewrite GetTupleSlot_loop_S. cbv zeta. rewrite decide_True by done.
    rewrite Hid. cbn [mbind option_bind].
    rewrite Hget. cbn [mbind option_bind]. rewrite Hins. cbn [mbind option_bind].
    fold w1. rewrite Hadd. cbn [mbind option_bind]. exact Hrun. }
  split; [done|]. split.
  { rewrite Hgroups'. unfold w3, register_tile_group, GetTileGroupId. simpl.
    by rewrite Htab2, Hnewid. }
  split; [|done]. rewrite Hoid'. unfold w3, register_tile_group. simpl. done.
Qed.

(** The loop of [GetTupleSlot] is left in its first or in its second
    iteration. *)
Lemma GetTupleSlot_loop_total fuel tuple w :
  row_table w → length tuple = length (schema (table w)) → 2 ≤ fuel →
  ∃ loc w', GetTupleSlot_loop fuel tuple w = Some (loc, w') ∧ row_table w'.
Proof.
  intros Hrow Hlen Hfuel.
  destruct (row_table_last w Hrow) as (id & tg & Hid & Hpos & Htg & Hgroup).
  destruct fuel as [|[|fuel]]; [lia..|].
  destruct (decide (GetNextTupleSlot tg < tuples_per_tilegroup (table w)))
    as [Hroom|Hfull].
  - destruct (GetTupleSlot_loop_room (S fuel) tuple w id tg)
      as (w' & ? & Hrun & Hrow' & _); [done..|]. by eexists _, _.
  - destruct (GetTupleSlot_loop_full fuel tuple w id tg)
      as (w' & ? & Hrun & Hrow' & _); [done..|]. by eexists _, _.
Qed.

Lemma BuildSampleSchema_total (sch : Schema) :
  is_Some (BuildSampleSchema sch (build_inline_column_map sch 0 0)).
Proof.
  unfold BuildSampleSchema. rewrite build_inline_column_map_list.
  destruct (inline_columns_spec sch 0 0) as (_ & Hs & _).
  rewrite sorted_entries_list_to_map by done.
  destruct (BuildSampleSchema_fold sch sch [] 0 ∅ [] eq_refl) as (scm & Hfold & _).
  simpl in Hfold. eexists. exact Hfold.
Qed.

(** X28. The constructor of a table that is not adaptive returns, for
    every schema with a column and every positive capacity of the tile
    groups: the table has one tile group, empty and of the row layout,
    registered in the catalog under the next oid. *)
Theorem constructor_returns sch name db_oid tbl_oid tuples_per_tg m :
  sch ≠ [] → 0 < tuples_per_tg →
  ∃ w,
    DataTable_new peloton_layout_mode peloton_fsm hyadapt_column_map
      sch name db_oid tbl_oid tuples_per_tg false m = Some w
    ∧ row_table w
    ∧ tile_groups (table w) = [S (oid m)]
    ∧ oid (manager w) = S (oid m)
    ∧ next_slots w = Some [0]
    ∧ ∀ id, id ≠ S (oid m) →
        Manager_GetTileGroup id (manager w) = Manager_GetTileGroup id m.
Proof.
  intros Hsch Hcap. unfold DataTable_new.
  destruct (BuildSampleSchema_total sch) as [[scm ssl] Hb]. rewrite Hb. simpl.
  match goal with
  | |- context [Storage.AddDefaultTileGroup _ _ _ ?w0] => set (w := w0)
  end.
  destruct (GetTileGroupWithLayout_row w) as (tg & w1 & Hnew & Hgroup & Hnext);
    [done|].
  pose proof (GetTileGroupWithLayout_spec _ _ _ _ Hnew)
    as (Htab & Hloc & Hoid & Hid & _).
  assert (Hadd : Storage.AddDefaultTileGroup peloton_layout_mode peloton_fsm
                   hyadapt_column_map w
                 = Some (Some (GetTileGroupId tg), register_tile_group tg w1)).
  { unfold Storage.AddDefaultTileGroup, GetTileGroupLayout.
    change (adapt_table (table w)) with false. cbv iota.
    rewrite Hnew. simpl. by rewrite Htab. }
  rewrite Hadd. simpl. eexists. split; [reflexivity|].
  unfold register_tile_group, GetTileGroupId. rewrite Hid.
  split.
  { split; [simpl; by rewrite Htab|]. split; [simpl; by rewrite Htab|].
    split; [simpl; by rewrite Htab|]. simpl. rewrite Htab. simpl.
    unfold Manager_GetTileGroup. simpl. by rewrite lookup_insert_eq. }
  split; [simpl; by rewrite Htab|]. split; [simpl; by rewrite Hoid|].
  split.
  { unfold next_slots, GetTileGroupById, Manager_GetTileGroup. simpl.
    rewrite Htab. simpl. rewrite lookup_insert_eq. simpl. by rewrite Hnext. }
  intros id Hne. unfold Manager_GetTileGroup. simpl.
  rewrite lookup_insert_ne by done. by rewrite Hloc.
Qed.

(** X29. In a table that is not adaptive, whose last tile group is in the
    catalog with the row layout, [InsertTuple] returns for every tuple
    that has the arity of the schema and passes the NOT NULL check, when
    the indexed columns are columns of the tuple: the loop of
    [GetTupleSlot] is left in its first iteration, or in its second one
    after a tile group has been added, with a slot claimed, and the result
    is the location of that slot, unless the id of its tile group is
    [INVALID_OID]: then it is [INVALID_ITEMPOINTER].  The table is such a
    table again afterwards. *)
Theorem insert_tuple_returns fuel tuple w :
  row_table w →
  CheckNulls (table w) tuple = Some true →
  Forall (λ ix, Forall (λ c, c < length tuple) (indexed_columns ix))
         (indexes (table w)) →
  2 ≤ fuel →
  ∃ loc w',
    InsertTuple fuel tuple w
    = Some (if is_INVALID_OID (block loc) then None else Some loc, w')
    ∧ (∃ w1, GetTupleSlot_loop fuel tuple w = Some (loc, w1))
    ∧ row_table w'.
Proof.
  intros Hrow Hnull Hix Hfuel.
  assert (Hlen : length tuple = length (schema (table w))).
  { unfold CheckNulls in Hnull. by case_decide. }
  destruct (GetTupleSlot_loop_total fuel tuple w Hrow Hlen Hfuel)
    as (loc & w1 & Hloop & Hrow1).
  pose proof (GetTupleSlot_loop_table _ _ _ _ _ _ _ _ Hloop) as Htab.
  assert (Hixs : indexes (table w1) = indexes (table w)) by (by rewrite Htab).
  assert (Hkeys : is_Some (mapM (λ ix : Index,
                      key ← SetFromTuple tuple (indexed_columns ix);
                      Some (InsertEntry key loc ix)) (indexes (table w1)))).
  { apply mapM_is_Some. rewrite Hixs. eapply Forall_impl; [exact Hix|].
    intros ix Hcols. simpl.
    assert (Hkey : is_Some (SetFromTuple tuple (indexed_columns ix))).
    { apply mapM_is_Some. eapply Forall_impl; [exact Hcols|].
      intros c Hc. simpl. by apply lookup_lt_is_Some_2. }
    destruct Hkey as [key ->]. by eexists. }
  destruct Hkeys as [ixs Hkeys].
  unfold Storage.InsertTuple, Storage.GetTupleSlot, CheckConstraints.
  rewrite Hnull, Hloop. simpl. unfold InsertInIndexes. rewrite Hkeys. simpl.
  exists loc.
  destruct (is_INVALID_OID (block loc)).
  { exists w1. split; [done|]. split; [by exists w1|done]. }
  eexists. split; [reflexivity|]. split; [by exists w1|].
  destruct Hrow1 as (Hadapt & Hsch & Hcap & Hlast).
  split; [done|]. split; [done|]. split; [done|]. done.
Qed.

(** X30. When the last tile group is full, the tuple goes to slot 0 of a
    new tile group whose id is the next value of the oid counter, taken
    without a look at the catalog: a tile group that the catalog holds
    under that id, such as one that [AddTileGroupWithOid] has registered
    ahead of the counter, is replaced by the new one, which holds the new
    tuple only.  The result is that location, unless the next value of the
    counter is [INVALID_OID]: then it is [INVALID_ITEMPOINTER]. *)
Theorem full_tile_group_takes_the_next_oid fuel tuple w id tg :
  row_table w →
  CheckNulls (table w) tuple = Some true →
  Forall (λ ix, Forall (λ c, c < length tuple) (indexed_columns ix))
         (indexes (table w)) →
  2 ≤ fuel →
  last (tile_groups (table w)) = Some id →
  Manager_GetTileGroup id (manager w) = Some tg →
  GetNextTupleSlot tg = tuples_per_tilegroup (table w) →
  ∃ w' tg',
    InsertTuple fuel tuple w
    = Some (if is_INVALID_OID (S (oid (manager w))) then None
            else Some (mkItemPointer (S (oid (manager w))) 0), w')
    ∧ tile_groups (table w') = tile_groups (table w) ++ [S (oid (manager w))]
    ∧ oid (manager w') = S (oid (manager w))
    ∧ Manager_GetTileGroup (S (oid (manager w))) (manager w') = Some tg'
    ∧ GetNextTupleSlot tg' = 1.
Proof.
  intros Hrow Hnull Hix Hfuel Hlast Htg Hfull.
  assert (Hlen : length tuple = length (schema (table w))).
  { unfold CheckNulls in Hnull. by case_decide. }
  destruct fuel as [|[|fuel]]; [lia..|].
  assert (Hid : tile_groups (table w) !! (GetTileGroupCount (table w) - 1) = Some id).
  { rewrite last_lookup in Hlast. unfold GetTileGroupCount.
    by replace (length (tile_groups (table w)) - 1)
      with (pred (length (tile_groups (table w)))) by lia. }
  destruct (GetTupleSlot_loop_full fuel tuple w id tg)
    as (w1 & tg' & Hloop & Hrow1 & Hgroups & Hoid & Hget & Hnext);
    [done|done|done|done|lia|].
  pose proof (GetTupleSlot_loop_table _ _ _ _ _ _ _ _ Hloop) as Htab.
  assert (Hixs : indexes (table w1) = indexes (table w)) by (by rewrite Htab).
  assert (Hkeys : is_Some (mapM (λ ix : Index,
                      key ← SetFromTuple tuple (indexed_columns ix);
                      Some (InsertEntry key (mkItemPointer (S (oid (manager w))) 0) ix))
                    (indexes (table w1)))).
  { apply mapM_is_Some. rewrite Hixs. eapply Forall_impl; [exact Hix|].
    intros ix Hcols. simpl.
    assert (Hkey : is_Some (SetFromTuple tuple (indexed_columns ix))).
    { apply mapM_is_Some. eapply Forall_impl; [exact Hcols|].
      intros c Hc. simpl. by apply lookup_lt_is_Some_2. }
    destruct Hkey as [key ->]. by eexists. }
  destruct Hkeys as [ixs Hkeys].
  unfold Storage.InsertTuple, Storage.GetTupleSlot, CheckConstraints.
  rewrite Hnull, Hloop. simpl. unfold InsertInIndexes. rewrite Hkeys. simpl.
  destruct (is_INVALID_OID (S (oid (manager w)))).
  { exists w1, tg'. split; [reflexivity|]. done. }
  eexists _, tg'. split; [reflexivity|]. done.
Qed.

(** The id [INVALID_OID] is an id that [AddTileGroupWithOid] accepts. *)
Lemma is_INVALID_OID_to_nat : is_INVALID_OID (N.to_nat INVALID_OID) = true.
Proof. unfold is_INVALID_OID. rewrite N2Nat.id. apply N.eqb_refl. Qed.

Lemma AddTileGroupWithOid_row_table w id r w1 :
  row_table w → id ≠ 0 →
  AddTileGroupWithOid w id = Some (r, w1) →
  row_table w1
  ∧ last (tile_groups (table w1)) = Some id
  ∧ indexes (table w1) = indexes (table w)
  ∧ schema (table w1) = schema (table w)
  ∧ ∃ tg, Manager_GetTileGroup id (manager w1) = Some tg
      ∧ GetTileGroupId tg = id ∧ GetNextTupleSlot tg = 0.
Proof.
  intros (Hadapt & Hsch & Hcap & _) Hid. unfold AddTileGroupWithOid.
  rewrite decide_False by done. intros [= <- <-].
  set (tg := TileGroupFactory_GetTileGroup _ _ _ _ _ _).
  assert (Hget : Manager_GetTileGroup id (manager (register_tile_group tg w))
                 = Some tg).
  { unfold Manager_GetTileGroup, register_tile_group. simpl.
    apply lookup_insert_eq. }
  assert (Hlast : last (tile_groups (table (register_tile_group tg w))) = Some id).
  { unfold register_tile_group. simpl. by rewrite last_snoc. }
  split; [|split; [done|split; [done|split; [done|by exists tg]]]].
  split; [done|]. split; [done|]. split; [done|].
  rewrite Hlast. cbn [mbind option_bind]. rewrite Hget.
  split; [done|]. split; [done|]. split; [done|]. simpl.
  split; [by rewrite length_replicate|].
  apply Forall_replicate. by rewrite length_replicate.
Qed.

(** The test [location.block == INVALID_OID] at work: a tile group that
    [AddTileGroupWithOid] has registered under the id [INVALID_OID] takes
    the next tuple, and [InsertTuple] returns [INVALID_ITEMPOINTER].  The
    slot is claimed; the tuple is neither given to an index nor counted. *)
Lemma insert_into_tile_group_with_invalid_oid fuel tuple w id r w1 :
  row_table w → is_INVALID_OID id = true →
  AddTileGroupWithOid w id = Some (r, w1) →
  CheckNulls (table w) tuple = Some true →
  0 < fuel →
  ∃ w2 tg,
    InsertTuple fuel tuple w1 = Some (None, w2)
    ∧ Manager_GetTileGroup id (manager w2) = Some tg
    ∧ GetNextTupleSlot tg = 1
    ∧ indexes (table w2) = indexes (table w)
    ∧ tuple_count_exact (table w2) = tuple_count_exact (table w).
Proof.
  intros Hrow Hinv Hadd Hnull Hfuel.
  assert (Hid : id ≠ 0) by (by intros ->).
  assert (Hcount : tuple_count_exact (table w1) = tuple_count_exact (table w)).
  { unfold AddTileGroupWithOid in Hadd. rewrite decide_False in Hadd by done.
    by injection Hadd as <- <-. }
  destruct (AddTileGroupWithOid_row_table w id r w1 Hrow Hid Hadd)
    as (Hrow1 & Hlast & Hix & Hsch & tg & Htg & Htgid & Hnext).
  assert (Hlen : length tuple = length (schema (table w1))).
  { rewrite Hsch. unfold CheckNulls in Hnull. by case_decide. }
  assert (Hnull1 : CheckNulls (table w1) tuple = Some true).
  { unfold CheckNulls in *. by rewrite Hsch. }
  assert (Hlook : tile_groups (table w1) !! (GetTileGroupCount (table w1) - 1)
                  = Some id).
  { rewrite last_lookup in Hlast. unfold GetTileGroupCount.
    by replace (length (tile_groups (table w1)) - 1)
      with (pred (length (tile_groups (table w1)))) by lia. }
  destruct fuel as [|fuel]; [lia|].
  destruct (GetTupleSlot_loop_room fuel tuple w1 id tg)
    as (w2 & tg' & Hloop & _ & Hgroups & _ & Hget & Hnext');
    [done|done|done|done|destruct Hrow1 as (_ & _ & ? & _); lia|].
  pose proof (GetTupleSlot_loop_table _ _ _ _ _ _ _ _ Hloop) as Htab.
  exists w2, tg'.
  unfold Storage.InsertTuple, Storage.GetTupleSlot, CheckConstraints.
  rewrite Hnull1, Hloop. simpl. rewrite Htgid, Hinv.
  split; [done|]. split; [done|]. split; [by rewrite Hnext', Hnext|].
  rewrite Htab. split; [by rewrite <- Hix|by rewrite <- Hcount].
Qed.

End Configuration.

Lemma constructor_returns_witness :
  ∃ w,
    DataTable_new LAYOUT_COLUMN false (λ _, ∅) S1_schema "S1" 1 1 2 false
      (mkManager 0 ∅) = Some w
    ∧ row_table w
    ∧ tile_groups (table w) = [1]
    ∧ next_slots w = Some [0].
Proof.
  destruct (constructor_returns LAYOUT_COLUMN false (λ _, ∅) S1_schema "S1" 1 1 2
              (mkManager 0 ∅)) as (w & Hnew & Hrow & Hgroups & _ & Hslots & _).
  - done.
  - lia.
  - by exists w.
Defined.

Lemma insert_tuple_returns_witness :
  ∃ w loc w',
    indexed_world = Some w
    ∧ next_slots w = Some [2; 2]
    ∧ InsertTuple LAYOUT_ROW false (λ _, ∅) 2 [ValInteger 9; ValInteger 9] w
      = Some (Some loc, w')
    ∧ loc = mkItemPointer 3 0
    ∧ row_table w'.
Proof.
  destruct indexed_world as [w|] eqn:Hw; [|by vm_compute in Hw].
  vm_compute in Hw. injection Hw as Hw.
  destruct (insert_tuple_returns LAYOUT_ROW false (λ _, ∅) 2
              [ValInteger 9; ValInteger 9] w) as (loc & w' & Hrun & _ & Hrow).
  - subst w. apply (bool_decide_unpack (row_table _)). vm_compute. exact I.
  - subst w. vm_compute. reflexivity.
  - subst w. repeat constructor.
  - lia.
  - exists w, loc, w'. split; [done|].
    split; [subst w; vm_compute; reflexivity|].
    destruct (is_INVALID_OID (block loc)).
    + subst w. vm_compute in Hrun. discriminate.
    + split; [exact Hrun|].
      split; [|done]. subst w. vm_compute in Hrun. by injection Hrun as <- _.
Defined.

Lemma full_tile_group_takes_the_next_oid_witness :
  ∃ w w',
    ahead_world = Some w
    ∧ tile_groups (table w) = [1; 2]
    ∧ next_slots w = Some [2; 2]
    ∧ InsertTuple LAYOUT_ROW false (λ _, ∅) 2 [ValInteger 9; ValInteger 9] w
      = Some (Some (mkItemPointer 2 0), w')
    ∧ tile_groups (table w') = [1; 2; 2]
    ∧ next_slots w' = Some [2; 1; 1].
Proof.
  destruct ahead_world as [w|] eqn:Hw; [|by vm_compute in Hw].
  vm_compute in Hw. injection Hw as Hw.
  assert (Htg : is_Some (Manager_GetTileGroup 2 (manager w)))
    by (subst w; vm_compute; eauto).
  destruct Htg as [tg Htg].
  destruct (full_tile_group_takes_the_next_oid LAYOUT_ROW false (λ _, ∅) 2
              [ValInteger 9; ValInteger 9] w 2 tg)
    as (w' & tg' & Hrun & Hgroups & _ & Hget & Hnext).
  - subst w. apply (bool_decide_unpack (row_table _)). vm_compute. exact I.
  - subst w. vm_compute. reflexivity.
  - subst w. constructor.
  - lia.
  - subst w. vm_compute. reflexivity.
  - exact Htg.
  - subst w. vm_compute in Htg. injection Htg as <-. vm_compute. reflexivity.
  - exists w, w'. split; [done|].
    split; [subst w; vm_compute; reflexivity|].
    split; [subst w; vm_compute; reflexivity|].
    assert (Hoid : oid (manager w) = 1) by (subst w; vm_compute; reflexivity).
    rewrite Hoid in Hrun, Hgroups.
    change (is_INVALID_OID 2) with false in Hrun. cbv iota in Hrun.
    split; [exact Hrun|].
    assert (Hold : tile_groups (table w) = [1; 2])
      by (subst w; vm_compute; reflexivity).
    rewrite Hold in Hgroups. split; [exact Hgroups|].
    subst w. vm_compute in Hrun. injection Hrun as <-. vm_compute. reflexivity.
Defined.

End TotalFacts.
